(** * cqlmigrate: a shallow embedding of the migration orchestrator

    The development follows the TypeScript sources:
    - [lib/Lexer.ts] and [lib/util.ts]: the CQL lexer, [canonicalizeCql]
      and [getCqlChecksum];
    - [lib/CassandraClient.ts], [lib/SavableBase.ts]: the driver wrapper;
    - [models/Lock.ts], [models/CqlFile.ts], [models/Init.ts],
      [models/Bootstrap.ts], [models/Migration.ts];
    - [Migrator.ts]: loading, the bootstrap fan-out, the round scheduler and
      the top-level life cycle. *)

From Stdlib Require Import String Ascii DecimalString.
From Stdlib Require Import List Bool Arith NArith ZArith Lia.
From Stdlib Require Import Sorted Permutation.
Import ListNotations.

Open Scope string_scope.
Open Scope list_scope.

Set Implicit Arguments.

(** ** JavaScript strings

    A JavaScript string is a sequence of UTF-16 code units; regular
    expressions without the [u] flag and the relational operators on strings
    work on code units. *)

Definition jsstring := list N.

Fixpoint js (s : string) : jsstring :=
  match s with
  | EmptyString => []
  | String a s' => N_of_ascii a :: js s'
  end.

Definition jsstring_eqb (a b : jsstring) : bool :=
  if list_eq_dec N.eq_dec a b then true else false.

(** [a < b] on strings: lexicographic on code units. *)
Fixpoint jsstring_ltb (a b : jsstring) : bool :=
  match a, b with
  | [], [] => false
  | [], _ :: _ => true
  | _ :: _, [] => false
  | x :: a', y :: b' =>
      if N.ltb x y then true
      else if N.ltb y x then false
      else jsstring_ltb a' b'
  end.

(** [Array.prototype.join]. *)
Fixpoint join (sep : jsstring) (l : list jsstring) : jsstring :=
  match l with
  | [] => []
  | [x] => x
  | x :: rest => x ++ sep ++ join sep rest
  end.

(** [String.prototype.split] with a one-character separator. *)
Fixpoint split_on (sep : N) (s : jsstring) : list jsstring :=
  match s with
  | [] => [[]]
  | c :: s' =>
      if N.eqb c sep then [] :: split_on sep s'
      else match split_on sep s' with
           | seg :: segs => (c :: seg) :: segs
           | [] => [[c]]
           end
  end.

(** *** Character classes of the regular expressions *)

Definition in_range (lo hi c : N) : bool := N.leb lo c && N.leb c hi.

(** [\s]: WhiteSpace and LineTerminator code units. *)
Definition is_space (c : N) : bool :=
  in_range 9 13 c || N.eqb c 32 || N.eqb c 160 || N.eqb c 5760
  || in_range 8192 8202 c || N.eqb c 8232 || N.eqb c 8233
  || N.eqb c 8239 || N.eqb c 8287 || N.eqb c 12288 || N.eqb c 65279.

(** [\w] is [[A-Za-z0-9_]]; [\W] is its complement. *)
Definition is_word (c : N) : bool :=
  in_range 97 122 c || in_range 65 90 c || in_range 48 57 c || N.eqb c 95.

Definition is_nonword (c : N) : bool := negb (is_word c).

(** [.] without the [s] flag: anything but a line terminator. *)
Definition is_dot (c : N) : bool :=
  negb (N.eqb c 10 || N.eqb c 13 || N.eqb c 8232 || N.eqb c 8233).

(** [[a-f0-9]] *)
Definition is_lhex (c : N) : bool := in_range 97 102 c || in_range 48 57 c.

Definition is_any (c : N) : bool := true.
Definition is_chr (x c : N) : bool := N.eqb c x.
Definition is_not (x c : N) : bool := negb (N.eqb c x).

(** ** Regular expressions with backtracking

    The patterns of [Lexer.ts] are kept as syntax trees and run by a
    backtracking matcher with the ECMAScript reading of alternation (ordered
    choice), of the greedy and of the lazy star. *)

Inductive Re : Type :=
| Cls (p : N -> bool)
| Seq (r1 r2 : Re)
| Alt (r1 r2 : Re)
| Star (r : Re)
| StarLazy (r : Re).

Definition Chr (c : N) : Re := Cls (is_chr c).
Definition Plus (r : Re) : Re := Seq r (Star r).

Fixpoint Rep (n : nat) (r : Re) : Re :=
  match n with
  | O => Star (Cls (fun _ => false))
  | S O => r
  | S n' => Seq r (Rep n' r)
  end.

(** [rmatch r s k] matches [r] at the head of [s] and hands the rest of the
    input to [k]; when [k] refuses, the matcher backtracks. An iteration of a
    star that consumes nothing is refused, as in ECMAScript; a star therefore
    iterates at most [length s] times. *)
Fixpoint rmatch (r : Re) (s : jsstring) (k : jsstring -> option jsstring)
  {struct r} : option jsstring :=
  match r with
  | Cls p =>
      match s with
      | c :: s' => if p c then k s' else None
      | [] => None
      end
  | Seq r1 r2 => rmatch r1 s (fun s1 => rmatch r2 s1 k)
  | Alt r1 r2 =>
      match rmatch r1 s k with
      | Some x => Some x
      | None => rmatch r2 s k
      end
  | Star r1 =>
      (fix loop (n : nat) (s : jsstring) {struct n} : option jsstring :=
         match n with
         | O => k s
         | S n' =>
             match rmatch r1 s (fun s1 =>
                     if Nat.ltb (length s1) (length s) then loop n' s1
                     else None) with
             | Some x => Some x
             | None => k s
             end
         end) (length s) s
  | StarLazy r1 =>
      (fix loop (n : nat) (s : jsstring) {struct n} : option jsstring :=
         match n with
         | O => k s
         | S n' =>
             match k s with
             | Some x => Some x
             | None =>
                 rmatch r1 s (fun s1 =>
                   if Nat.ltb (length s1) (length s) then loop n' s1
                   else None)
             end
         end) (length s) s
  end.

(** A sticky match at the head of [s]: the text matched, when there is one. *)
Definition exec_re (r : Re) (s : jsstring) : option jsstring :=
  match rmatch r s (fun rest => Some rest) with
  | Some rest => Some (firstn (length s - length rest) s)
  | None => None
  end.

(** ** The lexer ([lib/Lexer.ts]) *)

Module Lexer.

Inductive TokenType : Type :=
| string_ | comment | uuid | whitespace | symbol | identifierOrValue.

Definition TokenType_eqb (a b : TokenType) : bool :=
  match a, b with
  | string_, string_ | comment, comment | uuid, uuid
  | whitespace, whitespace | symbol, symbol
  | identifierOrValue, identifierOrValue => true
  | _, _ => false
  end.

Record Token : Type := mkToken { type : TokenType; value : jsstring }.

(** The token types that aren't required for reconstructing the CQL. *)
Definition optionalTokenTypes : list TokenType := [comment; whitespace].

Definition quote : N := 39.
Definition dquote : N := 34.
Definition slash : N := 47.
Definition star : N := 42.
Definition dash : N := 45.

(** [singleQuoteString]: a quote, then any number of characters other than
    the quote or of doubled quotes, then a quote. *)
Definition singleQuoteString : Re :=
  Seq (Chr quote)
      (Seq (Star (Alt (Cls (is_not quote)) (Seq (Chr quote) (Chr quote))))
           (Chr quote)).

(** [doubleQuoteString]: the same pattern with the double quote. *)
Definition doubleQuoteString : Re :=
  Seq (Chr dquote)
      (Seq (Star (Alt (Cls (is_not dquote)) (Seq (Chr dquote) (Chr dquote))))
           (Chr dquote)).

Definition stringPattern : Re := Alt singleQuoteString doubleQuoteString.

(** [blockComment]: slash, star, a lazy run of any characters ([\s\S], so
    line breaks too), star, slash. *)
Definition blockComment : Re :=
  Seq (Chr slash) (Seq (Chr star)
    (Seq (StarLazy (Cls is_any)) (Seq (Chr star) (Chr slash)))).

(** [slashComment]: two or more slashes, then the rest of the line. *)
Definition slashComment : Re :=
  Seq (Chr slash) (Seq (Plus (Chr slash)) (Star (Cls is_dot))).

(** [dashComment]: two or more dashes, then the rest of the line. *)
Definition dashComment : Re :=
  Seq (Chr dash) (Seq (Plus (Chr dash)) (Star (Cls is_dot))).

Definition commentPattern : Re :=
  Alt blockComment (Alt slashComment dashComment).

(** [uuid]: groups of 8, 4, 4, 4 and 12 characters of [[a-f0-9]], with
    dashes between. *)
Definition uuidPattern : Re :=
  Seq (Rep 8 (Cls is_lhex)) (Seq (Chr dash)
  (Seq (Rep 4 (Cls is_lhex)) (Seq (Chr dash)
  (Seq (Rep 4 (Cls is_lhex)) (Seq (Chr dash)
  (Seq (Rep 4 (Cls is_lhex)) (Seq (Chr dash)
  (Rep 12 (Cls is_lhex))))))))).

(** The rules handed to [moo.compile], in the order they are listed. moo
    joins them into one alternation of capture groups, so the first rule
    that matches at the scan position gives the token. *)
Definition rules : list (TokenType * Re) :=
  [ (string_, stringPattern);
    (comment, commentPattern);
    (uuid, uuidPattern);
    (whitespace, Plus (Cls is_space));
    (symbol, Cls is_nonword);
    (identifierOrValue, Plus (Cls is_word)) ].

Fixpoint first_rule (rs : list (TokenType * Re)) (s : jsstring)
  : option Token :=
  match rs with
  | [] => None
  | (ty, r) :: rs' =>
      match exec_re r s with
      | Some text => Some (mkToken ty text)
      | None => first_rule rs' s
      end
  end.

(** [lexer.next()] at a position that is not the end of the buffer: the
    token, or [None] where moo throws for want of a matching rule. *)
Definition next (s : jsstring) : option Token := first_rule rules s.

Definition invalid_syntax : jsstring := js "invalid syntax".

(** The scan of [getTokens]: [skip] counts the code units of the buffer that
    still belong to the token found last (moo advances its index by the
    length of the token's text). *)
Fixpoint scan (s : jsstring) (skip : nat) : jsstring + list Token :=
  match s with
  | [] => inr []
  | c :: s' =>
      match skip with
      | S n => scan s' n
      | O =>
          match next (c :: s') with
          | None => inl invalid_syntax
          | Some tok =>
              match scan s' (length (value tok) - 1) with
              | inl e => inl e
              | inr toks => inr (tok :: toks)
              end
          end
      end
  end.

Definition includes (l : list TokenType) (ty : TokenType) : bool :=
  existsb (TokenType_eqb ty) l.

(** [getTokens(cql, ignore)]: the tokens, or the error thrown. *)
Definition getTokens (cql : jsstring) (ignore : list TokenType)
  : jsstring + list Token :=
  match scan cql 0 with
  | inl e => inl e
  | inr toks => inr (filter (fun t => negb (includes ignore (type t))) toks)
  end.

Definition getRequiredTokens (cql : jsstring) : jsstring + list Token :=
  getTokens cql optionalTokenTypes.

End Lexer.

(** ** [lib/util.ts]: the canonical form *)

Definition space : jsstring := [32%N].

Definition canonicalizeCql (cql : jsstring) : jsstring + jsstring :=
  match Lexer.getRequiredTokens cql with
  | inl e => inl e
  | inr toks => inr (join space (map Lexer.value toks))
  end.

(** ** MD5 (RFC 1321) and the checksum

    [getCqlChecksum] calls Node's [crypto] module; the digest itself is the
    MD5 of RFC 1321, written out here on 32-bit words kept in [N] with the
    wrap-around explicit. *)

Module MD5.

Local Open Scope N_scope.

Definition w32 : N := 4294967296.

Definition add32 (a b : N) : N := (a + b) mod w32.

Definition not32 (a : N) : N := N.lxor a 4294967295.

Definition rotl32 (x : N) (c : N) : N :=
  N.lor (N.shiftl x c mod w32) (N.shiftr x (32 - c)).

(** The per-operation left rotations. *)
Definition shifts : list N :=
  [ 7; 12; 17; 22; 7; 12; 17; 22; 7; 12; 17; 22; 7; 12; 17; 22;
    5; 9; 14; 20; 5; 9; 14; 20; 5; 9; 14; 20; 5; 9; 14; 20;
    4; 11; 16; 23; 4; 11; 16; 23; 4; 11; 16; 23; 4; 11; 16; 23;
    6; 10; 15; 21; 6; 10; 15; 21; 6; 10; 15; 21; 6; 10; 15; 21 ].

(** The table T of RFC 1321: [T[i] = floor (2^32 * abs (sin (i + 1)))]. *)
Definition table : list N :=
  [ 0xd76aa478; 0xe8c7b756; 0x242070db; 0xc1bdceee;
    0xf57c0faf; 0x4787c62a; 0xa8304613; 0xfd469501;
    0x698098d8; 0x8b44f7af; 0xffff5bb1; 0x895cd7be;
    0x6b901122; 0xfd987193; 0xa679438e; 0x49b40821;
    0xf61e2562; 0xc040b340; 0x265e5a51; 0xe9b6c7aa;
    0xd62f105d; 0x02441453; 0xd8a1e681; 0xe7d3fbc8;
    0x21e1cde6; 0xc33707d6; 0xf4d50d87; 0x455a14ed;
    0xa9e3e905; 0xfcefa3f8; 0x676f02d9; 0x8d2a4c8a;
    0xfffa3942; 0x8771f681; 0x6d9d6122; 0xfde5380c;
    0xa4beea44; 0x4bdecfa9; 0xf6bb4b60; 0xbebfbc70;
    0x289b7ec6; 0xeaa127fa; 0xd4ef3085; 0x04881d05;
    0xd9d4d039; 0xe6db99e5; 0x1fa27cf8; 0xc4ac5665;
    0xf4292244; 0x432aff97; 0xab9423a7; 0xfc93a039;
    0x655b59c3; 0x8f0ccc92; 0xffeff47d; 0x85845dd1;
    0x6fa87e4f; 0xfe2ce6e0; 0xa3014314; 0x4e0811a1;
    0xf7537e82; 0xbd3af235; 0x2ad7d2bb; 0xeb86d391 ].

Record state : Type := mkState { sA : N; sB : N; sC : N; sD : N }.

Definition init : state :=
  mkState 0x67452301 0xefcdab89 0x98badcfe 0x10325476.

(** Little-endian bytes to a word, and back. *)
Definition word_of_bytes (b : list N) : N :=
  fold_right (fun x acc => x + 256 * acc) 0 b.

Fixpoint bytes_of_word (n : nat) (w : N) : list N :=
  match n with
  | O => []
  | S n' => (w mod 256) :: bytes_of_word n' (w / 256)
  end.

Fixpoint chunks (k : nat) (n : nat) (l : list N) : list (list N) :=
  match n with
  | O => []
  | S n' => firstn k l :: chunks k n' (skipn k l)
  end.

(** One of the 64 operations on message block [m]. *)
Definition step (m : list N) (st : state) (i : nat) : state :=
  let a := sA st in let b := sB st in let c := sC st in let d := sD st in
  let '(f, g) :=
    if Nat.ltb i 16 then (N.lor (N.land b c) (N.land (not32 b) d), i)
    else if Nat.ltb i 32 then
      (N.lor (N.land d b) (N.land (not32 d) c), (5 * i + 1) mod 16)%nat
    else if Nat.ltb i 48 then (N.lxor (N.lxor b c) d, (3 * i + 5) mod 16)%nat
    else (N.lxor c (N.lor b (not32 d)), (7 * i) mod 16)%nat in
  let f' := add32 (add32 (add32 f a) (nth i table 0)) (nth g m 0) in
  mkState d (add32 b (rotl32 f' (nth i shifts 0))) b c.

Definition block (st : state) (bytes : list N) : state :=
  let m := map word_of_bytes (chunks 4 16 bytes) in
  let st' := fold_left (step m) (seq 0 64) st in
  mkState (add32 (sA st) (sA st')) (add32 (sB st) (sB st'))
          (add32 (sC st) (sC st')) (add32 (sD st) (sD st')).

(** Padding: a one bit, zeros up to 56 modulo 64, the length in bits on 64
    bits. *)
Definition pad (msg : list N) : list N :=
  let len := length msg in
  let zeros := ((119 - len mod 64) mod 64)%nat in
  msg ++ [128] ++ repeat 0 zeros
      ++ bytes_of_word 8 ((N.of_nat len * 8) mod 18446744073709551616).

Definition digest (msg : list N) : list N :=
  let p := pad msg in
  let st := fold_left block (chunks 64 (length p / 64)%nat p) init in
  bytes_of_word 4 (sA st) ++ bytes_of_word 4 (sB st)
    ++ bytes_of_word 4 (sC st) ++ bytes_of_word 4 (sD st).

End MD5.

(** UTF-8 bytes of a string of UTF-16 code units, as Node encodes a string
    handed to [hash.update]: a surrogate pair gives one four-byte sequence, a
    lone surrogate the replacement character U+FFFD. *)
Local Open Scope N_scope.

Definition is_high_surrogate (c : N) : bool := in_range 55296 56319 c.
Definition is_low_surrogate (c : N) : bool := in_range 56320 57343 c.

Definition utf8_replacement : list N := [239; 191; 189].

Definition utf8_of_code_point (c : N) : list N :=
  if N.ltb c 128 then [c]
  else if N.ltb c 2048 then [192 + c / 64; 128 + c mod 64]
  else if N.ltb c 65536 then
    [224 + c / 4096; 128 + (c / 64) mod 64; 128 + c mod 64]
  else [240 + c / 262144; 128 + (c / 4096) mod 64;
        128 + (c / 64) mod 64; 128 + c mod 64].

Fixpoint utf8_encode (s : jsstring) : list N :=
  match s with
  | [] => []
  | c :: s' =>
      if is_high_surrogate c then
        match s' with
        | d :: s'' =>
            if is_low_surrogate d then
              utf8_of_code_point (65536 + (c - 55296) * 1024 + (d - 56320))
                ++ utf8_encode s''
            else utf8_replacement ++ utf8_encode s'
        | [] => utf8_replacement
        end
      else if is_low_surrogate c then utf8_replacement ++ utf8_encode s'
      else utf8_of_code_point c ++ utf8_encode s'
  end.

(** [digest('hex')]: two lower-case hexadecimal digits per byte. *)
Definition hex_digit (n : N) : N := if N.ltb n 10 then 48 + n else 87 + n.

Definition hex_encode (bytes : list N) : jsstring :=
  flat_map (fun b => [hex_digit (b / 16); hex_digit (b mod 16)]) bytes.

(** [crypto.createHash('md5').update(input).digest('hex')] *)
Definition getCqlChecksum (input : jsstring) : jsstring :=
  hex_encode (MD5.digest (utf8_encode input)).

Local Close Scope N_scope.

(** ** Values, rows and the driver's interface *)

Definition Time := Z.

(** *** [lib/StorableDate.ts] *)

(** The way to represent a date in the data store. *)
Inductive STORAGE_METHOD : Type := TIMESTAMP | UUID | DATE_ONLY.

(** A [Date] with the way it should be stored. *)
Record StorableDate : Type := mkStorableDate {
  getDate : Time;
  getStorageMethod : STORAGE_METHOD
}.

(** The constructor: the storage method is [TIMESTAMP] when none is given. *)
Definition new_StorableDate (date : Time) (storageMethod : option STORAGE_METHOD)
  : StorableDate :=
  mkStorableDate date
    (match storageMethod with Some method => method | None => TIMESTAMP end).

(** The JavaScript values that reach a query or a log record. Numbers are
    the integers. [VTimeUuid date] and [VLocalDate date] stand for what the
    driver's [types.TimeUuid.fromDate(date)] and
    [types.LocalDate.fromDate(date)] return; objects of other classes are
    not told apart from [VDate], as [createQueryArrays] treats them alike. *)
Inductive Value : Type :=
| VUndefined
| VNull
| VBoolean (b : bool)
| VNumber (z : Z)
| VString (s : jsstring)
| VDate (t : Time)
| VStorableDate (dateTime : StorableDate)
| VTimeUuid (date : Time)
| VLocalDate (date : Time)
| VFunction
| VSymbol
| VBigInt (z : Z).

(** The results of [typeof]. *)
Inductive Typeof : Type :=
| typeof_undefined | typeof_object | typeof_boolean | typeof_number
| typeof_bigint | typeof_string | typeof_symbol | typeof_function.

Definition typeof (v : Value) : Typeof :=
  match v with
  | VUndefined => typeof_undefined
  | VNull | VDate _ | VStorableDate _ | VTimeUuid _ | VLocalDate _ =>
      typeof_object
  | VBoolean _ => typeof_boolean
  | VNumber _ => typeof_number
  | VString _ => typeof_string
  | VFunction => typeof_function
  | VSymbol => typeof_symbol
  | VBigInt _ => typeof_bigint
  end.

(** An object literal: its own keys in insertion order. *)
Definition JsObject := list (string * Value).

Definition value_of_string (o : option jsstring) : Value :=
  match o with Some s => VString s | None => VNull end.

Definition value_of_date (o : option Time) : Value :=
  match o with Some t => VDate t | None => VNull end.

(** An [Error]: its message. *)
Definition Err := jsstring.

Inductive consistencies : Type := all.

Record QueryOptions : Type := mkOptions {
  consistency : option consistencies;
  readTimeout : option Z;
  prepare : option bool
}.

Definition no_options : QueryOptions := mkOptions None None None.

(** A row of [cqlmigrate.migrations] as [fillFromDatastoreIfExists] reads it
    ([results.first() as MigrationRow]); the fields carry their declared
    types, [applied_on] and [checksum] possibly null. *)
Record MigrationRow : Type := mkRow {
  row_applied_on : option Time;
  row_checksum : option jsstring;
  row_success : bool
}.

Record ResultSet : Type := mkResultSet {
  wasApplied : bool;
  rows : list MigrationRow
}.

Definition first (rs : ResultSet) : option MigrationRow := hd_error (rows rs).

(** A path below the migration directory: the segments of
    [path.relative(migrationDirectory, filePath).split(path.sep)]. *)
Definition FilePath := list jsstring.

Record LogRecord : Type := mkLog {
  message : jsstring;
  details : JsObject
}.

(** *** Operations on the outside world

    Every [await] on the driver, the file system or a timer, every read of
    the clock and every line on the console is one operation. [Yield] is
    the break an [await] makes when nothing has to be waited for: the
    function goes on in a later turn of the queue of microtasks. *)
Inductive Op : Type -> Type :=
| NewDate : Op Time
| ConsoleLog (r : LogRecord) : Op unit
| ConsoleError (r : LogRecord) : Op unit
| ClientExecute (keyspace query : jsstring) (params : list Value)
    (options : QueryOptions) : Op (Err + ResultSet)
| ReadFile (path : FilePath) : Op (Err + jsstring)
| Walk : Op (Err + list FilePath)
| CheckSchemaAgreement : Op (Err + bool)
| SetTimeout (ms : Z) : Op unit
| Yield : Op unit.

(** What the trace keeps of a run: console lines, statements handed to the
    driver, schema probes. *)
Inductive Event : Type :=
| EvInfo (r : LogRecord)
| EvError (r : LogRecord)
| EvExecute (keyspace query : jsstring) (params : list Value)
    (options : QueryOptions)
| EvProbe.

Definition event_of X (o : Op X) : list Event :=
  match o with
  | ConsoleLog r => [EvInfo r]
  | ConsoleError r => [EvError r]
  | ClientExecute ks q ps opts => [EvExecute ks q ps opts]
  | CheckSchemaAgreement => [EvProbe]
  | _ => []
  end.

(** *** Asynchronous code

    The body of an [async] function is a tree of operations: [Vis o k] awaits
    operation [o] and goes on with [k]; [Throw] is a rejection. *)
Inductive Task (A : Type) : Type :=
| Ret (a : A)
| Throw (e : Err)
| Vis (X : Type) (o : Op X) (k : X -> Task A).

Arguments Ret {A} a.
Arguments Throw {A} e.
Arguments Vis {A X} o k.

Fixpoint bind A B (t : Task A) (f : A -> Task B) : Task B :=
  match t with
  | Ret a => f a
  | Throw e => Throw e
  | Vis o k => Vis o (fun x => bind (k x) f)
  end.

(** [try { t } catch (error) { h error }] *)
Fixpoint try_catch A (t : Task A) (h : Err -> Task A) : Task A :=
  match t with
  | Ret a => Ret a
  | Throw e => h e
  | Vis o k => Vis o (fun x => try_catch (k x) h)
  end.

Definition trigger X (o : Op X) : Task X := Vis o (fun x => Ret x).

(** [await t] where more than one function runs at a time (the callbacks
    handed to [Promise.all]): when [t] has settled, by returning or by
    throwing, the caller goes on in a later turn. Inside [t] the awaits
    wait for the driver, a wait that the operation itself stands for. *)
Definition await A (t : Task A) : Task A :=
  try_catch (bind t (fun a => Vis Yield (fun _ => Ret a)))
    (fun e => Vis Yield (fun _ => Throw e)).

Declare Scope task_scope.
Delimit Scope task_scope with task.
Bind Scope task_scope with Task.

Notation "x <- t ;; u" := (bind t (fun x => u))
  (at level 61, t at next level, right associativity) : task_scope.
Notation "t ;; u" := (bind t (fun _ => u))
  (at level 61, right associativity) : task_scope.

Local Open Scope task_scope.

(** A [for ... of] loop with an awaiting body. *)
Fixpoint forEach A (l : list A) (body : A -> Task unit) : Task unit :=
  match l with
  | [] => Ret tt
  | a :: l' => body a ;; forEach l' body
  end.

(** *** The main control flow

    [start] and what it awaits directly form the main flow. Besides what a
    task does, the main flow can end the process ([Exit]), can wait for
    something that never settles ([Pending], a schema agreement that does
    not come), and can fan out tasks and wait for them with [Promise.all]. *)
Inductive Prog (A : Type) : Type :=
| Return (a : A)
| Raise (e : Err)
| Exit (code : option Z)
| Pending
| Await (X : Type) (o : Op X) (k : X -> Prog A)
| PromiseAll (R : Type) (tasks : list (Task R)) (k : Err + list R -> Prog A).

Arguments Return {A} a.
Arguments Raise {A} e.
Arguments Exit {A} code.
Arguments Pending {A}.
Arguments Await {A X} o k.
Arguments PromiseAll {A R} tasks k.

Fixpoint pbind A B (p : Prog A) (f : A -> Prog B) : Prog B :=
  match p with
  | Return a => f a
  | Raise e => Raise e
  | Exit c => Exit c
  | Pending => Pending
  | Await o k => Await o (fun x => pbind (k x) f)
  | PromiseAll ts k => PromiseAll ts (fun r => pbind (k r) f)
  end.

(** [try { p } catch (error) { h error }]; [process.exit] is no exception. *)
Fixpoint ptry_catch A (p : Prog A) (h : Err -> Prog A) : Prog A :=
  match p with
  | Return a => Return a
  | Raise e => h e
  | Exit c => Exit c
  | Pending => Pending
  | Await o k => Await o (fun x => ptry_catch (k x) h)
  | PromiseAll ts k => PromiseAll ts (fun r => ptry_catch (k r) h)
  end.

(** A task awaited by the main flow. *)
Fixpoint lift A (t : Task A) : Prog A :=
  match t with
  | Ret a => Return a
  | Throw e => Raise e
  | Vis o k => Await o (fun x => lift (k x))
  end.

(** [await Promise.all(tasks)] *)
Definition promise_all R (tasks : list (Task R)) : Prog (list R) :=
  PromiseAll tasks (fun r =>
    match r with
    | inl error => Raise error
    | inr results => Return results
    end).

Declare Scope prog_scope.
Delimit Scope prog_scope with prog.
Bind Scope prog_scope with Prog.

Notation "x <- p ;; q" := (pbind p (fun x => q))
  (at level 61, p at next level, right associativity) : prog_scope.
Notation "p ;; q" := (pbind p (fun _ => q))
  (at level 61, right associativity) : prog_scope.

(** ** [lib/Logger.ts]

    [debug] writes only when the [debug] setting is on; its lines are no part
    of the trace. *)
Module logger.

Definition info (message : jsstring) (details : JsObject) : Task unit :=
  trigger (ConsoleLog (mkLog message details)).

Definition error (message : jsstring) (details : JsObject) : Task unit :=
  trigger (ConsoleError (mkLog message details)).

End logger.

(** ** [config.ts] *)

Record Config : Type := mkConfig {
  migrationDirectory : jsstring;
  migrationClientTimeoutMs : Z;
  initFilename : jsstring;
  bootstrapFilename : jsstring;
  cassandraContactPoints : jsstring;
  debug : bool
}.

Definition default_config : Config :=
  mkConfig (js "/schema") (30 * 1000) (js "cqlmigrate.cql")
           (js "bootstrap.cql") (js "localhost") false.

(** [Number.isSafeInteger]: the integers a JavaScript number holds
    exactly. *)
Definition safe_integer (z : Z) : bool := Z.leb (Z.abs z) (2 ^ 53 - 1).

(** A number in a template string, for the safe integers, which JavaScript
    writes with all their digits. Larger numbers lose digits and, from
    [1e21] on, are written with an exponent; the program itself prints a
    TTL of 0 and numbers of files. *)
Definition Number_toString (z : Z) : jsstring :=
  js (DecimalString.NilZero.string_of_int (Z.to_int z)).

(** ** [lib/CassandraClient.ts]

    [GET_INSTANCE(keyspace)] hands out one client per keyspace; the keyspace
    names the instance a statement goes through. *)
Module CassandraClient.

Record QueryArrays : Type := mkQueryArrays {
  fields : list jsstring;
  placeholders : list jsstring;
  fieldsEqualPlaceholders : list jsstring;
  params : list Value
}.

Definition push (key : string) (value : Value) (arrays : QueryArrays)
  : QueryArrays :=
  mkQueryArrays
    (fields arrays ++ [[34%N] ++ js key ++ [34%N]])
    (placeholders arrays ++ [js "?"])
    (fieldsEqualPlaceholders arrays ++ [[34%N] ++ js key ++ [34%N] ++ js " = ?"])
    (params arrays ++ [value]).

(** The [switch (typeof obj[key])]: numbers, strings and booleans are
    pushed as they are; so are objects ([null] and dates among them), but
    for a [StorableDate], of which the value its storage method asks for is
    pushed; functions and [undefined] (and what else [typeof] can give) are
    ignored. *)
Definition createQueryArrays (obj : JsObject) : QueryArrays :=
  fold_left
    (fun arrays kv =>
       match typeof (snd kv) with
       | typeof_number | typeof_string | typeof_boolean =>
           push (fst kv) (snd kv) arrays
       | typeof_object =>
           let value :=
             match snd kv with
             | VStorableDate dateTime =>
                 match getStorageMethod dateTime with
                 | UUID => VTimeUuid (getDate dateTime)
                 | DATE_ONLY => VLocalDate (getDate dateTime)
                 | TIMESTAMP => VDate (getDate dateTime)
                 end
             | value => value
             end in
           push (fst kv) value arrays
       | _ => arrays
       end)
    obj (mkQueryArrays [] [] [] []).

(** [if (options.prepare == null) { options.prepare = true; }] *)
Definition prepared (options : QueryOptions) : QueryOptions :=
  match prepare options with
  | None => mkOptions (consistency options) (readTimeout options) (Some true)
  | Some _ => options
  end.

Definition query_error (query : jsstring) (error : Err) : LogRecord :=
  mkLog (js "Query Error") [("query", VString query); ("error", VString error)].

Definition execute (keyspace query : jsstring) (params : list Value)
  (options : QueryOptions) : Task ResultSet :=
  let options := prepared options in
  r <- trigger (ClientExecute keyspace query params options) ;;
  match r with
  | inr results => Ret results
  | inl error =>
      trigger (ConsoleLog (query_error query error)) ;;
      Throw error
  end.

Definition insert (keyspace : jsstring) (table : jsstring) (record : JsObject)
  (ttl : option Z) (ifNotExists : bool) (options : QueryOptions)
  : Task ResultSet :=
  let queryArrays := createQueryArrays record in
  if Nat.eqb (length (fields queryArrays)) 0 then
    Throw (js "Input object does not have any savable fields")
  else
    let ifNotExistsString := if ifNotExists then js " IF NOT EXISTS" else [] in
    let ttlString :=
      match ttl with
      | None => []
      | Some n => js " USING TTL " ++ Number_toString n
      end in
    let query :=
      js "INSERT INTO " ++ table ++ js " ("
        ++ join (js ",") (fields queryArrays)
        ++ js ") VALUES (" ++ join (js ",") (placeholders queryArrays)
        ++ js ")" ++ ifNotExistsString ++ ttlString ++ js ";" in
    execute keyspace query (params queryArrays) options.

(** [checkSchemaAgreement] reads [system.local] and [system.peers] and
    compares the schema versions; the probe is kept as one operation that
    answers, or throws what the driver threw. *)
Definition checkSchemaAgreement : Task bool :=
  r <- trigger CheckSchemaAgreement ;;
  match r with
  | inr b => Ret b
  | inl error => Throw error
  end.

End CassandraClient.

(** ** [lib/SavableBase.ts] *)

Definition SavableBase_save (KEYSPACE_NAME TABLE_NAME : jsstring)
  (insertable : JsObject) : Task unit :=
  CassandraClient.insert KEYSPACE_NAME TABLE_NAME insertable (Some 0%Z) false
    no_options ;;
  Ret tt.

(** ** [models/Lock.ts] *)

Module lock.

Definition keyspace : jsstring := js "cqlmigrate".
Definition table : jsstring := js "locks".
Definition name : jsstring := js "MIGRATION_LOCK".
Definition TTL : Z := 0.

Section WithClient.

(** [types.Uuid.random().toString()], drawn once when the module loads. *)
Variable client : jsstring.

Definition acquire : Task bool :=
  logger.info (js "Attempting to acquire lock") [("client", VString client)] ;;
  try_catch
    (result <- CassandraClient.insert keyspace table
                 [("name", VString name); ("client", VString client)]
                 (Some TTL) true (mkOptions (Some all) None None) ;;
     Ret (wasApplied result))
    (fun e => Ret false).

Definition release : Task bool :=
  logger.info (js "Attempting to release lock") [("client", VString client)] ;;
  try_catch
    (result <- CassandraClient.execute keyspace
                 (js "DELETE FROM " ++ table ++ js " WHERE name = ? IF client = ?")
                 [VString name; VString client]
                 (mkOptions (Some all) None None) ;;
     Ret (wasApplied result))
    (fun e => Ret false).

End WithClient.

End lock.

(** ** [models/CqlFile.ts] *)

Record CqlFile : Type := mkCqlFile {
  keyspace : jsstring;
  file : jsstring;
  appliedOn : option Time;
  success : bool;
  filePath : FilePath;
  fileBody : jsstring
}.

(** The constructor: [appliedOn = null], [success = false]; the body is
    loaded by [init], [keyspace] and [file] are set by the subclasses. *)
Definition new_CqlFile (filePath : FilePath) : CqlFile :=
  mkCqlFile [] [] None false filePath [].

Definition set_appliedOn (t : option Time) (f : CqlFile) : CqlFile :=
  mkCqlFile (keyspace f) (file f) t (success f) (filePath f) (fileBody f).

Definition set_success (b : bool) (f : CqlFile) : CqlFile :=
  mkCqlFile (keyspace f) (file f) (appliedOn f) b (filePath f) (fileBody f).

Definition set_fileBody (body : jsstring) (f : CqlFile) : CqlFile :=
  mkCqlFile (keyspace f) (file f) (appliedOn f) (success f) (filePath f) body.

Definition set_coordinates (ks fl : jsstring) (f : CqlFile) : CqlFile :=
  mkCqlFile ks fl (appliedOn f) (success f) (filePath f) (fileBody f).

(** The classes that extend [CqlFile]: the object holds a [CqlFile] part and
    brings its own [save]. *)
Class CqlFileClass (T : Type) : Type := {
  super : T -> CqlFile;
  with_super : CqlFile -> T -> T;
  save : T -> Task unit
}.

(** The test [/^[\s]*$/] on a command. *)
Definition blank (command : jsstring) : bool := forallb is_space command.

Definition semicolon : N := 59.

Section CqlFile_methods.

Variable config : Config.
Context {T : Type} `{CqlFileClass T}.

Definition loadAndCanonicalizeFile (this : T) : Task T :=
  r <- trigger (ReadFile (filePath (super this))) ;;
  match r with
  | inl error => Throw error
  | inr content =>
      match canonicalizeCql content with
      | inl error => Throw error
      | inr body => Ret (with_super (set_fileBody body (super this)) this)
      end
  end.

Definition CqlFile_init (this : T) : Task T := loadAndCanonicalizeFile this.

(** Applies a file: saves with [appliedOn] set and [success] still false,
    executes each command of the body, saves again with a new timestamp and
    [success] true. *)
Definition CqlFile_apply (this : T) : Task T :=
  now <- trigger NewDate ;;
  let this := with_super (set_appliedOn (Some now) (super this)) this in
  save this ;;
  forEach (split_on semicolon (fileBody (super this)))
    (fun command =>
       if negb (blank command) then
         CassandraClient.execute [] command []
           (mkOptions (Some all) (Some (migrationClientTimeoutMs config)) None) ;;
         Ret tt
       else Ret tt) ;;
  now' <- trigger NewDate ;;
  let this :=
    with_super (set_success true (set_appliedOn (Some now') (super this))) this in
  save this ;;
  Ret this.

End CqlFile_methods.

(** ** [models/Init.ts]: [save] does nothing *)

Record Init : Type := mkInit { init_file : CqlFile }.

#[export] Instance Init_class : CqlFileClass Init := {
  super := init_file;
  with_super := fun f _ => mkInit f;
  save := fun _ => Ret tt
}.

Definition new_Init (filePath : FilePath) : Init := mkInit (new_CqlFile filePath).

(** ** [models/Bootstrap.ts] *)

Record Bootstrap : Type := mkBootstrap { bootstrap_file : CqlFile }.

Definition Bootstrap_getInsertableObject (this : Bootstrap) : JsObject :=
  let f := bootstrap_file this in
  [ ("keyspace_name", VString (keyspace f));
    ("applied_on", value_of_date (appliedOn f));
    ("file", VString (file f));
    ("body", VString (fileBody f));
    ("success", VBoolean (success f)) ].

#[export] Instance Bootstrap_class : CqlFileClass Bootstrap := {
  super := bootstrap_file;
  with_super := fun f _ => mkBootstrap f;
  save := fun this =>
    SavableBase_save (js "cqlmigrate") (js "bootstraps")
      (Bootstrap_getInsertableObject this)
}.

(** Path of the form [{keyspace}/{file}]. *)
Definition new_Bootstrap (filePath : FilePath) : Bootstrap :=
  let fields := filePath in
  mkBootstrap
    (set_coordinates (nth 0 fields []) (nth 1 fields []) (new_CqlFile filePath)).

(** ** [models/Migration.ts] *)

Record Migration : Type := mkMigration {
  migration_file : CqlFile;
  service : jsstring;
  checksum : option jsstring
}.

Definition Migration_getInsertableObject (this : Migration) : JsObject :=
  let f := migration_file this in
  [ ("keyspace_name", VString (keyspace f));
    ("service", VString (service this));
    ("file", VString (file f));
    ("body", VString (fileBody f));
    ("applied_on", value_of_date (appliedOn f));
    ("checksum", value_of_string (checksum this));
    ("success", VBoolean (success f)) ].

#[export] Instance Migration_class : CqlFileClass Migration := {
  super := migration_file;
  with_super := fun f this => mkMigration f (service this) (checksum this);
  save := fun this =>
    SavableBase_save (js "cqlmigrate") (js "migrations")
      (Migration_getInsertableObject this)
}.

(** Path of the form [{keyspace}/{service}/{file}]. *)
Definition new_Migration (filePath : FilePath) : Migration :=
  let fields := filePath in
  mkMigration
    (set_coordinates (nth 0 fields []) (nth 2 fields []) (new_CqlFile filePath))
    (nth 1 fields []) None.

Definition set_checksum (c : option jsstring) (this : Migration) : Migration :=
  mkMigration (migration_file this) (service this) c.

(** The coordinates a log record of a migration carries. *)
Definition coordinates (this : Migration) : JsObject :=
  [ ("keyspace", VString (keyspace (migration_file this)));
    ("service", VString (service this));
    ("file", VString (file (migration_file this))) ].

(** [a !== b] between a stored checksum (possibly null) and a string. *)
Definition checksum_differs (stored : option jsstring) (current : jsstring)
  : bool :=
  match stored with
  | Some c => negb (jsstring_eqb c current)
  | None => true
  end.

Definition hash_mismatch : jsstring :=
  js "Existing hash does not match hash of current file body".

Section Migration_methods.

Variable config : Config.

Definition fillFromDatastoreIfExists (this : Migration) : Task Migration :=
  results <- CassandraClient.execute (js "cqlmigrate")
    (js "SELECT * FROM " ++ js "migrations"
       ++ js " WHERE keyspace_name = ? AND service = ? AND file = ?")
    [ VString (keyspace (migration_file this)); VString (service this);
      VString (file (migration_file this)) ]
    (mkOptions (Some all) None None) ;;
  match first results with
  | Some row =>
      Ret (mkMigration
             (set_success (row_success row)
                (set_appliedOn (row_applied_on row) (migration_file this)))
             (service this) (row_checksum row))
  | None => Ret this
  end.

Definition Migration_init (this : Migration) : Task Migration :=
  this <- CqlFile_init this ;;
  fillFromDatastoreIfExists this.

(** Applies as [CqlFile] does, but first computes the checksum and checks
    that it has not changed if the migration was applied before. *)
Definition Migration_apply (this : Migration) : Task Migration :=
  if success (migration_file this) then
    if checksum_differs (checksum this)
         (getCqlChecksum (fileBody (migration_file this))) then
      logger.error hash_mismatch (coordinates this) ;;
      Throw hash_mismatch
    else
      logger.info (js "Migration has already been applied... skipping")
        (coordinates this) ;;
      Ret this
  else
    let this :=
      set_checksum (Some (getCqlChecksum (fileBody (migration_file this))))
        this in
    this <- CqlFile_apply config this ;;
    logger.info (js "Migration applied") (coordinates this) ;;
    Ret this.

End Migration_methods.

(** [getSchemaAgreementPromise]: polls [checkSchemaAgreement] until it
    answers true, sleeping between polls; there is no timeout. [patience]
    bounds the polls the model follows: when it is used up the promise is
    still pending. *)
Fixpoint getSchemaAgreementPromise (patience : nat) (retryIntervalMs : Z)
  : Prog unit :=
  match patience with
  | O => Pending
  | S n =>
      (agreed <- lift CassandraClient.checkSchemaAgreement ;;
       if agreed : bool then Return tt
       else lift (trigger (SetTimeout retryIntervalMs)) ;;
            getSchemaAgreementPromise n retryIntervalMs)%prog
  end.

(** ** [Migrator.ts] *)

(** [Map<string, Migration[]>]: the entries in insertion order, the keys
    distinct. *)
Definition MigrationMap := list (jsstring * list Migration).

Fixpoint map_get (key : jsstring) (m : MigrationMap) : option (list Migration) :=
  match m with
  | [] => None
  | (k, v) :: m' => if jsstring_eqb k key then Some v else map_get key m'
  end.

Definition map_has (key : jsstring) (m : MigrationMap) : bool :=
  match map_get key m with Some _ => true | None => false end.

(** Replaces the array stored under a key that is present. *)
Fixpoint map_replace (key : jsstring) (v : list Migration) (m : MigrationMap)
  : MigrationMap :=
  match m with
  | [] => []
  | (k, v0) :: m' =>
      if jsstring_eqb k key then (k, v) :: m'
      else (k, v0) :: map_replace key v m'
  end.

Definition map_set (key : jsstring) (v : list Migration) (m : MigrationMap)
  : MigrationMap :=
  if map_has key m then map_replace key v m else m ++ [(key, v)].

Fixpoint map_delete (key : jsstring) (m : MigrationMap) : MigrationMap :=
  match m with
  | [] => []
  | (k, v) :: m' =>
      if jsstring_eqb k key then m' else (k, v) :: map_delete key m'
  end.

(** [Array.prototype.sort] with a comparator, as a stable insertion sort. *)
Section Array_sort.

Variable A : Type.
Variable compare : A -> A -> Z.

Fixpoint sort_insert (x : A) (l : list A) : list A :=
  match l with
  | [] => [x]
  | y :: l' =>
      if Z.ltb 0 (compare x y) then y :: sort_insert x l'
      else x :: y :: l'
  end.

Definition Array_sort (l : list A) : list A := fold_right sort_insert [] l.

End Array_sort.

Module Migrator.

(** The comparator handed to [sort] in [loadFiles]. *)
Definition compare_file (a b : Migration) : Z :=
  if jsstring_ltb (file (migration_file a)) (file (migration_file b)) then (-1)%Z
  else if jsstring_ltb (file (migration_file b)) (file (migration_file a))
       then 1%Z
       else 0%Z.

Definition getFileDepth (filePath : FilePath) : nat := length filePath - 1.

Definition basename (filePath : FilePath) : jsstring := last filePath [].

Definition failed_migration_found : jsstring :=
  js "Migration found with success=false. This means the previous "
    ++ js "migration attempt failed and manual intervention is required".

Definition round_failed : jsstring := js "Round of migrations failed".

Definition is_null A (o : option A) : bool :=
  match o with Some _ => false | None => true end.

Section WithConfig.

Variable config : Config.

(** The client identifier of [models/Lock.ts]. *)
Variable client : jsstring.

(** The polls of a schema-agreement wait that the model follows. *)
Variable patience : nat.

Definition releaseLockAndExit (code : option Z) : Prog unit :=
  (unlocked <- lift (lock.release client) ;;
   if negb unlocked then
     lift (logger.error
             (js "Failed to release lock, manual recovery may be required") [])
   else
     lift (logger.info (js "Lock released") []) ;;
     Exit code)%prog.

Definition init : Task unit :=
  let initFile := new_Init [initFilename config] in
  initFile <- try_catch (CqlFile_init initFile)
                (fun error => Throw (js "Error loading init file: " ++ error)) ;;
  logger.info (js "Applying init file") [] ;;
  try_catch (CqlFile_apply config initFile ;; Ret tt)
    (fun error => Throw (js "Error applying the init file: " ++ error)) ;;
  logger.info (js "Init file applied") [].

Definition getFilePaths : Task (list FilePath) :=
  logger.info (js "Searching for cql files")
    [("searchDirectory", VString (migrationDirectory config))] ;;
  r <- trigger Walk ;;
  match r with
  | inl error => Throw error
  | inr files =>
      logger.info
        (js "Found " ++ Number_toString (Z.of_nat (length files))
           ++ js " cql files") [] ;;
      Ret files
  end.

(** The first loop of [loadFiles], over the files found. *)
Fixpoint loadFiles_loop (files : list FilePath) (bootstraps : list Bootstrap)
  (migrations : MigrationMap) : Task (list Bootstrap * MigrationMap) :=
  match files with
  | [] => Ret (bootstraps, migrations)
  | file :: files' =>
      if jsstring_eqb (basename file) (bootstrapFilename config)
         && Nat.eqb (getFileDepth file) 1 then
        bootstrap <- CqlFile_init (new_Bootstrap file) ;;
        loadFiles_loop files' (bootstraps ++ [bootstrap]) migrations
      else if Nat.eqb (getFileDepth file) 2 then
        migration <- Migration_init (new_Migration file) ;;
        if negb (success (migration_file migration))
           && negb (is_null (appliedOn (migration_file migration))) then
          logger.error failed_migration_found (coordinates migration) ;;
          Throw failed_migration_found
        else
          let migrations :=
            if negb (map_has (service migration) migrations)
            then map_set (service migration) [] migrations
            else migrations in
          let migrations :=
            match map_get (service migration) migrations with
            | Some l => map_replace (service migration) (l ++ [migration]) migrations
            | None => migrations
            end in
          loadFiles_loop files' bootstraps migrations
      else loadFiles_loop files' bootstraps migrations
  end.

Definition sort_all (migrations : MigrationMap) : MigrationMap :=
  map (fun kv => (fst kv, Array_sort compare_file (snd kv))) migrations.

Definition loadFiles : Task (list Bootstrap * MigrationMap) :=
  files <- getFilePaths ;;
  loaded <- loadFiles_loop files [] [] ;;
  let bootstraps := fst loaded in
  let migrations := sort_all (snd loaded) in
  logger.info (js "Files loaded")
    [ ("bootstraps", VNumber (Z.of_nat (length bootstraps)));
      ("migrations", VNumber (Z.of_nat (length (concat (map snd migrations))))) ] ;;
  Ret (bootstraps, migrations).

(** The callback [applyBootstraps] maps over the bootstraps. *)
Definition bootstrap_task (bootstrap : Bootstrap) : Task unit :=
  try_catch (await (CqlFile_apply config bootstrap) ;; Ret tt)
    (fun error =>
       logger.error (js "Error applying bootstrap; exiting")
         [ ("error", VString error);
           ("keyspace", VString (keyspace (bootstrap_file bootstrap)));
           ("file", VString (file (bootstrap_file bootstrap))) ] ;;
       Throw error).

Definition applyBootstraps (bootstraps : list Bootstrap) : Prog unit :=
  (lift (logger.info (js "Applying bootstraps") []) ;;
   promise_all (map bootstrap_task bootstraps) ;;
   lift (logger.info
     (js "Bootstraps applied, waiting for schema agreement before continuing")
     []) ;;
   getSchemaAgreementPromise patience 1000 ;;
   lift (logger.info (js "Schemas are in agreement, continuing") []))%prog.

(** The callback [applyMigrations] maps over the arrays of the map, from
    the log line on; what it returns is whether it set [migrationFailed].
    [None] stands for the [undefined] that [shift] gives on an empty array,
    on which reading [migration.service] throws. *)
Definition migration_task (migration : option Migration) : Task bool :=
  match migration with
  | None => Throw (js "TypeError: Cannot read property 'service' of undefined")
  | Some migration =>
      logger.info (js "Applying migration") (coordinates migration) ;;
      try_catch (await (Migration_apply config migration) ;; Ret false)
        (fun error =>
           logger.error
             (js "Error applying migration. Admin intervention is likely required.")
             (("error", VString error) :: coordinates migration) ;;
           Ret true)
  end.

(** The synchronous heads of the callbacks of one round, run in the order
    of [[...this.migrations.values()]]: each shifts its array, which is the
    array stored in the map, and deletes the service of the migration from
    the map when the array is left empty. *)
Fixpoint shift_heads (snapshot : MigrationMap) (migrations : MigrationMap)
  : list (option Migration) * MigrationMap :=
  match snapshot with
  | [] => ([], migrations)
  | (key, array) :: snapshot' =>
      match array with
      | [] =>
          let (heads, migrations') := shift_heads snapshot' migrations in
          (None :: heads, migrations')
      | migration :: array' =>
          let migrations1 := map_replace key array' migrations in
          let migrations2 :=
            if Nat.eqb (length array') 0
            then map_delete (service migration) migrations1
            else migrations1 in
          let (heads, migrations') := shift_heads snapshot' migrations2 in
          (Some migration :: heads, migrations')
      end
  end.

(** The [while] loop of [applyMigrations]; [n] bounds the rounds. *)
Fixpoint applyMigrations_loop (n : nat) (migrations : MigrationMap)
  : Prog unit :=
  match n with
  | O => Pending
  | S n' =>
      if Nat.ltb 0 (length (map fst migrations)) then
        let (heads, migrations') := shift_heads migrations migrations in
        (failed <- promise_all (map migration_task heads) ;;
         if existsb (fun b : bool => b) failed then Raise round_failed
         else
           lift (logger.info
             (js "Round of migrations applied, waiting for schema agreement before continuing")
             []) ;;
           getSchemaAgreementPromise patience 1000 ;;
           lift (logger.info (js "Schemas are in agreement, continuing") []) ;;
           applyMigrations_loop n' migrations')%prog
      else Return tt
  end.

Definition total_migrations (migrations : MigrationMap) : nat :=
  length (concat (map snd migrations)).

(** Every round that goes through takes a migration off the map, so the
    loop ends within [total_migrations] rounds. *)
Definition applyMigrations (migrations : MigrationMap) : Prog unit :=
  (lift (logger.info (js "Applying migrations") []) ;;
   applyMigrations_loop (S (total_migrations migrations)) migrations)%prog.

Definition start : Prog unit :=
  (ptry_catch
     (lift init ;;
      acquired <- lift (lock.acquire client) ;;
      if negb acquired
      then Raise (js "Failed to acquire lock, can not continue")
      else Return tt)
     (fun error =>
        lift (logger.error (js "Error preparing for migration")
                [("error", VString error)]) ;;
        Exit (Some 1%Z)) ;;
   ptry_catch
     (lift (logger.info (js "Lock acquired") []) ;;
      loaded <- lift loadFiles ;;
      applyBootstraps (fst loaded) ;;
      applyMigrations (snd loaded))
     (fun error =>
        lift (logger.error (js "Error during migration.")
                [("error", VString error)]) ;;
        releaseLockAndExit (Some 1%Z)) ;;
   releaseLockAndExit None)%prog.

End WithConfig.

End Migrator.

(** ** Running the code

    *** The outside world

    The cluster, the file system and the clock are one abstract [World];
    each operation is answered from it and may change it. Whatever other
    clients do to the cluster in between is part of how the world answers. *)
Record Env : Type := mkEnv {
  World : Type;
  now : World -> Time;
  client_execute : jsstring -> jsstring -> list Value -> QueryOptions ->
                   World -> (Err + ResultSet) * World;
  readFile : FilePath -> World -> (Err + jsstring) * World;
  walk : World -> (Err + list FilePath) * World;
  schema_agreement : World -> (Err + bool) * World;
  sleep : Z -> World -> World
}.

(** How the main flow ends: it returns, throws, ends the process, or waits
    for ever. *)
Inductive Outcome (A : Type) : Type :=
| Returned (a : A)
| Thrown (e : Err)
| Exited (code : option Z)
| Waiting.

Arguments Returned {A} a.
Arguments Thrown {A} e.
Arguments Exited {A} code.
Arguments Waiting {A}.

Section Semantics.

Variable E : Env.

Record Machine : Type := mkMachine {
  world : World E;
  trace : list Event
}.

(** The answer to an operation. Console output does not touch the world. *)
Definition respond X (o : Op X) (w : World E) : X * World E :=
  match o in Op T return T * World E with
  | NewDate => (now E w, w)
  | ConsoleLog _ => (tt, w)
  | ConsoleError _ => (tt, w)
  | ClientExecute ks q ps opts => client_execute E ks q ps opts w
  | ReadFile p => readFile E p w
  | Walk => walk E w
  | CheckSchemaAgreement => schema_agreement E w
  | SetTimeout ms => (tt, sleep E ms w)
  | Yield => (tt, w)
  end.

Definition perform X (o : Op X) (m : Machine) : X * Machine :=
  let (x, w) := respond o (world m) in
  (x, mkMachine w (trace m ++ event_of o)).

(** A task run on its own, from its first operation to its result. *)
Fixpoint exec A (t : Task A) (m : Machine) : (Err + A) * Machine :=
  match t with
  | Ret a => (inr a, m)
  | Throw e => (inl e, m)
  | Vis o k => let (x, m') := perform o m in exec (k x) m'
  end.

(** *** Tasks side by side

    [array.map(async callback)] calls the callbacks one after the other,
    and each runs without a break up to its first [await]. A callback whose
    [await] found nothing to wait for goes on right after that, before any
    answer of the driver has come in. From then on a callback goes on when
    the answer it waits for comes in, and runs without a break up to its
    next operation that has to wait. The order in which the answers come in
    is not in the hands of the code; the model takes it from a schedule, a
    list of task indices, and the answers come in one at a time. *)

(** The operations whose answer comes in a later turn. *)
Definition waits X (o : Op X) : bool :=
  match o with
  | ClientExecute _ _ _ _ | ReadFile _ | CheckSchemaAgreement | SetTimeout _ =>
      true
  | _ => false
  end.

Definition yields X (o : Op X) : bool :=
  match o with
  | Yield => true
  | _ => false
  end.

(** A task that goes on once its answer is there: up to its next operation
    that has to wait, that operation started, or to its end. *)
Fixpoint advance R (t : Task R) (m : Machine) : Task R * Machine :=
  match t with
  | Vis o k =>
      let (x, m') := perform o m in
      if waits o then (k x, m') else advance (k x) m'
  | _ => (t, m)
  end.

(** A callback as [map] calls it: up to its first [await]. The flag tells
    whether that [await] found nothing to wait for. *)
Fixpoint begin R (t : Task R) (m : Machine) : bool * Task R * Machine :=
  match t with
  | Vis o k =>
      let (x, m') := perform o m in
      if yields o then (true, k x, m')
      else if waits o then (false, k x, m')
      else begin (k x) m'
  | _ => (false, t, m)
  end.

Fixpoint begin_all R (ts : list (Task R)) (m : Machine)
  : list (bool * Task R) * Machine :=
  match ts with
  | [] => ([], m)
  | t :: ts' =>
      let '(woken, t1, m1) := begin t m in
      let (begun, m2) := begin_all ts' m1 in
      ((woken, t1) :: begun, m2)
  end.

(** The callbacks that had nothing to wait for go on, in their order. *)
Fixpoint wake_all R (begun : list (bool * Task R)) (m : Machine)
  : list (Task R) * Machine :=
  match begun with
  | [] => ([], m)
  | (woken, t) :: begun' =>
      let (t1, m1) := if woken : bool then advance t m else (t, m) in
      let (ts, m2) := wake_all begun' m1 in
      (t1 :: ts, m2)
  end.

Definition start_all R (ts : list (Task R)) (m : Machine)
  : list (Task R) * Machine :=
  let (begun, m1) := begin_all ts m in wake_all begun m1.
Fixpoint update A (i : nat) (a : A) (l : list A) : list A :=
  match l, i with
  | [], _ => []
  | _ :: l', O => a :: l'
  | x :: l', S i' => x :: update i' a l'
  end.

Fixpoint first_thrown R (ts : list (Task R)) : option Err :=
  match ts with
  | [] => None
  | Throw e :: _ => Some e
  | _ :: ts' => first_thrown ts'
  end.

Fixpoint results R (ts : list (Task R)) : list R :=
  match ts with
  | [] => []
  | Ret a :: ts' => a :: results ts'
  | _ :: ts' => results ts'
  end.

Definition settled R (t : Task R) : bool :=
  match t with Vis _ _ => false | _ => true end.

(** Follows the schedule until a task has thrown, every task has settled
    or the schedule ends: an entry [i] is the answer that task [i] waits
    for. What is left of the schedule is for what comes after. *)
Fixpoint interleave R (schedule : list nat) (ts : list (Task R)) (m : Machine)
  : list nat * list (Task R) * Machine :=
  match first_thrown ts with
  | Some _ => (schedule, ts, m)
  | None =>
      if forallb (@settled R) ts then (schedule, ts, m)
      else
        match schedule with
        | [] => ([], ts, m)
        | i :: schedule' =>
            match nth_error ts i with
            | Some (Vis o k) =>
                let (t', m') := advance (Vis o k) m in
                interleave schedule' (update i t' ts) m'
            | _ => interleave schedule' ts m
            end
        end
  end.

(** Past the end of the schedule the answers for the first task come in
    first, then those for the second, and so on: the tasks are finished one
    after the other, up to the first that throws. *)
Fixpoint drain R (ts : list (Task R)) (m : Machine) : list (Task R) * Machine :=
  match ts with
  | [] => ([], m)
  | t :: ts' =>
      match exec t m with
      | (inl e, m') => (Throw e :: ts', m')
      | (inr a, m') =>
          let (ts'', m'') := drain ts' m' in (Ret a :: ts'', m'')
      end
  end.

(** The state of the process: the machine, what is left of the schedule,
    and the tasks of a rejected [Promise.all] that are still in flight, which
    nothing awaits any more. *)
Record Process : Type := mkProcess {
  machine : Machine;
  schedule : list nat;
  detached : list (Task unit)
}.

Definition forget R (t : Task R) : Task unit := bind t (fun _ => Ret tt).

Definition unsettled R (ts : list (Task R)) : list (Task unit) :=
  map (@forget R) (filter (fun t => negb (settled t)) ts).

(** [Promise.all]: resolved with the results when every task has returned,
    rejected as soon as one task has thrown. *)
Definition run_all R (ts : list (Task R)) (s : Process)
  : (Err + list R) * Process :=
  let (ts0, m0) := start_all ts (machine s) in
  let '(schedule1, ts1, m1) := interleave (schedule s) ts0 m0 in
  match first_thrown ts1 with
  | Some e => (inl e, mkProcess m1 schedule1 (detached s ++ unsettled ts1))
  | None =>
      let (ts2, m2) := drain ts1 m1 in
      match first_thrown ts2 with
      | Some e => (inl e, mkProcess m2 schedule1 (detached s ++ unsettled ts2))
      | None => (inr (results ts2), mkProcess m2 schedule1 (detached s))
      end
  end.

(** Before an operation of the main flow, detached tasks may go on: an
    entry [S i] of the schedule is the answer that detached task [i] waits
    for, an entry [0] lets the main flow go on. *)
Fixpoint background_steps (schedule : list nat) (ds : list (Task unit))
  (m : Machine) : list nat * list (Task unit) * Machine :=
  match schedule with
  | [] => ([], ds, m)
  | O :: schedule' => (schedule', ds, m)
  | S i :: schedule' =>
      match nth_error ds i with
      | Some (Vis o k) =>
          let (t', m') := advance (Vis o k) m in
          background_steps schedule' (update i t' ds) m'
      | _ => background_steps schedule' ds m
      end
  end.

Definition background (s : Process) : Process :=
  match detached s with
  | [] => s
  | ds =>
      let '(schedule', ds', m') := background_steps (schedule s) ds (machine s) in
      mkProcess m' schedule' ds'
  end.

Fixpoint run A (p : Prog A) (s : Process) : Outcome A * Process :=
  match p with
  | Return a => (Returned a, s)
  | Raise e => (Thrown e, s)
  | Exit code => (Exited code, s)
  | Pending => (Waiting, s)
  | Await o k =>
      let s1 := background s in
      let (x, m') := perform o (machine s1) in
      run (k x) (mkProcess m' (schedule s1) (detached s1))
  | PromiseAll ts k =>
      let (r, s') := run_all ts s in run (k r) s'
  end.

(** The exit status of the process: [process.exit(code)] with [code]
    undefined leaves [process.exitCode] alone, which this program never
    sets, so the status is 0. *)
Definition exit_status (code : option Z) : Z :=
  match code with Some c => c | None => 0%Z end.

End Semantics.

(** *** A scripted world

    For concrete runs: a disk of [.cql] files, a clock that advances by one
    on every statement, and the driver's answers given in advance, one per
    statement in the order the statements arrive; past the end of the script
    a statement is applied and returns no rows, a probe finds agreement. *)
Module Scripted.

Record world : Type := mkWorld {
  clock : Time;
  disk : list (FilePath * jsstring);
  answers : list (Err + ResultSet);
  probes : list (Err + bool)
}.

Definition applied : ResultSet := mkResultSet true [].

Fixpoint lookup (p : FilePath) (d : list (FilePath * jsstring))
  : option jsstring :=
  match d with
  | [] => None
  | (q, content) :: d' =>
      if list_eq_dec (list_eq_dec N.eq_dec) q p then Some content
      else lookup p d'
  end.

Definition execute (ks q : jsstring) (ps : list Value) (opts : QueryOptions)
  (w : world) : (Err + ResultSet) * world :=
  match answers w with
  | a :: rest => (a, mkWorld (clock w + 1)%Z (disk w) rest (probes w))
  | [] => (inr applied, mkWorld (clock w + 1)%Z (disk w) [] (probes w))
  end.

Definition read (p : FilePath) (w : world) : (Err + jsstring) * world :=
  match lookup p (disk w) with
  | Some content => (inr content, w)
  | None => (inl (js "ENOENT: no such file or directory"), w)
  end.

Definition probe (w : world) : (Err + bool) * world :=
  match probes w with
  | a :: rest => (a, mkWorld (clock w) (disk w) (answers w) rest)
  | [] => (inr true, w)
  end.

Definition env : Env :=
  mkEnv (fun w => clock w) execute read
        (fun w => (inr (map fst (disk w)), w))
        probe
        (fun ms w => mkWorld (clock w + ms)%Z (disk w) (answers w) (probes w)).

Definition boot (w : world) (schedule : list nat) : Process env :=
  mkProcess (mkMachine env w []) schedule [].

End Scripted.

(** ** Definitions the properties speak about *)

Definition nl : jsstring := [10%N].

(** The two inputs of the specification's canonicalizer examples. *)
Definition create_table_example : jsstring :=
  js "/* c */" ++ nl ++ js "CREATE TABLE foo.bar (" ++ nl
    ++ js "  baz text, -- x" ++ nl ++ js "  PRIMARY KEY ((baz))" ++ nl
    ++ js ");".

Definition insert_example : jsstring :=
  js "INSERT INTO foo.bar (baz) VALUES ('foo''s');".

(** The inputs of [test/lexer.ts] and [test/canonicalize.ts]. *)
Definition createTableCql : jsstring :=
  nl ++ js "/* Beginning comment */" ++ nl
    ++ js "CREATE TABLE foo.bar (" ++ nl
    ++ js "    baz text, /* multiline comment with dashes -- nice */" ++ nl
    ++ js "    bing set<text>, -- single line comment with dashes" ++ nl
    ++ js "    bork int, // single line comment with slashes" ++ nl
    ++ nl
    ++ js "    PRIMARY KEY ((baz))" ++ nl
    ++ js ");" ++ nl.

Definition insertCql : jsstring :=
  nl ++ js "/* Beginning comment */" ++ nl
    ++ js "INSERT INTO foo.bar (baz, bing, bork) VALUES ('foo''s', {'a','b','c'}, 23);"
    ++ nl.

Definition token_count (r : jsstring + list Lexer.Token) : option nat :=
  match r with inr toks => Some (length toks) | inl _ => None end.

(** A column name between double quotes, as [createQueryArrays] writes it. *)
Definition quoted (column : string) : jsstring := [34%N] ++ js column ++ [34%N].

(** The statements of [models/Lock.ts]. *)
Definition acquire_query : jsstring :=
  js "INSERT INTO locks (" ++ quoted "name" ++ js "," ++ quoted "client"
    ++ js ") VALUES (?,?) IF NOT EXISTS USING TTL 0;".

Definition release_query : jsstring :=
  js "DELETE FROM locks WHERE name = ? IF client = ?".

Definition lock_params (client : jsstring) : list Value :=
  [VString lock.name; VString client].

Definition lock_options : QueryOptions := mkOptions (Some all) None (Some true).

(** The line [CassandraClient.execute] logs when the driver throws. *)
Definition query_error_line (query : jsstring) (r : Err + ResultSet)
  : list Event :=
  match r with
  | inl error => [EvInfo (CassandraClient.query_error query error)]
  | inr _ => []
  end.

Definition is_console (e : Event) : Prop :=
  match e with
  | EvInfo _ | EvError _ => True
  | _ => False
  end.

(** The statement [save] sends for a migration, and its parameters for a
    given timestamp and success flag. *)
Definition migrations_insert : jsstring :=
  js "INSERT INTO migrations ("
    ++ join (js ",")
         (map quoted ["keyspace_name"; "service"; "file"; "body";
                      "applied_on"; "checksum"; "success"])
    ++ js ") VALUES (?,?,?,?,?,?,?) USING TTL 0;".

Definition migration_row (this : Migration) (sum : jsstring) (t : Time)
  (ok : bool) : list Value :=
  [ VString (keyspace (migration_file this)); VString (service this);
    VString (file (migration_file this));
    VString (fileBody (migration_file this));
    VDate t; VString sum; VBoolean ok ].

Definition save_options : QueryOptions := mkOptions None None (Some true).

Definition write_row (this : Migration) (sum : jsstring) (t : Time) (ok : bool)
  : Event :=
  EvExecute (js "cqlmigrate") migrations_insert (migration_row this sum t ok)
    save_options.

(** The commands [CqlFile.apply] executes: the segments of the body between
    semicolons that are not blank. *)
Definition commands (body : jsstring) : list jsstring :=
  filter (fun c => negb (blank c)) (split_on semicolon body).

Definition command_options (config : Config) : QueryOptions :=
  mkOptions (Some all) (Some (migrationClientTimeoutMs config)) (Some true).

Definition command_event (config : Config) (command : jsstring) : Event :=
  EvExecute [] command [] (command_options config).

(** The migration as [apply] leaves it when it went through. *)
Definition applied_migration (this : Migration) (sum : jsstring) (t : Time)
  : Migration :=
  mkMigration
    (set_success true (set_appliedOn (Some t) (migration_file this)))
    (service this) (Some sum).

Section TwoPhase.

Variable E : Env.
Variable config : Config.

(** The driver answers every command of the list, one after the other. *)
Inductive Executed : World E -> list jsstring -> World E -> Prop :=
| Executed_nil : forall w, Executed w [] w
| Executed_cons : forall w c cs rs w1 w2,
    client_execute E [] c [] (command_options config) w = (inr rs, w1) ->
    Executed w1 cs w2 ->
    Executed w (c :: cs) w2.

(** The runs of the two-phase write of [apply] on a migration that was not
    applied successfully before, from machine [m]: the checksum is that of
    the body, the first row carries [success = false] and the time at the
    start; the commands follow in order; the second row, with
    [success = true] and the time after the last command, is written only
    when every command was answered. Whatever fails ends the run there. *)
Inductive TwoPhase (this : Migration) (m : Machine E)
  : (Err + Migration) * Machine E -> Prop :=
| first_write_fails : forall e w1,
    let sum := getCqlChecksum (fileBody (migration_file this)) in
    client_execute E (js "cqlmigrate") migrations_insert
      (migration_row this sum (now E (world m)) false) save_options (world m)
      = (inl e, w1) ->
    TwoPhase this m
      (inl e,
       mkMachine E w1
         (trace m ++ [write_row this sum (now E (world m)) false;
                      EvInfo (CassandraClient.query_error migrations_insert e)]))
| command_fails : forall rs w1 done c rest w2 e w3,
    let sum := getCqlChecksum (fileBody (migration_file this)) in
    client_execute E (js "cqlmigrate") migrations_insert
      (migration_row this sum (now E (world m)) false) save_options (world m)
      = (inr rs, w1) ->
    commands (fileBody (migration_file this)) = done ++ c :: rest ->
    Executed w1 done w2 ->
    client_execute E [] c [] (command_options config) w2 = (inl e, w3) ->
    TwoPhase this m
      (inl e,
       mkMachine E w3
         (trace m ++ [write_row this sum (now E (world m)) false]
            ++ map (command_event config) done
            ++ [command_event config c;
                EvInfo (CassandraClient.query_error c e)]))
| second_write_fails : forall rs w1 w2 e w3,
    let sum := getCqlChecksum (fileBody (migration_file this)) in
    client_execute E (js "cqlmigrate") migrations_insert
      (migration_row this sum (now E (world m)) false) save_options (world m)
      = (inr rs, w1) ->
    Executed w1 (commands (fileBody (migration_file this))) w2 ->
    client_execute E (js "cqlmigrate") migrations_insert
      (migration_row this sum (now E w2) true) save_options w2
      = (inl e, w3) ->
    TwoPhase this m
      (inl e,
       mkMachine E w3
         (trace m ++ [write_row this sum (now E (world m)) false]
            ++ map (command_event config)
                 (commands (fileBody (migration_file this)))
            ++ [write_row this sum (now E w2) true;
                EvInfo (CassandraClient.query_error migrations_insert e)]))
| applied_and_recorded : forall rs w1 w2 rs' w3,
    let sum := getCqlChecksum (fileBody (migration_file this)) in
    client_execute E (js "cqlmigrate") migrations_insert
      (migration_row this sum (now E (world m)) false) save_options (world m)
      = (inr rs, w1) ->
    Executed w1 (commands (fileBody (migration_file this))) w2 ->
    client_execute E (js "cqlmigrate") migrations_insert
      (migration_row this sum (now E w2) true) save_options w2
      = (inr rs', w3) ->
    TwoPhase this m
      (inr (applied_migration this sum (now E w2)),
       mkMachine E w3
         (trace m ++ [write_row this sum (now E (world m)) false]
            ++ map (command_event config)
                 (commands (fileBody (migration_file this)))
            ++ [write_row this sum (now E w2) true;
                EvInfo (mkLog (js "Migration applied") (coordinates this))])).

End TwoPhase.

(** What [acquire] and [release] make of the driver's answer. *)
Definition reported (r : Err + ResultSet) : bool :=
  match r with
  | inr result => wasApplied result
  | inl _ => false
  end.

(** *** Concrete inputs *)

(** A migration [foo/users/0001-initial.cql] with its canonical body. *)
Definition sample_body : jsstring :=
  js "CREATE TABLE foo . users ( id uuid PRIMARY KEY ) ; CREATE INDEX ON foo . users ( id ) ;".

Definition sample_file (on : option Time) (ok : bool) : CqlFile :=
  mkCqlFile (js "foo") (js "0001-initial.cql") on ok
    [js "foo"; js "users"; js "0001-initial.cql"] sample_body.

(** Hydrated from a row written by a successful run. *)
Definition sample_applied : Migration :=
  mkMigration (sample_file (Some 1000%Z) true) (js "users")
    (Some (getCqlChecksum sample_body)).

(** Never applied: as [new_Migration] and [init] leave it when the state
    store has no row. *)
Definition sample_fresh : Migration :=
  mkMigration (sample_file None false) (js "users") None.

Definition sample_world : Scripted.world := Scripted.mkWorld 2000%Z [] [] [].

Definition sample_machine : Machine Scripted.env :=
  mkMachine Scripted.env sample_world [].

(** The body of the [for ... of] loop of [CqlFile.apply]. *)
Definition command_body (config : Config) (command : jsstring) : Task unit :=
  (if negb (blank command) then
     CassandraClient.execute [] command []
       (mkOptions (Some all) (Some (migrationClientTimeoutMs config)) None) ;;
     Ret tt
   else Ret tt)%task.

(** A run that finds the migration of an earlier, interrupted run. The disk
    holds the init file and one migration; the driver's answers, in the order
    of the statements: the init statement is applied, the lock is acquired,
    the state store returns the migration's row with [success = false] and a
    timestamp, the first attempt to release the lock times out, the second
    is applied. *)
Definition interrupted_disk : list (FilePath * jsstring) :=
  [ ([js "cqlmigrate.cql"], js "CREATE KEYSPACE IF NOT EXISTS cqlmigrate;");
    ([js "foo"; js "users"; js "0001-initial.cql"],
     js "CREATE TABLE foo.users (id uuid PRIMARY KEY);") ].

Definition failed_row : MigrationRow :=
  mkRow (Some 1000%Z) (Some (js "0123456789abcdef0123456789abcdef")) false.

Definition release_retried_world : Scripted.world :=
  Scripted.mkWorld 2000%Z interrupted_disk
    [ inr Scripted.applied; inr Scripted.applied;
      inr (mkResultSet true [failed_row]);
      inl (js "Operation timed out"); inr Scripted.applied ]
    [].

Definition sample_client : jsstring :=
  js "6ab09bec-e68e-48d9-a5f8-97e6fb4c9b47".

Definition during_migration_error (error : Err) : Event :=
  EvError (mkLog (js "Error during migration.") [("error", VString error)]).

Definition lock_acquired_line : Event := EvInfo (mkLog (js "Lock acquired") []).

Definition attempting_to_release (client : jsstring) : Event :=
  EvInfo (mkLog (js "Attempting to release lock") [("client", VString client)]).

Definition release_statement (client : jsstring) : Event :=
  EvExecute lock.keyspace release_query (lock_params client) lock_options.

Definition lock_released_line : Event := EvInfo (mkLog (js "Lock released") []).

Definition failed_to_release_line : Event :=
  EvError (mkLog (js "Failed to release lock, manual recovery may be required") []).

(** The events of an attempt to release the lock. *)
Definition release_event (client : jsstring) (e : Event) : Prop :=
  e = attempting_to_release client
  \/ e = release_statement client
  \/ (exists error, e = EvInfo (CassandraClient.query_error release_query error))
  \/ e = lock_released_line
  \/ e = failed_to_release_line.

Definition failed_migration_line (migration : Migration) : Event :=
  EvError (mkLog Migrator.failed_migration_found (coordinates migration)).

(** The statement [fillFromDatastoreIfExists] reads the row of a migration
    with. *)
Definition migration_select : jsstring :=
  js "SELECT * FROM migrations WHERE keyspace_name = ? AND service = ? AND file = ?".

(** What loading leaves in the trace as long as it goes on: the two lines
    of the search for files, the select of the row of a migration and the
    line of the client when that select fails. None of them belongs to an
    [apply]: no row is written, no command of a file is executed, no line
    of a callback or of [apply] is logged. *)
Definition loading_event (e : Event) : Prop :=
  match e with
  | EvInfo r =>
      (exists directory,
          r = mkLog (js "Searching for cql files")
                [("searchDirectory", VString directory)])
      \/ (exists n,
             r = mkLog (js "Found " ++ Number_toString n ++ js " cql files") [])
      \/ (exists error, r = CassandraClient.query_error migration_select error)
  | EvExecute ks q _ _ => ks = js "cqlmigrate" /\ q = migration_select
  | EvError _ | EvProbe => False
  end.

(** The same disk with a driver that, after the row of the failed
    migration, applies every statement. *)
Definition interrupted_world : Scripted.world :=
  Scripted.mkWorld 2000%Z interrupted_disk
    [ inr Scripted.applied; inr Scripted.applied;
      inr (mkResultSet true [failed_row]) ]
    [].

Definition interrupted_init : FilePath := [js "cqlmigrate.cql"].

Definition interrupted_file : FilePath :=
  [js "foo"; js "users"; js "0001-initial.cql"].

(** The migration as [init] hydrates it from [failed_row]. *)
Definition interrupted_migration : Migration :=
  mkMigration
    (mkCqlFile (js "foo") (js "0001-initial.cql") (Some 1000%Z) false
       interrupted_file
       (js "CREATE TABLE foo . users ( id uuid PRIMARY KEY ) ;"))
    (js "users") (Some (js "0123456789abcdef0123456789abcdef")).

(** *** Runs of a task, and how runs interleave *)

(** [TaskRun t tr r]: task [t] can leave the events [tr] and end with [r],
    for some answers to its operations. *)
Fixpoint TaskRun R (t : Task R) (tr : list Event) (r : Err + R) : Prop :=
  match t with
  | Ret a => tr = [] /\ r = inr a
  | Throw e => tr = [] /\ r = inl e
  | Vis o k => exists x tr', tr = event_of o ++ tr' /\ TaskRun (k x) tr' r
  end.

(** Every event the task can emit satisfies [P], every value it can
    return satisfies [Q]. *)
Fixpoint Yields (P : Event -> Prop) R (Q : R -> Prop) (t : Task R) : Prop :=
  match t with
  | Ret a => Q a
  | Throw _ => True
  | Vis o k => Forall P (event_of o) /\ forall x, Yields P Q (k x)
  end.

(** No run of the task ends in an exception. *)
Definition never_throws R (t : Task R) : Prop :=
  forall tr r, TaskRun t tr r -> exists a, r = inr a.

(** A run of the task to its end: its events and its result. *)
Definition Run R (t : Task R) (run : list Event * R) : Prop :=
  TaskRun t (fst run) (inr (snd run)).

(** [Merge trs seg]: [seg] interleaves the lists [trs], each kept in its
    order. *)
Inductive Merge (A : Type) : list (list A) -> list A -> Prop :=
| Merge_done : forall trs, Forall (fun tr => tr = []) trs -> Merge trs []
| Merge_step : forall trs i chunk tr seg,
    nth_error trs i = Some (chunk ++ tr) ->
    Merge (update i tr trs) seg ->
    Merge trs (chunk ++ seg).

(** [Advances t ev t']: task [t] can leave the events [ev] and be left
    with [t'] to do. *)
Definition Advances R (t : Task R) (ev : list Event) (t' : Task R) : Prop :=
  forall tr r, TaskRun t' tr r -> TaskRun t (ev ++ tr) r.

(** [Steps ts seg ts']: the tasks [ts] go on, one at a time, leave the
    events [seg] in all and are left as [ts']. *)
Inductive Steps (R : Type)
  : list (Task R) -> list Event -> list (Task R) -> Prop :=
| Steps_done : forall ts, Steps ts [] ts
| Steps_step : forall ts i t ev t' seg ts',
    nth_error ts i = Some t ->
    Advances t ev t' ->
    Steps (update i t' ts) seg ts' ->
    Steps ts (ev ++ seg) ts'.

(** *** The lines of a migration in a round *)

Definition begin_line (migration : Migration) : Event :=
  EvInfo (mkLog (js "Applying migration") (coordinates migration)).

(** The line that ends the callback of a migration, with the value the
    callback leaves in [migrationFailed]. *)
Inductive end_line (migration : Migration) : bool -> Event -> Prop :=
| end_applied :
    end_line migration false
      (EvInfo (mkLog (js "Migration applied") (coordinates migration)))
| end_skipped :
    end_line migration false
      (EvInfo (mkLog (js "Migration has already been applied... skipping")
                 (coordinates migration)))
| end_failed : forall error,
    end_line migration true
      (EvError
         (mkLog (js "Error applying migration. Admin intervention is likely required.")
            (("error", VString error) :: coordinates migration))).

(** What [apply] emits between the two: statements, and the lines that go
    with a failure. *)
Definition inner_event (e : Event) : Prop :=
  match e with
  | EvExecute _ _ _ _ => True
  | EvInfo r => message r = js "Query Error"
  | EvError r => message r = hash_mismatch
  | EvProbe => False
  end.

(** A complete run of the callback of [migration]: its log line, what
    [apply] did, the line that ends it. *)
Definition apply_run (migration : Migration) (tr : list Event) (failed : bool)
  : Prop :=
  exists body last,
    tr = begin_line migration :: body ++ [last]
    /\ Forall inner_event body
    /\ end_line migration failed last.

(** The first migration of every service. *)
Definition round_heads (migrations : MigrationMap) : list Migration :=
  flat_map (fun kv => match snd kv with m :: _ => [m] | [] => [] end) migrations.

(** The map a round leaves to the next. *)
Definition round_tails (migrations : MigrationMap) : MigrationMap :=
  filter (fun kv => negb (Nat.eqb (length (snd kv)) 0))
    (map (fun kv => (fst kv, tl (snd kv))) migrations).

(** The migrations of round [i]: the [i]-th of every service that has one. *)
Definition round_at (i : nat) (migrations : MigrationMap) : list Migration :=
  flat_map (fun kv => match nth_error (snd kv) i with
                      | Some m => [m]
                      | None => []
                      end) migrations.

(** The map [loadFiles] builds: distinct keys, no empty array, every
    migration under its own service. *)
Definition entry_ok (kv : jsstring * list Migration) : Prop :=
  snd kv <> [] /\ Forall (fun m => service m = fst kv) (snd kv).

Definition well_formed (migrations : MigrationMap) : Prop :=
  NoDup (map fst migrations) /\ Forall entry_ok migrations.

(** The runs of the callbacks of a round: one complete run per migration. *)
Definition round_runs (heads : list Migration) (runs : list (list Event * bool))
  : Prop :=
  Forall2 (fun m run => apply_run m (fst run) (snd run)) heads runs.

Definition waiting_line : Event :=
  EvInfo (mkLog
    (js "Round of migrations applied, waiting for schema agreement before continuing")
    []).

Definition agreement_line : Event :=
  EvInfo (mkLog (js "Schemas are in agreement, continuing") []).

(** What a round that is not followed by another can leave after its
    callbacks: the line of the wait and probes that found no agreement. *)
Definition wait_event (e : Event) : Prop := e = waiting_line \/ e = EvProbe.

(** The events of [applyMigrations]'s loop over a map: round after round,
    the callbacks of the round run to their ends and interleave; if none
    failed the wait for schema agreement follows, with one poll at least,
    and only when agreement is reported the next round. *)
Inductive RoundsTrace : MigrationMap -> list Event -> Prop :=
| rounds_done : RoundsTrace [] []
| rounds_stop : forall migrations runs seg rest,
    migrations <> [] ->
    round_runs (round_heads migrations) runs ->
    Merge (map fst runs) seg ->
    Forall wait_event rest ->
    RoundsTrace migrations (seg ++ rest)
| rounds_next : forall migrations runs seg probes tr,
    migrations <> [] ->
    round_runs (round_heads migrations) runs ->
    Forall (fun run => snd run = false) runs ->
    Merge (map fst runs) seg ->
    Forall (fun e => e = EvProbe) probes ->
    probes <> [] ->
    RoundsTrace (round_tails migrations) tr ->
    RoundsTrace migrations
      (seg ++ waiting_line :: probes ++ agreement_line :: tr).

(** A round of two services in which the apply of the first fails at its
    first command. *)
Definition sample_orders : Migration :=
  mkMigration
    (mkCqlFile (js "foo") (js "0001-initial.cql") None false
       [js "foo"; js "orders"; js "0001-initial.cql"]
       (js "CREATE TABLE foo . orders ( id uuid PRIMARY KEY ) ;"))
    (js "orders") None.

Definition sample_round : MigrationMap :=
  [ (js "users", [sample_fresh]); (js "orders", [sample_orders]) ].

Definition failing_world : Scripted.world :=
  Scripted.mkWorld 2000%Z []
    [ inr Scripted.applied; inr Scripted.applied; inl (js "Invalid query") ]
    [].

(** *** The order of migrations *)

Definition file_of (m : Migration) : jsstring := file (migration_file m).

(** [a] does not come after [b] in the order of [<] on file names. *)
Definition not_after (a b : Migration) : Prop :=
  jsstring_ltb (file_of b) (file_of a) = false.

Definition path_of (m : Migration) : FilePath := filePath (migration_file m).

(** The coordinates of the migration are the segments of its path. *)
Definition from_path (m : Migration) : Prop :=
  path_of m = [keyspace (migration_file m); service m; file_of m].

Definition all_migrations (migrations : MigrationMap) : list Migration :=
  concat (map snd migrations).

(** What [loadFiles] keeps true of the map while it goes through the files
    [done]. *)
Definition loaded_from (done : list FilePath) (migrations : MigrationMap)
  : Prop :=
  well_formed migrations
  /\ Forall from_path (all_migrations migrations)
  /\ (forall m, In m (all_migrations migrations) -> In (path_of m) done)
  /\ NoDup (map path_of (all_migrations migrations)).

(** Pushing a migration on the array of its service. *)
Definition push (migration : Migration) (migrations : MigrationMap)
  : MigrationMap :=
  let migrations :=
    if negb (map_has (service migration) migrations)
    then map_set (service migration) [] migrations
    else migrations in
  match map_get (service migration) migrations with
  | Some l => map_replace (service migration) (l ++ [migration]) migrations
  | None => migrations
  end.

(** What [init] keeps of a migration. *)
Definition same_coordinates (this this' : Migration) : Prop :=
  path_of this' = path_of this
  /\ keyspace (migration_file this') = keyspace (migration_file this)
  /\ service this' = service this
  /\ file_of this' = file_of this.

(** *** The order in which migrations are applied *)

Definition applying_migrations_line : Event :=
  EvInfo (mkLog (js "Applying migrations") []).

(** In the events [tr], wherever the callback of [b] begins, the callback
    of [a] has ended without a failure before, and the wait for agreement
    of the schemas has taken place in between: its line, the polls, and
    right after the last poll the line that the schemas agree. *)
Definition applied_before (tr : list Event) (a b : Migration) : Prop :=
  forall before after,
    tr = before ++ begin_line b :: after ->
    exists pre e mid1 polls mid2,
      before
      = pre ++ e :: mid1
          ++ waiting_line :: polls ++ EvProbe :: agreement_line :: mid2
      /\ end_line a false e
      /\ Forall (fun poll => poll = EvProbe) polls.

(** Two migrations of the same keyspace and service directory. *)
Definition same_directory (a b : Migration) : Prop :=
  keyspace (migration_file a) = keyspace (migration_file b)
  /\ service a = service b.

(** Two services, the first with two migrations that the walk returns in
    the reverse of their order. *)
Definition rounds_disk : list (FilePath * jsstring) :=
  [ ([js "foo"; js "users"; js "0002-index.cql"],
     js "CREATE INDEX ON foo.users (id);");
    ([js "foo"; js "users"; js "0001-initial.cql"],
     js "CREATE TABLE foo.users (id uuid PRIMARY KEY);");
    ([js "foo"; js "orders"; js "0001-initial.cql"],
     js "CREATE TABLE foo.orders (id uuid PRIMARY KEY);") ].

Definition rounds_machine : Machine Scripted.env :=
  mkMachine Scripted.env (Scripted.mkWorld 2000%Z rounds_disk [] []) [].

Definition rounds_first : Migration :=
  mkMigration
    (mkCqlFile (js "foo") (js "0001-initial.cql") None false
       [js "foo"; js "users"; js "0001-initial.cql"]
       (js "CREATE TABLE foo . users ( id uuid PRIMARY KEY ) ;"))
    (js "users") None.

Definition rounds_second : Migration :=
  mkMigration
    (mkCqlFile (js "foo") (js "0002-index.cql") None false
       [js "foo"; js "users"; js "0002-index.cql"]
       (js "CREATE INDEX ON foo . users ( id ) ;"))
    (js "users") None.

Definition rounds_migrations : MigrationMap :=
  [ (js "users", [rounds_first; rounds_second]); (js "orders", [sample_orders]) ].

(** *** File names outside ASCII *)

(** The order of the UTF-8 bytes of two names. *)
Definition bytes_ltb (a b : jsstring) : bool :=
  jsstring_ltb (utf8_encode a) (utf8_encode b).

(** U+FF21, one code unit, three bytes EF BC A1. *)
Definition fullwidth_name : jsstring := [65313%N] ++ js ".cql".

(** U+1F600, the code units D83D DE00, four bytes F0 9F 98 80. *)
Definition emoji_name : jsstring := [55357%N; 56832%N] ++ js ".cql".

Definition unicode_body : jsstring :=
  js "CREATE TABLE foo . users ( id uuid PRIMARY KEY ) ;".

Definition unicode_migration (name : jsstring) : Migration :=
  mkMigration
    (mkCqlFile (js "foo") name None false [js "foo"; js "users"; name]
       unicode_body)
    (js "users") None.

Definition unicode_disk : list (FilePath * jsstring) :=
  [ ([js "foo"; js "users"; fullwidth_name],
     js "CREATE TABLE foo.users (id uuid PRIMARY KEY);");
    ([js "foo"; js "users"; emoji_name],
     js "CREATE TABLE foo.users (id uuid PRIMARY KEY);") ].

Definition unicode_machine : Machine Scripted.env :=
  mkMachine Scripted.env (Scripted.mkWorld 2000%Z unicode_disk [] []) [].

Definition unicode_migrations : MigrationMap :=
  [ (js "users", [unicode_migration emoji_name; unicode_migration fullwidth_name]) ].

(** The machine [loadFiles] leaves, the run of [applyMigrations] from it,
    and the events of that run after its first line. *)
Definition unicode_loaded : Machine Scripted.env :=
  snd (exec (Migrator.loadFiles default_config) unicode_machine).

Definition unicode_run : Outcome unit * Process Scripted.env :=
  run (Migrator.applyMigrations default_config 1 unicode_migrations)
    (mkProcess unicode_loaded [] []).

Definition unicode_trace : list Event :=
  skipn (S (length (trace unicode_loaded))) (trace (machine (snd unicode_run))).
(** * More of the code

    Definitions for the properties of the code beyond the statements
    above. *)

(** ** Patterns as sets of strings *)


(** The strings a pattern matches. An iteration of a star is never empty. *)
Inductive Lang : Re -> jsstring -> Prop :=
| Lang_cls : forall (p : N -> bool) c, p c = true -> Lang (Cls p) [c]
| Lang_seq : forall r1 r2 a b,
    Lang r1 a -> Lang r2 b -> Lang (Seq r1 r2) (a ++ b)
| Lang_alt_l : forall r1 r2 a, Lang r1 a -> Lang (Alt r1 r2) a
| Lang_alt_r : forall r1 r2 a, Lang r2 a -> Lang (Alt r1 r2) a
| Lang_star_nil : forall r, Lang (Star r) []
| Lang_star_cons : forall r a b,
    Lang r a -> a <> [] -> Lang (Star r) b -> Lang (Star r) (a ++ b)
| Lang_lazy_nil : forall r, Lang (StarLazy r) []
| Lang_lazy_cons : forall r a b,
    Lang r a -> a <> [] -> Lang (StarLazy r) b -> Lang (StarLazy r) (a ++ b).

(** The pattern of a token type in [Lexer.rules]. *)
Definition pattern_of (ty : Lexer.TokenType) : Re :=
  match ty with
  | Lexer.string_ => Lexer.stringPattern
  | Lexer.comment => Lexer.commentPattern
  | Lexer.uuid => Lexer.uuidPattern
  | Lexer.whitespace => Plus (Cls is_space)
  | Lexer.symbol => Cls is_nonword
  | Lexer.identifierOrValue => Plus (Cls is_word)
  end.

(** A pattern that matches the empty string. *)
Fixpoint nullable (r : Re) : bool :=
  match r with
  | Cls _ => false
  | Seq r1 r2 => nullable r1 && nullable r2
  | Alt r1 r2 => nullable r1 || nullable r2
  | Star _ | StarLazy _ => true
  end.

Fixpoint starts_with (p s : jsstring) : bool :=
  match p, s with
  | [], _ => true
  | x :: p', y :: s' => N.eqb x y && starts_with p' s'
  | _ :: _, [] => false
  end.

Definition ends_with (p s : jsstring) : bool := starts_with (rev p) (rev s).

(** What the text of a token of each type looks like. *)
Definition well_shaped (tok : Lexer.Token) : bool :=
  let v := Lexer.value tok in
  match Lexer.type tok with
  | Lexer.string_ =>
      Nat.leb 2 (length v)
      && ((starts_with [Lexer.quote] v && ends_with [Lexer.quote] v)
          || (starts_with [Lexer.dquote] v && ends_with [Lexer.dquote] v))
  | Lexer.comment =>
      (Nat.leb 4 (length v)
       && starts_with [Lexer.slash; Lexer.star] v
       && ends_with [Lexer.star; Lexer.slash] v)
      || ((starts_with [Lexer.slash; Lexer.slash] v
           || starts_with [Lexer.dash; Lexer.dash] v)
          && forallb is_dot v)
  | Lexer.uuid =>
      Nat.eqb (length v) 36
      && forallb (fun c => is_lhex c || N.eqb c Lexer.dash) v
  | Lexer.whitespace => negb (Nat.eqb (length v) 0) && forallb is_space v
  | Lexer.symbol =>
      match v with
      | [c] => negb (is_word c) && negb (is_space c)
      | _ => false
      end
  | Lexer.identifierOrValue =>
      negb (Nat.eqb (length v) 0) && forallb is_word v
  end.


(** A code unit that is not half of a surrogate pair. *)
Definition not_surrogate (c : N) : bool :=
  (N.ltb c 55296 || N.leb 57344 c) && N.ltb c 65536.


(** ** Records and the statements made of them *)

(** A key whose value [createQueryArrays] keeps: a number, a string, a
    boolean or an object, [null] among the objects; not [undefined], a
    function, a symbol or a bigint. *)
Definition storable (kv : string * Value) : bool :=
  match snd kv with
  | VUndefined | VFunction | VSymbol | VBigInt _ => false
  | _ => true
  end.

(** The parameter made of a value that is kept: for a [StorableDate] the
    time uuid, the local date or the date that its storage method asks
    for, any other value as it is. *)
Definition stored (v : Value) : Value :=
  match v with
  | VStorableDate dateTime =>
      match getStorageMethod dateTime with
      | UUID => VTimeUuid (getDate dateTime)
      | DATE_ONLY => VLocalDate (getDate dateTime)
      | TIMESTAMP => VDate (getDate dateTime)
      end
  | _ => v
  end.

(** A record with all that [createQueryArrays] tells apart, and a time to
    live of one day. *)
Definition mixed_record : JsObject :=
  [ ("name", VString (js "lock"));
    ("note", VUndefined);
    ("seen", VStorableDate (new_StorableDate 1000%Z (Some UUID)));
    ("day", VStorableDate (new_StorableDate 1000%Z (Some DATE_ONLY)));
    ("at", VStorableDate (new_StorableDate 1000%Z None));
    ("gone", VNull);
    ("toString", VFunction);
    ("count", VNumber 3%Z) ].

Definition no_savable_fields : jsstring :=
  js "Input object does not have any savable fields".

(** The statement [insert] builds for the columns [columns]. *)
Definition insert_statement (table : jsstring) (columns : list string)
  (ttl : option Z) (ifNotExists : bool) : jsstring :=
  js "INSERT INTO " ++ table ++ js " ("
    ++ join (js ",") (map quoted columns)
    ++ js ") VALUES (" ++ join (js ",") (repeat (js "?") (length columns))
    ++ js ")"
    ++ (if ifNotExists then js " IF NOT EXISTS" else [])
    ++ match ttl with
       | Some n => js " USING TTL " ++ Number_toString n
       | None => []
       end
    ++ js ";".


(** ** The statements of [apply] *)

(** A statement [Migration.apply] may hand to the driver for a body: the
    insert of the migration's row, or a segment of the body between two
    semicolons that is not blank, through the default client. *)
Definition apply_statement (body : jsstring) (e : Event) : Prop :=
  match e with
  | EvExecute ks q _ _ =>
      (ks = js "cqlmigrate" /\ q = migrations_insert)
      \/ (ks = []
          /\ In q (split_on semicolon body)
          /\ blank q = false
          /\ ~ In semicolon q)
  | _ => True
  end.

(** The lines of [Migrator.init]. *)
Definition applying_init_line : Event :=
  EvInfo (mkLog (js "Applying init file") []).

Definition init_applied_line : Event :=
  EvInfo (mkLog (js "Init file applied") []).


(** ** The steps of [start] before the lock is held *)

Definition error_preparing (error : Err) : Event :=
  EvError (mkLog (js "Error preparing for migration") [("error", VString error)]).

Definition lock_not_acquired : Err :=
  js "Failed to acquire lock, can not continue".

(** A disk with the init file alone, and a cluster that answers the
    statement of the init file and then refuses the lock. *)
Definition locked_out_world : Scripted.world :=
  Scripted.mkWorld 2000%Z
    [ ([js "cqlmigrate.cql"], js "CREATE KEYSPACE IF NOT EXISTS cqlmigrate;") ]
    [ inr Scripted.applied; inr (mkResultSet false []) ]
    [].


(** ** What [loadFiles] takes from the directory *)

(** The test of the first branch of the loop of [loadFiles]. *)
Definition is_bootstrap_path (config : Config) (file : FilePath) : bool :=
  jsstring_eqb (Migrator.basename file) (bootstrapFilename config)
  && Nat.eqb (Migrator.getFileDepth file) 1.

(** The test of its second branch, reached when the first fails. *)
Definition is_migration_path (config : Config) (file : FilePath) : bool :=
  negb (is_bootstrap_path config file)
  && Nat.eqb (Migrator.getFileDepth file) 2.

Definition bootstrap_path (b : Bootstrap) : FilePath :=
  filePath (bootstrap_file b).

(** A migration that loading lets through: not one that the state store
    returned with a timestamp and [success = false]. *)
Definition may_be_loaded (migration : Migration) : Prop :=
  success (migration_file migration) = true
  \/ appliedOn (migration_file migration) = None.

(** Files at every depth: the init file, a bootstrap, a stray file beside
    it, two files of a service directory of which one has the name of a
    bootstrap, and a file below the service directory. *)
Definition layout_disk : list (FilePath * jsstring) :=
  [ ([js "cqlmigrate.cql"], js "CREATE KEYSPACE IF NOT EXISTS cqlmigrate;");
    ([js "foo"; js "bootstrap.cql"], js "CREATE KEYSPACE IF NOT EXISTS foo;");
    ([js "foo"; js "notes.cql"], js "-- nothing");
    ([js "foo"; js "users"; js "bootstrap.cql"], js "CREATE TABLE foo.a (id int PRIMARY KEY);");
    ([js "foo"; js "users"; js "0001-initial.cql"],
     js "CREATE TABLE foo.users (id uuid PRIMARY KEY);");
    ([js "foo"; js "users"; js "old"; js "0000.cql"], js "DROP TABLE foo.users;") ].

Definition layout_machine : Machine Scripted.env :=
  mkMachine Scripted.env (Scripted.mkWorld 2000%Z layout_disk [] []) [].


(** ** Rounds and the wait for schema agreement *)

Section Polls.

Variable E : Env.
Variable ms : Z.

(** [n] polls in a row that find the schemas not in agreement, each
    followed by a sleep of [ms] milliseconds. *)
Inductive Disagreed : World E -> nat -> World E -> Prop :=
| Disagreed_done : forall w, Disagreed w 0 w
| Disagreed_again : forall w w1 n w',
    schema_agreement E w = (inr false, w1) ->
    Disagreed (sleep E ms w1) n w' ->
    Disagreed w (S n) w'.

End Polls.

(** A cluster that reports agreement at the third poll. *)
Definition slow_world : Scripted.world :=
  Scripted.mkWorld 2000%Z [] [] [inr false; inr false; inr true].


(** ** What the main flow is bound to do *)

(** The main flow [p] never ends the process. *)
Fixpoint no_exit A (p : Prog A) : Prop :=
  match p with
  | Exit _ => False
  | Await o k => forall x, no_exit (k x)
  | PromiseAll ts k => forall r, no_exit (k r)
  | _ => True
  end.

(** Whatever the world answers, the main flow [p] comes to an operation
    that leaves the event [e], unless it waits for ever before. *)
Fixpoint Must (e : Event) A (p : Prog A) : Prop :=
  match p with
  | Return _ | Raise _ | Exit _ => False
  | Pending => True
  | Await o k => In e (event_of o) \/ forall x, Must e (k x)
  | PromiseAll ts k => forall r, Must e (k r)
  end.


(** ** What [Migration.init] reads *)

Definition select_event (this : Migration) : Event :=
  EvExecute (js "cqlmigrate") migration_select
    [ VString (keyspace (migration_file this)); VString (service this);
      VString (file (migration_file this)) ]
    (mkOptions (Some all) None (Some true)).

(** The migration with what the row holds, when there is a row. *)
Definition hydrated (this : Migration) (row : option MigrationRow) : Migration :=
  match row with
  | Some row =>
      mkMigration
        (set_success (row_success row)
           (set_appliedOn (row_applied_on row) (migration_file this)))
        (service this) (row_checksum row)
  | None => this
  end.


(** ** [checkSchemaAgreement] on the rows it reads

    What [checkSchemaAgreement] computes from the answers to its two
    selects, [system.local] and then [system.peers]. Addresses and
    versions are kept as the strings [toString] gives. *)

(** A row of [system.peers], with the fields the function reads. *)
Record PeerRow : Type := mkPeerRow {
  peer : option jsstring;
  data_center : option jsstring;
  rack : option jsstring;
  rpc_address : option jsstring;
  peer_schema_version : option jsstring
}.

(** A row of [system.local]: its [schema_version]. *)
Record LocalRow : Type := mkLocalRow { local_schema_version : option jsstring }.

(** [versions.add(v)] on a [Set<string>] kept in insertion order. *)
Definition Set_add (v : jsstring) (versions : list jsstring) : list jsstring :=
  if existsb (jsstring_eqb v) versions then versions else versions ++ [v].

Definition peer_down_line (p : PeerRow) : LogRecord :=
  mkLog
    (js "Peer node is not up. Schemas can not be in agreement until it has been brought up "
       ++ js "or removed with " ++ [34%N] ++ js "nodetool remove" ++ [34%N])
    [ ("peer", value_of_string (peer p));
      ("datacenter", value_of_string (data_center p));
      ("rack", value_of_string (rack p)) ].

Definition version_of_null : Err :=
  js "TypeError: Cannot read property 'toString' of null".

(** The [for ... of] loop over the peers. [hosts] is [client.hosts.get]
    followed by [isUp]: [None] where the driver knows no such host. *)
Fixpoint peers_loop (hosts : jsstring -> option bool) (peers : list PeerRow)
  (versions : list jsstring) (lines : list LogRecord)
  : list LogRecord * (Err + list jsstring) :=
  match peers with
  | [] => (lines, inr versions)
  | p :: peers' =>
      let lines :=
        match peer p, rpc_address p with
        | Some _, Some address =>
            match hosts address with
            | Some true => lines
            | _ => lines ++ [peer_down_line p]
            end
        | _, _ => lines
        end in
      match peer_schema_version p with
      | None => (lines, inl version_of_null)
      | Some v => peers_loop hosts peers' (Set_add v versions) lines
      end
  end.

(** The function from the two answers: the lines it logs at level info, and
    what it returns or throws. *)
Definition checkSchemaAgreement_on (hosts : jsstring -> option bool)
  (localResult : Err + list LocalRow) (peerResult : Err + list PeerRow)
  : list LogRecord * (Err + bool) :=
  match localResult with
  | inl error =>
      ([CassandraClient.query_error (js "SELECT * FROM system.local") error],
       inl error)
  | inr localRows =>
      match peerResult with
      | inl error =>
          ([CassandraClient.query_error (js "SELECT * FROM system.peers") error],
           inl error)
      | inr peerRows =>
          match hd_error localRows with
          | None => ([], inr false)
          | Some localRow =>
              match local_schema_version localRow with
              | None => ([], inr false)
              | Some v =>
                  match peers_loop hosts peerRows (Set_add v []) [] with
                  | (lines, inl error) => (lines, inl error)
                  | (lines, inr versions) =>
                      (lines, inr (Nat.leb (length versions) 1))
                  end
              end
          end
      end
  end.


(** ** Bootstraps *)

(** The statement [save] sends for a bootstrap, and its parameters. *)
Definition bootstraps_insert : jsstring :=
  js "INSERT INTO bootstraps ("
    ++ join (js ",")
         (map quoted ["keyspace_name"; "applied_on"; "file"; "body"; "success"])
    ++ js ") VALUES (?,?,?,?,?) USING TTL 0;".

Definition bootstrap_write (this : Bootstrap) (t : Time) (ok : bool) : Event :=
  EvExecute (js "cqlmigrate") bootstraps_insert
    [ VString (keyspace (bootstrap_file this)); VDate t;
      VString (file (bootstrap_file this));
      VString (fileBody (bootstrap_file this)); VBoolean ok ]
    save_options.

(** The events of an [apply] of a bootstrap that went through: the row
    with the flag the bootstrap had, the commands of its body, the row
    with [success = true]. *)
Definition bootstrap_applied (config : Config) (this : Bootstrap)
  (tr : list Event) : Prop :=
  exists t1 t2,
    tr = bootstrap_write this t1 (success (bootstrap_file this))
         :: map (command_event config) (commands (fileBody (bootstrap_file this)))
         ++ [bootstrap_write this t2 true].

Definition applying_bootstraps_line : Event :=
  EvInfo (mkLog (js "Applying bootstraps") []).

Definition bootstraps_applied_line : Event :=
  EvInfo (mkLog
    (js "Bootstraps applied, waiting for schema agreement before continuing") []).


(** ** The canonical form is a fixed point *)

(** A pattern made of character classes in sequence. *)
Fixpoint simple (r : Re) : bool :=
  match r with
  | Cls _ => true
  | Seq r1 r2 => simple r1 && simple r2
  | _ => false
  end.

(** What is left of [s] after the body of a string between quotes [q] and
    its closing quote, as the greedy star finds them: characters other than
    the quote are taken, a doubled quote is taken whenever a closing quote
    follows later, the first quote left is the closing one. *)
Fixpoint after_string (q : N) (s : jsstring) : option jsstring :=
  match s with
  | [] => None
  | c :: s' =>
      if N.eqb c q then
        match s' with
        | d :: s'' =>
            if N.eqb d q then
              match after_string q s'' with
              | Some rest => Some rest
              | None => Some s'
              end
            else Some s'
        | [] => Some s'
        end
      else after_string q s'
  end.

(** The pattern of a string between quotes [q]. *)
Definition quoted_re (q : N) : Re :=
  Seq (Chr q)
      (Seq (Star (Alt (Cls (is_not q)) (Seq (Chr q) (Chr q)))) (Chr q)).

(** The loop of the greedy star in [rmatch], on its own. *)
Section Star_loop.

Variable step : jsstring -> (jsstring -> option jsstring) -> option jsstring.
Variable k : jsstring -> option jsstring.

Fixpoint star_loop (n : nat) (s : jsstring) {struct n} : option jsstring :=
  match n with
  | O => k s
  | S n' =>
      match step s (fun s1 =>
              if Nat.ltb (length s1) (length s) then star_loop n' s1
              else None) with
      | Some x => Some x
      | None => k s
      end
  end.

End Star_loop.

(** A token [getRequiredTokens] keeps. *)
Definition required (tok : Lexer.Token) : bool :=
  negb (Lexer.includes Lexer.optionalTokenTypes (Lexer.type tok)).

(** Required tokens as a scan meets them: each one is what [Lexer.next]
    gives in front of some rest of the input, and that rest holds every
    character of the tokens that come after. *)
Inductive Chain : list Lexer.Token -> Prop :=
| Chain_nil : Chain []
| Chain_cons : forall tok toks rest0,
    Lexer.next (Lexer.value tok ++ rest0) = Some tok ->
    required tok = true ->
    incl (concat (map Lexer.value toks)) rest0 ->
    Chain toks ->
    Chain (tok :: toks).


(** ** How [start] ends *)

(** What the main flow [p] throws satisfies [T], and the codes it ends the
    process with satisfy [C]. *)
Fixpoint finishes_with (T : Err -> Prop) (C : option Z -> Prop) A (p : Prog A)
  : Prop :=
  match p with
  | Raise e => T e
  | Exit code => C code
  | Await o k => forall x, finishes_with T C (k x)
  | PromiseAll ts k => forall r, finishes_with T C (k r)
  | _ => True
  end.

(** The main flow [p] does not return before an operation that leaves the
    event [e]. *)
Fixpoint returns_after (e : Event) A (p : Prog A) : Prop :=
  match p with
  | Return _ => False
  | Await o k => In e (event_of o) \/ forall x, returns_after e (k x)
  | PromiseAll ts k => forall r, returns_after e (k r)
  | _ => True
  end.

(** The codes [start] hands to [process.exit]. *)
Definition start_code (code : option Z) : Prop :=
  code = Some 1%Z \/ code = None.


(** * Properties *)

(** ** The lexer and the canonical form *)

(** The lexer agrees with the token counts of [test/lexer.ts] and the
    canonicalizer with the outputs of [test/canonicalize.ts]. *)
Example lexer_test_counts :
  token_count (Lexer.getTokens createTableCql []) = Some 50
  /\ token_count (Lexer.getRequiredTokens createTableCql) = Some 27
  /\ token_count (Lexer.getTokens insertCql []) = Some 40
  /\ token_count (Lexer.getRequiredTokens insertCql) = Some 27.
Proof. vm_compute. repeat split; reflexivity. Qed.

Example canonicalize_tests :
  canonicalizeCql createTableCql
  = inr (js "CREATE TABLE foo . bar ( baz text , bing set < text > , bork int , PRIMARY KEY ( ( baz ) ) ) ;")
  /\ canonicalizeCql insertCql
     = inr (js "INSERT INTO foo . bar ( baz , bing , bork ) VALUES ( 'foo''s' , { 'a' , 'b' , 'c' } , 23 ) ;").
Proof. vm_compute. split; reflexivity. Qed.

(** C8: [canonicalizeCql] maps the commented multi-line CREATE TABLE example
    and the INSERT example with a doubled quote to the outputs the
    specification gives, and the escaped string literal of the second is
    one token of the lexer. *)
Theorem canonicalize_spec_examples :
  canonicalizeCql create_table_example
  = inr (js "CREATE TABLE foo . bar ( baz text , PRIMARY KEY ( ( baz ) ) ) ;")
  /\ canonicalizeCql insert_example
     = inr (js "INSERT INTO foo . bar ( baz ) VALUES ( 'foo''s' ) ;")
  /\ (exists toks,
        Lexer.getRequiredTokens insert_example = inr toks
        /\ In (Lexer.mkToken Lexer.string_ (js "'foo''s'")) toks).
Proof.
  split; [vm_compute; reflexivity|].
  split; [vm_compute; reflexivity|].
  eexists. split; [vm_compute; reflexivity|].
  vm_compute. tauto.
Qed.

(** ** The checksum *)

(** C9: [getCqlChecksum] is the hexadecimal MD5 digest of the UTF-8 bytes of
    its input, and gives the three fixed values of [test/checksum.ts]. *)
Theorem checksum_is_md5_hex :
  (forall s, getCqlChecksum s = hex_encode (MD5.digest (utf8_encode s)))
  /\ getCqlChecksum (js "this is some string")
     = js "0e1eb663ad4cbb70b7d262f813bfbec4"
  /\ getCqlChecksum (js "this is another string")
     = js "7cd1136eb26ea58d5ac6762168db7f7f"
  /\ getCqlChecksum (js "foo bar baz")
     = js "ab07acbb1e496801937adfa772424bf7".
Proof.
  split; [reflexivity|].
  repeat split; vm_compute; reflexivity.
Qed.

(** The MD5 transcription gives the digests of the RFC 1321 test suite. *)
Example md5_rfc1321_suite :
  getCqlChecksum [] = js "d41d8cd98f00b204e9800998ecf8427e"
  /\ getCqlChecksum (js "abc") = js "900150983cd24fb0d6963f7d28e17f72"
  /\ getCqlChecksum (js "message digest") = js "f96b697d7cb7938d525a2f31aaf161d0"
  /\ getCqlChecksum
       (js "12345678901234567890123456789012345678901234567890123456789012345678901234567890")
     = js "57edf4a22be3c955ac49da2e2107b67a".
Proof. repeat split; vm_compute; reflexivity. Qed.

(** ** Lexing never fails *)

Section Lexer_total.

Lemma star_never_fails :
  forall r k s, (forall s', k s' <> None) -> rmatch (Star r) s k <> None.
Proof.
  intros r k s Hk. simpl.
  generalize (length s) as n. revert s.
  intros s n. revert s.
  induction n as [|n IH]; intros s.
  - apply Hk.
  - match goal with
    | |- match ?x with _ => _ end <> None => destruct x
    end.
    + discriminate.
    + apply Hk.
Qed.

Lemma exec_re_class :
  forall p c s, p c = true -> exec_re (Cls p) (c :: s) = Some [c].
Proof.
  intros p c s Hp. unfold exec_re.
  change (rmatch (Cls p) (c :: s) (fun rest => Some rest))
    with (if p c then Some s else None).
  rewrite Hp.
  change (length (c :: s)) with (S (length s)).
  replace (S (length s) - length s) with 1 by lia.
  reflexivity.
Qed.

Lemma exec_re_plus_class :
  forall p c s, p c = true -> exec_re (Plus (Cls p)) (c :: s) <> None.
Proof.
  intros p c s Hp. unfold exec_re, Plus.
  change (rmatch (Seq (Cls p) (Star (Cls p))) (c :: s) (fun rest => Some rest))
    with (if p c then rmatch (Star (Cls p)) s (fun rest => Some rest) else None).
  rewrite Hp.
  destruct (rmatch (Star (Cls p)) s (fun rest => Some rest)) eqn:Hm.
  - discriminate.
  - exfalso. revert Hm. apply star_never_fails. discriminate.
Qed.

(** At a position that is not the end of the buffer some rule matches: the
    symbol rule on a non-word character, the identifier rule on a word
    character, unless an earlier rule already did. *)
Lemma next_matches :
  forall c s, exists tok, Lexer.next (c :: s) = Some tok.
Proof.
  intros c s. unfold Lexer.next, Lexer.rules, Lexer.first_rule.
  destruct (exec_re Lexer.stringPattern (c :: s)); [eexists; reflexivity|].
  destruct (exec_re Lexer.commentPattern (c :: s)); [eexists; reflexivity|].
  destruct (exec_re Lexer.uuidPattern (c :: s)); [eexists; reflexivity|].
  destruct (exec_re (Plus (Cls is_space)) (c :: s)); [eexists; reflexivity|].
  destruct (is_word c) eqn:Hw.
  - destruct (exec_re (Cls is_nonword) (c :: s)); [eexists; reflexivity|].
    destruct (exec_re (Plus (Cls is_word)) (c :: s)) eqn:Hid;
      [eexists; reflexivity|].
    exfalso. revert Hid. apply exec_re_plus_class. exact Hw.
  - rewrite exec_re_class by (unfold is_nonword; rewrite Hw; reflexivity).
    eexists; reflexivity.
Qed.

Lemma scan_succeeds :
  forall s skip, exists toks, Lexer.scan s skip = inr toks.
Proof.
  induction s as [|c s IH]; intros skip.
  - exists []. reflexivity.
  - destruct skip as [|n].
    + destruct (next_matches c s) as [tok Htok].
      destruct (IH (length (Lexer.value tok) - 1)) as [toks Htoks].
      exists (tok :: toks).
      change (Lexer.scan (c :: s) 0)
        with (match Lexer.next (c :: s) with
              | None => inl Lexer.invalid_syntax
              | Some tok =>
                  match Lexer.scan s (length (Lexer.value tok) - 1) with
                  | inl e => inl e
                  | inr toks => inr (tok :: toks)
                  end
              end).
      rewrite Htok, Htoks. reflexivity.
    + destruct (IH n) as [toks Htoks]. exists toks. exact Htoks.
Qed.

End Lexer_total.

(** C10: for every input string a rule matches at every scan position, the
    lexer returns its tokens and [canonicalizeCql] returns a string: the
    branch where the lexer throws is not reachable. *)
Theorem canonicalizeCql_total :
  forall cql : jsstring,
    (forall c rest, exists tok, Lexer.next (c :: rest) = Some tok)
    /\ (exists toks, Lexer.getTokens cql [] = inr toks)
    /\ (exists canonical, canonicalizeCql cql = inr canonical).
Proof.
  intros cql. split; [apply next_matches|].
  destruct (scan_succeeds cql 0) as [toks Htoks].
  split.
  - unfold Lexer.getTokens. rewrite Htoks. eexists; reflexivity.
  - unfold canonicalizeCql, Lexer.getRequiredTokens, Lexer.getTokens.
    rewrite Htoks. eexists; reflexivity.
Qed.

(** ** Running tasks: the equations of [exec] *)

Arguments getCqlChecksum : simpl never.
Arguments canonicalizeCql : simpl never.
Arguments Number_toString : simpl never.
Arguments js : simpl never.

Section Exec_equations.

Variable E : Env.

Lemma exec_bind :
  forall A B (t : Task A) (f : A -> Task B) (m : Machine E),
    exec (bind t f) m
    = match exec t m with
      | (inr a, m') => exec (f a) m'
      | (inl e, m') => (inl e, m')
      end.
Proof.
  induction t as [a|e|X o k IH]; intros f m; simpl; try reflexivity.
  destruct (perform o m) as [x m']. apply IH.
Qed.

Lemma exec_try_catch :
  forall A (t : Task A) (h : Err -> Task A) (m : Machine E),
    exec (try_catch t h) m
    = match exec t m with
      | (inr a, m') => (inr a, m')
      | (inl e, m') => exec (h e) m'
      end.
Proof.
  induction t as [a|e|X o k IH]; intros h m; simpl; try reflexivity.
  destruct (perform o m) as [x m']. apply IH.
Qed.

Lemma exec_info :
  forall msg d (m : Machine E),
    exec (logger.info msg d) m
    = (inr tt, mkMachine E (world m) (trace m ++ [EvInfo (mkLog msg d)])).
Proof. reflexivity. Qed.

Lemma exec_error :
  forall msg d (m : Machine E),
    exec (logger.error msg d) m
    = (inr tt, mkMachine E (world m) (trace m ++ [EvError (mkLog msg d)])).
Proof. reflexivity. Qed.

Lemma exec_NewDate :
  forall (m : Machine E),
    exec (trigger NewDate) m = (inr (now E (world m)), m).
Proof.
  intros [w tr]. simpl. unfold perform. simpl. rewrite app_nil_r. reflexivity.
Qed.

Lemma exec_execute :
  forall ks q ps opts (m : Machine E),
    exec (CassandraClient.execute ks q ps opts) m
    = match client_execute E ks q ps (CassandraClient.prepared opts) (world m) with
      | (inr rs, w) =>
          (inr rs,
           mkMachine E w
             (trace m ++ [EvExecute ks q ps (CassandraClient.prepared opts)]))
      | (inl e, w) =>
          (inl e,
           mkMachine E w
             (trace m ++ [EvExecute ks q ps (CassandraClient.prepared opts);
                          EvInfo (CassandraClient.query_error q e)]))
      end.
Proof.
  intros ks q ps opts m. unfold CassandraClient.execute.
  simpl. unfold perform. simpl.
  destruct (client_execute E ks q ps (CassandraClient.prepared opts) (world m))
    as [[e|rs] w]; simpl.
  - unfold perform. simpl. rewrite <- app_assoc. reflexivity.
  - reflexivity.
Qed.

End Exec_equations.

(** ** The lock *)

Lemma acquire_is_conditional_insert :
  forall client,
    CassandraClient.insert lock.keyspace lock.table
      [("name", VString lock.name); ("client", VString client)]
      (Some lock.TTL) true (mkOptions (Some all) None None)
    = CassandraClient.execute lock.keyspace acquire_query (lock_params client)
        (mkOptions (Some all) None None).
Proof. reflexivity. Qed.

Section Lock_runs.

Variable E : Env.
Variable client : jsstring.

Lemma exec_acquire :
  forall m : Machine E,
    let answer :=
      client_execute E lock.keyspace acquire_query (lock_params client)
        lock_options (world m) in
    exec (lock.acquire client) m
    = (inr (reported (fst answer)),
       mkMachine E (snd answer)
         (trace m
            ++ [EvInfo (mkLog (js "Attempting to acquire lock")
                          [("client", VString client)]);
                EvExecute lock.keyspace acquire_query (lock_params client)
                  lock_options]
            ++ query_error_line acquire_query (fst answer))).
Proof.
  intros m answer.
  unfold lock.acquire. rewrite acquire_is_conditional_insert.
  rewrite exec_bind, exec_info, exec_try_catch, exec_bind, exec_execute.
  cbn [world trace]. subst answer.
  change (CassandraClient.prepared (mkOptions (Some all) None None))
    with lock_options.
  destruct (client_execute E lock.keyspace acquire_query (lock_params client)
              lock_options (world m)) as [[e|rs] w]; simpl;
    rewrite <- app_assoc; reflexivity.
Qed.

Lemma exec_release :
  forall m : Machine E,
    let answer :=
      client_execute E lock.keyspace release_query (lock_params client)
        lock_options (world m) in
    exec (lock.release client) m
    = (inr (reported (fst answer)),
       mkMachine E (snd answer)
         (trace m
            ++ [attempting_to_release client; release_statement client]
            ++ query_error_line release_query (fst answer))).
Proof.
  intros m answer.
  unfold lock.release.
  rewrite exec_bind, exec_info, exec_try_catch, exec_bind.
  change (js "DELETE FROM " ++ lock.table ++ js " WHERE name = ? IF client = ?")
    with release_query.
  change [VString lock.name; VString client] with (lock_params client).
  rewrite exec_execute.
  cbn [world trace]. subst answer.
  change (CassandraClient.prepared (mkOptions (Some all) None None))
    with lock_options.
  destruct (client_execute E lock.keyspace release_query (lock_params client)
              lock_options (world m)) as [[e|rs] w]; simpl;
    rewrite <- app_assoc; reflexivity.
Qed.

End Lock_runs.

(** C6: [acquire] returns what the conditional insert of the lock row
    reports as applied, [release] what the conditional delete reports; when
    the driver throws both return false, and neither ever throws. Each
    sends its one statement at consistency ALL. *)
Theorem lock_reports_was_applied :
  forall (E : Env) (client : jsstring) (m : Machine E),
    let answer query :=
      client_execute E lock.keyspace query (lock_params client) lock_options
        (world m) in
    exec (lock.acquire client) m
    = (inr (reported (fst (answer acquire_query))),
       mkMachine E (snd (answer acquire_query))
         (trace m
            ++ [EvInfo (mkLog (js "Attempting to acquire lock")
                          [("client", VString client)]);
                EvExecute lock.keyspace acquire_query (lock_params client)
                  lock_options]
            ++ query_error_line acquire_query (fst (answer acquire_query))))
    /\ exec (lock.release client) m
       = (inr (reported (fst (answer release_query))),
          mkMachine E (snd (answer release_query))
            (trace m
               ++ [EvInfo (mkLog (js "Attempting to release lock")
                             [("client", VString client)]);
                   EvExecute lock.keyspace release_query (lock_params client)
                     lock_options]
               ++ query_error_line release_query (fst (answer release_query)))).
Proof.
  intros E client m answer. split.
  - apply exec_acquire.
  - apply exec_release.
Qed.

(** ** [Migration.apply] *)

Lemma jsstring_eqb_eq :
  forall a b, jsstring_eqb a b = true <-> a = b.
Proof.
  intros a b. unfold jsstring_eqb.
  destruct (list_eq_dec N.eq_dec a b); split; intros; congruence.
Qed.

Lemma checksum_differs_iff :
  forall stored current,
    checksum_differs stored current = true <-> stored <> Some current.
Proof.
  intros [c|] current; simpl.
  - destruct (jsstring_eqb c current) eqn:Heq; simpl.
    + apply jsstring_eqb_eq in Heq. subst. split; [discriminate|congruence].
    + split; [|reflexivity]. intros _ Hc. injection Hc as Hc.
      apply jsstring_eqb_eq in Hc. congruence.
  - split; [discriminate|reflexivity].
Qed.

(** C1: on a migration whose [success] is true (hydrated from the row of a
    successful run), [apply] sends no statement and leaves the world as it
    was: it writes one console line, throws the checksum-mismatch error
    exactly when the stored checksum is not the checksum of the current
    canonical body, and otherwise returns. *)
Theorem applied_migration_is_only_checked :
  forall (E : Env) (config : Config) (this : Migration) (m : Machine E),
    success (migration_file this) = true ->
    let current := getCqlChecksum (fileBody (migration_file this)) in
    exists r line,
      exec (Migration_apply config this) m
      = (r, mkMachine E (world m) (trace m ++ [line]))
      /\ is_console line
      /\ (r = inl hash_mismatch <-> checksum this <> Some current)
      /\ (checksum this = Some current -> r = inr this).
Proof.
  intros E config this m Hsuccess current. unfold Migration_apply.
  rewrite Hsuccess. fold current.
  destruct (checksum_differs (checksum this) current) eqn:Hdiff.
  - exists (inl hash_mismatch), (EvError (mkLog hash_mismatch (coordinates this))).
    rewrite exec_bind, exec_error. simpl.
    apply checksum_differs_iff in Hdiff.
    repeat split; auto. intros Heq. contradiction.
  - exists (inr this),
      (EvInfo (mkLog (js "Migration has already been applied... skipping")
                 (coordinates this))).
    rewrite exec_bind, exec_info. simpl.
    assert (Hsame : checksum this = Some current).
    { destruct (checksum this) as [c|] eqn:Hc; simpl in Hdiff; [|discriminate].
      apply negb_false_iff, jsstring_eqb_eq in Hdiff. congruence. }
    repeat split; auto.
    + discriminate.
    + intros Hne. contradiction.
Qed.

Lemma applied_migration_is_only_checked_witness :
  success (migration_file sample_applied) = true
  /\ exists r line,
       exec (Migration_apply default_config sample_applied) sample_machine
       = (r, mkMachine Scripted.env (world sample_machine)
               (trace sample_machine ++ [line]))
       /\ is_console line
       /\ (r = inl hash_mismatch
           <-> checksum sample_applied
               <> Some (getCqlChecksum (fileBody (migration_file sample_applied))))
       /\ (checksum sample_applied
           = Some (getCqlChecksum (fileBody (migration_file sample_applied)))
           -> r = inr sample_applied).
Proof.
  split; [reflexivity|].
  apply (applied_migration_is_only_checked default_config sample_applied
           sample_machine).
  reflexivity.
Defined.

(** Hydration copies the row: a row with [success = true] gives an object
    whose [success] is true, with the stored checksum. *)
Lemma hydrated_from_row :
  forall (E : Env) (this : Migration) (m : Machine E) rs w row,
    client_execute E (js "cqlmigrate")
      (js "SELECT * FROM " ++ js "migrations"
         ++ js " WHERE keyspace_name = ? AND service = ? AND file = ?")
      [ VString (keyspace (migration_file this)); VString (service this);
        VString (file (migration_file this)) ]
      (mkOptions (Some all) None (Some true)) (world m) = (inr rs, w) ->
    first rs = Some row ->
    exists this' m',
      exec (fillFromDatastoreIfExists this) m = (inr this', m')
      /\ success (migration_file this') = row_success row
      /\ appliedOn (migration_file this') = row_applied_on row
      /\ checksum this' = row_checksum row
      /\ fileBody (migration_file this') = fileBody (migration_file this).
Proof.
  intros E this m rs w row Hq Hrow. unfold fillFromDatastoreIfExists.
  rewrite exec_bind, exec_execute.
  change (CassandraClient.prepared (mkOptions (Some all) None None))
    with (mkOptions (Some all) None (Some true)).
  rewrite Hq, Hrow. simpl. eexists _, _. split; [reflexivity|].
  simpl. auto.
Qed.

Section Apply_two_phase.

Local Open Scope task_scope.

Variable E : Env.
Variable config : Config.

Lemma machine_eta : forall (m : Machine E), mkMachine E (world m) (trace m ++ []) = m.
Proof. intros [w tr]. simpl. rewrite app_nil_r. reflexivity. Qed.

Lemma exec_command_body :
  forall seg (m : Machine E),
    exec (command_body config seg) m
    = if blank seg then (inr tt, m)
      else match client_execute E [] seg [] (command_options config) (world m) with
           | (inr rs, w) =>
               (inr tt, mkMachine E w (trace m ++ [command_event config seg]))
           | (inl e, w) =>
               (inl e,
                mkMachine E w
                  (trace m ++ [command_event config seg;
                               EvInfo (CassandraClient.query_error seg e)]))
           end.
Proof.
  intros seg m. unfold command_body.
  destruct (blank seg); simpl negb; cbv iota; [reflexivity|].
  rewrite exec_bind, exec_execute.
  change (CassandraClient.prepared
            (mkOptions (Some all) (Some (migrationClientTimeoutMs config)) None))
    with (command_options config).
  destruct (client_execute E [] seg [] (command_options config) (world m))
    as [[e|rs] w]; reflexivity.
Qed.

Lemma exec_commands :
  forall segs (m : Machine E),
    (exists w',
        Executed E config (world m) (filter (fun c => negb (blank c)) segs) w'
        /\ exec (forEach segs (command_body config)) m
           = (inr tt,
              mkMachine E w'
                (trace m ++ map (command_event config)
                              (filter (fun c => negb (blank c)) segs))))
    \/ (exists done c rest w2 e w3,
           filter (fun c => negb (blank c)) segs = done ++ c :: rest
           /\ Executed E config (world m) done w2
           /\ client_execute E [] c [] (command_options config) w2 = (inl e, w3)
           /\ exec (forEach segs (command_body config)) m
              = (inl e,
                 mkMachine E w3
                   (trace m ++ map (command_event config) done
                      ++ [command_event config c;
                          EvInfo (CassandraClient.query_error c e)]))).
Proof.
  induction segs as [|seg segs IH]; intros m.
  - left. exists (world m). split; [constructor|].
    simpl. rewrite machine_eta. reflexivity.
  - assert (Hstep : exec (forEach (seg :: segs) (command_body config)) m
                    = match exec (command_body config seg) m with
                      | (inr _, m') => exec (forEach segs (command_body config)) m'
                      | (inl e, m') => (inl e, m')
                      end) by (simpl forEach; apply exec_bind).
    rewrite Hstep, exec_command_body. clear Hstep.
    simpl filter.
    destruct (blank seg) eqn:Hblank; simpl negb; cbv iota.
    + apply IH.
    + destruct (client_execute E [] seg [] (command_options config) (world m))
        as [[e|rs] w] eqn:Hq.
      * right. exists [], seg, (filter (fun c => negb (blank c)) segs), (world m), e, w.
        repeat split; [constructor|exact Hq].
      * set (m1 := mkMachine E w (trace m ++ [command_event config seg])).
        destruct (IH m1) as [(w' & Hex & Hrun)|(done & c & rest & w2 & e & w3 & Hf & Hex & Hq' & Hrun)].
        -- left. exists w'. split; [econstructor; eassumption|].
           rewrite Hrun. subst m1. simpl. rewrite <- app_assoc. reflexivity.
        -- right. exists (seg :: done), c, rest, w2, e, w3.
           repeat split.
           ++ rewrite Hf. reflexivity.
           ++ econstructor; eassumption.
           ++ exact Hq'.
           ++ rewrite Hrun. subst m1. simpl. rewrite <- app_assoc. reflexivity.
Qed.

Lemma exec_save_row :
  forall ks fl ok fp body svc sum t (m : Machine E),
    let ps := [VString ks; VString svc; VString fl; VString body; VDate t;
               VString sum; VBoolean ok] in
    exec (SavableBase_save (js "cqlmigrate") (js "migrations")
            (Migration_getInsertableObject
               (mkMigration (mkCqlFile ks fl (Some t) ok fp body) svc (Some sum)))) m
    = match client_execute E (js "cqlmigrate") migrations_insert ps
              save_options (world m) with
      | (inr rs, w) =>
          (inr tt,
           mkMachine E w
             (trace m ++ [EvExecute (js "cqlmigrate") migrations_insert ps
                            save_options]))
      | (inl e, w) =>
          (inl e,
           mkMachine E w
             (trace m ++ [EvExecute (js "cqlmigrate") migrations_insert ps
                            save_options;
                          EvInfo (CassandraClient.query_error migrations_insert e)]))
      end.
Proof.
  intros ks fl ok fp body svc sum t m ps.
  change (SavableBase_save (js "cqlmigrate") (js "migrations")
            (Migration_getInsertableObject
               (mkMigration (mkCqlFile ks fl (Some t) ok fp body) svc (Some sum))))
    with (CassandraClient.execute (js "cqlmigrate") migrations_insert ps
            no_options ;; Ret tt).
  rewrite exec_bind, exec_execute.
  change (CassandraClient.prepared no_options) with save_options.
  destruct (client_execute E (js "cqlmigrate") migrations_insert ps save_options
              (world m)) as [[e|rs] w]; reflexivity.
Qed.

End Apply_two_phase.

(** C2: on a migration that was not applied successfully before, [apply]
    sets the checksum, writes the row with [appliedOn] at the current time
    and [success = false] before any command, executes the commands of the
    canonical body (its segments between semicolons that are not blank) one
    after the other in order, and writes the second row, with a new
    [appliedOn] and [success = true], only when every command was answered;
    a command that fails ends the run with the first row the last one
    written. *)
Theorem unapplied_migration_two_phase_write :
  forall (E : Env) (config : Config) (this : Migration) (m : Machine E),
    success (migration_file this) = false ->
    TwoPhase config this m (exec (Migration_apply config this) m).
Proof.
  intros E config [[ks fl on ok fp body] svc cs] m Hsuccess.
  simpl in Hsuccess. subst ok.
  unfold Migration_apply.
  cbv beta iota zeta delta
      [with_super super Migration_class set_checksum set_appliedOn set_success
       migration_file service checksum keyspace file appliedOn success filePath
       fileBody CqlFile_apply save].
  rewrite exec_bind, exec_bind, exec_NewDate, exec_bind, exec_save_row.
  change (fun command : jsstring =>
            if negb (blank command)
            then CassandraClient.execute [] command []
                   (mkOptions (Some all) (Some (migrationClientTimeoutMs config)) None) ;;
                 Ret tt
            else Ret tt) with (command_body config).
  destruct (client_execute E (js "cqlmigrate") migrations_insert
              [VString ks; VString svc; VString fl; VString body;
               VDate (now E (world m)); VString (getCqlChecksum body);
               VBoolean false] save_options (world m))
    as [[e|rs] w1] eqn:Hw1.
  - apply first_write_fails. exact Hw1.
  - set (m1 := mkMachine E w1 _).
    destruct (exec_commands config (split_on semicolon body) m1)
      as [(w2 & Hex & Hrun)|(done & c & rest & w2 & e & w3 & Hf & Hex & Hq & Hrun)];
      rewrite exec_bind, Hrun.
    + rewrite exec_bind, exec_NewDate, exec_bind, exec_save_row.
      cbn [world trace].
      destruct (client_execute E (js "cqlmigrate") migrations_insert
              [VString ks; VString svc; VString fl; VString body;
               VDate (now E w2); VString (getCqlChecksum body);
               VBoolean true] save_options w2)
        as [[e|rs'] w3] eqn:Hw3.
      * subst m1. cbn [world trace] in *. rewrite <- !app_assoc.
        eapply second_write_fails; eassumption.
      * subst m1. cbn [world trace] in *. cbn [exec]. rewrite exec_bind, exec_info.
        cbn [world trace exec]. rewrite <- !app_assoc.
        eapply applied_and_recorded; eassumption.
    + subst m1. cbn [world trace] in *. rewrite <- !app_assoc.
      eapply command_fails; eassumption.
Qed.

Lemma unapplied_migration_two_phase_write_witness :
  success (migration_file sample_fresh) = false
  /\ TwoPhase default_config sample_fresh sample_machine
       (exec (Migration_apply default_config sample_fresh) sample_machine).
Proof.
  split; [reflexivity|].
  apply (unapplied_migration_two_phase_write default_config sample_fresh
           sample_machine).
  reflexivity.
Defined.

(** ** Running the main flow: the equations of [run] *)

Section Run_equations.

Variable E : Env.

Lemma run_pbind :
  forall A B (p : Prog A) (f : A -> Prog B) (s : Process E),
    run (pbind p f) s
    = match run p s with
      | (Returned a, s') => run (f a) s'
      | (Thrown e, s') => (Thrown e, s')
      | (Exited c, s') => (Exited c, s')
      | (Waiting, s') => (Waiting, s')
      end.
Proof.
  induction p as [a|e|c| |X o k IH|R ts k IH]; intros f s; simpl;
    try reflexivity.
  - destruct (perform o (machine (background s))) as [x m']. apply IH.
  - destruct (run_all ts s) as [r s']. apply IH.
Qed.

Lemma run_ptry_catch :
  forall A (p : Prog A) (h : Err -> Prog A) (s : Process E),
    run (ptry_catch p h) s
    = match run p s with
      | (Returned a, s') => (Returned a, s')
      | (Thrown e, s') => run (h e) s'
      | (Exited c, s') => (Exited c, s')
      | (Waiting, s') => (Waiting, s')
      end.
Proof.
  induction p as [a|e|c| |X o k IH|R ts k IH]; intros h s; simpl;
    try reflexivity.
  - destruct (perform o (machine (background s))) as [x m']. apply IH.
  - destruct (run_all ts s) as [r s']. apply IH.
Qed.

Lemma background_idle :
  forall s : Process E, detached s = [] -> background s = s.
Proof. intros s H. unfold background. rewrite H. reflexivity. Qed.

(** With no detached task around, a task awaited by the main flow runs as
    it does on its own. *)
Lemma run_lift :
  forall A (t : Task A) (m : Machine E) sch,
    run (lift t) (mkProcess m sch [])
    = match exec t m with
      | (inr a, m') => (Returned a, mkProcess m' sch [])
      | (inl e, m') => (Thrown e, mkProcess m' sch [])
      end.
Proof.
  induction t as [a|e|X o k IH]; intros m sch; simpl; try reflexivity.
  unfold background. simpl.
  destruct (perform o m) as [x m']. apply IH.
Qed.

End Run_equations.

(** ** Exit codes *)

(** C7, at a run where it fails: loading finds a migration with
    [success = false], the first attempt to release the lock throws and the
    second is applied. The error is caught and logged, and the process
    exits through the final [releaseLockAndExit()], whose code is
    undefined: the exit status is 0 on a failure path. *)
Theorem exit_status_after_release_retry :
  let final :=
    run (Migrator.start default_config sample_client 1)
      (Scripted.boot release_retried_world []) in
  fst final = Exited None
  /\ exit_status None = 0%Z
  /\ In (during_migration_error Migrator.failed_migration_found)
        (trace (machine (snd final))).
Proof.
  vm_compute. repeat split. tauto.
Qed.

(** ** Loading and the life cycle *)

Section Loading.

Local Open Scope task_scope.

Variable E : Env.
Variable config : Config.

Lemma loadFiles_loop_cons :
  forall file files' bootstraps migrations,
    Migrator.loadFiles_loop config (file :: files') bootstraps migrations
    = if jsstring_eqb (Migrator.basename file) (bootstrapFilename config)
         && Nat.eqb (Migrator.getFileDepth file) 1 then
        bootstrap <- CqlFile_init (new_Bootstrap file) ;;
        Migrator.loadFiles_loop config files' (bootstraps ++ [bootstrap]) migrations
      else if Nat.eqb (Migrator.getFileDepth file) 2 then
        migration <- Migration_init (new_Migration file) ;;
        if negb (success (migration_file migration))
           && negb (Migrator.is_null (appliedOn (migration_file migration))) then
          logger.error Migrator.failed_migration_found (coordinates migration) ;;
          Throw Migrator.failed_migration_found
        else
          let migrations :=
            if negb (map_has (service migration) migrations)
            then map_set (service migration) [] migrations
            else migrations in
          let migrations :=
            match map_get (service migration) migrations with
            | Some l => map_replace (service migration) (l ++ [migration]) migrations
            | None => migrations
            end in
          Migrator.loadFiles_loop config files' bootstraps migrations
      else Migrator.loadFiles_loop config files' bootstraps migrations.
Proof. reflexivity. Qed.

Lemma loadFiles_loop_app :
  forall pre rest bootstraps migrations (m : Machine E),
    exec (Migrator.loadFiles_loop config (pre ++ rest) bootstraps migrations) m
    = match exec (Migrator.loadFiles_loop config pre bootstraps migrations) m with
      | (inr loaded, m') =>
          exec (Migrator.loadFiles_loop config rest (fst loaded) (snd loaded)) m'
      | (inl e, m') => (inl e, m')
      end.
Proof.
  induction pre as [|file pre IH]; intros rest bootstraps migrations m.
  - reflexivity.
  - simpl app. rewrite !loadFiles_loop_cons.
    destruct (jsstring_eqb (Migrator.basename file) (bootstrapFilename config)
              && Nat.eqb (Migrator.getFileDepth file) 1).
    + rewrite !exec_bind.
      destruct (exec (CqlFile_init (new_Bootstrap file)) m) as [[e|b] m'];
        [reflexivity|apply IH].
    + destruct (Nat.eqb (Migrator.getFileDepth file) 2); [|apply IH].
      rewrite !exec_bind.
      destruct (exec (Migration_init (new_Migration file)) m) as [[e|mig] m'];
        [reflexivity|].
      destruct (negb (success (migration_file mig))
                && negb (Migrator.is_null (appliedOn (migration_file mig)))).
      * rewrite !exec_bind, exec_error. reflexivity.
      * apply IH.
Qed.

Lemma loadFiles_loop_failed :
  forall file post bootstraps migrations (m1 : Machine E) migration m2,
    Migrator.getFileDepth file = 2 ->
    exec (Migration_init (new_Migration file)) m1 = (inr migration, m2) ->
    success (migration_file migration) = false ->
    appliedOn (migration_file migration) <> None ->
    exec (Migrator.loadFiles_loop config (file :: post) bootstraps migrations) m1
    = (inl Migrator.failed_migration_found,
       mkMachine E (world m2) (trace m2 ++ [failed_migration_line migration])).
Proof.
  intros file post bootstraps migrations m1 migration m2 Hdepth Hinit Hs Ha.
  rewrite loadFiles_loop_cons. rewrite Hdepth.
  rewrite andb_false_r. simpl Nat.eqb. cbv iota.
  rewrite exec_bind, Hinit, Hs.
  destruct (appliedOn (migration_file migration)) as [t|]; [|congruence].
  simpl. reflexivity.
Qed.

End Loading.

Section Start.

Variable E : Env.
Variable config : Config.
Variable client : jsstring.
Variable patience : nat.

Lemma run_releaseLockAndExit :
  forall code (m : Machine E) sch,
    let answer :=
      client_execute E lock.keyspace release_query (lock_params client)
        lock_options (world m) in
    let tr :=
      trace m ++ [attempting_to_release client; release_statement client]
        ++ query_error_line release_query (fst answer) in
    run (Migrator.releaseLockAndExit client code) (mkProcess m sch [])
    = if reported (fst answer)
      then (Exited code,
            mkProcess (mkMachine E (snd answer) (tr ++ [lock_released_line]))
              sch [])
      else (Returned tt,
            mkProcess (mkMachine E (snd answer) (tr ++ [failed_to_release_line]))
              sch []).
Proof.
  intros code m sch answer tr. unfold Migrator.releaseLockAndExit.
  rewrite run_pbind, run_lift, exec_release. fold answer. fold tr.
  destruct (reported (fst answer)); simpl negb; cbv iota.
  - rewrite run_pbind, run_lift, exec_info. reflexivity.
  - rewrite run_lift, exec_error. reflexivity.
Qed.

Ltac release_event_tac :=
  unfold release_event;
  first [ left; reflexivity
        | right; left; reflexivity
        | right; right; left; eexists; reflexivity
        | right; right; right; left; reflexivity
        | right; right; right; right; reflexivity ].

Ltac release_events_tac :=
  repeat (apply Forall_cons; [release_event_tac|]); apply Forall_nil.

Lemma release_query_error_line :
  forall r, Forall (release_event client) (query_error_line release_query r).
Proof. intros [e|rs]; simpl; release_events_tac. Qed.

Ltac release_tail_tac :=
  repeat (apply Forall_app; split);
  try apply release_query_error_line;
  try release_events_tac.

(** What [start] does once an error is caught in its second block. *)
Lemma run_after_error :
  forall error (m : Machine E) sch,
  exists out s' tail,
    run (pbind
           (pbind (lift (logger.error (js "Error during migration.")
                           [("error", VString error)]))
                  (fun _ => Migrator.releaseLockAndExit client (Some 1%Z)))
           (fun _ => Migrator.releaseLockAndExit client None))
        (mkProcess m sch [])
    = (out, s')
    /\ trace (machine s') = trace m ++ [during_migration_error error] ++ tail
    /\ Forall (release_event client) tail
    /\ (out = Exited (Some 1%Z) \/ out = Exited None \/ out = Returned tt).
Proof.
  intros error m sch.
  rewrite !run_pbind, run_lift, exec_error, run_releaseLockAndExit.
  cbn [world trace].
  set (m1 := world m).
  destruct (client_execute E lock.keyspace release_query (lock_params client)
              lock_options m1) as [r1 w1].
  cbn [fst snd].
  destruct (reported r1).
  - eexists _, _, _. split; [reflexivity|]. cbn [machine trace].
    split; [rewrite <- !app_assoc; reflexivity|].
    split; [release_tail_tac|auto].
  - rewrite run_releaseLockAndExit. cbn [world trace].
    destruct (client_execute E lock.keyspace release_query (lock_params client)
                lock_options w1) as [r2 w2].
    cbn [fst snd].
    destruct (reported r2).
    + eexists _, _, _. split; [reflexivity|]. cbn [machine trace].
      split; [rewrite <- !app_assoc; reflexivity|].
      split; [release_tail_tac|auto].
    + eexists _, _, _. split; [reflexivity|]. cbn [machine trace].
      split; [rewrite <- !app_assoc; reflexivity|].
      split; [release_tail_tac|auto].
Qed.

End Start.

(** * Rounds of migrations *)

(** ** Lists updated by index *)

Section Update.

Variable A : Type.

Lemma update_length : forall i (a : A) l, length (update i a l) = length l.
Proof.
  induction i as [|i IH]; intros a [|x l]; simpl; auto.
Qed.

Lemma nth_error_update_eq :
  forall i (a : A) l x, nth_error l i = Some x -> nth_error (update i a l) i = Some a.
Proof.
  induction i as [|i IH]; intros a [|y l] x H; simpl in *; try discriminate; eauto.
Qed.

Lemma nth_error_update_neq :
  forall i j (a : A) l, i <> j -> nth_error (update i a l) j = nth_error l j.
Proof.
  induction i as [|i IH]; intros [|j] a [|y l] H; simpl; auto; try congruence.
Qed.

Lemma update_update :
  forall i (a b : A) l, update i a (update i b l) = update i a l.
Proof.
  induction i as [|i IH]; intros a b [|y l]; simpl; auto. f_equal. apply IH.
Qed.

Lemma update_same :
  forall i (a : A) l, nth_error l i = Some a -> update i a l = l.
Proof.
  induction i as [|i IH]; intros a [|y l] H; simpl in *; try discriminate.
  - congruence.
  - f_equal. apply IH. exact H.
Qed.

Lemma In_update :
  forall i (a x : A) l, In x (update i a l) -> x = a \/ In x l.
Proof.
  induction i as [|i IH]; intros a x [|y l] H; simpl in *; auto.
  - destruct H; auto.
  - destruct H as [H|H]; auto. apply IH in H. tauto.
Qed.

Lemma In_before_update :
  forall i (a b x : A) l,
    nth_error l i = Some b -> In x l -> x = b \/ In x (update i a l).
Proof.
  induction i as [|i IH]; intros a b x [|y l] Hn H; simpl in *; try discriminate.
  - injection Hn as ->. destruct H; auto.
  - destruct H as [H|H]; auto. destruct (IH a b x l Hn H); auto.
Qed.

Lemma In_update_self :
  forall i (a b : A) l, nth_error l i = Some b -> In a (update i a l).
Proof.
  induction i as [|i IH]; intros a b [|y l] H; simpl in *; try discriminate; eauto.
Qed.

End Update.

Lemma map_update :
  forall A B (f : A -> B) i a l, map f (update i a l) = update i (f a) (map f l).
Proof.
  induction i as [|i IH]; intros a [|y l]; simpl; auto. f_equal. apply IH.
Qed.

Lemma Forall_update :
  forall A (P : A -> Prop) i a l, Forall P l -> P a -> Forall P (update i a l).
Proof.
  induction i as [|i IH]; intros a [|y l] Hl Ha; simpl; auto;
    inversion Hl; subst; constructor; auto.
Qed.

Lemma Forall2_update :
  forall A B (P : A -> B -> Prop) i a b l l',
    Forall2 P l l' -> P a b -> Forall2 P (update i a l) (update i b l').
Proof.
  induction i as [|i IH]; intros a b l l' H Hab; destruct H; simpl; auto.
Qed.

Lemma Forall2_nth_error :
  forall A B (P : A -> B -> Prop) l l' i a,
    Forall2 P l l' -> nth_error l i = Some a ->
    exists b, nth_error l' i = Some b /\ P a b.
Proof.
  intros A B P l l' i a H. revert i a.
  induction H as [|x y l l' Hxy H IH]; intros [|i] a Hn; simpl in *;
    try discriminate.
  - injection Hn as ->. eauto.
  - eauto.
Qed.

(** ** Merges *)

Section Merge_facts.

Variable A : Type.

Lemma Merge_skip :
  forall trs (seg : list A), Merge trs seg -> Merge ([] :: trs) seg.
Proof.
  intros trs seg H. induction H as [trs H|trs i chunk tr seg Hn H IH].
  - apply Merge_done. constructor; auto.
  - apply (@Merge_step A ([] :: trs) (S i) chunk tr seg); auto.
Qed.

Lemma Merge_concat : forall trs : list (list A), Merge trs (concat trs).
Proof.
  induction trs as [|tr trs IH]; simpl.
  - apply Merge_done. constructor.
  - apply (@Merge_step A (tr :: trs) 0 tr [] (concat trs)).
    + simpl. rewrite app_nil_r. reflexivity.
    + simpl. apply Merge_skip. exact IH.
Qed.

Lemma Merge_In :
  forall trs (seg : list A) x,
    Merge trs seg -> (In x seg <-> exists tr, In tr trs /\ In x tr).
Proof.
  intros trs seg x H. induction H as [trs H|trs i chunk tr seg Hn H IH].
  - split; [intros []|].
    intros (tr & Htr & Hx). rewrite Forall_forall in H.
    rewrite (H tr Htr) in Hx. exact Hx.
  - rewrite in_app_iff, IH. split.
    + intros [Hx|(tr' & Htr' & Hx)].
      * exists (chunk ++ tr). split; [eapply nth_error_In; eauto|].
        apply in_or_app; auto.
      * apply In_update in Htr'. destruct Htr' as [->|Htr'].
        -- exists (chunk ++ tr). split; [eapply nth_error_In; eauto|].
           apply in_or_app; auto.
        -- eauto.
    + intros (tr' & Htr' & Hx).
      destruct (In_before_update i tr tr' trs Hn Htr') as [->|Hin].
      * apply in_app_or in Hx. destruct Hx as [Hx|Hx]; auto.
        right. exists tr. split; auto. eapply In_update_self; eauto.
      * right. eauto.
Qed.

End Merge_facts.

(** ** Runs of tasks *)

Section Task_runs.

Variable E : Env.

Lemma perform_trace :
  forall X (o : Op X) (m : Machine E),
    trace (snd (perform o m)) = trace m ++ event_of o.
Proof.
  intros X o m. unfold perform. destruct (respond E o (world m)). reflexivity.
Qed.

Lemma exec_TaskRun :
  forall R (t : Task R) (m : Machine E) r m',
    exec t m = (r, m') ->
    exists tr, trace m' = trace m ++ tr /\ TaskRun t tr r.
Proof.
  induction t as [a|e|X o k IH]; intros m r m' H; simpl in H.
  - injection H as <- <-. exists []. rewrite app_nil_r. simpl. auto.
  - injection H as <- <-. exists []. rewrite app_nil_r. simpl. auto.
  - pose proof (perform_trace o m) as Htr.
    destruct (perform o m) as [x m1]. simpl in Htr.
    destruct (IH x m1 r m' H) as (tr & Htr' & Hrun).
    exists (event_of o ++ tr). split.
    + rewrite Htr', Htr, app_assoc. reflexivity.
    + simpl. eauto.
Qed.

Lemma never_throws_step :
  forall R X (o : Op X) (k : X -> Task R) x,
    never_throws (Vis o k) -> never_throws (k x).
Proof.
  intros R X o k x H tr r Hrun. apply (H (event_of o ++ tr) r).
  simpl. eauto.
Qed.

Lemma never_throws_first_thrown :
  forall R (ts : list (Task R)),
    Forall (@never_throws R) ts -> first_thrown ts = None.
Proof.
  induction ts as [|t ts IH]; intros H; [reflexivity|].
  inversion H as [|? ? Ht Hts]; subst.
  destruct t as [a|e|X o k]; simpl; auto.
  destruct (Ht [] (inl e)) as [a Ha]; [simpl; auto|discriminate].
Qed.

Lemma perform_Yield :
  forall m : Machine E, perform Yield m = (tt, mkMachine E (world m) (trace m ++ [])).
Proof. reflexivity. Qed.

(** *** One task going on *)

Lemma Advances_refl : forall R (t : Task R), Advances t [] t.
Proof. intros R t tr r H. exact H. Qed.

Lemma Advances_Vis :
  forall R X (o : Op X) (k : X -> Task R) x ev t',
    Advances (k x) ev t' -> Advances (Vis o k) (event_of o ++ ev) t'.
Proof.
  intros R X o k x ev t' H tr r Hrun. simpl.
  exists x, (ev ++ tr). split; [rewrite app_assoc; reflexivity|].
  apply H. exact Hrun.
Qed.

Lemma Advances_never_throws :
  forall R (t t' : Task R) ev,
    never_throws t -> Advances t ev t' -> never_throws t'.
Proof.
  intros R t t' ev Ht H tr r Hrun. apply (Ht (ev ++ tr) r). apply H. exact Hrun.
Qed.

Lemma advance_Advances :
  forall R (t : Task R) (m : Machine E),
    exists ev,
      trace (snd (advance t m)) = trace m ++ ev
      /\ Advances t ev (fst (advance t m)).
Proof.
  induction t as [a|e|X o k IH]; intros m.
  - exists []. rewrite app_nil_r. split; [reflexivity|apply Advances_refl].
  - exists []. rewrite app_nil_r. split; [reflexivity|apply Advances_refl].
  - simpl. pose proof (perform_trace o m) as Htr.
    destruct (perform o m) as [x m1]. simpl in Htr.
    destruct (waits o).
    + exists (event_of o ++ []). simpl. split.
      * rewrite app_nil_r. exact Htr.
      * apply (@Advances_Vis R X o k x). apply Advances_refl.
    + destruct (IH x m1) as (ev & Hev & Hadv).
      exists (event_of o ++ ev). split.
      * rewrite Hev, Htr, app_assoc. reflexivity.
      * apply (@Advances_Vis R X o k x). exact Hadv.
Qed.

Lemma begin_Advances :
  forall R (t : Task R) (m : Machine E),
    exists ev,
      trace (snd (begin t m)) = trace m ++ ev
      /\ Advances t ev (snd (fst (begin t m))).
Proof.
  induction t as [a|e|X o k IH]; intros m.
  - exists []. rewrite app_nil_r. split; [reflexivity|apply Advances_refl].
  - exists []. rewrite app_nil_r. split; [reflexivity|apply Advances_refl].
  - simpl. pose proof (perform_trace o m) as Htr.
    destruct (perform o m) as [x m1]. simpl in Htr.
    destruct (yields o); [|destruct (waits o)].
    + exists (event_of o ++ []). simpl. split.
      * rewrite app_nil_r. exact Htr.
      * apply (@Advances_Vis R X o k x). apply Advances_refl.
    + exists (event_of o ++ []). simpl. split.
      * rewrite app_nil_r. exact Htr.
      * apply (@Advances_Vis R X o k x). apply Advances_refl.
    + destruct (IH x m1) as (ev & Hev & Hadv).
      exists (event_of o ++ ev). split.
      * rewrite Hev, Htr, app_assoc. reflexivity.
      * apply (@Advances_Vis R X o k x). exact Hadv.
Qed.

(** *** Tasks going on one at a time *)

Lemma Steps_trans :
  forall R (ts ts1 ts2 : list (Task R)) seg1 seg2,
    Steps ts seg1 ts1 -> Steps ts1 seg2 ts2 -> Steps ts (seg1 ++ seg2) ts2.
Proof.
  intros R ts ts1 ts2 seg1 seg2 H1 H2.
  induction H1 as [ts|ts i t ev t' seg ts' Hi Hadv H IH]; [exact H2|].
  rewrite <- app_assoc.
  apply (@Steps_step R ts i t ev t' (seg ++ seg2) ts2 Hi Hadv). apply IH. exact H2.
Qed.

Lemma Steps_one :
  forall R (ts : list (Task R)) i t ev t',
    nth_error ts i = Some t -> Advances t ev t' ->
    Steps ts ev (update i t' ts).
Proof.
  intros R ts i t ev t' Hi Hadv.
  rewrite <- (app_nil_r ev).
  apply (@Steps_step R ts i t ev t' [] (update i t' ts) Hi Hadv).
  apply Steps_done.
Qed.

Lemma Steps_never_throws :
  forall R (ts ts' : list (Task R)) seg,
    Steps ts seg ts' ->
    Forall (@never_throws R) ts -> Forall (@never_throws R) ts'.
Proof.
  intros R ts ts' seg H.
  induction H as [ts|ts i t ev t' seg ts' Hi Hadv H IH]; intros Hts; [exact Hts|].
  apply IH. apply Forall_update; [exact Hts|].
  apply (@Advances_never_throws R t t' ev); [|exact Hadv].
  rewrite Forall_forall in Hts. apply Hts. eapply nth_error_In. exact Hi.
Qed.

(** Runs of what is left of the tasks, put after the events left so far,
    are runs of the tasks. *)
Lemma Steps_back :
  forall R (ts ts' : list (Task R)) seg1,
    Steps ts seg1 ts' ->
    forall runs' seg2,
      Forall2 (@Run R) ts' runs' ->
      Merge (map fst runs') seg2 ->
      exists runs,
        Forall2 (@Run R) ts runs
        /\ Merge (map fst runs) (seg1 ++ seg2)
        /\ map snd runs = map snd runs'.
Proof.
  intros R ts ts' seg1 H.
  induction H as [ts|ts i t ev t' seg ts' Hi Hadv H IH];
    intros runs' seg2 Hruns' Hmerge.
  - exists runs'. auto.
  - destruct (IH runs' seg2 Hruns' Hmerge) as (runs1 & Hruns1 & Hm1 & Hres).
    assert (Hi1 : nth_error (update i t' ts) i = Some t')
      by (eapply nth_error_update_eq; eauto).
    destruct (Forall2_nth_error _ Hruns1 Hi1) as ([tr a] & Hr & Hrun).
    exists (update i (ev ++ tr, a) runs1). split; [|split].
    + replace ts with (update i t (update i t' ts)).
      * apply Forall2_update; [exact Hruns1|].
        unfold Run in *. simpl in *. apply Hadv. exact Hrun.
      * rewrite update_update. apply update_same. exact Hi.
    + rewrite <- app_assoc.
      apply (@Merge_step Event (map fst (update i (ev ++ tr, a) runs1))
               i ev tr (seg ++ seg2)).
      * rewrite map_update. simpl.
        eapply nth_error_update_eq. rewrite nth_error_map, Hr. reflexivity.
      * rewrite map_update, update_update. simpl.
        rewrite update_same; [exact Hm1|].
        rewrite nth_error_map, Hr. reflexivity.
    + rewrite map_update. simpl. rewrite update_same; [exact Hres|].
      rewrite nth_error_map, Hr. reflexivity.
Qed.

Lemma update_middle :
  forall A (pre : list A) a b l,
    update (length pre) a (pre ++ b :: l) = pre ++ a :: l.
Proof.
  induction pre as [|x pre IH]; intros a b l; simpl; [reflexivity|].
  f_equal. apply IH.
Qed.

Lemma nth_error_middle :
  forall A (pre : list A) b l, nth_error (pre ++ b :: l) (length pre) = Some b.
Proof.
  induction pre as [|x pre IH]; intros b l; simpl; [reflexivity|apply IH].
Qed.

(** *** The callbacks as [map] calls them *)

Lemma begin_all_Steps :
  forall R (ts : list (Task R)) (m : Machine E) begun m1 pre,
    begin_all ts m = (begun, m1) ->
    exists seg,
      trace m1 = trace m ++ seg
      /\ Steps (pre ++ ts) seg (pre ++ map snd begun).
Proof.
  induction ts as [|t ts IH]; intros m begun m1 pre H; simpl in H.
  - injection H as <- <-. exists []. rewrite app_nil_r.
    split; [reflexivity|apply Steps_done].
  - destruct (begin_Advances t m) as (ev & Hev & Hadv).
    destruct (begin t m) as [[woken t1] m0]. cbn [fst snd] in Hev, Hadv.
    destruct (begin_all ts m0) as [begun' m2] eqn:Hrest.
    injection H as <- <-.
    destruct (IH m0 begun' m2 (pre ++ [t1]) Hrest) as (seg & Hseg & Hsteps).
    exists (ev ++ seg). split.
    + rewrite Hseg, Hev, app_assoc. reflexivity.
    + apply (@Steps_step R (pre ++ t :: ts) (length pre) t ev t1 seg
               (pre ++ map snd ((woken, t1) :: begun'))).
      * apply nth_error_middle.
      * exact Hadv.
      * rewrite update_middle. simpl.
        rewrite <- !app_assoc in Hsteps. exact Hsteps.
Qed.

Lemma wake_all_Steps :
  forall R (begun : list (bool * Task R)) (m : Machine E) ts m1 pre,
    wake_all begun m = (ts, m1) ->
    exists seg,
      trace m1 = trace m ++ seg
      /\ Steps (pre ++ map snd begun) seg (pre ++ ts).
Proof.
  induction begun as [|[woken t] begun IH]; intros m ts m1 pre H; simpl in H.
  - injection H as <- <-. exists []. rewrite app_nil_r.
    split; [reflexivity|apply Steps_done].
  - assert (Hone : exists ev,
              trace (snd (if woken then advance t m else (t, m))) = trace m ++ ev
              /\ Advances t ev (fst (if woken then advance t m else (t, m)))).
    { destruct woken; [apply advance_Advances|].
      exists []. rewrite app_nil_r. split; [reflexivity|apply Advances_refl]. }
    destruct Hone as (ev & Hev & Hadv).
    destruct (if woken then advance t m else (t, m)) as [t1 m0].
    cbn [fst snd] in Hev, Hadv.
    destruct (wake_all begun m0) as [ts' m2] eqn:Hrest.
    injection H as <- <-.
    destruct (IH m0 ts' m2 (pre ++ [t1]) Hrest) as (seg & Hseg & Hsteps).
    exists (ev ++ seg). split.
    + rewrite Hseg, Hev, app_assoc. reflexivity.
    + apply (@Steps_step R (pre ++ map snd ((woken, t) :: begun)) (length pre)
               t ev t1 seg (pre ++ t1 :: ts')).
      * simpl. apply nth_error_middle.
      * exact Hadv.
      * simpl. rewrite update_middle.
        rewrite <- !app_assoc in Hsteps. exact Hsteps.
Qed.

Lemma start_all_Steps :
  forall R (ts : list (Task R)) (m : Machine E) ts0 m0,
    start_all ts m = (ts0, m0) ->
    exists seg, trace m0 = trace m ++ seg /\ Steps ts seg ts0.
Proof.
  intros R ts m ts0 m0 H. unfold start_all in H.
  destruct (begin_all ts m) as [begun m1] eqn:Hbegin.
  destruct (@begin_all_Steps R ts m begun m1 [] Hbegin) as (seg1 & Hseg1 & H1).
  destruct (@wake_all_Steps R begun m1 ts0 m0 [] H) as (seg2 & Hseg2 & H2).
  exists (seg1 ++ seg2). split.
  - rewrite Hseg2, Hseg1, app_assoc. reflexivity.
  - apply (@Steps_trans R ts (map snd begun) ts0 seg1 seg2 H1 H2).
Qed.

(** *** The answers coming in *)

Lemma interleave_eq :
  forall R sch (ts : list (Task R)) (m : Machine E),
    interleave sch ts m
    = match first_thrown ts with
      | Some _ => (sch, ts, m)
      | None =>
          if forallb (@settled R) ts then (sch, ts, m)
          else
            match sch with
            | [] => ([], ts, m)
            | i :: sch' =>
                match nth_error ts i with
                | Some (Vis o k) =>
                    let (t', m') := advance (Vis o k) m in
                    interleave sch' (update i t' ts) m'
                | _ => interleave sch' ts m
                end
            end
      end.
Proof. intros R [|i sch] ts m; reflexivity. Qed.

Lemma interleave_Steps :
  forall R sch (ts : list (Task R)) (m : Machine E) sch' ts' m',
    interleave sch ts m = (sch', ts', m') ->
    exists seg, trace m' = trace m ++ seg /\ Steps ts seg ts'.
Proof.
  induction sch as [|i sch IH]; intros ts m sch' ts' m' H;
    rewrite interleave_eq in H.
  - assert (Heq : ts' = ts /\ m' = m).
    { destruct (first_thrown ts); [injection H as <- <- <-; auto|].
      destruct (forallb (@settled R) ts); injection H as <- <- <-; auto. }
    destruct Heq as [-> ->].
    exists []. rewrite app_nil_r. split; [reflexivity|apply Steps_done].
  - destruct (first_thrown ts).
    { injection H as <- <- <-.
      exists []. rewrite app_nil_r. split; [reflexivity|apply Steps_done]. }
    destruct (forallb (@settled R) ts).
    { injection H as <- <- <-.
      exists []. rewrite app_nil_r. split; [reflexivity|apply Steps_done]. }
    destruct (nth_error ts i) as [[a|e|X o k]|] eqn:Hi;
      try (apply (IH _ _ _ _ _ H)).
    destruct (advance_Advances (Vis o k) m) as (ev & Hev & Hadv).
    destruct (advance (Vis o k) m) as [t1 m1]. cbn [fst snd] in Hev, Hadv.
    destruct (IH _ _ _ _ _ H) as (seg & Hseg & Hsteps).
    exists (ev ++ seg). split.
    + rewrite Hseg, Hev, app_assoc. reflexivity.
    + apply (@Steps_step R ts i (Vis o k) ev t1 seg ts' Hi Hadv Hsteps).
Qed.

(** *** Past the end of the schedule *)

Lemma drain_runs :
  forall R (ts : list (Task R)) (m : Machine E) ts' m',
    Forall (@never_throws R) ts ->
    drain ts m = (ts', m') ->
    exists runs,
      Forall2 (@Run R) ts runs
      /\ ts' = map (fun run => Ret (snd run)) runs
      /\ trace m' = trace m ++ concat (map fst runs).
Proof.
  induction ts as [|t ts IH]; intros m ts' m' Hts H; simpl in H.
  - injection H as <- <-. exists []. simpl. rewrite app_nil_r. auto.
  - inversion Hts as [|? ? Ht Hts']; subst.
    destruct (exec t m) as [[e|a] m1] eqn:Hexec.
    + destruct (exec_TaskRun _ _ Hexec) as (tr & _ & Hrun).
      destruct (Ht _ _ Hrun) as [a Ha]. discriminate.
    + destruct (exec_TaskRun _ _ Hexec) as (tr & Htr & Hrun).
      destruct (drain ts m1) as [ts1 m2] eqn:Hdrain.
      injection H as <- <-.
      destruct (IH _ _ _ Hts' Hdrain) as (runs & Hruns & Hts1 & Htr2).
      exists ((tr, a) :: runs). simpl. split; [|split].
      * constructor; auto.
      * rewrite Hts1. reflexivity.
      * rewrite Htr2, Htr, app_assoc. reflexivity.
Qed.

Lemma first_thrown_returned :
  forall R (runs : list (list Event * R)),
    first_thrown (map (fun run => Ret (snd run)) runs) = None
    /\ results (map (fun run => Ret (snd run)) runs) = map snd runs.
Proof.
  induction runs as [|run runs [IH1 IH2]]; simpl; auto.
  split; [exact IH1|]. rewrite IH2. reflexivity.
Qed.

(** What [run_all] does before it turns to the results: the callbacks
    begin, the answers of the schedule come in. *)
Lemma run_all_Steps :
  forall R (ts : list (Task R)) (s : Process E) ts0 m0 sch1 ts1 m1,
    start_all ts (machine s) = (ts0, m0) ->
    interleave (schedule s) ts0 m0 = (sch1, ts1, m1) ->
    exists seg, trace m1 = trace (machine s) ++ seg /\ Steps ts seg ts1.
Proof.
  intros R ts s ts0 m0 sch1 ts1 m1 Hstart Hint.
  destruct (start_all_Steps _ _ Hstart) as (seg0 & Hseg0 & H0).
  destruct (interleave_Steps _ _ _ Hint) as (seg1 & Hseg1 & H1).
  exists (seg0 ++ seg1). split.
  - rewrite Hseg1, Hseg0, app_assoc. reflexivity.
  - apply (@Steps_trans R ts ts0 ts1 seg0 seg1 H0 H1).
Qed.

(** [Promise.all] over tasks that never throw: every task runs to its end,
    the events of the tasks interleave, and the results come back. *)
Lemma run_all_never_throws :
  forall R (ts : list (Task R)) (s : Process E),
    Forall (@never_throws R) ts ->
    exists runs seg w sch,
      Forall2 (@Run R) ts runs
      /\ Merge (map fst runs) seg
      /\ run_all ts s
         = (inr (map snd runs),
            mkProcess (mkMachine E w (trace (machine s) ++ seg)) sch (detached s)).
Proof.
  intros R ts s Hts. unfold run_all.
  destruct (start_all ts (machine s)) as [ts0 m0] eqn:Hstart.
  destruct (interleave (schedule s) ts0 m0) as [[sch1 ts1] m1] eqn:Hint.
  destruct (run_all_Steps _ _ Hstart Hint) as (seg1 & Hseg1 & Hsteps).
  pose proof (Steps_never_throws Hsteps Hts) as Hts1.
  rewrite (never_throws_first_thrown Hts1).
  destruct (drain ts1 m1) as [ts2 m2] eqn:Hdrain.
  destruct (@drain_runs R _ _ _ _ Hts1 Hdrain) as (runs' & Hruns' & Hts2 & Htr2).
  destruct (@Steps_back R ts ts1 seg1 Hsteps runs' (concat (map fst runs'))
              Hruns' (Merge_concat _))
    as (runs & Hruns & Hmerge & Hres).
  destruct (first_thrown_returned runs') as [Hnone Hresults].
  rewrite Hts2, Hnone, Hresults, <- Hres.
  exists runs, (seg1 ++ concat (map fst runs')), (world m2), sch1.
  split; [exact Hruns|]. split; [exact Hmerge|].
  f_equal. f_equal. destruct m2 as [w2 tr2]. simpl in *.
  rewrite Htr2, Hseg1, app_assoc. reflexivity.
Qed.

End Task_runs.

(** ** The trace only grows *)

Section Trace_grows.

Variable E : Env.

Lemma exec_grows :
  forall R (t : Task R) (m : Machine E),
    exists ev, trace (snd (exec t m)) = trace m ++ ev.
Proof.
  intros R t m. destruct (exec t m) as [r m'] eqn:H.
  apply exec_TaskRun in H. destruct H as (tr & Htr & _). eauto.
Qed.

Lemma drain_grows :
  forall R (ts : list (Task R)) (m : Machine E),
    exists ev, trace (snd (drain ts m)) = trace m ++ ev.
Proof.
  induction ts as [|t ts IH]; intros m; simpl.
  - exists []. rewrite app_nil_r. reflexivity.
  - destruct (exec_grows t m) as [ev1 H1].
    destruct (exec t m) as [[e|a] m1]; simpl in H1; [eauto|].
    destruct (IH m1) as [ev2 H2].
    destruct (drain ts m1) as [ts' m2]. simpl in *.
    exists (ev1 ++ ev2). rewrite H2, H1, app_assoc. reflexivity.
Qed.

Lemma run_all_grows :
  forall R (ts : list (Task R)) (s : Process E),
    exists ev, trace (machine (snd (run_all ts s))) = trace (machine s) ++ ev.
Proof.
  intros R ts s. unfold run_all.
  destruct (start_all ts (machine s)) as [ts0 m0] eqn:Hstart.
  destruct (interleave (schedule s) ts0 m0) as [[sch1 ts1] m1] eqn:Hint.
  destruct (run_all_Steps _ _ Hstart Hint) as (ev1 & H1 & _).
  destruct (first_thrown ts1); [simpl; eauto|].
  destruct (drain_grows ts1 m1) as [ev2 H2].
  destruct (drain ts1 m1) as [ts2 m2]. simpl in H2.
  assert (H : trace m2 = trace (machine s) ++ ev1 ++ ev2)
    by (rewrite H2, H1, app_assoc; reflexivity).
  destruct (first_thrown ts2); simpl; eauto.
Qed.

Lemma background_steps_S :
  forall i sch (ds : list (Task unit)) (m : Machine E),
    background_steps (S i :: sch) ds m
    = match nth_error ds i with
      | Some (Vis o k) =>
          let (t', m') := advance (Vis o k) m in
          background_steps sch (update i t' ds) m'
      | _ => background_steps sch ds m
      end.
Proof. reflexivity. Qed.

Lemma background_steps_grows :
  forall sch (ds : list (Task unit)) (m : Machine E),
    exists ev, trace (snd (background_steps sch ds m)) = trace m ++ ev.
Proof.
  induction sch as [|i sch IH]; intros ds m.
  - exists []. rewrite app_nil_r. reflexivity.
  - destruct i as [|i]; [exists []; rewrite app_nil_r; reflexivity|].
    rewrite background_steps_S.
    destruct (nth_error ds i) as [[a|e|X o k]|]; try apply IH.
    destruct (advance_Advances (Vis o k) m) as (ev1 & Hev1 & _).
    destruct (advance (Vis o k) m) as [t1 m1]. cbn [fst snd] in Hev1.
    destruct (IH (update i t1 ds) m1) as [ev Hev].
    exists (ev1 ++ ev). rewrite Hev, Hev1, app_assoc. reflexivity.
Qed.

Lemma background_grows :
  forall s : Process E,
    exists ev, trace (machine (background s)) = trace (machine s) ++ ev.
Proof.
  intros s. unfold background.
  destruct (detached s) as [|d ds]; [exists []; rewrite app_nil_r; reflexivity|].
  destruct (background_steps_grows (schedule s) (d :: ds) (machine s)) as [ev H].
  destruct (background_steps (schedule s) (d :: ds) (machine s)) as [[sch' ds'] m'].
  simpl in *. eauto.
Qed.

(** An operation of the main flow: the events of detached tasks, then its
    own. *)
Lemma await_grows :
  forall X (o : Op X) (s : Process E),
    exists ev,
      trace (snd (perform o (machine (background s))))
      = trace (machine s) ++ ev ++ event_of o.
Proof.
  intros X o s. destruct (background_grows s) as [ev H].
  exists ev. rewrite perform_trace, H, app_assoc. reflexivity.
Qed.

Lemma run_grows :
  forall A (p : Prog A) (s : Process E),
    exists ev, trace (machine (snd (run p s))) = trace (machine s) ++ ev.
Proof.
  induction p as [a|e|c| |X o k IH|R ts k IH]; intros s; simpl;
    try (exists []; rewrite app_nil_r; reflexivity).
  - destruct (await_grows o s) as [ev1 H1].
    destruct (perform o (machine (background s))) as [x m']. simpl in H1.
    destruct (IH x (mkProcess m' (schedule (background s)) (detached (background s))))
      as [ev2 H2].
    simpl in H2. exists ((ev1 ++ event_of o) ++ ev2).
    rewrite H2, H1, !app_assoc. reflexivity.
  - destruct (run_all_grows ts s) as [ev1 H1].
    destruct (run_all ts s) as [r s1]. simpl in H1.
    destruct (IH r s1) as [ev2 H2].
    exists (ev1 ++ ev2). rewrite H2, H1, app_assoc. reflexivity.
Qed.

End Trace_grows.

(** ** What a callback of a round emits *)

Section Yields_facts.

Local Open Scope task_scope.

Variable P : Event -> Prop.

Lemma Yields_weaken :
  forall R (Q Q' : R -> Prop) (t : Task R),
    (forall a, Q a -> Q' a) -> Yields P Q t -> Yields P Q' t.
Proof.
  induction t as [a|e|X o k IH]; simpl; intros HQ H; auto.
  destruct H as [Ho Hk]. split; auto.
Qed.

Lemma Yields_bind :
  forall R S (Q : S -> Prop) (t : Task R) (f : R -> Task S),
    Yields P (fun a => Yields P Q (f a)) t -> Yields P Q (bind t f).
Proof.
  induction t as [a|e|X o k IH]; simpl; intros f H; auto.
  destruct H as [Ho Hk]. split; auto.
Qed.

Lemma Yields_seq :
  forall R S (Q : S -> Prop) (t : Task R) (f : R -> Task S),
    Yields P (fun _ => True) t -> (forall a, Yields P Q (f a)) ->
    Yields P Q (bind t f).
Proof.
  intros R S Q t f Ht Hf. apply Yields_bind.
  eapply Yields_weaken; [|exact Ht]. intros a _. apply Hf.
Qed.

Lemma Yields_try_catch :
  forall R (Q : R -> Prop) (t : Task R) (h : Err -> Task R),
    Yields P Q t -> (forall e, Yields P Q (h e)) -> Yields P Q (try_catch t h).
Proof.
  induction t as [a|e|X o k IH]; simpl; intros h H Hh; auto.
  destruct H as [Ho Hk]. split; auto.
Qed.

Lemma Yields_forEach :
  forall A (l : list A) (body : A -> Task unit),
    (forall a, Yields P (fun _ => True) (body a)) ->
    Yields P (fun _ => True) (forEach l body).
Proof.
  induction l as [|a l IH]; intros body H; simpl; auto.
  apply Yields_seq; auto.
Qed.

Lemma Yields_NewDate :
  forall S (Q : S -> Prop) (f : Time -> Task S),
    (forall now, Yields P Q (f now)) -> Yields P Q (bind (trigger NewDate) f).
Proof. intros S Q f H. simpl. split; [constructor|exact H]. Qed.

Lemma Yields_TaskRun :
  forall R (Q : R -> Prop) (t : Task R) tr r,
    Yields P Q t -> TaskRun t tr r ->
    Forall P tr /\ (forall a, r = inr a -> Q a).
Proof.
  induction t as [a|e|X o k IH]; simpl; intros tr r H Hrun.
  - destruct Hrun as [-> ->]. split; [constructor|].
    intros a' Ha. injection Ha as <-. exact H.
  - destruct Hrun as [-> ->]. split; [constructor|discriminate].
  - destruct H as [Ho Hk]. destruct Hrun as (x & tr' & -> & Hrun).
    destruct (IH x tr' r (Hk x) Hrun) as [Htr HQ].
    split; [apply Forall_app; auto|exact HQ].
Qed.

End Yields_facts.

Section TaskRun_facts.

Local Open Scope task_scope.

Lemma TaskRun_bind :
  forall R S (t : Task R) (f : R -> Task S) tr r,
    TaskRun (bind t f) tr r ->
    (exists e, r = inl e /\ TaskRun t tr (inl e))
    \/ (exists a tr1 tr2,
          tr = tr1 ++ tr2 /\ TaskRun t tr1 (inr a) /\ TaskRun (f a) tr2 r).
Proof.
  induction t as [a|e|X o k IH]; simpl; intros f tr r H.
  - right. exists a, [], tr. auto.
  - destruct H as [-> ->]. left. eauto.
  - destruct H as (x & tr' & -> & H).
    destruct (IH x f tr' r H) as [(e & -> & Ht)|(a & tr1 & tr2 & -> & Ht & Hf)].
    + left. exists e. split; auto. eauto.
    + right. exists a, (event_of o ++ tr1), tr2.
      rewrite app_assoc. split; auto. split; eauto.
Qed.

Lemma TaskRun_try_catch :
  forall R (t : Task R) (h : Err -> Task R) tr r,
    TaskRun (try_catch t h) tr r ->
    (exists a, r = inr a /\ TaskRun t tr (inr a))
    \/ (exists e tr1 tr2,
          tr = tr1 ++ tr2 /\ TaskRun t tr1 (inl e) /\ TaskRun (h e) tr2 r).
Proof.
  induction t as [a|e|X o k IH]; simpl; intros h tr r H.
  - destruct H as [-> ->]. left. eauto.
  - right. exists e, [], tr. auto.
  - destruct H as (x & tr' & -> & H).
    destruct (IH x h tr' r H) as [(a & -> & Ht)|(e & tr1 & tr2 & -> & Ht & Hh)].
    + left. exists a. split; auto. eauto.
    + right. exists e, (event_of o ++ tr1), tr2.
      rewrite app_assoc. split; auto. split; eauto.
Qed.

Lemma TaskRun_await :
  forall R (t : Task R) tr r, TaskRun (await t) tr r <-> TaskRun t tr r.
Proof.
  unfold await. induction t as [a|e|X o k IH]; intros tr r; simpl.
  - split.
    + intros (_ & tr' & -> & -> & ->). auto.
    + intros [-> ->]. exists tt, []. auto.
  - split.
    + intros (_ & tr' & -> & -> & ->). auto.
    + intros [-> ->]. exists tt, []. auto.
  - split; intros (x & tr' & -> & H); exists x, tr'; (split; [reflexivity|]);
      apply IH; exact H.
Qed.

End TaskRun_facts.

Section Callback.

Local Open Scope task_scope.

Variable config : Config.

Lemma execute_yields :
  forall ks q ps opts,
    Yields inner_event (fun _ : ResultSet => True)
      (CassandraClient.execute ks q ps opts).
Proof.
  intros ks q ps opts. unfold CassandraClient.execute. simpl.
  split; [repeat constructor|].
  intros [e|rs]; simpl; auto.
  split; [repeat constructor|]. auto.
Qed.

Lemma insert_yields :
  forall ks table record ttl ifNotExists opts,
    Yields inner_event (fun _ : ResultSet => True)
      (CassandraClient.insert ks table record ttl ifNotExists opts).
Proof.
  intros. unfold CassandraClient.insert.
  destruct (Nat.eqb _ 0); [exact I|]. apply execute_yields.
Qed.

Lemma save_yields :
  forall this : Migration, Yields inner_event (fun _ : unit => True) (save this).
Proof.
  intros this. unfold save, Migration_class, SavableBase_save.
  apply Yields_seq; [apply insert_yields|]. intros; exact I.
Qed.

Lemma CqlFile_apply_yields :
  forall this : Migration,
    Yields inner_event (fun this' => coordinates this' = coordinates this)
      (CqlFile_apply config this).
Proof.
  intros this. unfold CqlFile_apply.
  apply Yields_NewDate. intros now.
  apply Yields_seq; [apply save_yields|]. intros _.
  apply Yields_seq.
  { apply Yields_forEach. intros command.
    change (Yields inner_event (fun _ : unit => True) (command_body config command)).
    unfold command_body.
    destruct (blank command); simpl negb; cbv iota; [exact I|].
    apply Yields_seq; [apply execute_yields|]. intros; exact I. }
  intros _.
  apply Yields_NewDate. intros now'.
  apply Yields_seq; [apply save_yields|]. intros _.
  reflexivity.
Qed.

Lemma Migration_apply_runs :
  forall (this : Migration) tr r,
    TaskRun (Migration_apply config this) tr r ->
    (exists e, r = inl e /\ Forall inner_event tr)
    \/ exists body last this',
         r = inr this' /\ tr = body ++ [last] /\ Forall inner_event body
         /\ end_line this false last.
Proof.
  intros this tr r H. unfold Migration_apply in H.
  destruct (success (migration_file this)).
  - destruct (checksum_differs _ _).
    + left. simpl in H. destruct H as (_ & tr' & -> & -> & ->).
      eexists. split; [reflexivity|]. repeat constructor.
    + right. simpl in H. destruct H as (_ & tr' & -> & -> & ->).
      exists [], (EvInfo (mkLog (js "Migration has already been applied... skipping")
                     (coordinates this))), this.
      repeat split; [constructor|apply end_skipped].
  - apply TaskRun_bind in H.
    destruct H as [(e & -> & H)|(this' & tr1 & tr2 & -> & H1 & H2)].
    + left. eapply Yields_TaskRun in H; [|apply CqlFile_apply_yields].
      eexists. split; [reflexivity|]. apply H.
    + right. eapply Yields_TaskRun in H1; [|apply CqlFile_apply_yields].
      destruct H1 as [Hbody Hcoord]. specialize (Hcoord this' eq_refl).
      simpl in H2. destruct H2 as (_ & tr' & -> & -> & ->).
      exists tr1, (EvInfo (mkLog (js "Migration applied") (coordinates this'))), this'.
      change (coordinates this' = coordinates this) in Hcoord.
      repeat split; auto.
      rewrite Hcoord. apply end_applied.
Qed.

(** A callback never throws, and each of its runs is a complete run of the
    apply of its migration: the log line, what [apply] did, the end line;
    it returns true exactly when the end line is that of a failure. *)
Lemma migration_task_runs :
  forall (migration : Migration) tr r,
    TaskRun (Migrator.migration_task config (Some migration)) tr r ->
    exists failed, r = inr failed /\ apply_run migration tr failed.
Proof.
  intros migration tr r H. unfold Migrator.migration_task in H.
  apply TaskRun_bind in H.
  destruct H as [(e & _ & H)|(u & tr0 & tr' & -> & H0 & H)];
    [simpl in H; destruct H as (? & ? & ? & ? & ?); discriminate|].
  simpl in H0. destruct H0 as (x0 & tr0' & Htr0 & Htr0' & _). subst tr0 tr0'.
  cbv beta in H.
  apply TaskRun_try_catch in H.
  destruct H as [(a & -> & H)|(e & tr1 & tr2 & -> & H1 & H2)].
  - apply TaskRun_bind in H.
    destruct H as [(e & He & _)|(this' & tr1 & tr2 & -> & H1 & H2)];
      [discriminate|].
    simpl in H2. destruct H2 as [-> Ha]. injection Ha as ->.
    rewrite app_nil_r.
    apply (proj1 (TaskRun_await _ _ _)) in H1.
    apply Migration_apply_runs in H1.
    destruct H1 as [(e & He & _)|(body & last & this'' & _ & -> & Hbody & Hlast)];
      [discriminate|].
    exists false. split; [reflexivity|].
    exists body, last. simpl. auto.
  - apply TaskRun_bind in H1.
    destruct H1 as [(e' & He & H1)|(this' & tr3 & tr4 & -> & H3 & H4)];
      [|simpl in H4; destruct H4 as [_ ?]; discriminate].
    injection He as <-.
    apply (proj1 (TaskRun_await _ _ _)) in H1.
    apply Migration_apply_runs in H1.
    destruct H1 as [(e' & _ & Hinner)|(body & last & this'' & He & _)];
      [|discriminate].
    simpl in H2. destruct H2 as (_ & ? & -> & -> & ->).
    exists true. split; [reflexivity|].
    exists tr1, (EvError
         (mkLog (js "Error applying migration. Admin intervention is likely required.")
            (("error", VString e) :: coordinates migration))).
    simpl. repeat split; auto. apply end_failed.
Qed.

End Callback.

(** ** What loading leaves in the trace *)

Section Loading_events.

Local Open Scope task_scope.

Variable E : Env.
Variable config : Config.

Lemma exec_yields :
  forall (P : Event -> Prop) R (Q : R -> Prop) (t : Task R) (m : Machine E) r m',
    Yields P Q t -> exec t m = (r, m') ->
    exists ev, trace m' = trace m ++ ev /\ Forall P ev.
Proof.
  intros P R Q t m r m' Hy Hexec.
  apply exec_TaskRun in Hexec. destruct Hexec as (ev & Hev & Hrun).
  exists ev. split; [exact Hev|].
  apply (@Yields_TaskRun P R Q t ev r Hy Hrun).
Qed.

Lemma getFilePaths_loading :
  Yields loading_event (fun _ : list FilePath => True)
    (Migrator.getFilePaths config).
Proof.
  unfold Migrator.getFilePaths. simpl. split.
  - constructor; [|constructor]. left. eexists. reflexivity.
  - intros _. split; [constructor|]. intros [e|files]; simpl; [exact I|].
    split; [|intros; exact I].
    constructor; [|constructor]. right. left. eexists. reflexivity.
Qed.

Lemma Bootstrap_init_loading :
  forall this : Bootstrap,
    Yields loading_event (fun _ : Bootstrap => True) (CqlFile_init this).
Proof.
  intros this. unfold CqlFile_init, loadAndCanonicalizeFile. simpl.
  split; [constructor|]. intros [e|content]; simpl; [exact I|].
  destruct (canonicalizeCql content) as [e|body]; exact I.
Qed.

Lemma Migration_init_loading :
  forall this : Migration,
    Yields loading_event (fun _ : Migration => True) (Migration_init this).
Proof.
  intros this. unfold Migration_init. apply Yields_bind.
  unfold CqlFile_init, loadAndCanonicalizeFile. simpl.
  split; [constructor|]. intros [e|content]; simpl; [exact I|].
  destruct (canonicalizeCql content) as [e|body]; simpl; [exact I|].
  split; [constructor; [split; reflexivity|constructor]|].
  intros [e|rs]; simpl.
  - split; [|intros; exact I].
    constructor; [|constructor]. right. right. exists e. reflexivity.
  - destruct (first rs) as [row|]; exact I.
Qed.

(** As long as the loop over the files goes on, it leaves the events of
    loading only. *)
Lemma loadFiles_loop_loading :
  forall files bootstraps migrations (m : Machine E) loaded m',
    exec (Migrator.loadFiles_loop config files bootstraps migrations) m
    = (inr loaded, m') ->
    exists ev, trace m' = trace m ++ ev /\ Forall loading_event ev.
Proof.
  induction files as [|file files IH]; intros bootstraps migrations m loaded m' H.
  - simpl in H. injection H as _ <-. exists []. rewrite app_nil_r. auto.
  - rewrite loadFiles_loop_cons in H.
    destruct (jsstring_eqb (Migrator.basename file) (bootstrapFilename config)
              && Nat.eqb (Migrator.getFileDepth file) 1).
    + rewrite exec_bind in H.
      destruct (exec (CqlFile_init (new_Bootstrap file)) m) as [[e|b] m1] eqn:Hb;
        [discriminate|].
      destruct (@exec_yields loading_event _ (fun _ => True) _ _ _ _
                  (Bootstrap_init_loading (new_Bootstrap file)) Hb)
        as (ev1 & Hev1 & Hl1).
      destruct (IH _ _ _ _ _ H) as (ev2 & Hev2 & Hl2).
      exists (ev1 ++ ev2). split.
      * rewrite Hev2, Hev1, app_assoc. reflexivity.
      * apply Forall_app. auto.
    + destruct (Nat.eqb (Migrator.getFileDepth file) 2); [|apply (IH _ _ _ _ _ H)].
      rewrite exec_bind in H.
      destruct (exec (Migration_init (new_Migration file)) m) as [[e|mig] m1] eqn:Hm;
        [discriminate|].
      destruct (@exec_yields loading_event _ (fun _ => True) _ _ _ _
                  (Migration_init_loading (new_Migration file)) Hm)
        as (ev1 & Hev1 & Hl1).
      destruct (negb (success (migration_file mig))
                && negb (Migrator.is_null (appliedOn (migration_file mig)))).
      * rewrite exec_bind, exec_error in H. discriminate.
      * destruct (IH _ _ _ _ _ H) as (ev2 & Hev2 & Hl2).
        exists (ev1 ++ ev2). split.
        -- rewrite Hev2, Hev1, app_assoc. reflexivity.
        -- apply Forall_app. auto.
Qed.

End Loading_events.

(** C3: when loading comes to a migration that the state store returns
    with [success = false] and a timestamp, [loadFiles] throws there, before
    any file after it is read. Up to there, from the line that the lock is
    acquired on, the run has left only the lines of the search for files
    and the selects of the rows of migrations, with the line of the client
    for a select that failed: no row has been written, no command of a file
    executed, no callback begun. [start] catches the error and from then on
    only tries to release the lock: no bootstrap and no migration is
    applied in that run. *)
Theorem failed_migration_aborts_loading :
  forall (E : Env) (config : Config) (client : jsstring) (patience : nat)
         (s : Process E) ma mb pre file post m0 bootstraps migrations m1
         migration m2,
    detached s = [] ->
    exec (Migrator.init config) (machine s) = (inr tt, ma) ->
    exec (lock.acquire client) ma = (inr true, mb) ->
    exec (Migrator.getFilePaths config)
      (mkMachine E (world mb) (trace mb ++ [lock_acquired_line]))
    = (inr (pre ++ file :: post), m0) ->
    exec (Migrator.loadFiles_loop config pre [] []) m0
    = (inr (bootstraps, migrations), m1) ->
    Migrator.getFileDepth file = 2 ->
    exec (Migration_init (new_Migration file)) m1 = (inr migration, m2) ->
    success (migration_file migration) = false ->
    appliedOn (migration_file migration) <> None ->
    exec (Migrator.loadFiles config)
      (mkMachine E (world mb) (trace mb ++ [lock_acquired_line]))
    = (inl Migrator.failed_migration_found,
       mkMachine E (world m2) (trace m2 ++ [failed_migration_line migration]))
    /\ (exists loading,
          trace m2 = trace mb ++ lock_acquired_line :: loading
          /\ Forall loading_event loading)
    /\ exists out s' tail,
         run (Migrator.start config client patience) s = (out, s')
         /\ trace (machine s')
            = trace m2
                ++ [failed_migration_line migration;
                    during_migration_error Migrator.failed_migration_found]
                ++ tail
         /\ Forall (release_event client) tail
         /\ (out = Exited (Some 1%Z) \/ out = Exited None \/ out = Returned tt).
Proof.
  intros E config client patience [m sch ds] ma mb pre file post m0 bootstraps migrations m1 migration m2
         Hds Hinit Hacq Hfiles Hpre Hdepth Hmig Hs Ha.
  simpl in Hds. subst ds. cbn [machine] in Hinit.
  assert (Hload :
    exec (Migrator.loadFiles config)
      (mkMachine E (world mb) (trace mb ++ [lock_acquired_line]))
    = (inl Migrator.failed_migration_found,
       mkMachine E (world m2) (trace m2 ++ [failed_migration_line migration]))).
  { unfold Migrator.loadFiles.
    rewrite exec_bind, Hfiles, exec_bind, loadFiles_loop_app, Hpre.
    cbn [fst snd].
    rewrite (@loadFiles_loop_failed E config file post bootstraps migrations
               m1 migration m2 Hdepth Hmig Hs Ha).
    reflexivity. }
  split; [exact Hload|].
  split.
  { destruct (@exec_yields E loading_event _ (fun _ => True) _ _ _ _
                (getFilePaths_loading config) Hfiles) as (ev0 & Hev0 & Hl0).
    destruct (@loadFiles_loop_loading E config pre [] [] m0 _ m1 Hpre)
      as (ev1 & Hev1 & Hl1).
    destruct (@exec_yields E loading_event _ (fun _ => True) _ _ _ _
                (Migration_init_loading (new_Migration file)) Hmig)
      as (ev2 & Hev2 & Hl2).
    exists (ev0 ++ ev1 ++ ev2). split.
    - rewrite Hev2, Hev1, Hev0. cbn [trace].
      rewrite <- !app_assoc. reflexivity.
    - repeat (apply Forall_app; split); assumption. }
  unfold Migrator.start.
  rewrite run_pbind, run_ptry_catch, run_pbind, run_lift, Hinit.
  rewrite run_pbind, run_lift, Hacq. simpl negb. cbv iota.
  cbn [run].
  rewrite run_pbind, run_ptry_catch, run_pbind, run_lift, exec_info.
  rewrite run_pbind, run_lift.
  change (EvInfo (mkLog (js "Lock acquired") [])) with lock_acquired_line.
  rewrite Hload.
  destruct (run_after_error client Migrator.failed_migration_found
              (mkMachine E (world m2) (trace m2 ++ [failed_migration_line migration]))
              sch) as (out & s' & tail & Hrun & Htr & Htail & Hout).
  exists out, s', tail.
  rewrite run_pbind in Hrun.
  split.
  - rewrite <- Hrun. rewrite run_pbind. reflexivity.
  - split; [|auto]. rewrite Htr. cbn [trace]. rewrite <- app_assoc. reflexivity.
Qed.


Lemma failed_migration_aborts_loading_witness :
  let s := Scripted.boot interrupted_world [] in
  let ma := snd (exec (Migrator.init default_config) (machine s)) in
  let mb := snd (exec (lock.acquire sample_client) ma) in
  let locked := mkMachine Scripted.env (world mb) (trace mb ++ [lock_acquired_line]) in
  let m0 := snd (exec (Migrator.getFilePaths default_config) locked) in
  let m1 := snd (exec (Migrator.loadFiles_loop default_config [interrupted_init] [] []) m0) in
  let m2 := snd (exec (Migration_init (new_Migration interrupted_file)) m1) in
  detached s = []
  /\ exec (Migrator.init default_config) (machine s) = (inr tt, ma)
  /\ exec (lock.acquire sample_client) ma = (inr true, mb)
  /\ exec (Migrator.getFilePaths default_config) locked
     = (inr ([interrupted_init] ++ interrupted_file :: []), m0)
  /\ exec (Migrator.loadFiles_loop default_config [interrupted_init] [] []) m0
     = (inr ([], []), m1)
  /\ Migrator.getFileDepth interrupted_file = 2
  /\ exec (Migration_init (new_Migration interrupted_file)) m1
     = (inr interrupted_migration, m2)
  /\ success (migration_file interrupted_migration) = false
  /\ appliedOn (migration_file interrupted_migration) <> None
  /\ (exec (Migrator.loadFiles default_config) locked
      = (inl Migrator.failed_migration_found,
         mkMachine Scripted.env (world m2)
           (trace m2 ++ [failed_migration_line interrupted_migration]))
      /\ (exists loading,
            trace m2 = trace mb ++ lock_acquired_line :: loading
            /\ Forall loading_event loading)
      /\ exists out s' tail,
           run (Migrator.start default_config sample_client 1) s = (out, s')
           /\ trace (machine s')
              = trace m2
                  ++ [failed_migration_line interrupted_migration;
                      during_migration_error Migrator.failed_migration_found]
                  ++ tail
           /\ Forall (release_event sample_client) tail
           /\ (out = Exited (Some 1%Z) \/ out = Exited None \/ out = Returned tt)).
Proof.
  intros s ma mb locked m0 m1 m2.
  assert (H0 : detached s = []) by reflexivity.
  assert (H1 : exec (Migrator.init default_config) (machine s) = (inr tt, ma))
    by (vm_compute; reflexivity).
  assert (H2 : exec (lock.acquire sample_client) ma = (inr true, mb))
    by (vm_compute; reflexivity).
  assert (H3 : exec (Migrator.getFilePaths default_config) locked
               = (inr ([interrupted_init] ++ interrupted_file :: []), m0))
    by (vm_compute; reflexivity).
  assert (H4 : exec (Migrator.loadFiles_loop default_config [interrupted_init] [] []) m0
               = (inr ([], []), m1))
    by (vm_compute; reflexivity).
  assert (H5 : Migrator.getFileDepth interrupted_file = 2) by reflexivity.
  assert (H6 : exec (Migration_init (new_Migration interrupted_file)) m1
               = (inr interrupted_migration, m2))
    by (vm_compute; reflexivity).
  assert (H7 : success (migration_file interrupted_migration) = false)
    by reflexivity.
  assert (H8 : appliedOn (migration_file interrupted_migration) <> None)
    by (vm_compute; discriminate).
  repeat (split; [assumption|]).
  exact (failed_migration_aborts_loading default_config sample_client 1 s
           [interrupted_init] interrupted_file [] H0 H1 H2 H3 H4 H5 H6 H7 H8).
Defined.

(** ** Forming a round *)

Lemma jsstring_eqb_refl : forall a, jsstring_eqb a a = true.
Proof. intros a. apply jsstring_eqb_eq. reflexivity. Qed.

Lemma jsstring_eqb_neq : forall a b, a <> b -> jsstring_eqb a b = false.
Proof.
  intros a b H. destruct (jsstring_eqb a b) eqn:Heq; auto.
  apply jsstring_eqb_eq in Heq. contradiction.
Qed.

Lemma map_replace_at :
  forall pre key v0 v rest,
    ~ In key (map fst pre) ->
    map_replace key v (pre ++ (key, v0) :: rest) = pre ++ (key, v) :: rest.
Proof.
  induction pre as [|[k w] pre IH]; intros key v0 v rest Hk; simpl.
  - rewrite jsstring_eqb_refl. reflexivity.
  - simpl in Hk. rewrite jsstring_eqb_neq by tauto.
    f_equal. apply IH. tauto.
Qed.

Lemma map_delete_at :
  forall pre key v rest,
    ~ In key (map fst pre) ->
    map_delete key (pre ++ (key, v) :: rest) = pre ++ rest.
Proof.
  induction pre as [|[k w] pre IH]; intros key v rest Hk; simpl.
  - rewrite jsstring_eqb_refl. reflexivity.
  - simpl in Hk. rewrite jsstring_eqb_neq by tauto.
    f_equal. apply IH. tauto.
Qed.

Lemma shift_heads_from :
  forall snapshot pre,
    NoDup (map fst (pre ++ snapshot)) ->
    Forall entry_ok snapshot ->
    Migrator.shift_heads snapshot (pre ++ snapshot)
    = (map Some (round_heads snapshot), pre ++ round_tails snapshot).
Proof.
  induction snapshot as [|[key array] snapshot IH]; intros pre Hnd Hok.
  - reflexivity.
  - pose proof (Forall_inv Hok) as [Hne Hsvc].
    pose proof (Forall_inv_tail Hok) as Hok'.
    simpl in Hne, Hsvc.
    destruct array as [|migration array']; [congruence|].
    pose proof (Forall_inv Hsvc) as Hm. simpl in Hm.
    assert (Hkey : ~ In key (map fst pre)).
    { rewrite map_app in Hnd. simpl in Hnd.
      apply NoDup_remove_2 in Hnd. intros Hin. apply Hnd.
      apply in_or_app. auto. }
    simpl Migrator.shift_heads.
    rewrite map_replace_at by exact Hkey.
    destruct array' as [|m2 array'']; simpl length; simpl Nat.eqb; cbv iota.
    + rewrite Hm, map_delete_at by exact Hkey.
      rewrite IH; [reflexivity| |exact Hok'].
      rewrite map_app in *. simpl in Hnd.
      apply NoDup_remove_1 in Hnd. exact Hnd.
    + replace (pre ++ (key, m2 :: array'') :: snapshot)
        with ((pre ++ [(key, m2 :: array'')]) ++ snapshot)
        by (rewrite <- app_assoc; reflexivity).
      rewrite IH; [|rewrite <- app_assoc; simpl;
                    rewrite map_app in *; exact Hnd|exact Hok'].
      unfold round_heads, round_tails. simpl.
      rewrite <- app_assoc. reflexivity.
Qed.

Lemma shift_heads_well_formed :
  forall migrations,
    well_formed migrations ->
    Migrator.shift_heads migrations migrations
    = (map Some (round_heads migrations), round_tails migrations).
Proof.
  intros migrations [Hnd Hok].
  apply (@shift_heads_from migrations [] Hnd Hok).
Qed.

(** ** One round *)

Section Round.

Variable E : Env.
Variable config : Config.
Variable patience : nat.

Lemma migration_task_never_throws :
  forall migration,
    never_throws (Migrator.migration_task config (Some migration)).
Proof.
  intros migration tr r H.
  destruct (migration_task_runs H) as (failed & -> & _).
  eauto.
Qed.

Lemma round_tasks_runs :
  forall heads (runs : list (list Event * bool)),
    Forall2 (@Run bool) (map (Migrator.migration_task config) (map Some heads)) runs ->
    round_runs heads runs.
Proof.
  induction heads as [|m heads IH]; intros runs H; inversion H; subst.
  - constructor.
  - constructor; [|apply IH; assumption].
    match goal with
    | Hr : Run _ _ |- _ =>
        destruct (migration_task_runs Hr) as (failed & Hf & Hrun)
    end.
    injection Hf as <-. exact Hrun.
Qed.

Lemma applyMigrations_loop_S :
  forall n migrations,
    Migrator.applyMigrations_loop config patience (S n) migrations
    = if Nat.ltb 0 (length (map fst migrations)) then
        let (heads, migrations') := Migrator.shift_heads migrations migrations in
        pbind (promise_all (map (Migrator.migration_task config) heads))
          (fun failed =>
             if existsb (fun b : bool => b) failed then Raise Migrator.round_failed
             else
               pbind (lift (logger.info
                       (js "Round of migrations applied, waiting for schema agreement before continuing")
                       []))
                 (fun _ =>
                    pbind (getSchemaAgreementPromise patience 1000)
                      (fun _ =>
                         pbind (lift (logger.info (js "Schemas are in agreement, continuing") []))
                           (fun _ => Migrator.applyMigrations_loop config patience n migrations'))))
      else Return tt.
Proof. reflexivity. Qed.

(** A round over a well-formed map that is not empty: every callback runs
    to its end; then the loop throws if one of them failed, and goes on to
    the schema agreement otherwise. *)
Lemma run_round :
  forall n migrations (s : Process E),
    well_formed migrations -> migrations <> [] -> detached s = [] ->
    exists runs seg w sch,
      round_runs (round_heads migrations) runs
      /\ Merge (map fst runs) seg
      /\ run (Migrator.applyMigrations_loop config patience (S n) migrations) s
         = let s1 := mkProcess (mkMachine E w (trace (machine s) ++ seg)) sch [] in
           if existsb (fun b : bool => b) (map snd runs)
           then (Thrown Migrator.round_failed, s1)
           else run
                  (pbind (lift (logger.info
                           (js "Round of migrations applied, waiting for schema agreement before continuing")
                           []))
                     (fun _ =>
                        pbind (getSchemaAgreementPromise patience 1000)
                          (fun _ =>
                             pbind (lift (logger.info (js "Schemas are in agreement, continuing") []))
                               (fun _ => Migrator.applyMigrations_loop config patience n
                                           (round_tails migrations)))))
                  s1.
Proof.
  intros n migrations s Hwf Hne Hds.
  rewrite applyMigrations_loop_S.
  destruct migrations as [|kv migrations']; [congruence|].
  change (Nat.ltb 0 (length (map fst (kv :: migrations')))) with true.
  cbv iota.
  rewrite (shift_heads_well_formed Hwf).
  set (heads := round_heads (kv :: migrations')).
  assert (Hnt : Forall (@never_throws bool)
                  (map (Migrator.migration_task config) (map Some heads))).
  { rewrite Forall_forall. intros t Ht.
    apply in_map_iff in Ht. destruct Ht as (h & <- & Hh).
    apply in_map_iff in Hh. destruct Hh as (m & <- & _).
    apply migration_task_never_throws. }
  destruct (run_all_never_throws s Hnt) as (runs & seg & w & sch & Hruns & Hmerge & Hall).
  exists runs, seg, w, sch.
  split; [apply round_tasks_runs; exact Hruns|]. split; [exact Hmerge|].
  rewrite run_pbind. unfold promise_all. cbn [run]. rewrite Hall, Hds.
  cbn [run].
  destruct (existsb (fun b : bool => b) (map snd runs)); reflexivity.
Qed.

End Round.

(** C5: in a round of [applyMigrations], whatever the order in which the
    answers of the driver come in, every callback runs to its end: its log
    line, what [apply] did, and the line that ends it, an error line for an
    apply that failed. These events, interleaved, are what the round adds
    to the trace. If one or more of the callbacks failed, the loop then
    throws the one error of the round and nothing comes after the events
    of the callbacks: there is no wait for schema agreement. If none
    failed, the line of the wait comes next. *)
Theorem failed_round_completes_then_throws :
  forall (E : Env) (config : Config) (patience n : nat)
         (migrations : MigrationMap) (s : Process E),
    well_formed migrations -> migrations <> [] -> detached s = [] ->
    let final :=
      run (Migrator.applyMigrations_loop config patience (S n) migrations) s in
    exists runs seg,
      round_runs (round_heads migrations) runs
      /\ Merge (map fst runs) seg
      /\ (existsb (fun failed : bool => failed) (map snd runs) = true ->
          fst final = Thrown Migrator.round_failed
          /\ trace (machine (snd final)) = trace (machine s) ++ seg)
      /\ (existsb (fun failed : bool => failed) (map snd runs) = false ->
          exists rest,
            trace (machine (snd final))
            = trace (machine s) ++ seg ++ waiting_line :: rest).
Proof.
  intros E config patience n migrations s Hwf Hne Hds final.
  destruct (run_round config patience n s Hwf Hne Hds)
    as (runs & seg & w & sch & Hruns & Hmerge & Hrun).
  exists runs, seg.
  split; [exact Hruns|]. split; [exact Hmerge|].
  subst final. rewrite Hrun. cbv zeta.
  split; intros Hfailed; rewrite Hfailed.
  - split; reflexivity.
  - rewrite run_pbind, run_lift, exec_info. cbn [world trace].
    match goal with
    | |- context [run ?p ?s1] => destruct (run_grows p s1) as [rest Hrest]
    end.
    exists rest. rewrite Hrest. cbn [machine trace].
    rewrite <- !app_assoc. reflexivity.
Qed.

Lemma sample_round_well_formed : well_formed sample_round.
Proof.
  split.
  - repeat constructor; simpl; intros H;
      repeat (destruct H as [H|H]; [vm_compute in H; discriminate|]);
      exact H.
  - repeat constructor; discriminate.
Qed.

Lemma failed_round_completes_then_throws_witness :
  let s := Scripted.boot failing_world [0; 1; 1; 0; 0] in
  let final :=
    run (Migrator.applyMigrations_loop default_config 1 1 sample_round) s in
  well_formed sample_round
  /\ sample_round <> []
  /\ detached s = []
  /\ exists runs seg,
       round_runs (round_heads sample_round) runs
       /\ Merge (map fst runs) seg
       /\ (existsb (fun failed : bool => failed) (map snd runs) = true ->
           fst final = Thrown Migrator.round_failed
           /\ trace (machine (snd final)) = trace (machine s) ++ seg)
       /\ (existsb (fun failed : bool => failed) (map snd runs) = false ->
           exists rest,
             trace (machine (snd final))
             = trace (machine s) ++ seg ++ waiting_line :: rest).
Proof.
  intros s final.
  assert (H1 : well_formed sample_round) by exact sample_round_well_formed.
  assert (H2 : sample_round <> []) by discriminate.
  assert (H3 : detached s = []) by reflexivity.
  repeat (split; [assumption|]).
  exact (@failed_round_completes_then_throws Scripted.env default_config 1 0
           sample_round s H1 H2 H3).
Defined.

(** In that round both callbacks begin, each up to the insert of its row,
    before an answer of the driver comes in. The first command of [users]
    fails; [orders] goes on to its end all the same; then the loop throws,
    and the line of the wait for schema agreement is not written. *)
Example failed_round_example :
  let final :=
    run (Migrator.applyMigrations_loop default_config 1 1 sample_round)
      (Scripted.boot failing_world [0; 1; 1; 0; 0]) in
  let tr := trace (machine (snd final)) in
  fst final = Thrown Migrator.round_failed
  /\ length tr = 10
  /\ nth_error tr 0 = Some (begin_line sample_fresh)
  /\ nth_error tr 1
     = Some (write_row sample_fresh (getCqlChecksum sample_body) 2000%Z false)
  /\ nth_error tr 2 = Some (begin_line sample_orders)
  /\ nth_error tr 4
     = Some (command_event default_config
               (js "CREATE TABLE foo . users ( id uuid PRIMARY KEY ) "))
  /\ nth_error tr 7
     = Some (EvInfo (CassandraClient.query_error
                       (js "CREATE TABLE foo . users ( id uuid PRIMARY KEY ) ")
                       (js "Invalid query")))
  /\ nth_error tr 8
     = Some (EvError
               (mkLog (js "Error applying migration. Admin intervention is likely required.")
                  (("error", VString (js "Invalid query"))
                     :: coordinates sample_fresh)))
  /\ nth_error tr 9
     = Some (EvInfo (mkLog (js "Migration applied") (coordinates sample_orders)))
  /\ ~ In waiting_line tr.
Proof.
  vm_compute. repeat (split; [reflexivity|]).
  intros H. repeat (destruct H as [H|H]; [discriminate H|]). exact H.
Qed.

(** ** The rounds of the loop *)

Section Rounds.

Variable E : Env.
Variable config : Config.
Variable patience : nat.

Lemma getSchemaAgreementPromise_S :
  forall n ms,
    getSchemaAgreementPromise (S n) ms
    = pbind (lift CassandraClient.checkSchemaAgreement)
        (fun agreed : bool =>
           if agreed then Return tt
           else pbind (lift (trigger (SetTimeout ms)))
                  (fun _ => getSchemaAgreementPromise n ms)).
Proof. reflexivity. Qed.

Lemma exec_checkSchemaAgreement :
  forall m : Machine E,
    exec CassandraClient.checkSchemaAgreement m
    = match schema_agreement E (world m) with
      | (inr agreed, w) => (inr agreed, mkMachine E w (trace m ++ [EvProbe]))
      | (inl e, w) => (inl e, mkMachine E w (trace m ++ [EvProbe]))
      end.
Proof.
  intros m. unfold CassandraClient.checkSchemaAgreement.
  simpl. unfold perform. simpl.
  destruct (schema_agreement E (world m)) as [[e|agreed] w]; reflexivity.
Qed.

Lemma exec_SetTimeout :
  forall ms (m : Machine E),
    exec (trigger (SetTimeout ms)) m
    = (inr tt, mkMachine E (sleep E ms (world m)) (trace m)).
Proof.
  intros ms m. simpl. unfold perform. simpl. rewrite app_nil_r. reflexivity.
Qed.

(** The wait for schema agreement leaves probes, and either returns,
    after one probe at least, or is still pending when the model stops
    following it, or throws what a probe threw. *)
Lemma run_getSchemaAgreementPromise :
  forall n ms (m : Machine E) sch,
  exists out w probes,
    run (getSchemaAgreementPromise n ms) (mkProcess m sch [])
    = (out, mkProcess (mkMachine E w (trace m ++ probes)) sch [])
    /\ Forall (fun e => e = EvProbe) probes
    /\ ((out = Returned tt /\ probes <> [])
        \/ out = Waiting \/ exists e, out = Thrown e).
Proof.
  induction n as [|n IH]; intros ms m sch.
  - exists Waiting, (world m), []. simpl. rewrite app_nil_r.
    destruct m; simpl. auto.
  - rewrite getSchemaAgreementPromise_S, run_pbind, run_lift.
    rewrite exec_checkSchemaAgreement.
    destruct (schema_agreement E (world m)) as [[e|agreed] w1].
    + exists (Thrown e), w1, [EvProbe]. split; [reflexivity|].
      split; [repeat constructor|eauto].
    + destruct agreed.
      * exists (Returned tt), w1, [EvProbe]. split; [reflexivity|].
        split; [repeat constructor|].
        left. split; [reflexivity|discriminate].
      * rewrite run_pbind, run_lift, exec_SetTimeout. cbn [world trace].
        destruct (IH ms (mkMachine E (sleep E ms w1) (trace m ++ [EvProbe])) sch)
          as (out & w & probes & Hrun & Hprobes & Hout).
        exists out, w, (EvProbe :: probes). rewrite Hrun. cbn [trace].
        rewrite <- app_assoc. split; [reflexivity|].
        split; [constructor; auto|].
        destruct Hout as [[Hout _]|Hout]; [|right; exact Hout].
        left. split; [exact Hout|discriminate].
Qed.

Lemma round_tails_cons :
  forall k l migrations,
    round_tails ((k, l) :: migrations)
    = if Nat.eqb (length (tl l)) 0 then round_tails migrations
      else (k, tl l) :: round_tails migrations.
Proof.
  intros k l migrations. unfold round_tails. simpl.
  destruct (Nat.eqb (length (tl l)) 0); reflexivity.
Qed.

Lemma round_tails_total_le :
  forall migrations,
    Migrator.total_migrations (round_tails migrations)
    <= Migrator.total_migrations migrations.
Proof.
  unfold Migrator.total_migrations.
  induction migrations as [|[k l] mm IH]; [simpl; auto|].
  rewrite round_tails_cons.
  assert (Htl : length (tl l) <= length l) by (destruct l; simpl; lia).
  destruct (Nat.eqb (length (tl l)) 0); simpl; rewrite !length_app; lia.
Qed.

Lemma round_tails_total :
  forall migrations,
    Forall entry_ok migrations -> migrations <> [] ->
    Migrator.total_migrations (round_tails migrations)
    < Migrator.total_migrations migrations.
Proof.
  intros [|[k l] mm] Hok Hne; [congruence|].
  pose proof (Forall_inv Hok) as [Hl _]. simpl in Hl.
  pose proof (round_tails_total_le mm) as Hle.
  unfold Migrator.total_migrations in *.
  rewrite round_tails_cons.
  destruct l as [|x l']; [congruence|]. simpl tl.
  destruct (Nat.eqb (length l') 0); simpl; rewrite !length_app; simpl; lia.
Qed.

Lemma round_tails_well_formed :
  forall migrations, well_formed migrations -> well_formed (round_tails migrations).
Proof.
  intros migrations [Hnd Hok]. unfold round_tails. split.
  - clear Hok. induction migrations as [|[k l] mm IH]; simpl; [constructor|].
    simpl in Hnd. inversion Hnd as [|? ? Hk Hnd']; subst.
    specialize (IH Hnd').
    destruct (negb (Nat.eqb (length (tl l)) 0)); simpl; [|exact IH].
    constructor; [|exact IH].
    intros Hin. apply Hk.
    apply in_map_iff in Hin. destruct Hin as ([k' l'] & Hk' & Hin).
    simpl in Hk'. subst k'.
    apply filter_In in Hin. destruct Hin as [Hin _].
    apply in_map_iff in Hin. destruct Hin as ([k'' l''] & Heq & Hin).
    simpl in Heq. injection Heq as -> _.
    apply in_map_iff. exists (k, l''). auto.
  - rewrite Forall_forall in *. intros [k l] Hin.
    apply filter_In in Hin. destruct Hin as [Hin Hlen].
    apply in_map_iff in Hin. destruct Hin as ([k' l'] & Heq & Hin).
    simpl in Heq. injection Heq as -> <-.
    destruct (Hok _ Hin) as [Hne Hsvc]. simpl in *.
    split.
    + destruct (tl l'); [discriminate|discriminate].
    + destruct l' as [|x l'']; simpl; [constructor|].
      inversion Hsvc; assumption.
Qed.

Lemma no_failure :
  forall runs : list (list Event * bool),
    existsb (fun b : bool => b) (map snd runs) = false ->
    Forall (fun run => snd run = false) runs.
Proof.
  induction runs as [|[tr b] runs IH]; simpl; intros H; [constructor|].
  apply orb_false_iff in H. destruct H as [Hb H]. constructor; auto.
Qed.

(** Whatever the schedule and however the run ends, the events of the loop
    are those of rounds. *)
Lemma applyMigrations_loop_trace :
  forall n migrations (s : Process E) out s',
    Migrator.total_migrations migrations < n ->
    well_formed migrations -> detached s = [] ->
    run (Migrator.applyMigrations_loop config patience n migrations) s = (out, s') ->
    exists tr,
      trace (machine s') = trace (machine s) ++ tr /\ RoundsTrace migrations tr.
Proof.
  induction n as [|n IH]; intros migrations s out s' Hn Hwf Hds Hrun; [lia|].
  destruct migrations as [|kv mm].
  - simpl in Hrun. injection Hrun as <- <-.
    exists []. rewrite app_nil_r. split; [reflexivity|constructor].
  - assert (Hne : kv :: mm <> []) by discriminate.
    destruct (run_round config patience n s Hwf Hne Hds)
      as (runs & seg & w & sch & Hruns & Hmerge & Hround).
    rewrite Hround in Hrun. cbv zeta in Hrun.
    destruct (existsb (fun b : bool => b) (map snd runs)) eqn:Hfailed.
    + injection Hrun as <- <-. exists seg. split; [reflexivity|].
      rewrite <- (app_nil_r seg).
      eapply rounds_stop; eauto.
    + rewrite run_pbind, run_lift, exec_info in Hrun. cbn [world trace] in Hrun.
      rewrite run_pbind in Hrun.
      match type of Hrun with
      | context [run (getSchemaAgreementPromise _ _) (mkProcess ?m1 _ _)] =>
          destruct (run_getSchemaAgreementPromise patience 1000 m1 sch)
            as (out1 & w1 & probes & Hwait & Hprobes & Hout)
      end.
      rewrite Hwait in Hrun. cbn [trace] in Hrun.
      destruct Hout as [[-> Hpolled]|[->|[e ->]]].
      * rewrite run_pbind, run_lift, exec_info in Hrun. cbn [world trace] in Hrun.
        eapply IH in Hrun.
        -- destruct Hrun as (tr & Htr & Hrounds).
           exists (seg ++ waiting_line :: probes ++ agreement_line :: tr).
           split.
           ++ rewrite Htr. cbn [machine trace].
              rewrite <- !app_assoc. reflexivity.
           ++ eapply rounds_next; eauto. apply no_failure. exact Hfailed.
        -- pose proof (round_tails_total (proj2 Hwf) Hne). lia.
        -- apply round_tails_well_formed. exact Hwf.
        -- reflexivity.
      * injection Hrun as <- <-.
        exists (seg ++ waiting_line :: probes). split.
        -- cbn [machine trace]. rewrite <- !app_assoc. reflexivity.
        -- eapply rounds_stop; eauto.
           constructor; [left; reflexivity|].
           eapply Forall_impl; [|exact Hprobes]. intros e0 ->. right. reflexivity.
      * injection Hrun as <- <-.
        exists (seg ++ waiting_line :: probes). split.
        -- cbn [machine trace]. rewrite <- !app_assoc. reflexivity.
        -- eapply rounds_stop; eauto.
           constructor; [left; reflexivity|].
           eapply Forall_impl; [|exact Hprobes]. intros e0 ->. right. reflexivity.
Qed.

End Rounds.

(** ** The barrier between rounds *)

Lemma Forall2_In_l :
  forall A B (P : A -> B -> Prop) l l' a,
    Forall2 P l l' -> In a l -> exists b, In b l' /\ P a b.
Proof.
  intros A B P l l' a H. induction H as [|x y l l' Hxy H IH]; intros Hin.
  - destruct Hin.
  - destruct Hin as [->|Hin].
    + exists y. simpl. auto.
    + destruct (IH Hin) as (b & Hb & Hab). exists b. simpl. auto.
Qed.

Lemma Forall2_In_r :
  forall A B (P : A -> B -> Prop) l l' b,
    Forall2 P l l' -> In b l' -> exists a, In a l /\ P a b.
Proof.
  intros A B P l l' b H. induction H as [|x y l l' Hxy H IH]; intros Hin.
  - destruct Hin.
  - destruct Hin as [->|Hin].
    + exists x. simpl. auto.
    + destruct (IH Hin) as (a & Ha & Hab). exists a. simpl. auto.
Qed.

Lemma occurrence_after :
  forall A (l1 l2 before after : list A) x,
    l1 ++ l2 = before ++ x :: after -> ~ In x l1 ->
    exists before', before = l1 ++ before' /\ l2 = before' ++ x :: after.
Proof.
  induction l1 as [|y l1 IH]; intros l2 before after x Heq Hx.
  - exists before. auto.
  - destruct before as [|z before].
    + simpl in Heq. injection Heq as -> _. exfalso. apply Hx. simpl. auto.
    + simpl in Heq. injection Heq as <- Heq.
      destruct (IH l2 before after x Heq) as (before' & -> & ->).
      * intros Hin. apply Hx. simpl. auto.
      * exists before'. auto.
Qed.

Lemma begin_line_coordinates :
  forall a b, begin_line a = begin_line b -> coordinates a = coordinates b.
Proof. intros a b H. unfold begin_line in H. congruence. Qed.

Lemma begin_line_not_inner : forall b, ~ inner_event (begin_line b).
Proof. intros b H. simpl in H. vm_compute in H. discriminate. Qed.

Lemma begin_line_not_end :
  forall a b failed, ~ end_line a failed (begin_line b).
Proof.
  intros a b failed H. inversion H as [Heq|Heq|e Heq];
    unfold begin_line in Heq; try discriminate;
    injection Heq as Heq _; vm_compute in Heq; discriminate.
Qed.

(** A round's segment holds the log lines of its own migrations only. *)
Lemma begin_not_in_round :
  forall heads runs seg b,
    round_runs heads runs -> Merge (map fst runs) seg ->
    (forall h, In h heads -> coordinates h <> coordinates b) ->
    ~ In (begin_line b) seg.
Proof.
  intros heads runs seg b Hruns Hmerge Hfresh Hin.
  apply (Merge_In _ Hmerge) in Hin. destruct Hin as (tr & Htr & Hin).
  apply in_map_iff in Htr. destruct Htr as (run & <- & Hrun).
  destruct (Forall2_In_r _ Hruns Hrun) as (h & Hh & body & last & Heq & Hbody & Hlast).
  rewrite Heq in Hin. simpl in Hin. destruct Hin as [Hin|Hin].
  - apply (Hfresh h Hh). apply begin_line_coordinates. exact Hin.
  - apply in_app_or in Hin. destruct Hin as [Hin|[Hin|[]]].
    + rewrite Forall_forall in Hbody.
      apply (begin_line_not_inner (Hbody _ Hin)).
    + subst last. apply (begin_line_not_end Hlast).
Qed.

(** In a round without failure every migration of the round has its end
    line in the segment. *)
Lemma end_in_round :
  forall heads runs seg a,
    round_runs heads runs -> Forall (fun run => snd run = false) runs ->
    Merge (map fst runs) seg -> In a heads ->
    exists e, end_line a false e /\ In e seg.
Proof.
  intros heads runs seg a Hruns Hok Hmerge Ha.
  destruct (Forall2_In_l _ Hruns Ha) as (run & Hrun & body & last & Heq & _ & Hlast).
  rewrite Forall_forall in Hok. rewrite (Hok _ Hrun) in Hlast.
  exists last. split; [exact Hlast|].
  apply (Merge_In _ Hmerge). exists (fst run). split.
  - apply in_map. exact Hrun.
  - rewrite Heq. simpl. right. apply in_or_app. simpl. auto.
Qed.

(** *** Rounds by index *)

Lemma round_at_0 : forall migrations, round_at 0 migrations = round_heads migrations.
Proof.
  intros migrations. unfold round_at, round_heads.
  apply flat_map_ext. intros [k l]. destruct l; reflexivity.
Qed.

Lemma round_at_S :
  forall i migrations,
    round_at (S i) migrations = round_at i (round_tails migrations).
Proof.
  intros i. induction migrations as [|[k l] mm IH]; [reflexivity|].
  rewrite round_tails_cons.
  change (round_at (S i) ((k, l) :: mm))
    with (match nth_error l (S i) with Some m => [m] | None => [] end
            ++ round_at (S i) mm).
  rewrite IH.
  destruct l as [|x l']; simpl tl.
  - simpl. reflexivity.
  - destruct l' as [|y l'']; simpl Nat.eqb; cbv iota.
    + destruct i; reflexivity.
    + reflexivity.
Qed.

Lemma round_at_incl :
  forall i migrations a,
    In a (round_at i migrations) -> In a (concat (map snd migrations)).
Proof.
  intros i. induction migrations as [|[k l] mm IH]; intros a H; [destruct H|].
  change (round_at i ((k, l) :: mm))
    with (match nth_error l i with Some m => [m] | None => [] end
            ++ round_at i mm) in H.
  simpl. apply in_or_app. apply in_app_or in H. destruct H as [H|H].
  - left. destruct (nth_error l i) eqn:Hn; [|destruct H].
    destruct H as [<-|[]]. eapply nth_error_In; eauto.
  - right. apply IH. exact H.
Qed.

Lemma migrations_split :
  forall migrations,
    Permutation (concat (map snd migrations))
      (round_heads migrations ++ concat (map snd (round_tails migrations))).
Proof.
  induction migrations as [|[k l] mm IH]; [constructor|].
  rewrite round_tails_cons.
  change (round_heads ((k, l) :: mm))
    with (match l with m :: _ => [m] | [] => [] end ++ round_heads mm).
  simpl concat at 1.
  destruct l as [|x l']; simpl tl.
  - simpl. exact IH.
  - destruct l' as [|y l'']; simpl Nat.eqb; cbv iota.
    + simpl. constructor. exact IH.
    + simpl. constructor.
      rewrite IH.
      change (Permutation
                ((y :: l'') ++ round_heads mm ++ concat (map snd (round_tails mm)))
                (round_heads mm ++ (y :: l'') ++ concat (map snd (round_tails mm)))).
      apply Permutation_app_swap_app.
Qed.

Lemma NoDup_app_apart :
  forall A (l1 l2 : list A) x, NoDup (l1 ++ l2) -> In x l1 -> In x l2 -> False.
Proof.
  induction l1 as [|y l1 IH]; intros l2 x Hnd H1 H2; [destruct H1|].
  simpl in Hnd. inversion Hnd as [|? ? Hy Hnd']; subst.
  destruct H1 as [->|H1].
  - apply Hy. apply in_or_app. auto.
  - eapply IH; eauto.
Qed.

Ltac list_eq :=
  repeat (progress (rewrite <- ?app_assoc; rewrite <- ?app_comm_cons; simpl));
  reflexivity.

Lemma heads_apart_from_tails :
  forall migrations,
    NoDup (map coordinates (concat (map snd migrations))) ->
    NoDup (map coordinates (concat (map snd (round_tails migrations))))
    /\ forall h b,
         In h (round_heads migrations) ->
         In b (concat (map snd (round_tails migrations))) ->
         coordinates h <> coordinates b.
Proof.
  intros migrations Hnd.
  assert (Hnd' : NoDup (map coordinates
                          (round_heads migrations
                             ++ concat (map snd (round_tails migrations))))).
  { eapply Permutation_NoDup; [|exact Hnd].
    apply Permutation_map. apply migrations_split. }
  rewrite map_app in Hnd'. split.
  - apply NoDup_app_remove_l in Hnd'. exact Hnd'.
  - intros h b Hh Hb Heq.
    apply (NoDup_app_apart _ _ (coordinates h) Hnd').
    + apply in_map. exact Hh.
    + rewrite Heq. apply in_map. exact Hb.
Qed.

Lemma wait_lines_not_begin :
  forall probes b,
    Forall (fun e => e = EvProbe) probes ->
    ~ In (begin_line b) (waiting_line :: probes ++ [agreement_line]).
Proof.
  intros probes b Hprobes [Hin|Hin].
  - unfold waiting_line, begin_line in Hin.
    injection Hin as Hin _. vm_compute in Hin. discriminate.
  - apply in_app_or in Hin. destruct Hin as [Hin|[Hin|[]]].
    + rewrite Forall_forall in Hprobes. specialize (Hprobes _ Hin).
      discriminate.
    + unfold agreement_line, begin_line in Hin.
      injection Hin as Hin _. vm_compute in Hin. discriminate.
Qed.

(** A migration of a later round begins only after every migration of an
    earlier round has ended and schema agreement has been reported after
    that. *)
Lemma rounds_barrier :
  forall migrations tr,
    RoundsTrace migrations tr ->
    NoDup (map coordinates (concat (map snd migrations))) ->
    forall i j a b before after,
      i < j ->
      In a (round_at i migrations) -> In b (round_at j migrations) ->
      tr = before ++ begin_line b :: after ->
      exists pre e mid1 polls mid2,
        before
        = pre ++ e :: mid1
            ++ waiting_line :: polls ++ EvProbe :: agreement_line :: mid2
        /\ end_line a false e
        /\ Forall (fun poll => poll = EvProbe) polls.
Proof.
  intros migrations tr H.
  induction H as [|mm runs seg rest Hne Hruns Hmerge Hrest
                  |mm runs seg probes tr Hne Hruns Hok Hmerge Hprobes Hpolled
                     Hrounds IH];
    intros Hnd i j a b before after Hij Ha Hb Heq.
  - destruct Ha.
  - (* the last round: no later migration begins *)
    exfalso.
    destruct j as [|j]; [lia|].
    rewrite round_at_S in Hb. apply round_at_incl in Hb.
    destruct (heads_apart_from_tails mm Hnd) as [_ Hfresh].
    assert (Hin : In (begin_line b) (seg ++ rest))
      by (rewrite Heq; apply in_or_app; simpl; auto).
    apply in_app_or in Hin. destruct Hin as [Hin|Hin].
    + revert Hin. eapply begin_not_in_round; eauto.
    + rewrite Forall_forall in Hrest.
      destruct (Hrest _ Hin) as [Hw|Hp]; [|discriminate].
      unfold waiting_line, begin_line in Hw.
      injection Hw as Hw _. vm_compute in Hw. discriminate.
  - destruct j as [|j]; [lia|].
    rewrite round_at_S in Hb.
    destruct (heads_apart_from_tails mm Hnd) as [Hnd' Hfresh].
    assert (Hseg : ~ In (begin_line b) seg).
    { eapply begin_not_in_round; eauto.
      intros h Hh. apply Hfresh; [exact Hh|].
      eapply round_at_incl; eauto. }
    destruct (@occurrence_after _ _ _ _ _ _ Heq Hseg) as (before1 & -> & Heq1).
    change (waiting_line :: probes ++ agreement_line :: tr)
      with ((waiting_line :: probes) ++ agreement_line :: tr) in Heq1.
    replace ((waiting_line :: probes) ++ agreement_line :: tr)
      with ((waiting_line :: probes ++ [agreement_line]) ++ tr) in Heq1
      by (simpl; rewrite <- app_assoc; reflexivity).
    destruct (@occurrence_after _ _ _ _ _ _ Heq1 (@wait_lines_not_begin probes b Hprobes))
      as (before2 & -> & Heq2).
    destruct i as [|i].
    + rewrite round_at_0 in Ha.
      destruct (@end_in_round _ _ _ _ Hruns Hok Hmerge Ha) as (e & He & Hin).
      apply in_split in Hin. destruct Hin as (pre & mid1 & ->).
      destruct (exists_last Hpolled) as (polls & poll & ->).
      apply Forall_app in Hprobes. destruct Hprobes as [Hpolls Hpoll].
      pose proof (Forall_inv Hpoll) as Hlast. simpl in Hlast. subst poll.
      exists pre, e, mid1, polls, before2.
      split; [|split; [exact He|exact Hpolls]]. list_eq.
    + rewrite round_at_S in Ha.
      destruct (IH Hnd' i j a b before2 after)
        as (pre & e & mid1 & polls & mid2 & -> & He & Hpolls);
        auto; try lia.
      exists (seg ++ (waiting_line :: probes ++ [agreement_line]) ++ pre),
        e, mid1, polls, mid2.
      split; [|split; [exact He|exact Hpolls]]. list_eq.
Qed.

(** ** The order of file names and the sort *)

Lemma jsstring_ltb_irrefl : forall a, jsstring_ltb a a = false.
Proof.
  induction a as [|x a IH]; simpl; auto.
  rewrite N.ltb_irrefl. exact IH.
Qed.

Lemma jsstring_ltb_trans :
  forall a b c,
    jsstring_ltb a b = true -> jsstring_ltb b c = true -> jsstring_ltb a c = true.
Proof.
  induction a as [|x a IH]; intros [|y b] [|z c] Hab Hbc; simpl in *;
    try discriminate; auto.
  destruct (N.ltb x y) eqn:Hxy.
  - destruct (N.ltb y z) eqn:Hyz.
    + apply N.ltb_lt in Hxy, Hyz.
      assert (H : (x < z)%N) by lia. apply N.ltb_lt in H. rewrite H. reflexivity.
    + destruct (N.ltb z y) eqn:Hzy; [discriminate|].
      apply N.ltb_lt in Hxy. apply N.ltb_ge in Hyz, Hzy.
      assert (H : (x < z)%N) by lia. apply N.ltb_lt in H. rewrite H. reflexivity.
  - destruct (N.ltb y x) eqn:Hyx; [discriminate|].
    apply N.ltb_ge in Hxy, Hyx. assert (x = y) by lia. subst y.
    destruct (N.ltb x z) eqn:Hxz; [reflexivity|].
    destruct (N.ltb z x) eqn:Hzx; [discriminate|].
    eapply IH; eauto.
Qed.

Lemma jsstring_ltb_total :
  forall a b,
    jsstring_ltb a b = false -> jsstring_ltb b a = false -> a = b.
Proof.
  induction a as [|x a IH]; intros [|y b] Hab Hba; simpl in *;
    try discriminate; auto.
  destruct (N.ltb x y) eqn:Hxy; [discriminate|].
  destruct (N.ltb y x) eqn:Hyx; [discriminate|].
  apply N.ltb_ge in Hxy, Hyx. assert (x = y) by lia. subst y.
  f_equal. apply IH; assumption.
Qed.

Lemma jsstring_ltb_asym :
  forall a b, jsstring_ltb a b = true -> jsstring_ltb b a = false.
Proof.
  intros a b Hab. destruct (jsstring_ltb b a) eqn:Hba; [|reflexivity].
  pose proof (jsstring_ltb_trans _ _ _ Hab Hba) as H.
  rewrite jsstring_ltb_irrefl in H. discriminate.
Qed.

(** [a] is not after [b]: the order the sort leaves two neighbours in. *)
Lemma not_after_trans :
  forall a b c,
    jsstring_ltb b a = false -> jsstring_ltb c b = false ->
    jsstring_ltb c a = false.
Proof.
  intros a b c Hab Hbc.
  destruct (jsstring_ltb c a) eqn:Hca; [|reflexivity].
  destruct (jsstring_ltb a b) eqn:Hab'.
  - pose proof (jsstring_ltb_trans _ _ _ Hca Hab') as H. congruence.
  - pose proof (jsstring_ltb_total _ _ Hab' Hab). subst b. congruence.
Qed.

Section Sorting.

Lemma compare_file_positive :
  forall a b,
    Z.ltb 0 (Migrator.compare_file a b) = jsstring_ltb (file_of b) (file_of a)
    \/ (jsstring_ltb (file_of a) (file_of b) = true
        /\ Z.ltb 0 (Migrator.compare_file a b) = false).
Proof.
  intros a b. unfold Migrator.compare_file, file_of.
  destruct (jsstring_ltb (file (migration_file a)) (file (migration_file b))) eqn:Hab.
  - right. auto.
  - left. destruct (jsstring_ltb (file (migration_file b)) (file (migration_file a)));
      reflexivity.
Qed.

Lemma sort_insert_perm :
  forall x l, Permutation (x :: l) (sort_insert Migrator.compare_file x l).
Proof.
  intros x. induction l as [|y l IH]; simpl; [constructor; constructor|].
  destruct (Z.ltb 0 (Migrator.compare_file x y)).
  - rewrite perm_swap. constructor. exact IH.
  - reflexivity.
Qed.

Lemma Array_sort_perm :
  forall l, Permutation l (Array_sort Migrator.compare_file l).
Proof.
  induction l as [|x l IH]; simpl; [constructor|].
  rewrite <- sort_insert_perm. constructor. exact IH.
Qed.

Lemma sort_insert_sorted :
  forall x l,
    StronglySorted not_after l ->
    StronglySorted not_after (sort_insert Migrator.compare_file x l).
Proof.
  intros x. induction l as [|y l IH]; intros Hs; simpl.
  - repeat constructor.
  - inversion Hs as [|? ? Hl Hy]; subst.
    destruct (Z.ltb 0 (Migrator.compare_file x y)) eqn:Hc.
    + assert (Hyx : jsstring_ltb (file_of y) (file_of x) = true).
      { destruct (compare_file_positive x y) as [H|[_ H]]; congruence. }
      constructor; [apply IH; exact Hl|].
      rewrite Forall_forall in *. intros z Hz.
      apply (Permutation_in _ (Permutation_sym (sort_insert_perm x l))) in Hz.
      destruct Hz as [<-|Hz].
      * unfold not_after. apply jsstring_ltb_asym. exact Hyx.
      * apply Hy. exact Hz.
    + assert (Hxy : not_after x y).
      { unfold not_after.
        destruct (compare_file_positive x y) as [H|[H _]].
        - congruence.
        - apply jsstring_ltb_asym. exact H. }
      constructor; [exact Hs|].
      constructor; [exact Hxy|].
      rewrite Forall_forall in *. intros z Hz.
      unfold not_after in *. eapply not_after_trans; [exact Hxy|].
      apply Hy. exact Hz.
Qed.

Lemma Array_sort_sorted :
  forall l, StronglySorted not_after (Array_sort Migrator.compare_file l).
Proof.
  induction l as [|x l IH]; simpl; [constructor|].
  apply sort_insert_sorted. exact IH.
Qed.

Lemma StronglySorted_nth_error :
  forall A (R : A -> A -> Prop) l i j a b,
    StronglySorted R l -> i < j ->
    nth_error l i = Some a -> nth_error l j = Some b -> R a b.
Proof.
  intros A R l i j a b Hs. revert i j.
  induction Hs as [|x l Hs IH Hx]; intros i j Hij Ha Hb.
  - destruct i; discriminate.
  - destruct j as [|j]; [lia|]. simpl in Hb.
    destruct i as [|i]; simpl in Ha.
    + injection Ha as <-. rewrite Forall_forall in Hx. apply Hx.
      eapply nth_error_In; eauto.
    + apply (IH i j); auto. lia.
Qed.

End Sorting.

(** ** What [loadFiles] builds *)

Section Map_facts.

Lemma map_get_In :
  forall key migrations l,
    map_get key migrations = Some l -> In (key, l) migrations.
Proof.
  induction migrations as [|[k v] mm IH]; intros l H; simpl in H; [discriminate|].
  destruct (jsstring_eqb k key) eqn:Hk.
  - apply jsstring_eqb_eq in Hk. injection H as ->. subst. simpl. auto.
  - simpl. right. apply IH. exact H.
Qed.

Lemma map_get_None :
  forall key migrations,
    map_get key migrations = None -> ~ In key (map fst migrations).
Proof.
  induction migrations as [|[k v] mm IH]; intros H; simpl in *; [tauto|].
  destruct (jsstring_eqb k key) eqn:Hk; [discriminate|].
  intros [Heq|Hin].
  - subst. rewrite jsstring_eqb_refl in Hk. discriminate.
  - apply IH; assumption.
Qed.

Lemma map_get_app_new :
  forall key migrations v,
    ~ In key (map fst migrations) ->
    map_get key (migrations ++ [(key, v)]) = Some v.
Proof.
  induction migrations as [|[k w] mm IH]; intros v Hk; simpl.
  - rewrite jsstring_eqb_refl. reflexivity.
  - simpl in Hk. rewrite jsstring_eqb_neq by tauto. apply IH. tauto.
Qed.

Lemma push_new :
  forall migration migrations,
    map_get (service migration) migrations = None ->
    push migration migrations = migrations ++ [(service migration, [migration])].
Proof.
  intros migration migrations Hget. unfold push, map_has, map_set, map_has.
  rewrite Hget. simpl negb. cbv iota.
  pose proof (map_get_None _ _ Hget) as Hk.
  rewrite map_get_app_new by exact Hk.
  rewrite map_replace_at by exact Hk. reflexivity.
Qed.

Lemma In_split_keys :
  forall (migrations : MigrationMap) key l,
    NoDup (map fst migrations) -> In (key, l) migrations ->
    exists pre rest,
      migrations = pre ++ (key, l) :: rest /\ ~ In key (map fst pre).
Proof.
  intros migrations key l Hnd Hin.
  apply in_split in Hin. destruct Hin as (pre & rest & ->).
  exists pre, rest. split; [reflexivity|].
  rewrite map_app in Hnd. simpl in Hnd.
  apply NoDup_remove_2 in Hnd. intros Hin. apply Hnd.
  apply in_or_app. auto.
Qed.

Lemma push_existing :
  forall migration migrations l,
    NoDup (map fst migrations) ->
    map_get (service migration) migrations = Some l ->
    exists pre rest,
      migrations = pre ++ (service migration, l) :: rest
      /\ push migration migrations
         = pre ++ (service migration, l ++ [migration]) :: rest.
Proof.
  intros migration migrations l Hnd Hget.
  pose proof Hget as Hin. apply map_get_In in Hin.
  apply In_split_keys in Hin; [|exact Hnd].
  destruct Hin as (pre & rest & Heq & Hk).
  exists pre, rest. split; [exact Heq|].
  unfold push, map_has. rewrite Hget. simpl negb. cbv iota.
  rewrite Hget. rewrite Heq. apply map_replace_at. exact Hk.
Qed.

End Map_facts.

Section Loading_invariant.

Local Open Scope task_scope.

Variable E : Env.
Variable config : Config.

Lemma Migration_init_yields :
  forall this : Migration,
    Yields (fun _ => True) (same_coordinates this) (Migration_init this).
Proof.
  intros this. unfold Migration_init. apply Yields_bind.
  unfold CqlFile_init, loadAndCanonicalizeFile. simpl.
  split; [constructor|]. intros [e|content]; simpl; [exact I|].
  destruct (canonicalizeCql content) as [e|body]; simpl; [exact I|].
  split; [repeat constructor|]. intros [e|rs]; simpl.
  - split; [repeat constructor|]. intros; exact I.
  - destruct (first rs) as [row|]; simpl; repeat split.
Qed.

Lemma Migration_init_result :
  forall file (m : Machine E) migration m',
    Migrator.getFileDepth file = 2 ->
    exec (Migration_init (new_Migration file)) m = (inr migration, m') ->
    from_path migration /\ path_of migration = file.
Proof.
  intros file m migration m' Hdepth Hexec.
  apply exec_TaskRun in Hexec. destruct Hexec as (tr & _ & Hrun).
  eapply Yields_TaskRun in Hrun; [|apply Migration_init_yields].
  destruct Hrun as [_ Hsame].
  destruct (Hsame migration eq_refl) as (Hp & Hk & Hs & Hf).
  unfold Migrator.getFileDepth in Hdepth.
  destruct file as [|a [|b [|c [|d file]]]]; simpl in Hdepth; try lia.
  split; [|exact Hp].
  unfold from_path. rewrite Hp, Hk, Hs, Hf. reflexivity.
Qed.

Lemma all_migrations_app :
  forall m1 m2 : MigrationMap,
    all_migrations (m1 ++ m2) = all_migrations m1 ++ all_migrations m2.
Proof.
  intros m1 m2. unfold all_migrations. rewrite map_app, concat_app. reflexivity.
Qed.

Lemma push_spec :
  forall migration migrations,
    well_formed migrations ->
    well_formed (push migration migrations)
    /\ Permutation (migration :: all_migrations migrations)
         (all_migrations (push migration migrations)).
Proof.
  intros migration migrations [Hnd Hok].
  destruct (map_get (service migration) migrations) as [l|] eqn:Hget.
  - destruct (@push_existing migration migrations l Hnd Hget) as (pre & rest & Heq & ->).
    subst migrations. split.
    + split.
      * rewrite map_app in *. exact Hnd.
      * apply Forall_app in Hok. destruct Hok as [Hpre Hrest].
        apply Forall_app. split; [exact Hpre|].
        pose proof (Forall_inv Hrest) as [Hne Hsvc].
        constructor; [|exact (Forall_inv_tail Hrest)].
        split; simpl in *.
        -- destruct l; discriminate.
        -- apply Forall_app. split; [exact Hsvc|]. repeat constructor.
    + rewrite !all_migrations_app. unfold all_migrations. simpl.
      rewrite <- !app_assoc. simpl.
      etransitivity; [apply Permutation_middle|].
      apply Permutation_app_head. apply Permutation_middle.
  - rewrite (@push_new migration migrations Hget). split.
    + split.
      * rewrite map_app. simpl.
        apply NoDup_app; [exact Hnd|repeat constructor; auto|].
        intros k Hk [<-|[]]. revert Hk. apply map_get_None. exact Hget.
      * apply Forall_app. split; [exact Hok|].
        repeat constructor. discriminate.
    + rewrite all_migrations_app. unfold all_migrations at 3. simpl.
      apply Permutation_cons_append.
Qed.

Lemma loaded_from_push :
  forall done migration migrations,
    loaded_from done migrations ->
    from_path migration -> ~ In (path_of migration) done ->
    loaded_from (done ++ [path_of migration]) (push migration migrations).
Proof.
  intros done migration migrations (Hwf & Hfrom & Hdone & Hnd) Hm Hfresh.
  destruct (@push_spec migration migrations Hwf) as [Hwf' Hperm].
  split; [exact Hwf'|]. split; [|split].
  - eapply Permutation_Forall; [exact Hperm|]. constructor; assumption.
  - intros m Hin. apply (Permutation_in _ (Permutation_sym Hperm)) in Hin.
    apply in_or_app. destruct Hin as [<-|Hin]; [right; simpl; auto|].
    left. apply Hdone. exact Hin.
  - eapply Permutation_NoDup; [apply Permutation_map; exact Hperm|].
    simpl. constructor; [|exact Hnd].
    intros Hin. apply in_map_iff in Hin. destruct Hin as (m & Heq & Hin).
    apply Hfresh. rewrite <- Heq. apply Hdone. exact Hin.
Qed.

Lemma loaded_from_more :
  forall done file migrations,
    loaded_from done migrations -> loaded_from (done ++ [file]) migrations.
Proof.
  intros done file migrations (Hwf & Hfrom & Hdone & Hnd).
  repeat split; auto.
  - apply Hwf.
  - apply Hwf.
  - intros m Hin. apply in_or_app. left. apply Hdone. exact Hin.
Qed.

Lemma loadFiles_loop_invariant :
  forall files done bootstraps migrations (m : Machine E) loaded m',
    NoDup (done ++ files) ->
    loaded_from done migrations ->
    exec (Migrator.loadFiles_loop config files bootstraps migrations) m
    = (inr loaded, m') ->
    loaded_from (done ++ files) (snd loaded).
Proof.
  induction files as [|file files IH];
    intros done bootstraps migrations m loaded m' Hnd Hinv Hexec.
  - simpl in Hexec. injection Hexec as <- <-. rewrite app_nil_r. exact Hinv.
  - rewrite loadFiles_loop_cons in Hexec.
    replace (done ++ file :: files) with ((done ++ [file]) ++ files) in *
      by (rewrite <- app_assoc; reflexivity).
    destruct (jsstring_eqb (Migrator.basename file) (bootstrapFilename config)
              && Nat.eqb (Migrator.getFileDepth file) 1).
    + rewrite exec_bind in Hexec.
      destruct (exec (CqlFile_init (new_Bootstrap file)) m) as [[e|b] m1];
        [discriminate|].
      eapply IH; [exact Hnd| |exact Hexec].
      apply loaded_from_more. exact Hinv.
    + destruct (Nat.eqb (Migrator.getFileDepth file) 2) eqn:Hdepth.
      * apply Nat.eqb_eq in Hdepth.
        rewrite exec_bind in Hexec.
        destruct (exec (Migration_init (new_Migration file)) m)
          as [[e|migration] m1] eqn:Hinit; [discriminate|].
        destruct (@Migration_init_result file m migration m1 Hdepth Hinit) as [Hfrom Hpath].
        destruct (negb (success (migration_file migration))
                  && negb (Migrator.is_null (appliedOn (migration_file migration)))).
        -- rewrite exec_bind, exec_error in Hexec. discriminate.
        -- eapply IH; [exact Hnd| |exact Hexec].
           change (loaded_from (done ++ [file]) (push migration migrations)).
           rewrite <- Hpath. apply loaded_from_push; auto.
           rewrite Hpath. intros Hin.
           rewrite <- app_assoc in Hnd. simpl in Hnd.
           apply NoDup_remove_2 in Hnd. apply Hnd. apply in_or_app. auto.
      * eapply IH; [exact Hnd| |exact Hexec].
        apply loaded_from_more. exact Hinv.
Qed.

End Loading_invariant.

(** ** The sorted map *)

Section Sorted_map.

Lemma sort_all_keys :
  forall migrations, map fst (Migrator.sort_all migrations) = map fst migrations.
Proof.
  intros migrations. unfold Migrator.sort_all. rewrite map_map. reflexivity.
Qed.

Lemma sort_all_perm :
  forall migrations,
    Permutation (all_migrations migrations)
      (all_migrations (Migrator.sort_all migrations)).
Proof.
  unfold all_migrations.
  induction migrations as [|[k l] mm IH]; simpl; [constructor|].
  apply Permutation_app; [apply Array_sort_perm|exact IH].
Qed.

Lemma sort_all_well_formed :
  forall migrations,
    well_formed migrations -> well_formed (Migrator.sort_all migrations).
Proof.
  intros migrations [Hnd Hok]. split.
  - rewrite sort_all_keys. exact Hnd.
  - unfold Migrator.sort_all. apply Forall_map.
    eapply Forall_impl; [|exact Hok].
    intros [k l] [Hne Hsvc]. simpl in *. split.
    + intros Heq. apply Hne. cbn [snd] in Heq.
      pose proof (Array_sort_perm l) as Hp. rewrite Heq in Hp.
      apply Permutation_nil. apply Permutation_sym. exact Hp.
    + eapply Permutation_Forall; [apply Array_sort_perm|exact Hsvc].
Qed.

Lemma sort_all_sorted :
  forall migrations key l,
    In (key, l) (Migrator.sort_all migrations) -> StronglySorted not_after l.
Proof.
  intros migrations key l Hin. unfold Migrator.sort_all in Hin.
  apply in_map_iff in Hin. destruct Hin as ([k l0] & Heq & _).
  injection Heq as _ <-. apply Array_sort_sorted.
Qed.

Lemma coordinates_of_path :
  forall a b,
    from_path a -> from_path b -> coordinates a = coordinates b ->
    path_of a = path_of b.
Proof.
  intros a b Ha Hb Heq. unfold from_path in *. rewrite Ha, Hb.
  unfold coordinates, file_of in *. injection Heq as -> -> ->. reflexivity.
Qed.

Lemma NoDup_coordinates :
  forall l,
    Forall from_path l -> NoDup (map path_of l) -> NoDup (map coordinates l).
Proof.
  induction l as [|a l IH]; intros Hfrom Hnd; simpl; [constructor|].
  inversion Hnd as [|? ? Hnotin Hnd']. subst.
  constructor.
  - intros Hin. apply Hnotin. apply in_map_iff in Hin.
    destruct Hin as (b & Heq & Hin). apply in_map_iff. exists b. split; [|exact Hin].
    apply coordinates_of_path; auto.
    + rewrite Forall_forall in Hfrom. apply Hfrom. right. exact Hin.
    + exact (Forall_inv Hfrom).
  - apply IH; [exact (Forall_inv_tail Hfrom)|exact Hnd'].
Qed.

Lemma loaded_from_sorted :
  forall done migrations,
    loaded_from done migrations ->
    well_formed (Migrator.sort_all migrations)
    /\ NoDup (map coordinates (all_migrations (Migrator.sort_all migrations))).
Proof.
  intros done migrations (Hwf & Hfrom & _ & Hnd). split.
  - apply sort_all_well_formed. exact Hwf.
  - eapply Permutation_NoDup.
    + apply Permutation_map. apply sort_all_perm.
    + apply NoDup_coordinates; assumption.
Qed.

Lemma In_round_at :
  forall migrations key l i a,
    In (key, l) migrations -> nth_error l i = Some a ->
    In a (round_at i migrations).
Proof.
  intros migrations key l i a Hin Hnth. unfold round_at.
  apply in_flat_map. exists (key, l). split; [exact Hin|].
  simpl. rewrite Hnth. simpl. auto.
Qed.

Lemma same_key_same_list :
  forall (migrations : MigrationMap) key l1 l2,
    NoDup (map fst migrations) ->
    In (key, l1) migrations -> In (key, l2) migrations -> l1 = l2.
Proof.
  induction migrations as [|[k l] mm IH]; intros key l1 l2 Hnd H1 H2;
    [destruct H1|].
  simpl in Hnd. inversion Hnd as [|? ? Hnotin Hnd']. subst.
  destruct H1 as [H1|H1], H2 as [H2|H2].
  - congruence.
  - injection H1 as -> ->. exfalso. apply Hnotin.
    apply in_map_iff. exists (key, l2). auto.
  - injection H2 as -> ->. exfalso. apply Hnotin.
    apply in_map_iff. exists (key, l1). auto.
  - eapply IH; eassumption.
Qed.

Lemma NoDup_entry :
  forall (migrations : MigrationMap) key l,
    NoDup (map coordinates (all_migrations migrations)) ->
    In (key, l) migrations -> NoDup (map coordinates l).
Proof.
  intros migrations key l Hnd Hin.
  apply in_split in Hin. destruct Hin as (pre & rest & ->).
  rewrite all_migrations_app in Hnd. unfold all_migrations in Hnd at 2.
  simpl in Hnd. rewrite !map_app in Hnd.
  apply NoDup_app_remove_l in Hnd. apply NoDup_app_remove_r in Hnd. exact Hnd.
Qed.

Lemma sorted_strictly :
  forall migrations key l i j a b,
    well_formed migrations ->
    NoDup (map coordinates (all_migrations migrations)) ->
    In (key, l) migrations -> StronglySorted not_after l ->
    nth_error l i = Some a -> nth_error l j = Some b -> i < j ->
    keyspace (migration_file a) = keyspace (migration_file b) ->
    jsstring_ltb (file_of a) (file_of b) = true.
Proof.
  intros migrations key l i j a b [_ Hok] Hnd Hin Hsorted Ha Hb Hij Hks.
  pose proof (StronglySorted_nth_error Hsorted Hij Ha Hb) as Hba.
  unfold not_after in Hba.
  destruct (jsstring_ltb (file_of a) (file_of b)) eqn:Hab; [reflexivity|].
  exfalso.
  pose proof (jsstring_ltb_total _ _ Hab Hba) as Hfile.
  rewrite Forall_forall in Hok. destruct (Hok _ Hin) as [_ Hsvc]. simpl in Hsvc.
  rewrite Forall_forall in Hsvc.
  assert (Hc : coordinates a = coordinates b).
  { unfold coordinates. unfold file_of in Hfile. rewrite Hks, Hfile.
    rewrite (Hsvc a), (Hsvc b); [reflexivity| |];
      eapply nth_error_In; eassumption. }
  pose proof (@NoDup_entry migrations key l Hnd Hin) as Hl.
  rewrite NoDup_nth_error in Hl.
  assert (i = j); [|lia].
  apply Hl.
  - rewrite length_map. apply nth_error_Some. congruence.
  - rewrite !nth_error_map, Ha, Hb. simpl. congruence.
Qed.

End Sorted_map.

Section Applied_in_order.

Local Open Scope task_scope.

Variable E : Env.
Variable config : Config.
Variable patience : nat.

Lemma loadFiles_result :
  forall (m : Machine E) files m0 bootstraps migrations m1,
    exec (Migrator.getFilePaths config) m = (inr files, m0) ->
    exec (Migrator.loadFiles config) m = (inr (bootstraps, migrations), m1) ->
    exists loaded m2,
      exec (Migrator.loadFiles_loop config files [] []) m0 = (inr loaded, m2)
      /\ migrations = Migrator.sort_all (snd loaded).
Proof.
  intros m files m0 bootstraps migrations m1 Hfiles Hload.
  unfold Migrator.loadFiles in Hload.
  rewrite exec_bind, Hfiles in Hload. rewrite exec_bind in Hload.
  destruct (exec (Migrator.loadFiles_loop config files [] []) m0)
    as [[e|loaded] m2]; [discriminate|].
  exists loaded, m2. split; [reflexivity|].
  cbv zeta in Hload. rewrite exec_bind, exec_info in Hload.
  simpl in Hload. injection Hload as _ <- _. reflexivity.
Qed.

Lemma In_all_migrations :
  forall (migrations : MigrationMap) a,
    In a (all_migrations migrations) ->
    exists key l i, In (key, l) migrations /\ nth_error l i = Some a.
Proof.
  intros migrations a Hin. unfold all_migrations in Hin.
  apply in_concat in Hin. destruct Hin as (l & Hl & Ha).
  apply in_map_iff in Hl. destruct Hl as ([key l'] & Heq & Hkv).
  simpl in Heq. subst l'.
  apply In_nth_error in Ha. destruct Ha as [i Hi].
  exists key, l, i. auto.
Qed.

Lemma applyMigrations_trace :
  forall migrations (s : Process E) out s',
    well_formed migrations -> detached s = [] ->
    run (Migrator.applyMigrations config patience migrations) s = (out, s') ->
    exists tr,
      trace (machine s') = trace (machine s) ++ applying_migrations_line :: tr
      /\ RoundsTrace migrations tr.
Proof.
  intros migrations [m sch ds] out s' Hwf Hds Hrun. simpl in Hds. subst ds.
  unfold Migrator.applyMigrations in Hrun.
  rewrite run_pbind, run_lift, exec_info in Hrun.
  eapply applyMigrations_loop_trace in Hrun;
    [|apply Nat.lt_succ_diag_r|exact Hwf|reflexivity].
  destruct Hrun as (tr & Htr & Hrounds).
  exists tr. split; [|exact Hrounds].
  rewrite Htr. simpl. rewrite <- app_assoc. reflexivity.
Qed.

End Applied_in_order.

(** C4: the migrations of one keyspace and service directory are applied
    in the strictly ascending order of their file names, the order being
    that of [<] on strings (UTF-16 code units), one in each round: the
    callback of a migration begins only after the callbacks of all
    migrations of earlier rounds have ended without a failure and agreement
    of the schemas has been reported. *)
Theorem migrations_applied_in_order :
  forall (E : Env) (config : Config) (patience : nat) (m : Machine E)
         files m0 bootstraps migrations m1 (s : Process E) out s',
    exec (Migrator.getFilePaths config) m = (inr files, m0) ->
    NoDup files ->
    exec (Migrator.loadFiles config) m = (inr (bootstraps, migrations), m1) ->
    detached s = [] ->
    run (Migrator.applyMigrations config patience migrations) s = (out, s') ->
    exists tr,
      trace (machine s') = trace (machine s) ++ applying_migrations_line :: tr
      /\ (forall i j a b,
            i < j ->
            In a (round_at i migrations) -> In b (round_at j migrations) ->
            applied_before tr a b)
      /\ (forall a b,
            In a (all_migrations migrations) -> In b (all_migrations migrations) ->
            same_directory a b ->
            jsstring_ltb (file_of a) (file_of b) = true ->
            applied_before tr a b)
      /\ (forall key l i j a b,
            In (key, l) migrations ->
            nth_error l i = Some a -> nth_error l j = Some b -> i < j ->
            keyspace (migration_file a) = keyspace (migration_file b) ->
            jsstring_ltb (file_of a) (file_of b) = true).
Proof.
  intros E config patience m files m0 bootstraps migrations m1 s out s'
    Hfiles Hnd Hload Hds Hrun.
  destruct (@loadFiles_result E config m files m0 bootstraps migrations m1
              Hfiles Hload) as (loaded & m2 & Hloop & ->).
  assert (Hinv : loaded_from files (snd loaded)).
  { apply (@loadFiles_loop_invariant E config files [] [] [] m0 loaded m2).
    - exact Hnd.
    - repeat split; try constructor. intros ? [].
    - exact Hloop. }
  destruct (@loaded_from_sorted files (snd loaded) Hinv) as [Hwf Hcoord].
  destruct (@applyMigrations_trace E config patience _ s out s' Hwf Hds Hrun)
    as (tr & Htr & Hrounds).
  exists tr. split; [exact Htr|].
  assert (Hbarrier : forall i j a b, i < j ->
            In a (round_at i (Migrator.sort_all (snd loaded))) ->
            In b (round_at j (Migrator.sort_all (snd loaded))) ->
            applied_before tr a b).
  { intros i j a b Hij Ha Hb before after Heq.
    eapply rounds_barrier; eassumption. }
  split; [exact Hbarrier|]. split.
  - intros a b Ha Hb [Hks Hsvc] Hlt.
    apply In_all_migrations in Ha. destruct Ha as (ka & la & i & Hla & Hi).
    apply In_all_migrations in Hb. destruct Hb as (kb & lb & j & Hlb & Hj).
    assert (Hka : service a = ka).
    { destruct Hwf as [_ Hok]. rewrite Forall_forall in Hok.
      destruct (Hok _ Hla) as [_ Hall]. rewrite Forall_forall in Hall.
      apply Hall. eapply nth_error_In. exact Hi. }
    assert (Hkb : service b = kb).
    { destruct Hwf as [_ Hok]. rewrite Forall_forall in Hok.
      destruct (Hok _ Hlb) as [_ Hall]. rewrite Forall_forall in Hall.
      apply Hall. eapply nth_error_In. exact Hj. }
    assert (Hk : kb = ka) by congruence. rewrite Hk in Hlb.
    assert (la = lb).
    { eapply same_key_same_list; [apply Hwf|exact Hla|exact Hlb]. }
    subst lb.
    destruct (Nat.lt_total i j) as [Hij|[Hij|Hij]].
    + apply (Hbarrier i j); [exact Hij| |];
        eapply In_round_at; eassumption.
    + subst j. rewrite Hi in Hj. injection Hj as ->.
      rewrite jsstring_ltb_irrefl in Hlt. discriminate.
    + pose proof (@sort_all_sorted (snd loaded) ka la Hla) as Hsorted.
      pose proof (StronglySorted_nth_error Hsorted Hij Hj Hi) as Hba.
      unfold not_after in Hba. congruence.
  - intros key l i j a b Hl Hi Hj Hij Hks.
    eapply sorted_strictly; try eassumption.
    eapply sort_all_sorted. exact Hl.
Qed.

Lemma migrations_applied_in_order_witness :
  let m := rounds_machine in
  let files := map fst rounds_disk in
  let m0 := snd (exec (Migrator.getFilePaths default_config) m) in
  let m1 := snd (exec (Migrator.loadFiles default_config) m) in
  let migrations :=
    match fst (exec (Migrator.loadFiles default_config) m) with
    | inr loaded => snd loaded
    | inl _ => []
    end in
  let s := mkProcess m1 [1; 0] [] in
  let r := run (Migrator.applyMigrations default_config 1 migrations) s in
  exec (Migrator.getFilePaths default_config) m = (inr files, m0)
  /\ NoDup files
  /\ exec (Migrator.loadFiles default_config) m = (inr ([], migrations), m1)
  /\ detached s = []
  /\ run (Migrator.applyMigrations default_config 1 migrations) s = (fst r, snd r)
  /\ exists tr,
      trace (machine (snd r)) = trace (machine s) ++ applying_migrations_line :: tr
      /\ (forall i j a b,
            i < j ->
            In a (round_at i migrations) -> In b (round_at j migrations) ->
            applied_before tr a b)
      /\ (forall a b,
            In a (all_migrations migrations) -> In b (all_migrations migrations) ->
            same_directory a b ->
            jsstring_ltb (file_of a) (file_of b) = true ->
            applied_before tr a b)
      /\ (forall key l i j a b,
            In (key, l) migrations ->
            nth_error l i = Some a -> nth_error l j = Some b -> i < j ->
            keyspace (migration_file a) = keyspace (migration_file b) ->
            jsstring_ltb (file_of a) (file_of b) = true).
Proof.
  intros m files m0 m1 migrations s r.
  assert (H1 : exec (Migrator.getFilePaths default_config) m = (inr files, m0))
    by (vm_compute; reflexivity).
  assert (H2 : NoDup files).
  { repeat constructor; simpl; intros H;
      repeat (destruct H as [H|H]; [discriminate H|]); exact H. }
  assert (H3 : exec (Migrator.loadFiles default_config) m
               = (inr ([], migrations), m1))
    by (vm_compute; reflexivity).
  assert (H4 : detached s = []) by reflexivity.
  assert (H5 : run (Migrator.applyMigrations default_config 1 migrations) s
               = (fst r, snd r))
    by (apply surjective_pairing).
  repeat (split; [assumption|]).
  exact (@migrations_applied_in_order Scripted.env default_config 1 m files m0
           [] migrations m1 s (fst r) (snd r) H1 H2 H3 H4 H5).
Defined.

(** What [loadFiles] makes of [rounds_disk], and the run of
    [applyMigrations] on it when the answer for the second service comes in
    first: the callbacks of both first migrations begin, each up to the
    insert of its row, then both go on and end; the wait follows, with a
    poll, and agreement is reported; only then the second migration of the
    first service begins. *)
Example rounds_example :
  let loaded := exec (Migrator.loadFiles default_config) rounds_machine in
  let r :=
    run (Migrator.applyMigrations default_config 1 rounds_migrations)
      (mkProcess (snd loaded) [1; 0] []) in
  let tr := skipn (length (trace (snd loaded))) (trace (machine (snd r))) in
  fst loaded = inr ([], rounds_migrations)
  /\ fst r = Returned tt
  /\ length tr = 22
  /\ nth_error tr 0 = Some applying_migrations_line
  /\ nth_error tr 1 = Some (begin_line rounds_first)
  /\ nth_error tr 3 = Some (begin_line sample_orders)
  /\ nth_error tr 5
     = Some (command_event default_config
               (js "CREATE TABLE foo . orders ( id uuid PRIMARY KEY ) "))
  /\ nth_error tr 6
     = Some (command_event default_config
               (js "CREATE TABLE foo . users ( id uuid PRIMARY KEY ) "))
  /\ nth_error tr 8
     = Some (EvInfo (mkLog (js "Migration applied") (coordinates rounds_first)))
  /\ nth_error tr 10
     = Some (EvInfo (mkLog (js "Migration applied") (coordinates sample_orders)))
  /\ nth_error tr 11 = Some waiting_line
  /\ nth_error tr 12 = Some EvProbe
  /\ nth_error tr 13 = Some agreement_line
  /\ nth_error tr 14 = Some (begin_line rounds_second)
  /\ nth_error tr 18
     = Some (EvInfo (mkLog (js "Migration applied") (coordinates rounds_second))).
Proof. vm_compute. repeat split; reflexivity. Qed.

(** C4, the order of bytes: of two file names of one service directory the
    one that is first by its UTF-8 bytes is applied in the second round,
    after the other, which is first by its UTF-16 code units. *)
Lemma byte_order_counterexample :
  let a := unicode_migration fullwidth_name in
  let b := unicode_migration emoji_name in
  exec (Migrator.loadFiles default_config) unicode_machine
  = (inr ([], unicode_migrations), unicode_loaded)
  /\ trace (machine (snd unicode_run))
     = trace unicode_loaded ++ applying_migrations_line :: unicode_trace
  /\ In a (all_migrations unicode_migrations)
  /\ In b (all_migrations unicode_migrations)
  /\ same_directory a b
  /\ bytes_ltb (file_of a) (file_of b) = true
  /\ nth_error unicode_trace 0 = Some (begin_line b)
  /\ nth_error unicode_trace 8 = Some (begin_line a)
  /\ ~ applied_before unicode_trace a b.
Proof.
  intros a b.
  split; [vm_compute; reflexivity|].
  split; [vm_compute; reflexivity|].
  split; [simpl; auto|].
  split; [simpl; auto|].
  split; [split; reflexivity|].
  split; [vm_compute; reflexivity|].
  split; [vm_compute; reflexivity|].
  split; [vm_compute; reflexivity|].
  intros H.
  destruct (H [] (tl unicode_trace)) as (pre & e & mid1 & polls & mid2 & Heq & _).
  - vm_compute. reflexivity.
  - destruct pre; discriminate Heq.
Qed.
(** * More properties of the code *)

(** ** What the lexer returns *)


Section Regex_sound.

Lemma rmatch_sound :
  forall r s k x,
    rmatch r s k = Some x ->
    exists a b, s = a ++ b /\ Lang r a /\ k b = Some x.
Proof.
  induction r as [p|r1 IH1 r2 IH2|r1 IH1 r2 IH2|r1 IH1|r1 IH1];
    intros s k x H.
  - simpl in H. destruct s as [|c s]; [discriminate|].
    destruct (p c) eqn:Hp; [|discriminate].
    exists [c], s. repeat split; auto. constructor. exact Hp.
  - simpl in H. apply IH1 in H. destruct H as (a & b & -> & Ha & H).
    apply IH2 in H. destruct H as (a' & b' & -> & Ha' & H).
    exists (a ++ a'), b'. rewrite app_assoc. repeat split; auto.
    constructor; assumption.
  - simpl in H. destruct (rmatch r1 s k) eqn:H1.
    + injection H as ->. apply IH1 in H1.
      destruct H1 as (a & b & -> & Ha & H1).
      exists a, b. repeat split; auto. apply Lang_alt_l. exact Ha.
    + apply IH2 in H. destruct H as (a & b & -> & Ha & H).
      exists a, b. repeat split; auto. apply Lang_alt_r. exact Ha.
  - simpl in H. revert H. generalize (length s) as n. intros n. revert s.
    induction n as [|n IHn]; intros s H.
    + exists [], s. repeat split; auto. constructor.
    + match type of H with
      | match ?m with _ => _ end = _ => destruct m eqn:Hm
      end.
      * injection H as ->. apply IH1 in Hm.
        destruct Hm as (a & b & -> & Ha & Hm).
        destruct (Nat.ltb (length b) (length (a ++ b))) eqn:Hlt; [|discriminate].
        apply Nat.ltb_lt in Hlt. rewrite length_app in Hlt.
        apply IHn in Hm. destruct Hm as (a' & b' & -> & Ha' & Hk).
        exists (a ++ a'), b'. rewrite app_assoc. repeat split; auto.
        apply Lang_star_cons; auto. intros ->. simpl in Hlt. lia.
      * exists [], s. repeat split; auto. constructor.
  - simpl in H. revert H. generalize (length s) as n. intros n. revert s.
    induction n as [|n IHn]; intros s H.
    + exists [], s. repeat split; auto. constructor.
    + destruct (k s) eqn:Hk.
      * injection H as ->. exists [], s. repeat split; auto. constructor.
      * apply IH1 in H. destruct H as (a & b & -> & Ha & Hm).
        destruct (Nat.ltb (length b) (length (a ++ b))) eqn:Hlt; [|discriminate].
        apply Nat.ltb_lt in Hlt. rewrite length_app in Hlt.
        apply IHn in Hm. destruct Hm as (a' & b' & -> & Ha' & Hk').
        exists (a ++ a'), b'. rewrite app_assoc. repeat split; auto.
        apply Lang_lazy_cons; auto. intros ->. simpl in Hlt. lia.
Qed.

Lemma exec_re_sound :
  forall r s text,
    exec_re r s = Some text -> Lang r text /\ exists rest, s = text ++ rest.
Proof.
  intros r s text H. unfold exec_re in H.
  destruct (rmatch r s (fun rest => Some rest)) as [rest|] eqn:Hm; [|discriminate].
  injection H as <-.
  apply rmatch_sound in Hm. destruct Hm as (a & b & -> & Ha & Hb).
  injection Hb as ->.
  rewrite length_app. replace (length a + length rest - length rest) with (length a) by lia.
  rewrite firstn_app, firstn_all, Nat.sub_diag. simpl. rewrite app_nil_r.
  split; [exact Ha|]. exists rest. reflexivity.
Qed.

Lemma first_rule_sound :
  forall rs s tok,
    Lexer.first_rule rs s = Some tok ->
    exists r, In (Lexer.type tok, r) rs
      /\ Lang r (Lexer.value tok) /\ exists rest, s = Lexer.value tok ++ rest.
Proof.
  induction rs as [|[ty r] rs IH]; intros s tok H; [discriminate|].
  simpl in H. destruct (exec_re r s) as [text|] eqn:He.
  - injection H as <-. simpl. exists r. split; [auto|].
    apply exec_re_sound. exact He.
  - destruct (IH s tok H) as (r' & Hin & Hl).
    exists r'. split; [right; exact Hin|exact Hl].
Qed.

Lemma next_sound :
  forall s tok,
    Lexer.next s = Some tok ->
    Lang (pattern_of (Lexer.type tok)) (Lexer.value tok)
    /\ exists rest, s = Lexer.value tok ++ rest.
Proof.
  intros s tok H. unfold Lexer.next in H.
  apply first_rule_sound in H.
  destruct H as (r & Hin & Hl & Hrest). split; [|exact Hrest].
  unfold Lexer.rules in Hin. simpl in Hin.
  repeat (destruct Hin as [Hin|Hin];
          [injection Hin as Hty <-; rewrite <- Hty; exact Hl|]).
  destruct Hin.
Qed.

Lemma Lang_nil_nullable : forall r a, Lang r a -> a = [] -> nullable r = true.
Proof.
  induction 1; intros Heq; simpl; try reflexivity.
  - discriminate.
  - apply app_eq_nil in Heq. destruct Heq as [-> ->].
    rewrite IHLang1, IHLang2; reflexivity.
  - rewrite IHLang by assumption. reflexivity.
  - rewrite IHLang by assumption. apply orb_true_r.
Qed.

Lemma token_not_empty :
  forall s tok, Lexer.next s = Some tok -> Lexer.value tok <> [].
Proof.
  intros s tok H Heq. apply next_sound in H. destruct H as [Hl _].
  apply Lang_nil_nullable in Hl; [|exact Heq].
  destruct (Lexer.type tok); discriminate Hl.
Qed.

Lemma scan_concat :
  forall s skip toks,
    Lexer.scan s skip = inr toks ->
    concat (map Lexer.value toks) = skipn skip s
    /\ Forall (fun tok => Lexer.value tok <> []) toks.
Proof.
  induction s as [|c s IH]; intros skip toks H.
  - simpl in H. injection H as <-. rewrite skipn_nil. split; constructor.
  - destruct skip as [|n].
    + change (Lexer.scan (c :: s) 0)
        with (match Lexer.next (c :: s) with
              | None => inl Lexer.invalid_syntax
              | Some tok =>
                  match Lexer.scan s (length (Lexer.value tok) - 1) with
                  | inl e => inl e
                  | inr toks => inr (tok :: toks)
                  end
              end) in H.
      destruct (Lexer.next (c :: s)) as [tok|] eqn:Hn; [|discriminate].
      destruct (Lexer.scan s (length (Lexer.value tok) - 1)) as [e|toks'] eqn:Hs;
        [discriminate|].
      injection H as <-.
      pose proof (token_not_empty _ Hn) as Hne.
      apply next_sound in Hn. destruct Hn as [_ [rest Hrest]].
      destruct (Lexer.value tok) as [|c' v] eqn:Hv; [congruence|].
      simpl in Hrest. injection Hrest as <- ->.
      apply IH in Hs. destruct Hs as [Hc Hall].
      simpl in Hc. rewrite Nat.sub_0_r in Hc.
      rewrite skipn_app, skipn_all, Nat.sub_diag in Hc. simpl in Hc.
      split.
      * simpl. rewrite Hv, Hc. reflexivity.
      * constructor; [congruence|exact Hall].
    + simpl in H. apply IH in H. exact H.
Qed.

End Regex_sound.

Section Token_shapes.

Lemma Lang_cls_inv :
  forall p a, Lang (Cls p) a -> exists c, a = [c] /\ p c = true.
Proof. intros p a H. inversion H; subst. eexists; split; eauto. Qed.

Lemma Lang_chr_inv : forall x a, Lang (Chr x) a -> a = [x].
Proof.
  intros x a H. apply Lang_cls_inv in H. destruct H as (c & -> & Hc).
  unfold is_chr in Hc. apply N.eqb_eq in Hc. subst. reflexivity.
Qed.

Lemma Lang_seq_inv :
  forall r1 r2 a, Lang (Seq r1 r2) a ->
    exists a1 a2, a = a1 ++ a2 /\ Lang r1 a1 /\ Lang r2 a2.
Proof. intros r1 r2 a H. inversion H; subst. eauto 6. Qed.

Lemma Lang_alt_inv :
  forall r1 r2 a, Lang (Alt r1 r2) a -> Lang r1 a \/ Lang r2 a.
Proof. intros r1 r2 a H. inversion H; subst; auto. Qed.

Lemma Lang_star_cls :
  forall p a, Lang (Star (Cls p)) a -> forallb p a = true.
Proof.
  intros p a H. remember (Star (Cls p)) as r eqn:Hr.
  induction H; try discriminate.
  - reflexivity.
  - injection Hr as ->. apply Lang_cls_inv in H. destruct H as (c & -> & Hc).
    simpl. rewrite Hc. simpl. apply IHLang2. reflexivity.
Qed.

Lemma Lang_plus_cls :
  forall p a, Lang (Plus (Cls p)) a ->
    negb (Nat.eqb (length a) 0) && forallb p a = true.
Proof.
  intros p a H. unfold Plus in H. apply Lang_seq_inv in H.
  destruct H as (a1 & a2 & -> & H1 & H2).
  apply Lang_cls_inv in H1. destruct H1 as (c & -> & Hc).
  apply Lang_star_cls in H2. simpl. rewrite Hc, H2. reflexivity.
Qed.

Lemma ends_with_app :
  forall p a, ends_with p (a ++ p) = true.
Proof.
  intros p a. unfold ends_with. rewrite rev_app_distr.
  generalize (rev p) as q. generalize (rev a) as b.
  intros b q. induction q as [|x q IH]; simpl; [reflexivity|].
  rewrite N.eqb_refl. exact IH.
Qed.

Lemma Lang_quoted :
  forall q a,
    Lang (Seq (Chr q)
            (Seq (Star (Alt (Cls (is_not q)) (Seq (Chr q) (Chr q)))) (Chr q))) a ->
    Nat.leb 2 (length a) && (starts_with [q] a && ends_with [q] a) = true.
Proof.
  intros q a H. apply Lang_seq_inv in H. destruct H as (a1 & a2 & -> & H1 & H2).
  apply Lang_chr_inv in H1. subst a1.
  apply Lang_seq_inv in H2. destruct H2 as (body & a3 & -> & _ & H3).
  apply Lang_chr_inv in H3. subst a3.
  apply andb_true_iff. split.
  - apply Nat.leb_le. simpl. rewrite length_app. simpl. lia.
  - apply andb_true_iff. split.
    + simpl. rewrite N.eqb_refl. reflexivity.
    + rewrite app_assoc. apply ends_with_app.
Qed.

Lemma forallb_app_true :
  forall (p : N -> bool) a b,
    forallb p a = true -> forallb p b = true -> forallb p (a ++ b) = true.
Proof. intros p a b Ha Hb. rewrite forallb_app, Ha, Hb. reflexivity. Qed.

Lemma Lang_line_comment :
  forall x a,
    is_dot x = true ->
    Lang (Seq (Chr x) (Seq (Plus (Chr x)) (Star (Cls is_dot)))) a ->
    starts_with [x; x] a && forallb is_dot a = true.
Proof.
  intros x a Hx H. apply Lang_seq_inv in H. destruct H as (a1 & a2 & -> & H1 & H2).
  apply Lang_chr_inv in H1. subst a1.
  apply Lang_seq_inv in H2. destruct H2 as (a2' & a3 & -> & H2 & H3).
  unfold Plus in H2. apply Lang_seq_inv in H2.
  destruct H2 as (b1 & b2 & -> & Hb1 & Hb2).
  apply Lang_chr_inv in Hb1. subst b1.
  apply Lang_star_cls in Hb2. apply Lang_star_cls in H3.
  simpl. rewrite !N.eqb_refl, Hx. simpl.
  rewrite forallb_app, H3, andb_true_r.
  rewrite forallb_forall in *. intros c Hc. apply Hb2 in Hc.
  unfold is_chr in Hc. apply N.eqb_eq in Hc. subst. exact Hx.
Qed.

Lemma Lang_block_comment :
  forall a,
    Lang Lexer.blockComment a ->
    Nat.leb 4 (length a)
    && starts_with [Lexer.slash; Lexer.star] a
    && ends_with [Lexer.star; Lexer.slash] a = true.
Proof.
  intros a H. unfold Lexer.blockComment in H.
  apply Lang_seq_inv in H. destruct H as (a1 & a2 & -> & H1 & H2).
  apply Lang_chr_inv in H1. subst a1.
  apply Lang_seq_inv in H2. destruct H2 as (a2' & a3 & -> & H2 & H3).
  apply Lang_chr_inv in H2. subst a2'.
  apply Lang_seq_inv in H3. destruct H3 as (body & a4 & -> & _ & H4).
  apply Lang_seq_inv in H4. destruct H4 as (c1 & c2 & -> & Hc1 & Hc2).
  apply Lang_chr_inv in Hc1. apply Lang_chr_inv in Hc2. subst c1 c2.
  rewrite !andb_true_iff. repeat split.
  - apply Nat.leb_le. simpl. rewrite length_app. simpl. lia.
  - replace ([Lexer.slash] ++ [Lexer.star] ++ body ++ [Lexer.star] ++ [Lexer.slash])
      with (([Lexer.slash; Lexer.star] ++ body) ++ [Lexer.star; Lexer.slash])
      by reflexivity.
    apply ends_with_app.
Qed.

Lemma Lang_rep_cls :
  forall p n a,
    Lang (Rep (S n) (Cls p)) a -> length a = S n /\ forallb p a = true.
Proof.
  intros p. induction n as [|n IH]; intros a H.
  - simpl in H. apply Lang_cls_inv in H. destruct H as (c & -> & Hc).
    simpl. rewrite Hc. auto.
  - change (Rep (S (S n)) (Cls p)) with (Seq (Cls p) (Rep (S n) (Cls p))) in H.
    apply Lang_seq_inv in H. destruct H as (a1 & a2 & -> & H1 & H2).
    apply Lang_cls_inv in H1. destruct H1 as (c & -> & Hc).
    apply IH in H2. destruct H2 as [Hl Hf].
    simpl. rewrite Hc, Hl, Hf. auto.
Qed.

Lemma Lang_uuid :
  forall a,
    Lang Lexer.uuidPattern a ->
    Nat.eqb (length a) 36
    && forallb (fun c => is_lhex c || N.eqb c Lexer.dash) a = true.
Proof.
  intros a H. unfold Lexer.uuidPattern in H.
  assert (Hhex : forall l, forallb is_lhex l = true ->
            forallb (fun c => is_lhex c || N.eqb c Lexer.dash) l = true).
  { intros l Hl. rewrite forallb_forall in *. intros c Hc.
    rewrite (Hl c Hc). reflexivity. }
  do 8 (apply Lang_seq_inv in H;
          let a1 := fresh "g" in let a2 := fresh "t" in
          let H1 := fresh "Hg" in
          destruct H as (a1 & a2 & -> & H1 & H)).
  apply Lang_rep_cls in Hg, Hg1, Hg3, Hg5, H.
  apply Lang_chr_inv in Hg0, Hg2, Hg4, Hg6. subst.
  destruct Hg as [L1 F1], Hg1 as [L2 F2], Hg3 as [L3 F3], Hg5 as [L4 F4],
           H as [L5 F5].
  apply andb_true_iff. split.
  - apply Nat.eqb_eq. rewrite !length_app, L1, L2, L3, L4, L5. reflexivity.
  - repeat (apply forallb_app_true); auto.
Qed.

Lemma next_shape :
  forall c s tok, Lexer.next (c :: s) = Some tok -> well_shaped tok = true.
Proof.
  intros c s tok H. pose proof (next_sound _ H) as [Hl [rest Hrest]].
  unfold well_shaped. destruct tok as [ty v].
  cbn [Lexer.type Lexer.value] in *.
  destruct ty; cbn [pattern_of] in Hl; cbv zeta.
  - unfold Lexer.stringPattern in Hl. apply Lang_alt_inv in Hl.
    destruct Hl as [Hl|Hl]; apply Lang_quoted in Hl;
      apply andb_true_iff in Hl; destruct Hl as [-> ->];
      [reflexivity|apply orb_true_r].
  - unfold Lexer.commentPattern in Hl. apply Lang_alt_inv in Hl.
    destruct Hl as [Hl|Hl].
    + apply Lang_block_comment in Hl. rewrite Hl. reflexivity.
    + apply Lang_alt_inv in Hl.
      destruct Hl as [Hl|Hl]; (apply Lang_line_comment in Hl; [|reflexivity]);
        apply andb_true_iff in Hl; destruct Hl as [-> ->];
        rewrite ?orb_true_r; reflexivity.
  - apply Lang_uuid. exact Hl.
  - apply Lang_plus_cls. exact Hl.
  - apply Lang_cls_inv in Hl. destruct Hl as (c' & -> & Hc').
    simpl in Hrest. injection Hrest as <- _.
    unfold is_nonword in Hc'. apply negb_true_iff in Hc'. rewrite Hc'. simpl.
    destruct (is_space c) eqn:Hsp; [|reflexivity]. exfalso.
    unfold Lexer.next, Lexer.rules, Lexer.first_rule in H.
    destruct (exec_re Lexer.stringPattern (c :: s)); [discriminate|].
    destruct (exec_re Lexer.commentPattern (c :: s)); [discriminate|].
    destruct (exec_re Lexer.uuidPattern (c :: s)); [discriminate|].
    destruct (exec_re (Plus (Cls is_space)) (c :: s)) eqn:Hw; [discriminate|].
    revert Hw. apply exec_re_plus_class. exact Hsp.
  - apply Lang_plus_cls. exact Hl.
Qed.

Lemma scan_shapes :
  forall s skip toks,
    Lexer.scan s skip = inr toks -> forallb well_shaped toks = true.
Proof.
  induction s as [|c s IH]; intros skip toks H.
  - simpl in H. injection H as <-. reflexivity.
  - destruct skip as [|n].
    + change (Lexer.scan (c :: s) 0)
        with (match Lexer.next (c :: s) with
              | None => inl Lexer.invalid_syntax
              | Some tok =>
                  match Lexer.scan s (length (Lexer.value tok) - 1) with
                  | inl e => inl e
                  | inr toks => inr (tok :: toks)
                  end
              end) in H.
      destruct (Lexer.next (c :: s)) as [tok|] eqn:Hn; [|discriminate].
      destruct (Lexer.scan s (length (Lexer.value tok) - 1)) as [e|toks'] eqn:Hs;
        [discriminate|].
      injection H as <-. simpl.
      rewrite (@next_shape c s tok Hn). simpl. eapply IH. exact Hs.
    + simpl in H. eapply IH. exact H.
Qed.

End Token_shapes.


(** X1: the tokens [getTokens] returns when nothing is ignored are a
    partition of the input: no token is empty, and their texts put one
    after the other are the input. *)
Theorem getTokens_is_lossless :
  forall cql,
    exists toks,
      Lexer.getTokens cql [] = inr toks
      /\ concat (map Lexer.value toks) = cql
      /\ Forall (fun tok => Lexer.value tok <> []) toks.
Proof.
  intros cql. destruct (scan_succeeds cql 0) as [toks Hs].
  exists toks. unfold Lexer.getTokens. rewrite Hs.
  split.
  - f_equal. clear Hs. induction toks as [|t toks IH]; simpl; [reflexivity|].
    f_equal. exact IH.
  - apply scan_concat in Hs. exact Hs.
Qed.

(** X2: every token [getTokens] returns has the text of its type: a string
    between two quotes of one kind, a comment between its delimiters or from
    a doubled slash or dash to the end of the line, a uuid of 36
    characters, a run of white space, one character that is neither of a
    word nor white space, or a run of word characters; and none has an
    ignored type, so that the required tokens are never white space or
    comments. *)
Theorem getTokens_shapes :
  forall cql ignore,
    exists toks,
      Lexer.getTokens cql ignore = inr toks
      /\ forallb well_shaped toks = true
      /\ forallb (fun tok => negb (Lexer.includes ignore (Lexer.type tok))) toks
         = true.
Proof.
  intros cql ignore. destruct (scan_succeeds cql 0) as [toks Hs].
  exists (filter (fun t => negb (Lexer.includes ignore (Lexer.type t))) toks).
  unfold Lexer.getTokens. rewrite Hs. split; [reflexivity|].
  apply scan_shapes in Hs. split.
  - rewrite forallb_forall in *. intros t Ht. apply filter_In in Ht.
    apply Hs. apply Ht.
  - apply forallb_forall. intros t Ht. apply filter_In in Ht. apply Ht.
Qed.


(** ** The checksum and the order of file names *)


Section Checksum_format.

Local Open Scope N_scope.

Lemma bytes_of_word_length :
  forall n w, length (MD5.bytes_of_word n w) = n.
Proof. induction n as [|n IH]; intros w; simpl; [reflexivity|]. rewrite IH. reflexivity. Qed.

Lemma bytes_of_word_bytes :
  forall n w, Forall (fun b => b < 256) (MD5.bytes_of_word n w).
Proof.
  induction n as [|n IH]; intros w; simpl; constructor.
  - apply N.mod_lt. discriminate.
  - apply IH.
Qed.

Lemma digest_length : forall msg, length (MD5.digest msg) = 16%nat.
Proof.
  intros msg. unfold MD5.digest. cbv zeta.
  rewrite !length_app, !bytes_of_word_length. reflexivity.
Qed.

Lemma digest_bytes : forall msg, Forall (fun b => b < 256) (MD5.digest msg).
Proof.
  intros msg. unfold MD5.digest. cbv zeta.
  repeat (apply Forall_app; split); apply bytes_of_word_bytes.
Qed.

Lemma hex_digit_lhex : forall n, n < 16 -> is_lhex (hex_digit n) = true.
Proof.
  intros n Hn. unfold hex_digit, is_lhex, in_range.
  destruct (N.ltb_spec n 10).
  - apply orb_true_iff. right. apply andb_true_iff. split; apply N.leb_le; lia.
  - apply orb_true_iff. left. apply andb_true_iff. split; apply N.leb_le; lia.
Qed.

Lemma hex_encode_length :
  forall bytes, length (hex_encode bytes) = (2 * length bytes)%nat.
Proof.
  induction bytes as [|b bytes IH]; simpl; [reflexivity|].
  rewrite IH. lia.
Qed.

Lemma hex_encode_lhex :
  forall bytes,
    Forall (fun b => b < 256) bytes -> forallb is_lhex (hex_encode bytes) = true.
Proof.
  induction 1 as [|b bytes Hb _ IH]; simpl; [reflexivity|].
  rewrite IH, andb_true_r.
  rewrite !hex_digit_lhex; [reflexivity| |].
  - apply N.mod_lt. discriminate.
  - apply N.Div0.div_lt_upper_bound. exact Hb.
Qed.

End Checksum_format.

(** X3: whatever the input, the checksum is 32 characters, each a digit or
    a letter from a to f in lower case. *)
Theorem checksum_is_32_hex_digits :
  forall input,
    length (getCqlChecksum input) = 32
    /\ forallb is_lhex (getCqlChecksum input) = true.
Proof.
  intros input. unfold getCqlChecksum. split.
  - rewrite hex_encode_length, digest_length. reflexivity.
  - apply hex_encode_lhex. apply digest_bytes.
Qed.

Section Byte_order.

Local Open Scope N_scope.

Lemma jsstring_ltb_app :
  forall p x y, jsstring_ltb (p ++ x) (p ++ y) = jsstring_ltb x y.
Proof.
  induction p as [|c p IH]; intros x y; simpl; [reflexivity|].
  rewrite N.ltb_irrefl. apply IH.
Qed.

Lemma ltb_cons_lt :
  forall c d x y, c < d -> jsstring_ltb (c :: x) (d :: y) = true.
Proof. intros c d x y H. simpl. apply N.ltb_lt in H. rewrite H. reflexivity. Qed.

Lemma ltb_cons_gt :
  forall c d x y, d < c -> jsstring_ltb (c :: x) (d :: y) = false.
Proof.
  intros c d x y H. simpl.
  destruct (N.ltb_spec c d); [lia|].
  apply N.ltb_lt in H. rewrite H. reflexivity.
Qed.

Lemma ltb_cons_eq :
  forall c d x y, c = d -> jsstring_ltb (c :: x) (d :: y) = jsstring_ltb x y.
Proof. intros c d x y ->. simpl. rewrite N.ltb_irrefl. reflexivity. Qed.

Ltac euclid :=
  zify; Z.to_euclidean_division_equations; lia.

(** The encodings of two code points are ordered as the code points are,
    whatever follows them. *)
Lemma utf8_of_code_point_lt :
  forall c d x y,
    c < d -> d < 65536 ->
    jsstring_ltb (utf8_of_code_point c ++ x) (utf8_of_code_point d ++ y) = true
    /\ jsstring_ltb (utf8_of_code_point d ++ y) (utf8_of_code_point c ++ x) = false.
Proof.
  intros c d x y Hcd Hd. unfold utf8_of_code_point.
  destruct (N.ltb_spec c 128) as [Hc1|Hc1];
    destruct (N.ltb_spec d 128) as [Hd1|Hd1]; try lia;
    destruct (N.ltb_spec c 2048) as [Hc2|Hc2];
    destruct (N.ltb_spec d 2048) as [Hd2|Hd2]; try lia;
    destruct (N.ltb_spec c 65536) as [Hc3|Hc3];
    destruct (N.ltb_spec d 65536) as [Hd3|Hd3]; try lia;
    cbn [app].
  - split; [apply ltb_cons_lt|apply ltb_cons_gt]; lia.
  - split; [apply ltb_cons_lt|apply ltb_cons_gt]; euclid.
  - split; [apply ltb_cons_lt|apply ltb_cons_gt]; euclid.
  - destruct (N.lt_total (c / 64) (d / 64)) as [H|[H|H]]; [| |euclid].
    + split; [apply ltb_cons_lt|apply ltb_cons_gt]; lia.
    + split.
      * rewrite ltb_cons_eq by lia. apply ltb_cons_lt. euclid.
      * rewrite ltb_cons_eq by lia. apply ltb_cons_gt. euclid.
  - split; [apply ltb_cons_lt|apply ltb_cons_gt]; euclid.
  - destruct (N.lt_total (c / 4096) (d / 4096)) as [H|[H|H]]; [| |euclid].
    + split; [apply ltb_cons_lt|apply ltb_cons_gt]; lia.
    + destruct (N.lt_total ((c / 64) mod 64) ((d / 64) mod 64)) as [H'|[H'|H']];
        [| |euclid].
      * split; (rewrite ltb_cons_eq by lia);
          [apply ltb_cons_lt|apply ltb_cons_gt]; lia.
      * split; (rewrite ltb_cons_eq by lia); (rewrite ltb_cons_eq by lia);
          [apply ltb_cons_lt|apply ltb_cons_gt]; euclid.
Qed.

Lemma utf8_encode_cons :
  forall c s,
    not_surrogate c = true ->
    utf8_encode (c :: s) = utf8_of_code_point c ++ utf8_encode s.
Proof.
  intros c s H. unfold not_surrogate in H.
  apply andb_true_iff in H. destruct H as [H _].
  simpl. unfold is_high_surrogate, is_low_surrogate, in_range.
  apply orb_true_iff in H.
  destruct H as [H|H]; [apply N.ltb_lt in H|apply N.leb_le in H].
  - replace (N.leb 55296 c) with false by (symmetry; apply N.leb_gt; lia).
    replace (N.leb 56320 c) with false by (symmetry; apply N.leb_gt; lia).
    reflexivity.
  - replace (N.leb c 56319) with false by (symmetry; apply N.leb_gt; lia).
    replace (N.leb c 57343) with false by (symmetry; apply N.leb_gt; lia).
    rewrite !andb_false_r. reflexivity.
Qed.

Lemma utf8_of_code_point_not_nil : forall c, utf8_of_code_point c <> [].
Proof.
  intros c. unfold utf8_of_code_point.
  destruct (N.ltb c 128); [discriminate|].
  destruct (N.ltb c 2048); [discriminate|].
  destruct (N.ltb c 65536); discriminate.
Qed.

Lemma bytes_ltb_code_units :
  forall a b,
    forallb not_surrogate a = true -> forallb not_surrogate b = true ->
    bytes_ltb a b = jsstring_ltb a b.
Proof.
  unfold bytes_ltb.
  induction a as [|c a IH]; intros [|d b] Ha Hb.
  - reflexivity.
  - simpl in Hb. apply andb_true_iff in Hb. destruct Hb as [Hd Hb].
    rewrite utf8_encode_cons by exact Hd.
    pose proof (utf8_of_code_point_not_nil d) as Hne.
    destruct (utf8_of_code_point d); [congruence|]. reflexivity.
  - simpl in Ha. apply andb_true_iff in Ha. destruct Ha as [Hc Ha].
    rewrite utf8_encode_cons by exact Hc.
    pose proof (utf8_of_code_point_not_nil c) as Hne.
    destruct (utf8_of_code_point c); [congruence|]. reflexivity.
  - simpl in Ha, Hb.
    apply andb_true_iff in Ha. destruct Ha as [Hc Ha].
    apply andb_true_iff in Hb. destruct Hb as [Hd Hb].
    rewrite !utf8_encode_cons by assumption.
    assert (Hc' : c < 65536).
    { unfold not_surrogate in Hc. apply andb_true_iff in Hc.
      apply N.ltb_lt. apply Hc. }
    assert (Hd' : d < 65536).
    { unfold not_surrogate in Hd. apply andb_true_iff in Hd.
      apply N.ltb_lt. apply Hd. }
    destruct (N.lt_total c d) as [H|[H|H]].
    + rewrite ltb_cons_lt by exact H.
      apply utf8_of_code_point_lt; assumption.
    + subst d. rewrite ltb_cons_eq by reflexivity.
      rewrite jsstring_ltb_app. apply IH; assumption.
    + rewrite ltb_cons_gt by exact H.
      apply utf8_of_code_point_lt; assumption.
Qed.

End Byte_order.

(** X4: for file names that hold no surrogate code units (all of ASCII
    and of the rest of the Basic Multilingual Plane), the comparator of
    [loadFiles] orders two migrations as the UTF-8 bytes of their file
    names are ordered. *)
Theorem sort_order_is_byte_order :
  forall a b : Migration,
    forallb not_surrogate (file_of a) = true ->
    forallb not_surrogate (file_of b) = true ->
    Z.ltb (Migrator.compare_file a b) 0 = bytes_ltb (file_of a) (file_of b)
    /\ Z.ltb 0 (Migrator.compare_file a b) = bytes_ltb (file_of b) (file_of a).
Proof.
  intros a b Ha Hb.
  rewrite (bytes_ltb_code_units _ _ Ha Hb), (bytes_ltb_code_units _ _ Hb Ha).
  unfold Migrator.compare_file, file_of.
  destruct (jsstring_ltb (file (migration_file a)) (file (migration_file b))) eqn:Hab.
  - split; [reflexivity|].
    symmetry. apply jsstring_ltb_asym. exact Hab.
  - destruct (jsstring_ltb (file (migration_file b)) (file (migration_file a)));
      split; reflexivity.
Qed.

Lemma sort_order_is_byte_order_witness :
  forallb not_surrogate (file_of rounds_first) = true
  /\ forallb not_surrogate (file_of rounds_second) = true
  /\ Z.ltb (Migrator.compare_file rounds_first rounds_second) 0
     = bytes_ltb (file_of rounds_first) (file_of rounds_second)
  /\ Z.ltb 0 (Migrator.compare_file rounds_first rounds_second)
     = bytes_ltb (file_of rounds_second) (file_of rounds_first).
Proof.
  split; [reflexivity|]. split; [reflexivity|].
  apply (@sort_order_is_byte_order rounds_first rounds_second); reflexivity.
Defined.


(** ** Records and the statements made of them *)

Section Query_arrays.

Lemma createQueryArrays_step :
  forall kv arrays,
    match typeof (snd kv) with
    | typeof_number | typeof_string | typeof_boolean =>
        CassandraClient.push (fst kv) (snd kv) arrays
    | typeof_object =>
        let value :=
          match snd kv with
          | VStorableDate dateTime =>
              match getStorageMethod dateTime with
              | UUID => VTimeUuid (getDate dateTime)
              | DATE_ONLY => VLocalDate (getDate dateTime)
              | TIMESTAMP => VDate (getDate dateTime)
              end
          | value => value
          end in
        CassandraClient.push (fst kv) value arrays
    | _ => arrays
    end
    = if storable kv
      then CassandraClient.push (fst kv) (stored (snd kv)) arrays
      else arrays.
Proof. intros [key v] arrays. destruct v; reflexivity. Qed.

Lemma createQueryArrays_from :
  forall obj arrays,
    fold_left
      (fun arrays kv =>
         if storable kv
         then CassandraClient.push (fst kv) (stored (snd kv)) arrays
         else arrays) obj arrays
    = let defined := filter storable obj in
      CassandraClient.mkQueryArrays
        (CassandraClient.fields arrays ++ map (fun kv => quoted (fst kv)) defined)
        (CassandraClient.placeholders arrays ++ repeat (js "?") (length defined))
        (CassandraClient.fieldsEqualPlaceholders arrays
           ++ map (fun kv => quoted (fst kv) ++ js " = ?") defined)
        (CassandraClient.params arrays ++ map (fun kv => stored (snd kv)) defined).
Proof.
  induction obj as [|kv obj IH]; intros [f p fe ps].
  - simpl. rewrite !app_nil_r. reflexivity.
  - cbn [fold_left filter]. cbv zeta in *.
    destruct (storable kv); rewrite IH; [|reflexivity].
    unfold CassandraClient.push; cbn [CassandraClient.fields
      CassandraClient.placeholders CassandraClient.fieldsEqualPlaceholders
      CassandraClient.params length map repeat].
    unfold quoted. rewrite <- !app_assoc. reflexivity.
Qed.

Lemma createQueryArrays_defined :
  forall obj,
    CassandraClient.createQueryArrays obj
    = let defined := filter storable obj in
      CassandraClient.mkQueryArrays
        (map (fun kv => quoted (fst kv)) defined)
        (repeat (js "?") (length defined))
        (map (fun kv => quoted (fst kv) ++ js " = ?") defined)
        (map (fun kv => stored (snd kv)) defined).
Proof.
  intros obj.
  transitivity
    (fold_left
       (fun arrays kv =>
          if storable kv
          then CassandraClient.push (fst kv) (stored (snd kv)) arrays
          else arrays) obj (CassandraClient.mkQueryArrays [] [] [] [])).
  - unfold CassandraClient.createQueryArrays.
    generalize (CassandraClient.mkQueryArrays [] [] [] []).
    induction obj as [|kv obj IH]; intros arrays; [reflexivity|].
    cbn [fold_left]. rewrite createQueryArrays_step. apply IH.
  - apply createQueryArrays_from.
Qed.

End Query_arrays.

(** X5: [createQueryArrays] leaves out the keys whose value is undefined or
    a function (or a symbol or a bigint) and keeps the others in their
    order, null values among them: a quoted column, a question mark, a
    quoted column with [= ?] and a parameter for each, so that the four
    arrays have the same length. The parameter is the value itself, but for
    a [StorableDate], where it is the time uuid, the local date or the date
    that the storage method asks for. *)
Theorem createQueryArrays_keeps_defined_keys :
  forall obj,
    let arrays := CassandraClient.createQueryArrays obj in
    let defined := filter storable obj in
    CassandraClient.fields arrays = map (fun kv => quoted (fst kv)) defined
    /\ CassandraClient.params arrays = map (fun kv => stored (snd kv)) defined
    /\ CassandraClient.placeholders arrays = repeat (js "?") (length defined)
    /\ CassandraClient.fieldsEqualPlaceholders arrays
       = map (fun kv => quoted (fst kv) ++ js " = ?") defined
    /\ length (CassandraClient.fields arrays) = length defined
    /\ length (CassandraClient.placeholders arrays) = length defined
    /\ length (CassandraClient.fieldsEqualPlaceholders arrays) = length defined
    /\ length (CassandraClient.params arrays) = length defined.
Proof.
  intros obj arrays defined. subst arrays.
  rewrite createQueryArrays_defined. cbv zeta. fold defined.
  cbn [CassandraClient.fields CassandraClient.placeholders
       CassandraClient.fieldsEqualPlaceholders CassandraClient.params].
  rewrite !length_map, repeat_length. repeat split; reflexivity.
Qed.

(** X6: for a time to live that is left out or is a safe integer, which is
    written with all its digits: [insert] of a record none of whose values
    is kept (the empty record and a record of functions among them) throws
    and hands nothing to the driver; of any other record it hands one
    statement to the driver, with one column and one parameter for each
    key that is kept, through the client of the keyspace, and returns or
    throws what the driver does. *)
Theorem insert_sends_one_statement :
  forall (E : Env) keyspace table record ttl ifNotExists options (m : Machine E),
    match ttl with
    | Some n => safe_integer n = true
    | None => True
    end ->
    let defined := filter storable record in
    let params := map (fun kv => stored (snd kv)) defined in
    let query := insert_statement table (map fst defined) ttl ifNotExists in
    let answer :=
      client_execute E keyspace query params
        (CassandraClient.prepared options) (world m) in
    exec (CassandraClient.insert keyspace table record ttl ifNotExists options) m
    = match defined with
      | [] => (inl no_savable_fields, m)
      | _ :: _ =>
          (fst answer,
           mkMachine E (snd answer)
             (trace m
                ++ EvExecute keyspace query params
                     (CassandraClient.prepared options)
                :: query_error_line query (fst answer)))
      end.
Proof.
  intros E keyspace table record ttl ifNotExists options m _
    defined params query answer.
  unfold CassandraClient.insert. cbv zeta.
  rewrite createQueryArrays_defined. cbv zeta. fold defined. fold params.
  cbn [CassandraClient.fields CassandraClient.placeholders
       CassandraClient.params].
  rewrite length_map.
  destruct defined as [|kv defined'] eqn:Hd; [reflexivity|].
  cbn [length Nat.eqb].
  match goal with
  | |- exec (CassandraClient.execute _ ?q _ _) _ = _ =>
      replace q with query
  end.
  2:{ subst query. unfold insert_statement.
      rewrite map_map, length_map. reflexivity. }
  rewrite exec_execute. fold answer.
  destruct answer as [[e|rs] w]; reflexivity.
Qed.

Lemma insert_sends_one_statement_witness :
  let m := sample_machine in
  let ttl := Some 86400%Z in
  let defined := filter storable mixed_record in
  let params := map (fun kv => stored (snd kv)) defined in
  let query := insert_statement (js "locks") (map fst defined) ttl true in
  let answer :=
    client_execute Scripted.env (js "cqlmigrate") query params
      (CassandraClient.prepared no_options) (world m) in
  safe_integer 86400%Z = true
  /\ map fst defined = ["name"; "seen"; "day"; "at"; "gone"; "count"]%string
  /\ params
     = [ VString (js "lock"); VTimeUuid 1000%Z; VLocalDate 1000%Z; VDate 1000%Z;
         VNull; VNumber 3%Z ]
  /\ (exists columns,
        query
        = js "INSERT INTO locks (" ++ columns
            ++ js ") VALUES (?,?,?,?,?,?) IF NOT EXISTS USING TTL 86400;")
  /\ exec (CassandraClient.insert (js "cqlmigrate") (js "locks") mixed_record
             ttl true no_options) m
     = (fst answer,
        mkMachine Scripted.env (snd answer)
          (trace m
             ++ EvExecute (js "cqlmigrate") query params
                  (CassandraClient.prepared no_options)
             :: query_error_line query (fst answer))).
Proof.
  intros m ttl defined params query answer.
  split; [reflexivity|]. split; [reflexivity|]. split; [reflexivity|].
  split.
  { exists (join (js ",") (map quoted (map fst defined))). reflexivity. }
  exact (@insert_sends_one_statement Scripted.env (js "cqlmigrate") (js "locks")
           mixed_record ttl true no_options m eq_refl).
Defined.


(** ** The statements of [apply] *)

Section Split.

Lemma split_on_not_nil : forall sep s, split_on sep s <> [].
Proof.
  intros sep s. destruct s as [|c s]; simpl; [discriminate|].
  destruct (N.eqb c sep); [discriminate|].
  destruct (split_on sep s); discriminate.
Qed.

Lemma split_on_no_sep :
  forall sep s, Forall (fun seg => ~ In sep seg) (split_on sep s).
Proof.
  intros sep. induction s as [|c s IH]; simpl.
  - constructor; [intros []|constructor].
  - destruct (N.eqb_spec c sep) as [->|Hc].
    + constructor; [intros []|exact IH].
    + destruct (split_on sep s) as [|seg segs].
      * constructor; [|constructor]. intros [H|[]]. congruence.
      * constructor; [|exact (Forall_inv_tail IH)].
        intros [H|H]; [congruence|]. exact (Forall_inv IH H).
Qed.

Lemma split_on_join :
  forall sep s, join [sep] (split_on sep s) = s.
Proof.
  intros sep. induction s as [|c s IH]; [reflexivity|].
  simpl split_on. destruct (N.eqb_spec c sep) as [->|Hc].
  - pose proof (split_on_not_nil sep s) as Hne.
    destruct (split_on sep s) as [|seg segs]; [congruence|].
    change (join [sep] ([] :: seg :: segs))
      with ([] ++ [sep] ++ join [sep] (seg :: segs)).
    rewrite IH. reflexivity.
  - pose proof (split_on_not_nil sep s) as Hne.
    destruct (split_on sep s) as [|seg segs]; [congruence|].
    destruct segs as [|seg' segs].
    + simpl in *. rewrite IH. reflexivity.
    + change (join [sep] ((c :: seg) :: seg' :: segs))
        with (c :: (seg ++ [sep] ++ join [sep] (seg' :: segs))).
      change (join [sep] (seg :: seg' :: segs))
        with (seg ++ [sep] ++ join [sep] (seg' :: segs)) in IH.
      rewrite IH. reflexivity.
Qed.

End Split.

Section Apply_statements.

Local Open Scope task_scope.

Variable config : Config.

Lemma Yields_forEach_In :
  forall (P : Event -> Prop) A (l : list A) (body : A -> Task unit),
    (forall a, In a l -> Yields P (fun _ => True) (body a)) ->
    Yields P (fun _ => True) (forEach l body).
Proof.
  intros P A. induction l as [|a l IH]; intros body H; [exact I|].
  change (forEach (a :: l) body) with (body a ;; forEach l body).
  apply Yields_seq.
  - apply H. left. reflexivity.
  - intros _. apply IH. intros a' Ha'. apply H. right. exact Ha'.
Qed.

Lemma save_statement :
  forall body (this : Migration),
    Yields (apply_statement body) (fun _ : unit => True) (save this).
Proof.
  intros body this.
  unfold save, Migration_class, SavableBase_save.
  assert (Hq : CassandraClient.insert (js "cqlmigrate") (js "migrations")
                 (Migration_getInsertableObject this) (Some 0%Z) false no_options
               = CassandraClient.execute (js "cqlmigrate") migrations_insert
                   (map snd (Migration_getInsertableObject this)) no_options).
  { destruct this as [[ks fl [t|] ok fp b] svc [c|]]; reflexivity. }
  rewrite Hq.
  apply Yields_seq; [|intros; exact I].
  unfold CassandraClient.execute. simpl. split.
  - constructor; [|constructor]. left. split; reflexivity.
  - intros [e|rs]; simpl; [|exact I]. split; [|intros; exact I].
    constructor; [exact I|constructor].
Qed.

Lemma CqlFile_apply_statements :
  forall this : Migration,
    Yields (apply_statement (fileBody (migration_file this)))
      (fun this' =>
         success (migration_file this') = true
         /\ fileBody (migration_file this') = fileBody (migration_file this)
         /\ checksum this' = checksum this)
      (CqlFile_apply config this).
Proof.
  intros this. unfold CqlFile_apply.
  apply Yields_NewDate. intros now.
  apply Yields_seq; [apply save_statement|]. intros _.
  apply Yields_seq.
  { cbn [super Migration_class with_super migration_file set_appliedOn fileBody].
    apply Yields_forEach_In. intros command Hin.
    destruct (blank command) eqn:Hb; [simpl; exact I|]. cbn [negb].
    apply Yields_seq; [|intros; exact I].
    unfold CassandraClient.execute. simpl. split.
    - constructor; [|constructor]. right.
      repeat split; auto.
      pose proof (split_on_no_sep semicolon (fileBody (migration_file this))) as Hsep.
      rewrite Forall_forall in Hsep. apply Hsep. exact Hin.
    - intros [e|rs]; simpl; [|exact I]. split; [|intros; exact I].
      constructor; [exact I|constructor]. }
  intros _.
  apply Yields_NewDate. intros now'.
  apply Yields_seq; [apply save_statement|]. intros _.
  simpl. auto.
Qed.

Lemma Migration_apply_statements :
  forall this : Migration,
    Yields (apply_statement (fileBody (migration_file this)))
      (fun this' =>
         success (migration_file this') = true
         /\ fileBody (migration_file this') = fileBody (migration_file this)
         /\ checksum this'
            = Some (getCqlChecksum (fileBody (migration_file this))))
      (Migration_apply config this).
Proof.
  intros this. unfold Migration_apply.
  destruct (success (migration_file this)) eqn:Hs.
  - destruct (checksum_differs (checksum this)
                (getCqlChecksum (fileBody (migration_file this)))) eqn:Hd.
    + simpl. split; [repeat constructor|]. intros; exact I.
    + simpl. split; [repeat constructor|]. intros _.
      repeat split; auto.
      unfold checksum_differs in Hd.
      destruct (checksum this) as [c|]; [|discriminate].
      apply negb_false_iff in Hd. apply jsstring_eqb_eq in Hd. congruence.
  - apply Yields_bind.
    eapply Yields_weaken;
      [|exact (CqlFile_apply_statements
                 (set_checksum
                    (Some (getCqlChecksum (fileBody (migration_file this))))
                    this))].
    intros this' (H1 & H2 & H3). simpl. split; [repeat constructor|].
    intros _. auto.
Qed.

End Apply_statements.

(** X7: whatever the driver answers, the statements [Migration.apply]
    hands to it are the insert of the migration's row and segments of the
    body between two semicolons: such a statement is never blank and never
    holds a semicolon, so that a semicolon inside a string literal of the
    file ends the statement there. Put back together with semicolons, the
    segments are the body. *)
Theorem apply_sends_segments_between_semicolons :
  forall (E : Env) (config : Config) (this : Migration) (m : Machine E),
    let body := fileBody (migration_file this) in
    join [semicolon] (split_on semicolon body) = body
    /\ exists tr,
         trace (snd (exec (Migration_apply config this) m)) = trace m ++ tr
         /\ Forall (apply_statement body) tr.
Proof.
  intros E config this m body. split; [apply split_on_join|].
  destruct (exec (Migration_apply config this) m) as [r m'] eqn:Hexec.
  apply exec_TaskRun in Hexec. destruct Hexec as (tr & Htr & Hrun).
  exists tr. split; [exact Htr|].
  eapply Yields_TaskRun in Hrun; [|apply Migration_apply_statements].
  apply Hrun.
Qed.

(** X8: a migration that [apply] returns has [success] set and carries the
    checksum of its body, so that applying it once more sends nothing to
    the driver: the second [apply] writes the line that it is skipped and
    returns the migration as it is. *)
Theorem applied_migration_is_skipped_next :
  forall (E : Env) (config : Config) (this this' : Migration) (m m' : Machine E),
    exec (Migration_apply config this) m = (inr this', m') ->
    success (migration_file this') = true
    /\ checksum this' = Some (getCqlChecksum (fileBody (migration_file this')))
    /\ forall m2 : Machine E,
         exec (Migration_apply config this') m2
         = (inr this',
            mkMachine E (world m2)
              (trace m2
                 ++ [EvInfo (mkLog (js "Migration has already been applied... skipping")
                               (coordinates this'))])).
Proof.
  intros E config this this' m m' Hexec.
  apply exec_TaskRun in Hexec. destruct Hexec as (tr & _ & Hrun).
  eapply Yields_TaskRun in Hrun; [|apply Migration_apply_statements].
  destruct Hrun as [_ HQ]. destruct (HQ this' eq_refl) as (Hs & Hb & Hc).
  rewrite Hb. split; [exact Hs|]. split; [exact Hc|].
  intros m2. unfold Migration_apply. rewrite Hs, Hc, Hb.
  unfold checksum_differs. rewrite jsstring_eqb_refl. reflexivity.
Qed.

Lemma applied_migration_is_skipped_next_witness :
  let r := exec (Migration_apply default_config sample_fresh) sample_machine in
  let this' :=
    applied_migration sample_fresh (getCqlChecksum sample_body) 2003%Z in
  exec (Migration_apply default_config sample_fresh) sample_machine
  = (inr this', snd r)
  /\ success (migration_file this') = true
  /\ checksum this' = Some (getCqlChecksum (fileBody (migration_file this')))
  /\ forall m2 : Machine Scripted.env,
       exec (Migration_apply default_config this') m2
       = (inr this',
          mkMachine Scripted.env (world m2)
            (trace m2
               ++ [EvInfo (mkLog (js "Migration has already been applied... skipping")
                             (coordinates this'))])).
Proof.
  intros r this'.
  assert (H : exec (Migration_apply default_config sample_fresh) sample_machine
              = (inr this', snd r)) by (vm_compute; reflexivity).
  split; [exact H|].
  exact (@applied_migration_is_skipped_next Scripted.env default_config
           sample_fresh this' sample_machine (snd r) H).
Defined.


(** ** The steps of [start] before the lock is held *)

Section Init_file.

Local Open Scope task_scope.

Variable E : Env.
Variable config : Config.

Lemma exec_ReadFile :
  forall path (m : Machine E),
    exec (trigger (ReadFile path)) m
    = (inr (fst (readFile E path (world m))),
       mkMachine E (snd (readFile E path (world m))) (trace m)).
Proof.
  intros path [w tr]. simpl. unfold perform. simpl.
  destruct (readFile E path w). simpl. rewrite app_nil_r. reflexivity.
Qed.

Lemma exec_Init_apply :
  forall (this : Init) (m : Machine E),
    let body := fileBody (init_file this) in
    (exists w',
        Executed E config (world m) (commands body) w'
        /\ exec (CqlFile_apply config this) m
           = (inr (mkInit (set_success true
                             (set_appliedOn (Some (now E w')) (init_file this)))),
              mkMachine E w'
                (trace m ++ map (command_event config) (commands body))))
    \/ (exists done c rest w2 e w3,
           commands body = done ++ c :: rest
           /\ Executed E config (world m) done w2
           /\ client_execute E [] c [] (command_options config) w2 = (inl e, w3)
           /\ exec (CqlFile_apply config this) m
              = (inl e,
                 mkMachine E w3
                   (trace m ++ map (command_event config) done
                      ++ [command_event config c;
                          EvInfo (CassandraClient.query_error c e)]))).
Proof.
  intros [f] m body. unfold CqlFile_apply.
  cbn [super with_super save Init_class init_file].
  rewrite exec_bind, exec_NewDate.
  rewrite exec_bind. cbn [exec].
  rewrite exec_bind.
  change (fileBody (set_appliedOn (Some (now E (world m))) f)) with (fileBody f).
  change (fun command : jsstring =>
            if negb (blank command)
            then CassandraClient.execute [] command []
                   (mkOptions (Some all) (Some (migrationClientTimeoutMs config)) None) ;;
                 Ret tt
            else Ret tt)
    with (command_body config).
  destruct (exec_commands config (split_on semicolon (fileBody f)) m)
    as [(w' & Hex & Hrun)|(done & c & rest & w2 & e & w3 & Hf & Hex & Hq & Hrun)].
  - left. exists w'. split; [exact Hex|].
    rewrite Hrun. rewrite exec_bind, exec_NewDate. cbn [world].
    rewrite exec_bind. cbn [exec]. reflexivity.
  - right. exists done, c, rest, w2, e, w3.
    split; [exact Hf|]. split; [exact Hex|]. split; [exact Hq|].
    rewrite Hrun. reflexivity.
Qed.

End Init_file.

(** X9: [Migrator.init] reads the init file, puts it in canonical form and
    hands its commands to the driver one after the other: no row is
    written for the init file. When the file cannot be read nothing is
    sent, and the error carries the words that the init file could not be
    loaded; when a command fails the commands after it are not sent, and
    the error carries the words that the init file could not be applied. *)
Theorem init_applies_the_init_file :
  forall (E : Env) (config : Config) (m : Machine E),
    match readFile E [initFilename config] (world m) with
    | (inl e, w) =>
        exec (Migrator.init config) m
        = (inl (js "Error loading init file: " ++ e), mkMachine E w (trace m))
    | (inr content, w) =>
        exists body,
          canonicalizeCql content = inr body
          /\ ((exists w',
                  Executed E config w (commands body) w'
                  /\ exec (Migrator.init config) m
                     = (inr tt,
                        mkMachine E w'
                          (trace m ++ [applying_init_line]
                             ++ map (command_event config) (commands body)
                             ++ [init_applied_line])))
              \/ (exists done c rest w2 e w3,
                     commands body = done ++ c :: rest
                     /\ Executed E config w done w2
                     /\ client_execute E [] c [] (command_options config) w2
                        = (inl e, w3)
                     /\ exec (Migrator.init config) m
                        = (inl (js "Error applying the init file: " ++ e),
                           mkMachine E w3
                             (trace m ++ [applying_init_line]
                                ++ map (command_event config) done
                                ++ [command_event config c;
                                    EvInfo (CassandraClient.query_error c e)]))))
    end.
Proof.
  intros E config m.
  unfold Migrator.init. cbv zeta.
  rewrite exec_bind, exec_try_catch.
  unfold CqlFile_init, loadAndCanonicalizeFile.
  cbn [super Init_class new_Init init_file new_CqlFile filePath].
  rewrite exec_bind, exec_ReadFile.
  destruct (readFile E [initFilename config] (world m)) as [[e|content] w];
    cbn [fst snd].
  - reflexivity.
  - destruct (scan_succeeds content 0) as [toks Htoks].
    assert (Hcanon : canonicalizeCql content
                     = inr (join space
                              (map Lexer.value
                                 (filter (fun t => negb (Lexer.includes
                                                           Lexer.optionalTokenTypes
                                                           (Lexer.type t))) toks)))).
    { unfold canonicalizeCql, Lexer.getRequiredTokens, Lexer.getTokens.
      rewrite Htoks. reflexivity. }
    rewrite Hcanon. eexists. split; [reflexivity|].
    cbn [exec with_super].
    rewrite exec_bind, exec_info. cbn [world trace].
    rewrite exec_bind, exec_try_catch, exec_bind.
    match goal with
    | |- context [exec (CqlFile_apply config ?this) ?m1] =>
        destruct (exec_Init_apply config this m1)
          as [(w' & Hex & Hrun)|(done & c & rest & w2 & e & w3 & Hf & Hex & Hq & Hrun)]
    end.
    + left. exists w'. split; [exact Hex|].
      rewrite Hrun. cbn [exec]. rewrite exec_info. cbn [world trace].
      rewrite <- ?app_assoc. reflexivity.
    + right. exists done, c, rest, w2, e, w3.
      split; [exact Hf|]. split; [exact Hex|]. split; [exact Hq|].
      rewrite Hrun. cbn [exec trace]. rewrite <- ?app_assoc. reflexivity.
Qed.

(** X10: when [init] throws, [start] writes the error and ends the process
    with status 1: the lock is neither asked for nor released, and no
    file of the migration directory is looked for. *)
Theorem start_exits_when_init_fails :
  forall (E : Env) (config : Config) (client : jsstring) (patience : nat)
         (s : Process E) error m1,
    detached s = [] ->
    exec (Migrator.init config) (machine s) = (inl error, m1) ->
    run (Migrator.start config client patience) s
    = (Exited (Some 1%Z),
       mkProcess
         (mkMachine E (world m1) (trace m1 ++ [error_preparing error]))
         (schedule s) []).
Proof.
  intros E config client patience [m sch ds] error m1 Hds Hinit.
  cbn [detached machine schedule] in *. subst ds.
  unfold Migrator.start.
  rewrite run_pbind, run_ptry_catch, run_pbind, run_lift, Hinit.
  rewrite run_pbind, run_lift, exec_error. reflexivity.
Qed.

Lemma start_exits_when_init_fails_witness :
  let s := Scripted.boot sample_world [] in
  let error := js "Error loading init file: ENOENT: no such file or directory" in
  detached s = []
  /\ exec (Migrator.init default_config) (machine s) = (inl error, machine s)
  /\ run (Migrator.start default_config sample_client 1) s
     = (Exited (Some 1%Z),
        mkProcess
          (mkMachine Scripted.env (world (machine s))
             (trace (machine s) ++ [error_preparing error]))
          (schedule s) []).
Proof.
  intros s error.
  assert (H0 : detached s = []) by reflexivity.
  assert (H1 : exec (Migrator.init default_config) (machine s)
               = (inl error, machine s)) by (vm_compute; reflexivity).
  split; [exact H0|]. split; [exact H1|].
  exact (@start_exits_when_init_fails Scripted.env default_config sample_client 1
           s error (machine s) H0 H1).
Defined.

(** X11: when the conditional insert of the lock row is not applied, or the
    driver throws on it, [start] writes the error and ends the process with
    status 1 without touching the lock row again: it does not release a
    lock it does not hold, and loads and applies nothing. *)
Theorem start_exits_without_the_lock :
  forall (E : Env) (config : Config) (client : jsstring) (patience : nat)
         (s : Process E) m1 m2,
    detached s = [] ->
    exec (Migrator.init config) (machine s) = (inr tt, m1) ->
    exec (lock.acquire client) m1 = (inr false, m2) ->
    run (Migrator.start config client patience) s
    = (Exited (Some 1%Z),
       mkProcess
         (mkMachine E (world m2) (trace m2 ++ [error_preparing lock_not_acquired]))
         (schedule s) []).
Proof.
  intros E config client patience [m sch ds] m1 m2 Hds Hinit Hlock.
  cbn [detached machine schedule] in *. subst ds.
  unfold Migrator.start.
  rewrite run_pbind, run_ptry_catch, run_pbind, run_lift, Hinit.
  rewrite run_pbind, run_lift, Hlock.
  cbn [negb run].
  rewrite run_pbind, run_lift, exec_error. reflexivity.
Qed.

Lemma start_exits_without_the_lock_witness :
  let s := Scripted.boot locked_out_world [] in
  let m1 := snd (exec (Migrator.init default_config) (machine s)) in
  let m2 := snd (exec (lock.acquire sample_client) m1) in
  detached s = []
  /\ exec (Migrator.init default_config) (machine s) = (inr tt, m1)
  /\ exec (lock.acquire sample_client) m1 = (inr false, m2)
  /\ run (Migrator.start default_config sample_client 1) s
     = (Exited (Some 1%Z),
        mkProcess
          (mkMachine Scripted.env (world m2)
             (trace m2 ++ [error_preparing lock_not_acquired]))
          (schedule s) []).
Proof.
  intros s m1 m2.
  assert (H0 : detached s = []) by reflexivity.
  assert (H1 : exec (Migrator.init default_config) (machine s) = (inr tt, m1))
    by (vm_compute; reflexivity).
  assert (H2 : exec (lock.acquire sample_client) m1 = (inr false, m2))
    by (vm_compute; reflexivity).
  split; [exact H0|]. split; [exact H1|]. split; [exact H2|].
  exact (@start_exits_without_the_lock Scripted.env default_config sample_client 1
           s m1 m2 H0 H1 H2).
Defined.


(** ** What [loadFiles] takes from the directory *)

Section Loading_all.

Local Open Scope task_scope.

Variable E : Env.
Variable config : Config.

Lemma Bootstrap_init_yields :
  forall this : Bootstrap,
    Yields (fun _ => True) (fun this' => bootstrap_path this' = bootstrap_path this)
      (CqlFile_init this).
Proof.
  intros this. unfold CqlFile_init, loadAndCanonicalizeFile. simpl.
  split; [constructor|]. intros [e|content]; simpl; [exact I|].
  destruct (canonicalizeCql content) as [e|body]; simpl; [exact I|].
  reflexivity.
Qed.

Lemma loaded_pushed :
  forall P migration migrations,
    well_formed migrations ->
    Forall P (all_migrations migrations) -> P migration ->
    Forall P (all_migrations (push migration migrations)).
Proof.
  intros P migration migrations Hwf Hall Hm.
  destruct (@push_spec migration migrations Hwf) as [_ Hperm].
  eapply Permutation_Forall; [exact Hperm|]. constructor; assumption.
Qed.

Lemma loadFiles_loop_takes :
  forall files bootstraps migrations (m : Machine E) loaded m',
    well_formed migrations ->
    Forall may_be_loaded (all_migrations migrations) ->
    exec (Migrator.loadFiles_loop config files bootstraps migrations) m
    = (inr loaded, m') ->
    map bootstrap_path (fst loaded)
    = map bootstrap_path bootstraps ++ filter (is_bootstrap_path config) files
    /\ well_formed (snd loaded)
    /\ Forall may_be_loaded (all_migrations (snd loaded))
    /\ Permutation (map path_of (all_migrations (snd loaded)))
         (map path_of (all_migrations migrations)
            ++ filter (is_migration_path config) files).
Proof.
  induction files as [|file files IH];
    intros bootstraps migrations m loaded m' Hwf Hok Hexec.
  - simpl in Hexec. injection Hexec as <- <-. simpl.
    rewrite !app_nil_r. auto.
  - rewrite loadFiles_loop_cons in Hexec.
    change (jsstring_eqb (Migrator.basename file) (bootstrapFilename config)
            && Nat.eqb (Migrator.getFileDepth file) 1)
      with (is_bootstrap_path config file) in Hexec.
    assert (Hmig : is_migration_path config file
                   = negb (is_bootstrap_path config file)
                     && Nat.eqb (Migrator.getFileDepth file) 2) by reflexivity.
    cbn [filter]. rewrite Hmig. clear Hmig.
    destruct (is_bootstrap_path config file).
    + rewrite exec_bind in Hexec.
      destruct (exec (CqlFile_init (new_Bootstrap file)) m) as [[e|b] m1] eqn:Hinit;
        [discriminate|].
      apply exec_TaskRun in Hinit. destruct Hinit as (tr & _ & Hrun).
      eapply Yields_TaskRun in Hrun; [|apply Bootstrap_init_yields].
      destruct Hrun as [_ Hpath]. specialize (Hpath b eq_refl).
      destruct (IH _ _ _ _ _ Hwf Hok Hexec) as (Hb & Hwf' & Hok' & Hperm).
      cbn [negb andb].
      split; [|auto].
      rewrite Hb, map_app. cbn [map]. rewrite Hpath.
      rewrite <- app_assoc. reflexivity.
    + cbn [negb andb].
      destruct (Nat.eqb (Migrator.getFileDepth file) 2) eqn:Hdepth.
      * apply Nat.eqb_eq in Hdepth.
        rewrite exec_bind in Hexec.
        destruct (exec (Migration_init (new_Migration file)) m)
          as [[e|migration] m1] eqn:Hinit; [discriminate|].
        destruct (@Migration_init_result E file m migration m1 Hdepth Hinit)
          as [_ Hpath].
        destruct (negb (success (migration_file migration))
                  && negb (Migrator.is_null (appliedOn (migration_file migration))))
          eqn:Hfailed.
        -- rewrite exec_bind, exec_error in Hexec. discriminate.
        -- change (exec (Migrator.loadFiles_loop config files bootstraps
                           (push migration migrations)) m1 = (inr loaded, m'))
             in Hexec.
           assert (Hm : may_be_loaded migration).
           { unfold may_be_loaded.
             destruct (success (migration_file migration)); [auto|].
             destruct (appliedOn (migration_file migration)); [discriminate|auto]. }
           destruct (@push_spec migration migrations Hwf) as [Hwf1 Hperm1].
           pose proof (@loaded_pushed may_be_loaded migration migrations Hwf Hok Hm) as Hok1.
           destruct (IH _ _ _ _ _ Hwf1 Hok1 Hexec) as (Hb & Hwf' & Hok' & Hperm).
           split; [exact Hb|]. split; [exact Hwf'|]. split; [exact Hok'|].
           eapply Permutation_trans; [exact Hperm|].
           apply (Permutation_map path_of) in Hperm1.
           cbn [map] in Hperm1. rewrite Hpath in Hperm1.
           eapply Permutation_trans;
             [apply Permutation_app_tail; apply Permutation_sym; exact Hperm1|].
           cbn [app]. apply Permutation_middle.
      * exact (IH _ _ _ _ _ Hwf Hok Hexec).
Qed.

Lemma loadFiles_loaded :
  forall (m : Machine E) files m0 bootstraps migrations m1,
    exec (Migrator.getFilePaths config) m = (inr files, m0) ->
    exec (Migrator.loadFiles config) m = (inr (bootstraps, migrations), m1) ->
    exists loaded m2,
      exec (Migrator.loadFiles_loop config files [] []) m0 = (inr loaded, m2)
      /\ bootstraps = fst loaded
      /\ migrations = Migrator.sort_all (snd loaded).
Proof.
  intros m files m0 bootstraps migrations m1 Hfiles Hload.
  unfold Migrator.loadFiles in Hload.
  rewrite exec_bind, Hfiles in Hload. rewrite exec_bind in Hload.
  destruct (exec (Migrator.loadFiles_loop config files [] []) m0)
    as [[e|loaded] m2]; [discriminate|].
  exists loaded, m2. split; [reflexivity|].
  cbv zeta in Hload. rewrite exec_bind, exec_info in Hload.
  simpl in Hload. injection Hload as <- <- _. auto.
Qed.

End Loading_all.

(** X12: when [loadFiles] returns, the bootstraps are the files of depth 1
    that carry the bootstrap file name, in the order of the walk, and the
    migrations are the files of depth 2, each once, whatever their names;
    files at other depths are left out. In the map no service is without a
    migration, every migration is under its own service, and none is a
    migration that the state store returned as failed. *)
Theorem loadFiles_takes_the_files_by_depth :
  forall (E : Env) (config : Config) (m : Machine E) files m0 bootstraps
         migrations m1,
    exec (Migrator.getFilePaths config) m = (inr files, m0) ->
    exec (Migrator.loadFiles config) m = (inr (bootstraps, migrations), m1) ->
    map bootstrap_path bootstraps = filter (is_bootstrap_path config) files
    /\ Permutation (map path_of (all_migrations migrations))
         (filter (is_migration_path config) files)
    /\ well_formed migrations
    /\ Forall may_be_loaded (all_migrations migrations).
Proof.
  intros E config m files m0 bootstraps migrations m1 Hfiles Hload.
  destruct (@loadFiles_loaded E config m files m0 bootstraps migrations m1
              Hfiles Hload) as (loaded & m2 & Hloop & -> & ->).
  assert (Hwf0 : well_formed []) by (split; constructor).
  assert (Hok0 : Forall may_be_loaded (all_migrations [])) by constructor.
  destruct (@loadFiles_loop_takes E config files [] [] m0 loaded m2 Hwf0 Hok0 Hloop)
    as (Hb & Hwf & Hok & Hperm).
  split; [exact Hb|]. split; [|split].
  - eapply Permutation_trans; [|exact Hperm].
    apply Permutation_map. apply Permutation_sym. apply sort_all_perm.
  - apply sort_all_well_formed. exact Hwf.
  - eapply Permutation_Forall; [apply sort_all_perm|exact Hok].
Qed.

Lemma loadFiles_takes_the_files_by_depth_witness :
  let m := layout_machine in
  let files := map fst layout_disk in
  let r := exec (Migrator.loadFiles default_config) m in
  let bootstraps := match fst r with inr l => fst l | inl _ => [] end in
  let migrations := match fst r with inr l => snd l | inl _ => [] end in
  exec (Migrator.getFilePaths default_config) m
  = (inr files, snd (exec (Migrator.getFilePaths default_config) m))
  /\ exec (Migrator.loadFiles default_config) m
     = (inr (bootstraps, migrations), snd r)
  /\ map bootstrap_path bootstraps = [[js "foo"; js "bootstrap.cql"]]
  /\ map path_of (all_migrations migrations)
     = [ [js "foo"; js "users"; js "0001-initial.cql"];
         [js "foo"; js "users"; js "bootstrap.cql"] ]
  /\ map bootstrap_path bootstraps = filter (is_bootstrap_path default_config) files
  /\ Permutation (map path_of (all_migrations migrations))
       (filter (is_migration_path default_config) files)
  /\ well_formed migrations
  /\ Forall may_be_loaded (all_migrations migrations).
Proof.
  intros m files r bootstraps migrations.
  assert (H1 : exec (Migrator.getFilePaths default_config) m
               = (inr files, snd (exec (Migrator.getFilePaths default_config) m)))
    by (vm_compute; reflexivity).
  assert (H2 : exec (Migrator.loadFiles default_config) m
               = (inr (bootstraps, migrations), snd r))
    by (vm_compute; reflexivity).
  split; [exact H1|]. split; [exact H2|].
  split; [vm_compute; reflexivity|]. split; [vm_compute; reflexivity|].
  exact (@loadFiles_takes_the_files_by_depth Scripted.env default_config m files
           _ bootstraps migrations (snd r) H1 H2).
Defined.


(** ** Rounds and the wait for schema agreement *)

Section Round_heads.

Lemma round_heads_hd :
  forall migrations,
    Forall entry_ok migrations ->
    map Some (round_heads migrations)
    = map (fun kv => hd_error (snd kv)) migrations.
Proof.
  induction migrations as [|[k l] mm IH]; intros Hok; [reflexivity|].
  pose proof (Forall_inv Hok) as [Hne _]. simpl in Hne.
  destruct l as [|x l]; [congruence|].
  change (round_heads ((k, x :: l) :: mm)) with (x :: round_heads mm).
  simpl. rewrite IH by exact (Forall_inv_tail Hok). reflexivity.
Qed.

Lemma round_tails_count :
  forall migrations,
    Forall entry_ok migrations ->
    Migrator.total_migrations (round_tails migrations) + length migrations
    = Migrator.total_migrations migrations.
Proof.
  unfold Migrator.total_migrations.
  induction migrations as [|[k l] mm IH]; intros Hok; [reflexivity|].
  pose proof (Forall_inv Hok) as [Hne _]. simpl in Hne.
  specialize (IH (Forall_inv_tail Hok)).
  rewrite round_tails_cons.
  destruct l as [|x l]; [congruence|]. simpl tl.
  destruct (Nat.eqb_spec (length l) 0) as [Hl|Hl].
  - destruct l; [|discriminate]. simpl. lia.
  - simpl. rewrite !length_app in *. simpl. lia.
Qed.

End Round_heads.

(** X13: on the map [loadFiles] leaves (no service without a migration,
    every migration under its own service), the callbacks of a round take
    the first migration of every service, so that none of them reads the
    service of [undefined]; the migrations left are the others, the services
    that have none left are deleted, and the map is again as [loadFiles]
    leaves it, with one migration less for every service it had. *)
Theorem round_takes_the_first_of_every_service :
  forall migrations,
    well_formed migrations ->
    let heads := fst (Migrator.shift_heads migrations migrations) in
    let left := snd (Migrator.shift_heads migrations migrations) in
    heads = map (fun kv => hd_error (snd kv)) migrations
    /\ Forall (fun head => head <> None) heads
    /\ left
       = filter (fun kv => negb (Nat.eqb (length (snd kv)) 0))
           (map (fun kv => (fst kv, tl (snd kv))) migrations)
    /\ well_formed left
    /\ Migrator.total_migrations left + length migrations
       = Migrator.total_migrations migrations.
Proof.
  intros migrations Hwf heads left. subst heads left.
  rewrite (@shift_heads_well_formed migrations Hwf). cbn [fst snd].
  split; [apply round_heads_hd; apply Hwf|].
  split; [apply Forall_forall; intros h Hh; apply in_map_iff in Hh;
          destruct Hh as (x & <- & _); discriminate|].
  split; [reflexivity|].
  split; [apply round_tails_well_formed; exact Hwf|].
  apply round_tails_count. apply Hwf.
Qed.

Lemma rounds_migrations_well_formed : well_formed rounds_migrations.
Proof.
  split.
  - repeat constructor; simpl; intros H;
      repeat (destruct H as [H|H]; [vm_compute in H; discriminate|]);
      exact H.
  - repeat constructor; discriminate.
Qed.

Lemma round_takes_the_first_of_every_service_witness :
  let heads := fst (Migrator.shift_heads rounds_migrations rounds_migrations) in
  let left := snd (Migrator.shift_heads rounds_migrations rounds_migrations) in
  well_formed rounds_migrations
  /\ heads = [Some rounds_first; Some sample_orders]
  /\ left = [(js "users", [rounds_second])]
  /\ heads = map (fun kv => hd_error (snd kv)) rounds_migrations
  /\ Forall (fun head => head <> None) heads
  /\ left
     = filter (fun kv => negb (Nat.eqb (length (snd kv)) 0))
         (map (fun kv => (fst kv, tl (snd kv))) rounds_migrations)
  /\ well_formed left
  /\ Migrator.total_migrations left + length rounds_migrations
     = Migrator.total_migrations rounds_migrations.
Proof.
  intros heads left.
  split; [exact rounds_migrations_well_formed|].
  split; [vm_compute; reflexivity|]. split; [vm_compute; reflexivity|].
  exact (@round_takes_the_first_of_every_service rounds_migrations
           rounds_migrations_well_formed).
Defined.

Section Polling.

Variable E : Env.

Lemma run_disagreed :
  forall ms n w w' patience tr sch,
    @Disagreed E ms w n w' ->
    run (getSchemaAgreementPromise (n + patience) ms)
      (mkProcess (mkMachine E w tr) sch [])
    = run (getSchemaAgreementPromise patience ms)
        (mkProcess (mkMachine E w' (tr ++ repeat EvProbe n)) sch []).
Proof.
  intros ms n w w' patience tr sch H. revert tr.
  induction H as [w|w w1 n w' Hq _ IH]; intros tr.
  - simpl. rewrite app_nil_r. reflexivity.
  - change (S n + patience) with (S (n + patience)).
    rewrite getSchemaAgreementPromise_S, run_pbind, run_lift.
    rewrite exec_checkSchemaAgreement. cbn [world trace]. rewrite Hq.
    rewrite run_pbind, run_lift, exec_SetTimeout. cbn [world trace].
    rewrite IH. rewrite <- app_assoc. reflexivity.
Qed.

End Polling.

(** X14: [getSchemaAgreementPromise] polls until the first poll that finds
    the schemas in agreement and then resolves, having slept the retry
    interval after every poll before it; a poll that throws rejects the
    promise with what was thrown; and as long as the polls find no
    agreement the promise is pending: there is no limit to the wait. *)
Theorem getSchemaAgreementPromise_polls_until_agreement :
  forall (E : Env) (ms : Z) (n patience : nat) (w w1 : World E) tr sch,
    @Disagreed E ms w n w1 ->
    (forall w2,
        schema_agreement E w1 = (inr true, w2) ->
        run (getSchemaAgreementPromise (n + S patience) ms)
          (mkProcess (mkMachine E w tr) sch [])
        = (Returned tt,
           mkProcess (mkMachine E w2 (tr ++ repeat EvProbe (S n))) sch []))
    /\ (forall e w2,
           schema_agreement E w1 = (inl e, w2) ->
           run (getSchemaAgreementPromise (n + S patience) ms)
             (mkProcess (mkMachine E w tr) sch [])
           = (Thrown e,
              mkProcess (mkMachine E w2 (tr ++ repeat EvProbe (S n))) sch []))
    /\ run (getSchemaAgreementPromise n ms)
         (mkProcess (mkMachine E w tr) sch [])
       = (Waiting,
          mkProcess (mkMachine E w1 (tr ++ repeat EvProbe n)) sch []).
Proof.
  intros E ms n patience w w1 tr sch H.
  assert (Hlast : repeat EvProbe (S n) = repeat EvProbe n ++ [EvProbe]).
  { change (repeat EvProbe (S n)) with (EvProbe :: repeat EvProbe n).
    apply repeat_cons. }
  split; [|split].
  - intros w2 Hq. rewrite (@run_disagreed E ms n w w1 (S patience) tr sch H).
    rewrite getSchemaAgreementPromise_S, run_pbind, run_lift.
    rewrite exec_checkSchemaAgreement. cbn [world trace]. rewrite Hq.
    rewrite Hlast, app_assoc. reflexivity.
  - intros e w2 Hq. rewrite (@run_disagreed E ms n w w1 (S patience) tr sch H).
    rewrite getSchemaAgreementPromise_S, run_pbind, run_lift.
    rewrite exec_checkSchemaAgreement. cbn [world trace]. rewrite Hq.
    rewrite Hlast, app_assoc. reflexivity.
  - pose proof (@run_disagreed E ms n w w1 0 tr sch H) as Hrun.
    rewrite Nat.add_0_r in Hrun. rewrite Hrun. reflexivity.
Qed.

Lemma getSchemaAgreementPromise_polls_until_agreement_witness :
  let w := slow_world in
  let w1 := Scripted.mkWorld 4000%Z [] [] [inr true] in
  let w2 := Scripted.mkWorld 4000%Z [] [] [] in
  @Disagreed Scripted.env 1000%Z w 2 w1
  /\ schema_agreement Scripted.env w1 = (inr true, w2)
  /\ run (getSchemaAgreementPromise 5 1000%Z) (Scripted.boot w [])
     = (Returned tt,
        mkProcess (mkMachine Scripted.env w2 [EvProbe; EvProbe; EvProbe]) [] [])
  /\ run (getSchemaAgreementPromise 2 1000%Z) (Scripted.boot w [])
     = (Waiting,
        mkProcess (mkMachine Scripted.env w1 [EvProbe; EvProbe]) [] []).
Proof.
  intros w w1 w2.
  assert (H : @Disagreed Scripted.env 1000%Z w 2 w1).
  { eapply Disagreed_again; [reflexivity|].
    eapply Disagreed_again; [reflexivity|].
    apply Disagreed_done. }
  assert (Hq : schema_agreement Scripted.env w1 = (inr true, w2)) by reflexivity.
  split; [exact H|]. split; [exact Hq|].
  destruct (@getSchemaAgreementPromise_polls_until_agreement Scripted.env 1000%Z
              2 2 w w1 [] [] H) as (Hres & _ & Hwait).
  split; [exact (Hres w2 Hq)|exact Hwait].
Defined.


(** ** What the main flow is bound to do *)

Section Run_grows.

Variable E : Env.

Lemma run_no_exit :
  forall A (p : Prog A) (s : Process E) c s',
    no_exit p -> run p s <> (Exited c, s').
Proof.
  induction p as [a|e|c0| |X o k IH|R ts k IH]; intros s c s' Hp; simpl in *;
    try discriminate; try contradiction.
  - destruct (perform o (machine (background s))) as [x m']. apply IH. apply Hp.
  - destruct (run_all ts s) as [r s1]. apply IH. apply Hp.
Qed.

Lemma run_must :
  forall e A (p : Prog A) (s : Process E),
    Must e p ->
    fst (run p s) = Waiting
    \/ exists ev,
         trace (machine (snd (run p s))) = trace (machine s) ++ ev /\ In e ev.
Proof.
  intros e A. induction p as [a|e0|c| |X o k IH|R ts k IH]; intros s Hp;
    simpl in Hp; try contradiction.
  - left. reflexivity.
  - simpl. destruct (await_grows o s) as [ev1 H1].
    destruct (perform o (machine (background s))) as [x m'] eqn:Hperf.
    simpl in H1.
    set (s1 := mkProcess m' (schedule (background s)) (detached (background s))).
    destruct Hp as [Hin|Hk].
    + right. destruct (run_grows (k x) s1) as [ev2 H2].
      exists ((ev1 ++ event_of o) ++ ev2). split.
      * rewrite H2. subst s1. simpl. rewrite H1, !app_assoc. reflexivity.
      * apply in_or_app. left. apply in_or_app. right. exact Hin.
    + destruct (IH x s1 (Hk x)) as [Hw|(ev2 & H2 & Hin)]; [left; exact Hw|].
      right. exists ((ev1 ++ event_of o) ++ ev2). split.
      * rewrite H2. subst s1. simpl. rewrite H1, !app_assoc. reflexivity.
      * apply in_or_app. right. exact Hin.
  - simpl. destruct (run_all_grows ts s) as [ev1 H1].
    destruct (run_all ts s) as [r s1]. simpl in H1.
    destruct (IH r s1 (Hp r)) as [Hw|(ev2 & H2 & Hin)]; [left; exact Hw|].
    right. exists (ev1 ++ ev2). split.
    + rewrite H2, H1, app_assoc. reflexivity.
    + apply in_or_app. right. exact Hin.
Qed.

End Run_grows.

Section Must_facts.

Variable e : Event.

Lemma Must_pbind :
  forall A B (p : Prog A) (f : A -> Prog B), Must e p -> Must e (pbind p f).
Proof.
  induction p as [a|e0|c| |X o k IH|R ts k IH]; intros f H; simpl in *;
    try contradiction; auto.
  destruct H as [H|H]; auto.
Qed.

Lemma Must_after :
  forall A B (p : Prog A) (h : Err -> Prog A) (f : A -> Prog B),
    no_exit p ->
    (forall error, Must e (h error)) -> (forall a, Must e (f a)) ->
    Must e (pbind (ptry_catch p h) f).
Proof.
  induction p as [a|e0|c| |X o k IH|R ts k IH]; intros h f Hp Hh Hf;
    simpl in *; try contradiction; auto.
  apply Must_pbind. apply Hh.
Qed.

End Must_facts.

Section No_exit_facts.

Lemma no_exit_lift : forall A (t : Task A), no_exit (lift t).
Proof. induction t as [a|e|X o k IH]; simpl; auto. Qed.

Lemma no_exit_pbind :
  forall A B (p : Prog A) (f : A -> Prog B),
    no_exit p -> (forall a, no_exit (f a)) -> no_exit (pbind p f).
Proof.
  induction p as [a|e|c| |X o k IH|R ts k IH]; intros f Hp Hf; simpl in *;
    auto.
Qed.

Lemma no_exit_promise_all :
  forall R (ts : list (Task R)), no_exit (promise_all ts).
Proof. intros R ts [e|results]; exact I. Qed.

Lemma no_exit_getSchemaAgreementPromise :
  forall n ms, no_exit (getSchemaAgreementPromise n ms).
Proof.
  induction n as [|n IH]; intros ms; [exact I|].
  rewrite getSchemaAgreementPromise_S.
  apply no_exit_pbind; [apply no_exit_lift|].
  intros [|]; [exact I|].
  apply no_exit_pbind; [apply no_exit_lift|]. intros _. apply IH.
Qed.

Variable config : Config.
Variable patience : nat.

Lemma no_exit_applyMigrations_loop :
  forall n migrations,
    no_exit (Migrator.applyMigrations_loop config patience n migrations).
Proof.
  induction n as [|n IH]; intros migrations; [exact I|].
  rewrite applyMigrations_loop_S.
  destruct (Nat.ltb 0 (length (map fst migrations))); [|exact I].
  destruct (Migrator.shift_heads migrations migrations) as [heads left].
  apply no_exit_pbind; [apply no_exit_promise_all|].
  intros failed. destruct (existsb (fun b : bool => b) failed); [exact I|].
  apply no_exit_pbind; [apply no_exit_lift|]. intros _.
  apply no_exit_pbind; [apply no_exit_getSchemaAgreementPromise|]. intros _.
  apply no_exit_pbind; [apply no_exit_lift|]. intros _. apply IH.
Qed.

Lemma no_exit_applyBootstraps :
  forall bootstraps, no_exit (Migrator.applyBootstraps config patience bootstraps).
Proof.
  intros bootstraps. unfold Migrator.applyBootstraps.
  apply no_exit_pbind; [apply no_exit_lift|]. intros _.
  apply no_exit_pbind; [apply no_exit_promise_all|]. intros _.
  apply no_exit_pbind; [apply no_exit_lift|]. intros _.
  apply no_exit_pbind; [apply no_exit_getSchemaAgreementPromise|]. intros _.
  apply no_exit_lift.
Qed.

Variable client : jsstring.

Lemma releaseLockAndExit_must :
  forall code,
    Must (attempting_to_release client) (Migrator.releaseLockAndExit client code)
    /\ Must (release_statement client) (Migrator.releaseLockAndExit client code).
Proof.
  intros code. unfold Migrator.releaseLockAndExit.
  split; apply Must_pbind; simpl.
  - left. left. reflexivity.
  - right. intros _. left. left. reflexivity.
Qed.

End No_exit_facts.

(** X15: once [init] has gone through and the lock is held, [start] does
    not end without trying to release the lock: whatever happens while
    files are loaded and bootstraps and migrations are applied, and
    whatever tasks of a rejected [Promise.all] are still in flight, the
    line of the attempt and the conditional delete of the lock row follow,
    unless the run waits for ever for schema agreement. *)
Theorem start_tries_to_release_the_lock :
  forall (E : Env) (config : Config) (client : jsstring) (patience : nat)
         (s : Process E) m1 m2 out s',
    detached s = [] ->
    exec (Migrator.init config) (machine s) = (inr tt, m1) ->
    exec (lock.acquire client) m1 = (inr true, m2) ->
    run (Migrator.start config client patience) s = (out, s') ->
    out = Waiting
    \/ exists ev,
         trace (machine s') = trace m2 ++ ev
         /\ In (attempting_to_release client) ev
         /\ In (release_statement client) ev.
Proof.
  intros E config client patience [m sch ds] m1 m2 out s' Hds Hinit Hlock Hrun.
  cbn [detached machine schedule] in *. subst ds.
  unfold Migrator.start in Hrun.
  rewrite run_pbind, run_ptry_catch, run_pbind, run_lift, Hinit in Hrun.
  rewrite run_pbind, run_lift, Hlock in Hrun.
  cbn [negb run] in Hrun.
  match type of Hrun with
  | run ?p ?s2 = _ =>
      assert (Hmust : forall e,
                 (forall code, Must e (Migrator.releaseLockAndExit client code)) ->
                 Must e p)
  end.
  { intros e He. apply Must_after.
    - apply no_exit_pbind; [apply no_exit_lift|]. intros _.
      apply no_exit_pbind; [apply no_exit_lift|]. intros loaded.
      apply no_exit_pbind; [apply no_exit_applyBootstraps|]. intros _.
      unfold Migrator.applyMigrations.
      apply no_exit_pbind; [apply no_exit_lift|]. intros _.
      apply no_exit_applyMigrations_loop.
    - intros error.
      change (In e [during_migration_error error]
              \/ forall x : unit, Must e (Migrator.releaseLockAndExit client (Some 1%Z))).
      right. intros _. apply He.
    - intros _. apply He. }
  pose proof (Hmust (attempting_to_release client)
                (fun code => proj1 (releaseLockAndExit_must client code))) as H1.
  pose proof (Hmust (release_statement client)
                (fun code => proj2 (releaseLockAndExit_must client code))) as H2.
  eapply run_must in H1. eapply run_must in H2.
  rewrite Hrun in H1, H2. cbn [fst snd machine] in H1, H2.
  destruct H1 as [H1|(ev1 & Hev1 & Hin1)]; [left; exact H1|].
  destruct H2 as [H2|(ev2 & Hev2 & Hin2)]; [left; exact H2|].
  right. exists ev1. split; [exact Hev1|]. split; [exact Hin1|].
  rewrite Hev1 in Hev2. apply app_inv_head in Hev2. subst ev2. exact Hin2.
Qed.

Lemma start_tries_to_release_the_lock_witness :
  let s := Scripted.boot interrupted_world [] in
  let m1 := snd (exec (Migrator.init default_config) (machine s)) in
  let m2 := snd (exec (lock.acquire sample_client) m1) in
  let r := run (Migrator.start default_config sample_client 1) s in
  detached s = []
  /\ exec (Migrator.init default_config) (machine s) = (inr tt, m1)
  /\ exec (lock.acquire sample_client) m1 = (inr true, m2)
  /\ run (Migrator.start default_config sample_client 1) s = (fst r, snd r)
  /\ fst r = Exited (Some 1%Z)
  /\ (fst r = Waiting
      \/ exists ev,
           trace (machine (snd r)) = trace m2 ++ ev
           /\ In (attempting_to_release sample_client) ev
           /\ In (release_statement sample_client) ev).
Proof.
  intros s m1 m2 r.
  assert (H0 : detached s = []) by reflexivity.
  assert (H1 : exec (Migrator.init default_config) (machine s) = (inr tt, m1))
    by (vm_compute; reflexivity).
  assert (H2 : exec (lock.acquire sample_client) m1 = (inr true, m2))
    by (vm_compute; reflexivity).
  assert (H3 : run (Migrator.start default_config sample_client 1) s
               = (fst r, snd r)) by (apply surjective_pairing).
  split; [exact H0|]. split; [exact H1|]. split; [exact H2|]. split; [exact H3|].
  split; [vm_compute; reflexivity|].
  exact (@start_tries_to_release_the_lock Scripted.env default_config
           sample_client 1 s m1 m2 (fst r) (snd r) H0 H1 H2 H3).
Defined.


(** ** What [Migration.init] reads *)

(** X16: [Migration.init] writes nothing. It reads the file and puts its
    text in canonical form; when the file cannot be read the error is
    thrown as it is and no statement is sent. It then sends one statement,
    the select of the row of its keyspace, service and file at consistency
    ALL, and takes [appliedOn], [checksum] and [success] from the first
    row returned; with no row the migration stays as the constructor made
    it. *)
Theorem Migration_init_only_reads :
  forall (E : Env) (this : Migration) (m : Machine E),
    match readFile E (path_of this) (world m) with
    | (inl e, w) =>
        exec (Migration_init this) m = (inl e, mkMachine E w (trace m))
    | (inr content, w) =>
        exists body,
          canonicalizeCql content = inr body
          /\ let loaded :=
               mkMigration (set_fileBody body (migration_file this))
                 (service this) (checksum this) in
             let answer :=
               client_execute E (js "cqlmigrate") migration_select
                 [ VString (keyspace (migration_file this));
                   VString (service this);
                   VString (file (migration_file this)) ]
                 (mkOptions (Some all) None (Some true)) w in
             exec (Migration_init this) m
             = (match fst answer with
                | inl e => inl e
                | inr results => inr (hydrated loaded (first results))
                end,
                mkMachine E (snd answer)
                  (trace m
                     ++ select_event this
                     :: query_error_line migration_select (fst answer)))
    end.
Proof.
  intros E this m. unfold Migration_init, CqlFile_init, loadAndCanonicalizeFile.
  cbn [super Migration_class].
  rewrite exec_bind, exec_bind, exec_ReadFile.
  change (filePath (migration_file this)) with (path_of this).
  destruct (readFile E (path_of this) (world m)) as [[e|content] w];
    cbn [fst snd]; [reflexivity|].
  destruct (scan_succeeds content 0) as [toks Htoks].
  assert (Hcanon : canonicalizeCql content
                   = inr (join space
                            (map Lexer.value
                               (filter (fun t => negb (Lexer.includes
                                                         Lexer.optionalTokenTypes
                                                         (Lexer.type t))) toks)))).
  { unfold canonicalizeCql, Lexer.getRequiredTokens, Lexer.getTokens.
    rewrite Htoks. reflexivity. }
  rewrite Hcanon. eexists. split; [reflexivity|].
  cbv zeta. cbn [exec with_super].
  unfold fillFromDatastoreIfExists.
  rewrite exec_bind, exec_execute.
  cbn [world trace with_super Migration_class migration_file set_fileBody
       keyspace file service checksum].
  change (CassandraClient.prepared (mkOptions (Some all) None None))
    with (mkOptions (Some all) None (Some true)).
  change (js "SELECT * FROM " ++ js "migrations"
            ++ js " WHERE keyspace_name = ? AND service = ? AND file = ?")
    with migration_select.
  destruct (client_execute E (js "cqlmigrate") migration_select
              [ VString (keyspace (migration_file this)); VString (service this);
                VString (file (migration_file this)) ]
              (mkOptions (Some all) None (Some true)) w) as [[e|rs] w'];
    cbn [fst snd query_error_line]; [reflexivity|].
  destruct (first rs) as [row|]; reflexivity.
Qed.


(** ** [checkSchemaAgreement] on the rows it reads *)

Section Schema_versions.

Variable hosts : jsstring -> option bool.

Lemma Set_add_same : forall v, Set_add v [v] = [v].
Proof. intros v. unfold Set_add. simpl. rewrite jsstring_eqb_refl. reflexivity. Qed.

Lemma peers_loop_agree :
  forall v peers lines,
    forallb (fun p => match peer_schema_version p with
                      | Some _ => true
                      | None => false
                      end) peers = true ->
    forallb (fun p => match peer_schema_version p with
                      | Some v' => jsstring_eqb v' v
                      | None => false
                      end) peers = true ->
    exists lines', snd (peers_loop hosts peers [v] lines) = inr [v]
                   /\ peers_loop hosts peers [v] lines = (lines', inr [v]).
Proof.
  intros v. induction peers as [|p peers IH]; intros lines Hsome Hall.
  - simpl. eauto.
  - simpl in Hsome, Hall. simpl.
    destruct (peer_schema_version p) as [v'|]; [|discriminate].
    apply andb_true_iff in Hall. destruct Hall as [Hv Hall].
    apply jsstring_eqb_eq in Hv. subst v'. rewrite Set_add_same.
    apply IH; [exact Hsome|exact Hall].
Qed.

Lemma peers_loop_returns :
  forall peers versions lines,
    forallb (fun p => match peer_schema_version p with
                      | Some _ => true
                      | None => false
                      end) peers = true ->
    exists lines' versions',
      peers_loop hosts peers versions lines = (lines', inr versions').
Proof.
  induction peers as [|p peers IH]; intros versions lines Hs; [simpl; eauto|].
  simpl in Hs. simpl.
  destruct (peer_schema_version p); [|discriminate]. apply IH. exact Hs.
Qed.

Lemma peers_loop_grows :
  forall peers versions lines lines' versions',
    peers_loop hosts peers versions lines = (lines', inr versions') ->
    length versions <= length versions'
    /\ forall v, In v versions -> In v versions'.
Proof.
  induction peers as [|p peers IH]; intros versions lines lines' versions' H.
  - simpl in H. injection H as _ <-. auto.
  - simpl in H. destruct (peer_schema_version p) as [v'|]; [|discriminate].
    apply IH in H. destruct H as [Hlen Hin].
    unfold Set_add in *.
    destruct (existsb (jsstring_eqb v') versions); [auto|].
    rewrite length_app in Hlen. simpl in Hlen. split; [lia|].
    intros v Hv. apply Hin. apply in_or_app. auto.
Qed.

Lemma peers_loop_other :
  forall v peers lines lines' versions',
    forallb (fun p => match peer_schema_version p with
                      | Some v' => jsstring_eqb v' v
                      | None => false
                      end) peers = false ->
    peers_loop hosts peers [v] lines = (lines', inr versions') ->
    2 <= length versions'.
Proof.
  intros v. induction peers as [|p peers IH]; intros lines lines' versions' Hall H.
  - discriminate.
  - simpl in Hall, H.
    destruct (peer_schema_version p) as [v'|]; [|discriminate].
    destruct (jsstring_eqb v' v) eqn:Hv.
    + apply jsstring_eqb_eq in Hv. subst v'. rewrite Set_add_same in H.
      simpl in Hall. eapply IH; eassumption.
    + apply peers_loop_grows in H. destruct H as [Hlen _].
      unfold Set_add in Hlen. simpl in Hlen. rewrite Hv in Hlen.
      simpl in Hlen. exact Hlen.
Qed.

Lemma peers_loop_null :
  forall peers versions lines,
    forallb (fun p => match peer_schema_version p with
                      | Some _ => true
                      | None => false
                      end) peers = false ->
    snd (peers_loop hosts peers versions lines) = inl version_of_null.
Proof.
  induction peers as [|p peers IH]; intros versions lines H; [discriminate|].
  simpl in H. simpl.
  destruct (peer_schema_version p) as [v'|]; [|reflexivity].
  apply IH. exact H.
Qed.

End Schema_versions.

(** X17: on the rows its two selects return, [checkSchemaAgreement]
    answers false when [system.local] has no row or no schema version,
    without looking at the peers; it throws when a peer row has no schema
    version; otherwise it answers true exactly when every peer row carries
    the schema version of the local row. Whether a peer is up changes the
    lines logged, never the answer. *)
Theorem checkSchemaAgreement_compares_versions :
  forall hosts (localRows : list LocalRow) (peerRows : list PeerRow),
    snd (checkSchemaAgreement_on hosts (inr localRows) (inr peerRows))
    = match hd_error localRows with
      | None => inr false
      | Some localRow =>
          match local_schema_version localRow with
          | None => inr false
          | Some v =>
              if forallb (fun p => match peer_schema_version p with
                                   | Some _ => true
                                   | None => false
                                   end) peerRows
              then inr (forallb (fun p => match peer_schema_version p with
                                          | Some v' => jsstring_eqb v' v
                                          | None => false
                                          end) peerRows)
              else inl version_of_null
          end
      end.
Proof.
  intros hosts localRows peerRows. unfold checkSchemaAgreement_on.
  destruct (hd_error localRows) as [localRow|]; [|reflexivity].
  destruct (local_schema_version localRow) as [v|]; [|reflexivity].
  change (Set_add v []) with [v].
  destruct (forallb (fun p => match peer_schema_version p with
                              | Some _ => true
                              | None => false
                              end) peerRows) eqn:Hsome.
  - destruct (forallb (fun p => match peer_schema_version p with
                                | Some v' => jsstring_eqb v' v
                                | None => false
                                end) peerRows) eqn:Hall.
    + destruct (peers_loop_agree hosts v peerRows [] Hsome Hall)
        as (lines' & _ & Hloop).
      rewrite Hloop. reflexivity.
    + destruct (peers_loop hosts peerRows [v] []) as [lines' [e|versions']] eqn:Hloop.
      * destruct (peers_loop_returns hosts peerRows [v] [] Hsome)
          as (l & vs & Heq).
        congruence.
      * apply (peers_loop_other hosts v peerRows [] Hall) in Hloop.
        cbn [snd]. f_equal. apply Nat.leb_gt. lia.
  - pose proof (peers_loop_null hosts peerRows [v] [] Hsome) as Hnull.
    destruct (peers_loop hosts peerRows [v] []) as [lines' [e|versions']];
      simpl in Hnull; [|discriminate].
    injection Hnull as ->. reflexivity.
Qed.


(** ** Bootstraps *)

Section Promise_all_results.

Variable E : Env.

Lemma drain_back :
  forall R (ts : list (Task R)) (m : Machine E) ts' m',
    drain ts m = (ts', m') ->
    first_thrown ts' = None ->
    exists runs,
      Forall2 (@Run R) ts runs
      /\ ts' = map (fun run => Ret (snd run)) runs
      /\ trace m' = trace m ++ concat (map fst runs).
Proof.
  induction ts as [|t ts IH]; intros m ts' m' H Hnone; simpl in H.
  - injection H as <- <-. exists []. simpl. rewrite app_nil_r. auto.
  - destruct (exec t m) as [[e|a] m1] eqn:Hexec.
    + injection H as <- <-. discriminate.
    + destruct (exec_TaskRun _ _ Hexec) as (tr & Htr & Hrun).
      destruct (drain ts m1) as [ts1 m2] eqn:Hdrain.
      injection H as <- <-. simpl in Hnone.
      destruct (IH _ _ _ Hdrain Hnone) as (runs & Hruns & Hts1 & Htr2).
      exists ((tr, a) :: runs). simpl. split; [|split].
      * constructor; auto.
      * rewrite Hts1. reflexivity.
      * rewrite Htr2, Htr, app_assoc. reflexivity.
Qed.

(** When [Promise.all] resolves, every task has run to its end. *)
Lemma run_all_resolved :
  forall R (ts : list (Task R)) (s s' : Process E) results,
    run_all ts s = (inr results, s') ->
    exists runs seg,
      Forall2 (@Run R) ts runs
      /\ Merge (map fst runs) seg
      /\ results = map snd runs
      /\ trace (machine s') = trace (machine s) ++ seg
      /\ detached s' = detached s.
Proof.
  intros R ts s s' results H. unfold run_all in H.
  destruct (start_all ts (machine s)) as [ts0 m0] eqn:Hstart.
  destruct (interleave (schedule s) ts0 m0) as [[sch1 ts1] m1] eqn:Hint.
  destruct (@run_all_Steps E R ts s ts0 m0 sch1 ts1 m1 Hstart Hint)
    as (seg1 & Hseg1 & Hsteps).
  destruct (first_thrown ts1); [discriminate|].
  destruct (drain ts1 m1) as [ts2 m2] eqn:Hdrain.
  destruct (first_thrown ts2) eqn:Hnone; [discriminate|].
  injection H as <- <-.
  destruct (drain_back _ _ Hdrain Hnone) as (runs' & Hruns' & Hts2 & Htr2).
  destruct (@Steps_back R ts ts1 seg1 Hsteps runs' (concat (map fst runs'))
              Hruns' (Merge_concat _))
    as (runs & Hruns & Hmerge & Hres).
  exists runs, (seg1 ++ concat (map fst runs')).
  split; [exact Hruns|]. split; [exact Hmerge|].
  destruct (first_thrown_returned runs') as [_ Hresults].
  split; [rewrite Hts2, Hresults, Hres; reflexivity|].
  split; [|reflexivity].
  cbn [machine]. rewrite Htr2, Hseg1, app_assoc. reflexivity.
Qed.

End Promise_all_results.

Section Bootstrap_runs.

Local Open Scope task_scope.

Variable config : Config.

Lemma TaskRun_execute :
  forall ks q ps opts tr rs,
    TaskRun (CassandraClient.execute ks q ps opts) tr (inr rs) ->
    tr = [EvExecute ks q ps (CassandraClient.prepared opts)].
Proof.
  intros ks q ps opts tr rs H. unfold CassandraClient.execute in H.
  simpl in H. destruct H as ([e|rs'] & tr' & -> & H); simpl in H.
  - destruct H as (_ & tr'' & _ & _ & H). discriminate.
  - destruct H as [-> _]. reflexivity.
Qed.

Lemma TaskRun_NewDate :
  forall R (f : Time -> Task R) tr r,
    TaskRun (bind (trigger NewDate) f) tr r -> exists now, TaskRun (f now) tr r.
Proof.
  intros R f tr r H. simpl in H. destruct H as (now & tr' & -> & H).
  exists now. exact H.
Qed.

Lemma TaskRun_commands :
  forall segs tr,
    TaskRun (forEach segs (command_body config)) tr (inr tt) ->
    tr = map (command_event config) (filter (fun c => negb (blank c)) segs).
Proof.
  induction segs as [|seg segs IH]; intros tr H.
  - simpl in H. destruct H as [-> _]. reflexivity.
  - change (forEach (seg :: segs) (command_body config))
      with (command_body config seg ;; forEach segs (command_body config)) in H.
    apply TaskRun_bind in H.
    destruct H as [(e & He & _)|(u & tr1 & tr2 & -> & H1 & H2)]; [discriminate|].
    apply IH in H2. subst tr2.
    unfold command_body in H1. cbn [filter].
    destruct (blank seg); cbn [negb] in *.
    + simpl in H1. destruct H1 as [-> _]. reflexivity.
    + apply TaskRun_bind in H1.
      destruct H1 as [(e & He & _)|(rs & tr3 & tr4 & -> & H3 & H4)];
        [discriminate|].
      apply TaskRun_execute in H3. subst tr3.
      simpl in H4. destruct H4 as [-> _]. reflexivity.
Qed.

Lemma TaskRun_Bootstrap_save :
  forall ks fl t ok fp body tr,
    TaskRun (save (mkBootstrap (mkCqlFile ks fl (Some t) ok fp body))) tr (inr tt) ->
    tr = [bootstrap_write (mkBootstrap (mkCqlFile ks fl (Some t) ok fp body)) t ok].
Proof.
  intros ks fl t ok fp body tr H.
  change (save (mkBootstrap (mkCqlFile ks fl (Some t) ok fp body)))
    with (CassandraClient.execute (js "cqlmigrate") bootstraps_insert
            [VString ks; VDate t; VString fl; VString body; VBoolean ok]
            no_options ;; Ret tt) in H.
  apply TaskRun_bind in H.
  destruct H as [(e & He & _)|(rs & tr1 & tr2 & -> & H1 & H2)]; [discriminate|].
  apply TaskRun_execute in H1. subst tr1.
  simpl in H2. destruct H2 as [-> _]. reflexivity.
Qed.

Lemma Bootstrap_apply_run :
  forall (this this' : Bootstrap) tr,
    TaskRun (CqlFile_apply config this) tr (inr this') ->
    bootstrap_applied config this tr.
Proof.
  intros [[ks fl on ok fp body]] this' tr H. unfold CqlFile_apply in H.
  apply TaskRun_NewDate in H. destruct H as [t1 H].
  cbn [super with_super Bootstrap_class bootstrap_file] in H.
  unfold set_appliedOn, set_success in H.
  cbn [keyspace file success appliedOn filePath fileBody] in H.
  apply TaskRun_bind in H.
  destruct H as [(e & He & _)|(u1 & tr1 & tr2 & -> & H1 & H2)]; [discriminate|].
  destruct u1.
  apply TaskRun_Bootstrap_save in H1. subst tr1.
  apply TaskRun_bind in H2.
  destruct H2 as [(e & He & _)|(u2 & tr3 & tr4 & -> & H3 & H4)]; [discriminate|].
  destruct u2.
  change (fun command : jsstring =>
            if negb (blank command)
            then CassandraClient.execute [] command []
                   (mkOptions (Some all) (Some (migrationClientTimeoutMs config)) None) ;;
                 Ret tt
            else Ret tt)
    with (command_body config) in H3.
  apply TaskRun_commands in H3. subst tr3.
  apply TaskRun_NewDate in H4. destruct H4 as [t2 H4].
  apply TaskRun_bind in H4.
  destruct H4 as [(e & He & _)|(u3 & tr5 & tr6 & -> & H5 & H6)]; [discriminate|].
  destruct u3.
  apply TaskRun_Bootstrap_save in H5. subst tr5.
  simpl in H6. destruct H6 as [-> _].
  exists t1, t2. cbn [bootstrap_file fileBody success]. 
  rewrite app_nil_r. reflexivity.
Qed.

Lemma bootstrap_task_run :
  forall (this : Bootstrap) tr,
    TaskRun (Migrator.bootstrap_task config this) tr (inr tt) ->
    bootstrap_applied config this tr.
Proof.
  intros this tr H. unfold Migrator.bootstrap_task in H.
  apply TaskRun_try_catch in H.
  destruct H as [(a & _ & H)|(e & tr1 & tr2 & -> & _ & H2)].
  - apply TaskRun_bind in H.
    destruct H as [(e & He & _)|(this' & tr1 & tr2 & -> & H1 & H2)];
      [discriminate|].
    simpl in H2. destruct H2 as [-> _]. rewrite app_nil_r.
    apply (proj1 (TaskRun_await _ _ _)) in H1.
    eapply Bootstrap_apply_run. exact H1.
  - simpl in H2. destruct H2 as (_ & tr' & _ & _ & H2). discriminate.
Qed.

End Bootstrap_runs.

(** X18: [applyBootstraps] makes no difference between bootstraps applied
    before and others: when it returns, every bootstrap has been applied
    in full, its row written first, its commands sent in order, its row
    written again with [success = true], the applies side by side; after
    them comes the wait for schema agreement, and the line that the
    schemas agree is the last. *)
Theorem applyBootstraps_applies_every_bootstrap :
  forall (E : Env) (config : Config) (patience : nat)
         (bootstraps : list Bootstrap) (s s' : Process E),
    detached s = [] ->
    run (Migrator.applyBootstraps config patience bootstraps) s = (Returned tt, s') ->
    exists runs seg probes,
      Forall2 (bootstrap_applied config) bootstraps runs
      /\ Merge runs seg
      /\ Forall (fun e => e = EvProbe) probes
      /\ trace (machine s')
         = trace (machine s)
             ++ [applying_bootstraps_line] ++ seg
             ++ [bootstraps_applied_line] ++ probes ++ [agreement_line].
Proof.
  intros E config patience bootstraps [m sch ds] s' Hds Hrun.
  cbn [detached] in Hds. subst ds.
  unfold Migrator.applyBootstraps in Hrun.
  rewrite run_pbind, run_lift, exec_info in Hrun.
  rewrite run_pbind in Hrun. unfold promise_all in Hrun. cbn [run] in Hrun.
  match type of Hrun with
  | context [run_all ?ts ?s0] =>
      destruct (run_all ts s0) as [[e|results] s1] eqn:Hall
  end; [cbn [run] in Hrun; discriminate|].
  cbn [run] in Hrun.
  apply run_all_resolved in Hall.
  destruct Hall as (runs & seg & Hruns & Hmerge & _ & Htr1 & Hds1).
  destruct s1 as [m1 sch1 ds1]. cbn [machine detached trace] in Htr1, Hds1.
  subst ds1.
  rewrite run_pbind, run_lift, exec_info in Hrun.
  rewrite run_pbind in Hrun.
  match type of Hrun with
  | context [run (getSchemaAgreementPromise _ _) (mkProcess ?m0 _ _)] =>
      destruct (run_getSchemaAgreementPromise patience 1000 m0 sch1)
        as (out & w & probes & Hwait & Hprobes & Hout)
  end.
  rewrite Hwait in Hrun.
  destruct Hout as [[-> _]|[->|[e ->]]]; try discriminate.
  rewrite run_lift, exec_info in Hrun. injection Hrun as <-.
  exists (map fst runs), seg, probes.
  split.
  { clear - Hruns. revert runs Hruns.
    induction bootstraps as [|b bootstraps IH]; intros runs Hruns;
      inversion Hruns as [|t run ts runs' Hrun Hrest]; subst; simpl;
      constructor.
    - destruct run as [tr []]. apply bootstrap_task_run. exact Hrun.
    - apply IH. exact Hrest. }
  split; [exact Hmerge|]. split; [exact Hprobes|].
  cbn [machine trace]. rewrite Htr1. rewrite <- !app_assoc. reflexivity.
Qed.

Lemma applyBootstraps_applies_every_bootstrap_witness :
  let loaded := exec (Migrator.loadFiles default_config) layout_machine in
  let bootstraps := match fst loaded with inr l => fst l | inl _ => [] end in
  let s := mkProcess (snd loaded) [] [] in
  let r := run (Migrator.applyBootstraps default_config 1 bootstraps) s in
  detached s = []
  /\ length bootstraps = 1
  /\ run (Migrator.applyBootstraps default_config 1 bootstraps) s
     = (Returned tt, snd r)
  /\ exists runs seg probes,
       Forall2 (bootstrap_applied default_config) bootstraps runs
       /\ Merge runs seg
       /\ Forall (fun e => e = EvProbe) probes
       /\ trace (machine (snd r))
          = trace (machine s)
              ++ [applying_bootstraps_line] ++ seg
              ++ [bootstraps_applied_line] ++ probes ++ [agreement_line].
Proof.
  intros loaded bootstraps s r.
  assert (H0 : detached s = []) by reflexivity.
  assert (H1 : run (Migrator.applyBootstraps default_config 1 bootstraps) s
               = (Returned tt, snd r)) by (vm_compute; reflexivity).
  split; [exact H0|]. split; [vm_compute; reflexivity|]. split; [exact H1|].
  exact (@applyBootstraps_applies_every_bootstrap Scripted.env default_config 1
           bootstraps s (snd r) H0 H1).
Defined.


(** ** The canonical form is a fixed point *)

Section Regex_complete.

Lemma rmatch_star :
  forall r s k, rmatch (Star r) s k = star_loop (rmatch r) k (length s) s.
Proof. reflexivity. Qed.

Lemma star_loop_S :
  forall step k n s,
    star_loop step k (S n) s
    = match step s (fun s1 =>
              if Nat.ltb (length s1) (length s) then star_loop step k n s1
              else None) with
      | Some x => Some x
      | None => k s
      end.
Proof. reflexivity. Qed.

Lemma rmatch_simple :
  forall r a b k,
    simple r = true -> Lang r a -> rmatch r (a ++ b) k = k b.
Proof.
  induction r as [p|r1 IH1 r2 IH2|r1 IH1 r2 IH2|r1 IH1|r1 IH1];
    intros a b k Hs Hl; try discriminate.
  - apply Lang_cls_inv in Hl. destruct Hl as (c & -> & Hc).
    simpl. rewrite Hc. reflexivity.
  - simpl in Hs. apply andb_true_iff in Hs. destruct Hs as [Hs1 Hs2].
    apply Lang_seq_inv in Hl. destruct Hl as (a1 & a2 & -> & Hl1 & Hl2).
    simpl. rewrite <- app_assoc. rewrite IH1 by assumption.
    apply IH2; assumption.
Qed.

Lemma exec_re_text :
  forall r a b,
    rmatch r (a ++ b) (fun rest => Some rest) = Some b ->
    exec_re r (a ++ b) = Some a.
Proof.
  intros r a b H. unfold exec_re. rewrite H.
  rewrite length_app. replace (length a + length b - length b) with (length a) by lia.
  rewrite firstn_app, firstn_all, Nat.sub_diag. simpl. rewrite app_nil_r.
  reflexivity.
Qed.

Lemma exec_re_simple :
  forall r a b, simple r = true -> Lang r a -> exec_re r (a ++ b) = Some a.
Proof.
  intros r a b Hs Hl. apply exec_re_text. rewrite rmatch_simple by assumption.
  reflexivity.
Qed.

(** A greedy star of a class takes the longest run of the class. *)
Lemma star_cls_run :
  forall p a b,
    forallb p a = true ->
    match b with [] => True | c :: _ => p c = false end ->
    rmatch (Star (Cls p)) (a ++ b) (fun rest => Some rest) = Some b.
Proof.
  intros p a b Ha Hb. rewrite rmatch_star.
  assert (H : forall n a, length (a ++ b) <= n -> forallb p a = true ->
            star_loop (rmatch (Cls p)) (fun rest => Some rest) n (a ++ b) = Some b).
  { clear a Ha. induction n as [|n IH]; intros a Hlen Ha.
    - destruct a; simpl in Hlen; [|lia]. reflexivity.
    - rewrite star_loop_S. destruct a as [|c a].
      + simpl app. destruct b as [|c b]; [reflexivity|].
        cbn [rmatch]. rewrite Hb. reflexivity.
      + simpl in Ha. apply andb_true_iff in Ha. destruct Ha as [Hc Ha].
        simpl app. cbn [rmatch]. rewrite Hc.
        replace (Nat.ltb (length (a ++ b)) (length (c :: a ++ b))) with true
          by (symmetry; apply Nat.ltb_lt; simpl; lia).
        rewrite IH; [reflexivity| |exact Ha]. simpl in Hlen. lia. }
  apply H; [lia|exact Ha].
Qed.

Lemma exec_re_plus_run :
  forall p c a b,
    p c = true -> forallb p a = true ->
    match b with [] => True | d :: _ => p d = false end ->
    exec_re (Plus (Cls p)) ((c :: a) ++ b) = Some (c :: a).
Proof.
  intros p c a b Hc Ha Hb. apply exec_re_text.
  unfold Plus.
  change (rmatch (Seq (Cls p) (Star (Cls p))) ((c :: a) ++ b) (fun rest => Some rest))
    with (if p c then rmatch (Star (Cls p)) (a ++ b) (fun rest => Some rest)
          else None).
  rewrite Hc. apply star_cls_run; assumption.
Qed.

Lemma exec_re_cls_fails :
  forall p c s, p c = false -> exec_re (Cls p) (c :: s) = None.
Proof. intros p c s H. unfold exec_re. simpl. rewrite H. reflexivity. Qed.

Lemma exec_re_plus_fails :
  forall p c s, p c = false -> exec_re (Plus (Cls p)) (c :: s) = None.
Proof.
  intros p c s H. unfold exec_re, Plus.
  change (rmatch (Seq (Cls p) (Star (Cls p))) (c :: s) (fun rest => Some rest))
    with (if p c then rmatch (Star (Cls p)) s (fun rest => Some rest) else None).
  rewrite H. reflexivity.
Qed.

Lemma rmatch_cls :
  forall p s k,
    rmatch (Cls p) s k
    = match s with
      | c :: s' => if p c then k s' else None
      | [] => None
      end.
Proof. reflexivity. Qed.

Lemma rmatch_seq :
  forall r1 r2 s k,
    rmatch (Seq r1 r2) s k = rmatch r1 s (fun s1 => rmatch r2 s1 k).
Proof. reflexivity. Qed.

Lemma rmatch_alt :
  forall r1 r2 s k,
    rmatch (Alt r1 r2) s k
    = match rmatch r1 s k with
      | Some x => Some x
      | None => rmatch r2 s k
      end.
Proof. reflexivity. Qed.

Lemma exec_re_alt :
  forall r1 r2 s,
    exec_re (Alt r1 r2) s
    = match exec_re r1 s with
      | Some text => Some text
      | None => exec_re r2 s
      end.
Proof.
  intros r1 r2 s. unfold exec_re. cbn [rmatch].
  destruct (rmatch r1 s (fun rest => Some rest)); reflexivity.
Qed.

End Regex_complete.

Section Strings.

Variable q : N.

Lemma after_string_loop :
  forall n s,
    length s <= n ->
    star_loop (rmatch (Alt (Cls (is_not q)) (Seq (Chr q) (Chr q))))
      (fun s1 => rmatch (Chr q) s1 (fun rest => Some rest)) n s
    = after_string q s.
Proof.
  unfold Chr.
  induction n as [|n IH]; intros s Hlen.
  - destruct s; simpl in Hlen; [reflexivity|lia].
  - rewrite star_loop_S. destruct s as [|c s']; [reflexivity|].
    rewrite rmatch_alt, rmatch_seq, !rmatch_cls. cbn [after_string].
    unfold is_not, is_chr.
    destruct (N.eqb c q) eqn:Hc; cbn [negb].
    + destruct s' as [|d s'']; [reflexivity|].
      cbv beta iota.
      destruct (N.eqb d q) eqn:Hd; [|reflexivity].
      replace (Nat.ltb (length s'') (length (c :: d :: s''))) with true
        by (symmetry; apply Nat.ltb_lt; simpl; lia).
      rewrite IH by (simpl in Hlen; lia).
      destruct (after_string q s''); reflexivity.
    + replace (Nat.ltb (length s') (length (c :: s'))) with true
        by (symmetry; apply Nat.ltb_lt; simpl; lia).
      rewrite IH by (simpl in Hlen; lia).
      destruct (after_string q s'); reflexivity.
Qed.

Lemma rmatch_quoted :
  forall c x,
    rmatch (quoted_re q) (c :: x) (fun rest => Some rest)
    = if N.eqb c q then after_string q x else None.
Proof.
  intros c x. unfold quoted_re.
  rewrite rmatch_seq. unfold Chr at 1. rewrite rmatch_cls. unfold is_chr.
  destruct (N.eqb c q); [|reflexivity].
  rewrite rmatch_seq, rmatch_star.
  apply after_string_loop. apply Nat.le_refl.
Qed.

Lemma after_string_suffix :
  forall s r, after_string q s = Some r -> exists a, s = a ++ r /\ a <> [].
Proof.
  intros s. remember (length s) as n eqn:Hn. revert s Hn.
  induction n as [n IH] using lt_wf_ind. intros s Hn r H.
  destruct s as [|c s']; [discriminate|]. simpl in H.
  destruct (N.eqb c q).
  - destruct s' as [|d s''].
    + injection H as <-. exists [c]. split; [reflexivity|discriminate].
    + destruct (N.eqb d q).
      * destruct (after_string q s'') as [rest|] eqn:Hs.
        -- injection H as <-.
           destruct (IH (length s'') ltac:(subst n; simpl; lia) s'' eq_refl _ Hs)
             as (a & -> & _).
           exists (c :: d :: a). split; [reflexivity|discriminate].
        -- injection H as <-. exists [c]. split; [reflexivity|discriminate].
      * injection H as <-. exists [c]. split; [reflexivity|discriminate].
  - destruct (IH (length s') ltac:(subst n; simpl; lia) s' eq_refl _ H)
      as (a & -> & _).
    exists (c :: a). split; [reflexivity|discriminate].
Qed.

Lemma app_same_tail :
  forall (a b r : jsstring), a ++ r = b ++ r -> a = b.
Proof. intros a b r H. apply app_inv_tail in H. exact H. Qed.

Lemma tail_not_longer :
  forall (a r : jsstring), a ++ r = r -> a = [].
Proof.
  intros a r H. apply (f_equal (@length N)) in H. rewrite length_app in H.
  destruct a; [reflexivity|simpl in H; lia].
Qed.

(** What follows the closing quote does not matter, as long as it does
    not begin with a quote. *)
Lemma after_string_stable :
  forall b rest0 rest',
    match rest' with [] => True | d :: _ => N.eqb d q = false end ->
    after_string q (b ++ rest0) = Some rest0 ->
    after_string q (b ++ rest') = Some rest'.
Proof.
  intros b. remember (length b) as n eqn:Hn. revert b Hn.
  induction n as [n IH] using lt_wf_ind. intros b Hn rest0 rest' Hrest H.
  destruct b as [|c b'].
  - simpl in H. apply after_string_suffix in H. destruct H as (a & Ha & Hne).
    symmetry in Ha. apply tail_not_longer in Ha. congruence.
  - simpl app in *. cbn [after_string] in *.
    destruct (N.eqb c q) eqn:Hc.
    + destruct b' as [|d b''].
      * simpl app in *. destruct rest' as [|d' rest'']; [reflexivity|].
        rewrite Hrest. reflexivity.
      * simpl app in *. cbv beta iota in H |- *.
        destruct (N.eqb d q) eqn:Hd.
        -- destruct (after_string q (b'' ++ rest0)) as [r|] eqn:Hs.
           ++ injection H as ->.
              rewrite (IH (length b'') ltac:(subst n; simpl; lia) b'' eq_refl
                         rest0 rest' Hrest Hs).
              reflexivity.
           ++ injection H as H. exfalso.
              change (d :: b'' ++ rest0) with ((d :: b'') ++ rest0) in H.
              apply tail_not_longer in H. discriminate.
        -- injection H as H. exfalso.
           change (d :: b'' ++ rest0) with ((d :: b'') ++ rest0) in H.
           apply tail_not_longer in H. discriminate.
    + apply (IH (length b') ltac:(subst n; simpl; lia) b' eq_refl rest0 rest' Hrest H).
Qed.

Lemma after_string_found :
  forall s, In q s -> after_string q s <> None.
Proof.
  intros s. remember (length s) as n eqn:Hn. revert s Hn.
  induction n as [n IH] using lt_wf_ind. intros s Hn Hin.
  destruct s as [|c s']; [destruct Hin|]. cbn [after_string].
  destruct (N.eqb c q) eqn:Hc.
  - destruct s' as [|d s'']; [discriminate|].
    destruct (N.eqb d q); [|discriminate].
    destruct (after_string q s''); discriminate.
  - apply (IH (length s') ltac:(subst n; simpl; lia) s' eq_refl).
    destruct Hin as [Heq|Hin]; [|exact Hin].
    subst c. rewrite N.eqb_refl in Hc. discriminate.
Qed.

Lemma exec_quoted_inv :
  forall s v,
    exec_re (quoted_re q) s = Some v ->
    exists b rest,
      v = q :: b /\ s = q :: b ++ rest /\ after_string q (b ++ rest) = Some rest.
Proof.
  intros s v H. destruct s as [|c x]; [discriminate|].
  pose proof (rmatch_quoted c x) as Hm.
  destruct (N.eqb_spec c q) as [->|Hc].
  - destruct (after_string q x) as [rest|] eqn:Hs.
    + destruct (after_string_suffix _ Hs) as (a & -> & _).
      change (q :: a ++ rest) with ((q :: a) ++ rest) in H, Hm.
      rewrite (@exec_re_text _ _ _ Hm) in H. injection H as <-.
      exists a, rest. auto.
    + unfold exec_re in H. rewrite Hm in H. discriminate.
  - unfold exec_re in H. rewrite Hm in H. discriminate.
Qed.

Lemma exec_quoted_intro :
  forall b rest,
    after_string q (b ++ rest) = Some rest ->
    exec_re (quoted_re q) (q :: b ++ rest) = Some (q :: b).
Proof.
  intros b rest H.
  change (q :: b ++ rest) with ((q :: b) ++ rest).
  apply exec_re_text. simpl app. rewrite rmatch_quoted, N.eqb_refl. exact H.
Qed.

Lemma exec_quoted_other :
  forall c x, N.eqb c q = false -> exec_re (quoted_re q) (c :: x) = None.
Proof.
  intros c x H. unfold exec_re. rewrite rmatch_quoted, H. reflexivity.
Qed.

Lemma exec_quoted_none :
  forall x, exec_re (quoted_re q) (q :: x) = None -> ~ In q x.
Proof.
  intros x H Hin. unfold exec_re in H. rewrite rmatch_quoted, N.eqb_refl in H.
  destruct (after_string q x) eqn:Hs; [discriminate|].
  revert Hs. apply after_string_found. exact Hin.
Qed.

Lemma after_string_quote :
  forall s rest, after_string q s = Some rest -> In q s.
Proof.
  induction s as [|c s' IH]; intros rest H; [discriminate|].
  cbn [after_string] in H.
  destruct (N.eqb_spec c q) as [->|Hc]; [left; reflexivity|].
  right. apply (IH rest). exact H.
Qed.

Lemma exec_quoted_absent :
  forall x, ~ In q x -> exec_re (quoted_re q) (q :: x) = None.
Proof.
  intros x Hin. unfold exec_re. rewrite rmatch_quoted, N.eqb_refl.
  destruct (after_string q x) as [rest|] eqn:Hs; [|reflexivity].
  exfalso. apply Hin. apply (@after_string_quote x rest). exact Hs.
Qed.

End Strings.

Section Rules_fail.

Lemma hex_is_word : forall c, is_lhex c = true -> is_word c = true.
Proof.
  intros c H. unfold is_lhex, is_word, in_range in *.
  apply orb_true_iff in H. destruct H as [H|H];
    apply andb_true_iff in H; destruct H as [H1 H2]; rewrite H1.
  - apply N.leb_le in H2.
    replace (N.leb c 122) with true by (symmetry; apply N.leb_le; lia).
    reflexivity.
  - rewrite H2. rewrite !orb_true_r. reflexivity.
Qed.

Lemma exec_string_other :
  forall c x,
    N.eqb c Lexer.quote = false -> N.eqb c Lexer.dquote = false ->
    exec_re Lexer.stringPattern (c :: x) = None.
Proof.
  intros c x H1 H2. unfold Lexer.stringPattern. rewrite exec_re_alt.
  change Lexer.singleQuoteString with (quoted_re Lexer.quote).
  change Lexer.doubleQuoteString with (quoted_re Lexer.dquote).
  rewrite (@exec_quoted_other Lexer.quote c x H1).
  apply (@exec_quoted_other Lexer.dquote c x H2).
Qed.

Lemma exec_quoted_stable :
  forall q v rest0 rest',
    exec_re (quoted_re q) (v ++ rest0) = Some v ->
    match rest' with [] => True | d :: _ => N.eqb d q = false end ->
    exec_re (quoted_re q) (v ++ rest') = Some v.
Proof.
  intros q v rest0 rest' H Hr.
  destruct (@exec_quoted_inv q _ _ H) as (b & rest & -> & Heq & Ha).
  simpl in Heq. injection Heq as Heq. apply app_inv_head in Heq. subst rest.
  simpl app. apply exec_quoted_intro.
  apply (@after_string_stable q b rest0 rest' Hr Ha).
Qed.

Lemma exec_string_stable :
  forall v rest0 rest',
    exec_re Lexer.stringPattern (v ++ rest0) = Some v ->
    match rest' with [] => True | d :: _ => d = 32%N end ->
    exec_re Lexer.stringPattern (v ++ rest') = Some v.
Proof.
  intros v rest0 rest' H Hr. unfold Lexer.stringPattern in *.
  rewrite exec_re_alt in H. rewrite exec_re_alt.
  change Lexer.singleQuoteString with (quoted_re Lexer.quote) in *.
  change Lexer.doubleQuoteString with (quoted_re Lexer.dquote) in *.
  destruct (exec_re (quoted_re Lexer.quote) (v ++ rest0)) as [t|] eqn:H1.
  - injection H as ->.
    rewrite (@exec_quoted_stable Lexer.quote v rest0 rest' H1); [reflexivity|].
    destruct rest' as [|d x]; [exact I|]. subst d. reflexivity.
  - destruct (@exec_quoted_inv Lexer.dquote _ _ H) as (b & rest & Hv & _ & _).
    rewrite (@exec_quoted_stable Lexer.dquote v rest0 rest' H).
    + subst v. simpl app.
      rewrite (@exec_quoted_other Lexer.quote Lexer.dquote (b ++ rest') eq_refl).
      reflexivity.
    + destruct rest' as [|d x]; [exact I|]. subst d. reflexivity.
Qed.

Lemma exec_quoted_fewer :
  forall q c rest0 rest',
    q <> 32%N ->
    exec_re (quoted_re q) (c :: rest0) = None ->
    (forall d, In d rest' -> In d rest0 \/ d = 32%N) ->
    exec_re (quoted_re q) (c :: rest') = None.
Proof.
  intros q c rest0 rest' Hq H Hin.
  destruct (N.eqb_spec c q) as [->|Hc].
  - apply exec_quoted_absent. intros Hd.
    apply (@exec_quoted_none q rest0 H).
    destruct (Hin q Hd) as [Hd'|Hd']; [exact Hd'|contradiction].
  - apply exec_quoted_other. apply N.eqb_neq. exact Hc.
Qed.

Lemma exec_string_fewer :
  forall c rest0 rest',
    exec_re Lexer.stringPattern (c :: rest0) = None ->
    (forall d, In d rest' -> In d rest0 \/ d = 32%N) ->
    exec_re Lexer.stringPattern (c :: rest') = None.
Proof.
  intros c rest0 rest' H Hin. unfold Lexer.stringPattern in *.
  rewrite exec_re_alt in H. rewrite exec_re_alt.
  change Lexer.singleQuoteString with (quoted_re Lexer.quote) in *.
  change Lexer.doubleQuoteString with (quoted_re Lexer.dquote) in *.
  destruct (exec_re (quoted_re Lexer.quote) (c :: rest0)) eqn:H1; [discriminate|].
  rewrite (@exec_quoted_fewer Lexer.quote c rest0 rest' ltac:(discriminate) H1 Hin).
  apply (@exec_quoted_fewer Lexer.dquote c rest0 rest' ltac:(discriminate) H Hin).
Qed.

Lemma Lang_comment_head :
  forall a,
    Lang Lexer.commentPattern a ->
    exists c d a',
      a = c :: d :: a'
      /\ (c = Lexer.slash \/ c = Lexer.dash)
      /\ (d = Lexer.star \/ d = Lexer.slash \/ d = Lexer.dash).
Proof.
  intros a H. unfold Lexer.commentPattern in H.
  apply Lang_alt_inv in H. destruct H as [H|H].
  - unfold Lexer.blockComment in H.
    apply Lang_seq_inv in H. destruct H as (a1 & a2 & -> & H1 & H2).
    apply Lang_chr_inv in H1. subst a1.
    apply Lang_seq_inv in H2. destruct H2 as (a2' & a3 & -> & H2 & _).
    apply Lang_chr_inv in H2. subst a2'.
    exists Lexer.slash, Lexer.star, a3. auto.
  - apply Lang_alt_inv in H.
    destruct H as [H|H];
      [unfold Lexer.slashComment in H|unfold Lexer.dashComment in H];
      apply Lang_seq_inv in H; destruct H as (a1 & a2 & -> & H1 & H2);
      apply Lang_chr_inv in H1; subst a1;
      apply Lang_seq_inv in H2; destruct H2 as (a2' & a3 & -> & H2 & _);
      unfold Plus in H2; apply Lang_seq_inv in H2;
      destruct H2 as (b1 & b2 & -> & Hb1 & _);
      apply Lang_chr_inv in Hb1; subst b1.
    + exists Lexer.slash, Lexer.slash, (b2 ++ a3).
      split; [simpl; rewrite <- ?app_assoc; reflexivity|auto].
    + exists Lexer.dash, Lexer.dash, (b2 ++ a3).
      split; [simpl; rewrite <- ?app_assoc; reflexivity|auto].
Qed.

Lemma exec_comment_other :
  forall c x,
    c <> Lexer.slash -> c <> Lexer.dash ->
    exec_re Lexer.commentPattern (c :: x) = None.
Proof.
  intros c x H1 H2.
  destruct (exec_re Lexer.commentPattern (c :: x)) as [text|] eqn:H;
    [|reflexivity].
  exfalso. apply exec_re_sound in H. destruct H as (Hl & rest & Heq).
  apply Lang_comment_head in Hl.
  destruct Hl as (c' & d & a' & -> & Hc & _).
  simpl in Heq. injection Heq as -> _. destruct Hc; contradiction.
Qed.

Lemma exec_comment_short :
  forall c rest',
    match rest' with [] => True | d :: _ => d = 32%N end ->
    exec_re Lexer.commentPattern (c :: rest') = None.
Proof.
  intros c rest' Hr.
  destruct (exec_re Lexer.commentPattern (c :: rest')) as [text|] eqn:H;
    [|reflexivity].
  exfalso. apply exec_re_sound in H. destruct H as (Hl & rest & Heq).
  apply Lang_comment_head in Hl.
  destruct Hl as (c' & d & a' & -> & _ & Hd).
  simpl in Heq. injection Heq as _ Heq. subst rest'.
  rewrite Hr in Hd. destruct Hd as [Hd|[Hd|Hd]]; discriminate Hd.
Qed.

Lemma Lang_uuid_head :
  forall a,
    Lang Lexer.uuidPattern a ->
    exists c a', a = c :: a' /\ is_lhex c = true /\ In Lexer.dash a'.
Proof.
  intros a H. unfold Lexer.uuidPattern in H.
  apply Lang_seq_inv in H. destruct H as (g & t & -> & Hg & Ht).
  apply Lang_rep_cls in Hg. destruct Hg as [Hlen Hhex].
  apply Lang_seq_inv in Ht. destruct Ht as (d & t' & -> & Hd & _).
  apply Lang_chr_inv in Hd. subst d.
  destruct g as [|c g]; [discriminate|].
  simpl in Hhex. apply andb_true_iff in Hhex. destruct Hhex as [Hc _].
  exists c, (g ++ [Lexer.dash] ++ t'). split; [reflexivity|]. split; [exact Hc|].
  apply in_or_app. right. left. reflexivity.
Qed.

Lemma exec_uuid_other :
  forall c x, is_lhex c = false -> exec_re Lexer.uuidPattern (c :: x) = None.
Proof.
  intros c x Hc.
  destruct (exec_re Lexer.uuidPattern (c :: x)) as [text|] eqn:H; [|reflexivity].
  exfalso. apply exec_re_sound in H. destruct H as (Hl & rest & Heq).
  apply Lang_uuid_head in Hl. destruct Hl as (c' & a' & -> & Hc' & _).
  simpl in Heq. injection Heq as -> _. congruence.
Qed.

Lemma exec_uuid_word :
  forall v rest',
    forallb is_word v = true ->
    match rest' with [] => True | d :: _ => d = 32%N end ->
    exec_re Lexer.uuidPattern (v ++ rest') = None.
Proof.
  intros v rest' Hv Hr.
  destruct (exec_re Lexer.uuidPattern (v ++ rest')) as [text|] eqn:H;
    [|reflexivity].
  exfalso. apply exec_re_sound in H. destruct H as (Hl & rest & Heq).
  pose proof (Lang_uuid Hl) as Hu. apply andb_true_iff in Hu.
  destruct Hu as [_ Hu].
  apply Lang_uuid_head in Hl. destruct Hl as (c' & a' & Ht & _ & Hdash).
  assert (Hin : In Lexer.dash text) by (subst text; right; exact Hdash).
  rewrite forallb_forall in Hv, Hu.
  apply app_eq_app in Heq. destruct Heq as (l & [[Hv' Hrest]|[Ht' Hrest]]).
  - assert (Hd : is_word Lexer.dash = true); [|discriminate Hd].
    apply Hv. rewrite Hv'. apply in_or_app. left. exact Hin.
  - destruct l as [|d l].
    + assert (Hd : is_word Lexer.dash = true); [|discriminate Hd].
      apply Hv. rewrite Ht', app_nil_r in Hin. exact Hin.
    + rewrite Hrest in Hr. simpl in Hr. subst d.
      assert (H32 : In 32%N text).
      { rewrite Ht'. apply in_or_app. right. left. reflexivity. }
      specialize (Hu _ H32). discriminate Hu.
Qed.

End Rules_fail.

Section Next_stable.

Lemma next_rules :
  forall s,
    Lexer.next s
    = match exec_re Lexer.stringPattern s with
      | Some text => Some (Lexer.mkToken Lexer.string_ text)
      | None =>
      match exec_re Lexer.commentPattern s with
      | Some text => Some (Lexer.mkToken Lexer.comment text)
      | None =>
      match exec_re Lexer.uuidPattern s with
      | Some text => Some (Lexer.mkToken Lexer.uuid text)
      | None =>
      match exec_re (Plus (Cls is_space)) s with
      | Some text => Some (Lexer.mkToken Lexer.whitespace text)
      | None =>
      match exec_re (Cls is_nonword) s with
      | Some text => Some (Lexer.mkToken Lexer.symbol text)
      | None =>
      match exec_re (Plus (Cls is_word)) s with
      | Some text => Some (Lexer.mkToken Lexer.identifierOrValue text)
      | None => None
      end end end end end end.
Proof. reflexivity. Qed.

(** A required token is found again when what follows it is replaced by
    nothing, or by a space and characters that followed it before. *)
Lemma next_stable :
  forall tok rest0 rest',
    Lexer.next (Lexer.value tok ++ rest0) = Some tok ->
    required tok = true ->
    match rest' with [] => True | d :: _ => d = 32%N end ->
    (forall d, In d rest' -> In d rest0 \/ d = 32%N) ->
    Lexer.next (Lexer.value tok ++ rest') = Some tok.
Proof.
  intros [ty v] rest0 rest' H Hreq Hr Hin.
  pose proof (token_not_empty _ H) as Hne.
  cbn [Lexer.value] in *.
  destruct v as [|c v]; [congruence|]. clear Hne.
  rewrite next_rules in H. rewrite next_rules.
  destruct (exec_re Lexer.stringPattern ((c :: v) ++ rest0)) as [t1|] eqn:H1.
  { injection H as <- ->.
    rewrite (@exec_string_stable (c :: v) rest0 rest' H1 Hr). reflexivity. }
  destruct (exec_re Lexer.commentPattern ((c :: v) ++ rest0)) as [t2|] eqn:H2.
  { injection H as <- ->. discriminate Hreq. }
  destruct (exec_re Lexer.uuidPattern ((c :: v) ++ rest0)) as [t3|] eqn:H3.
  { injection H as <- ->.
    pose proof (exec_re_sound _ _ H3) as [Hl _].
    destruct (Lang_uuid_head Hl) as (c' & a' & Heq & Hc & _).
    injection Heq as <- <-.
    simpl app.
    rewrite exec_string_other;
      [|destruct (N.eqb_spec c Lexer.quote) as [->|]; [discriminate Hc|reflexivity]
       |destruct (N.eqb_spec c Lexer.dquote) as [->|]; [discriminate Hc|reflexivity]].
    rewrite exec_comment_other;
      [|intros ->; discriminate Hc|intros ->; discriminate Hc].
    change (c :: v ++ rest') with ((c :: v) ++ rest').
    rewrite (@exec_re_simple Lexer.uuidPattern (c :: v) rest' eq_refl Hl).
    reflexivity. }
  destruct (exec_re (Plus (Cls is_space)) ((c :: v) ++ rest0)) as [t4|] eqn:H4.
  { injection H as <- ->. discriminate Hreq. }
  assert (Hsp : is_space c = false).
  { destruct (is_space c) eqn:Hsp; [|reflexivity]. exfalso.
    revert H4. simpl app. apply exec_re_plus_class. exact Hsp. }
  destruct (exec_re (Cls is_nonword) ((c :: v) ++ rest0)) as [t5|] eqn:H5.
  { injection H as <- ->.
    pose proof (exec_re_sound _ _ H5) as [Hl _].
    apply Lang_cls_inv in Hl. destruct Hl as (c' & Heq & Hc).
    injection Heq as <- ->. simpl app in *.
    rewrite (@exec_string_fewer c rest0 rest' H1 Hin).
    rewrite (@exec_comment_short c rest' Hr).
    rewrite exec_uuid_other.
    2:{ destruct (is_lhex c) eqn:Hh; [|reflexivity].
        apply hex_is_word in Hh. unfold is_nonword in Hc. rewrite Hh in Hc.
        discriminate Hc. }
    rewrite (@exec_re_plus_fails is_space c rest' Hsp).
    change (c :: rest') with ([c] ++ rest').
    rewrite (@exec_re_simple (Cls is_nonword) [c] rest' eq_refl (Lang_cls _ _ Hc)).
    reflexivity. }
  destruct (exec_re (Plus (Cls is_word)) ((c :: v) ++ rest0)) as [t6|] eqn:H6;
    [|discriminate].
  injection H as <- ->.
  pose proof (exec_re_sound _ _ H6) as [Hl _].
  apply Lang_plus_cls in Hl. apply andb_true_iff in Hl. destruct Hl as [_ Hw].
  pose proof Hw as Hw'. simpl in Hw'. apply andb_true_iff in Hw'.
  destruct Hw' as [Hc Hv].
  simpl app.
  rewrite exec_string_other;
    [|destruct (N.eqb_spec c Lexer.quote) as [->|]; [discriminate Hc|reflexivity]
     |destruct (N.eqb_spec c Lexer.dquote) as [->|]; [discriminate Hc|reflexivity]].
  rewrite exec_comment_other;
    [|intros ->; discriminate Hc|intros ->; discriminate Hc].
  change (c :: v ++ rest') with ((c :: v) ++ rest').
  rewrite (@exec_uuid_word (c :: v) rest' Hw Hr).
  simpl app.
  rewrite (@exec_re_plus_fails is_space c (v ++ rest') Hsp).
  rewrite (@exec_re_cls_fails is_nonword c (v ++ rest')
             ltac:(unfold is_nonword; rewrite Hc; reflexivity)).
  change (c :: v ++ rest') with ((c :: v) ++ rest').
  rewrite (@exec_re_plus_run is_word c v rest' Hc Hv).
  - reflexivity.
  - destruct rest' as [|d x]; [exact I|]. subst d. reflexivity.
Qed.

(** Between two tokens of the canonical form the lexer finds one space. *)
Lemma next_space :
  forall d x,
    is_space d = false ->
    Lexer.next (32%N :: d :: x)
    = Some (Lexer.mkToken Lexer.whitespace [32%N]).
Proof.
  intros d x Hd. rewrite next_rules.
  rewrite exec_string_other by reflexivity.
  rewrite exec_comment_other by discriminate.
  rewrite exec_uuid_other by reflexivity.
  change (32%N :: d :: x) with ([32%N] ++ d :: x).
  rewrite (@exec_re_plus_run is_space 32%N [] (d :: x) eq_refl eq_refl Hd).
  reflexivity.
Qed.

Lemma required_head :
  forall tok rest,
    Lexer.next (Lexer.value tok ++ rest) = Some tok ->
    required tok = true ->
    exists c v, Lexer.value tok = c :: v /\ is_space c = false.
Proof.
  intros [ty v] rest H Hreq.
  pose proof (token_not_empty _ H) as Hne.
  cbn [Lexer.value] in *.
  destruct v as [|c v]; [congruence|]. clear Hne.
  exists c, v. split; [reflexivity|].
  rewrite next_rules in H. simpl app in H.
  destruct (exec_re Lexer.stringPattern (c :: v ++ rest)) as [t1|] eqn:H1.
  { destruct (is_space c) eqn:Hsp; [|reflexivity]. exfalso.
    rewrite exec_string_other in H1; [discriminate| |].
    - destruct (N.eqb_spec c Lexer.quote) as [->|]; [discriminate Hsp|reflexivity].
    - destruct (N.eqb_spec c Lexer.dquote) as [->|]; [discriminate Hsp|reflexivity]. }
  destruct (exec_re Lexer.commentPattern (c :: v ++ rest)) as [t2|] eqn:H2.
  { injection H as <- ->. discriminate Hreq. }
  destruct (exec_re Lexer.uuidPattern (c :: v ++ rest)) as [t3|] eqn:H3.
  { destruct (is_space c) eqn:Hsp; [|reflexivity]. exfalso.
    rewrite exec_uuid_other in H3; [discriminate|].
    destruct (is_lhex c) eqn:Hh; [|reflexivity].
    revert Hsp Hh. clear. unfold is_space, is_lhex, in_range. intros Hsp Hh.
    rewrite ?orb_true_iff, ?andb_true_iff, ?N.leb_le, ?N.eqb_eq in Hsp.
    rewrite ?orb_true_iff, ?andb_true_iff, ?N.leb_le, ?N.eqb_eq in Hh.
    lia. }
  destruct (exec_re (Plus (Cls is_space)) (c :: v ++ rest)) as [t4|] eqn:H4.
  { injection H as <- ->. discriminate Hreq. }
  destruct (is_space c) eqn:Hsp; [|reflexivity]. exfalso.
  revert H4. apply exec_re_plus_class. exact Hsp.
Qed.

End Next_stable.

Section Scan_again.

Lemma scan_skip :
  forall a r, Lexer.scan (a ++ r) (length a) = Lexer.scan r 0.
Proof.
  induction a as [|c a IH]; intros r; [reflexivity|].
  simpl. apply IH.
Qed.

Lemma scan_next :
  forall tok rest,
    Lexer.next (Lexer.value tok ++ rest) = Some tok ->
    Lexer.scan (Lexer.value tok ++ rest) 0
    = match Lexer.scan rest 0 with
      | inl e => inl e
      | inr toks => inr (tok :: toks)
      end.
Proof.
  intros tok rest H. pose proof (token_not_empty _ H) as Hne.
  destruct (Lexer.value tok) as [|c a] eqn:Hv; [congruence|].
  simpl app in *.
  change (Lexer.scan (c :: a ++ rest) 0)
    with (match Lexer.next (c :: a ++ rest) with
          | None => inl Lexer.invalid_syntax
          | Some tok =>
              match Lexer.scan (a ++ rest) (length (Lexer.value tok) - 1) with
              | inl e => inl e
              | inr toks => inr (tok :: toks)
              end
          end).
  rewrite H, Hv.
  replace (length (c :: a) - 1) with (length a) by (simpl; lia).
  rewrite scan_skip. reflexivity.
Qed.

Lemma join_chars :
  forall sep l c,
    In c (join sep l) -> In c sep \/ In c (concat l).
Proof.
  intros sep l c. induction l as [|x l IH]; intros H; [destruct H|].
  destruct l as [|y l].
  - right. simpl in *. rewrite app_nil_r. exact H.
  - change (join sep (x :: y :: l)) with (x ++ sep ++ join sep (y :: l)) in H.
    apply in_app_or in H. destruct H as [H|H].
    + right. simpl. apply in_or_app. left. exact H.
    + apply in_app_or in H. destruct H as [H|H]; [left; exact H|].
      destruct (IH H) as [H'|H']; [left; exact H'|].
      right. change (concat (x :: y :: l)) with (x ++ concat (y :: l)).
      apply in_or_app. right. exact H'.
Qed.

(** The required tokens of an input make a chain. *)
Lemma scan_chain :
  forall n s toks,
    length s <= n ->
    Lexer.scan s 0 = inr toks ->
    Chain (filter required toks)
    /\ incl (concat (map Lexer.value (filter required toks))) s.
Proof.
  induction n as [|n IH]; intros s toks Hlen H.
  - destruct s; [|simpl in Hlen; lia]. simpl in H. injection H as <-.
    split; [constructor|]. intros c Hc. destruct Hc.
  - destruct s as [|c s].
    { simpl in H. injection H as <-.
      split; [constructor|]. intros c Hc. destruct Hc. }
    destruct (next_matches c s) as [tok Hn].
    pose proof (token_not_empty _ Hn) as Hne.
    destruct (next_sound _ Hn) as [_ [rest Hrest]].
    rewrite Hrest in H, Hn. rewrite (@scan_next tok rest Hn) in H.
    destruct (Lexer.scan rest 0) as [e|toks'] eqn:Hs; [discriminate|].
    injection H as <-.
    assert (Hlen' : length rest <= n).
    { apply (f_equal (@length N)) in Hrest. rewrite length_app in Hrest.
      simpl in Hrest, Hlen. destruct (Lexer.value tok); [congruence|].
      simpl in Hrest. lia. }
    destruct (IH rest toks' Hlen' Hs) as [Hchain Hincl].
    rewrite Hrest. cbn [filter].
    destruct (required tok) eqn:Hreq.
    + split.
      * apply Chain_cons with (rest0 := rest); assumption.
      * cbn [map concat]. apply incl_app_app; [apply incl_refl|exact Hincl].
    + split; [exact Hchain|]. apply incl_appr. exact Hincl.
Qed.

(** The canonical form of a chain is lexed into the chain again. *)
Lemma chain_again :
  forall toks,
    Chain toks ->
    Lexer.getRequiredTokens (join space (map Lexer.value toks)) = inr toks.
Proof.
  intros toks H. induction H as [|tok toks rest0 Hn Hreq Hincl Hchain IH].
  - reflexivity.
  - unfold Lexer.getRequiredTokens, Lexer.getTokens in *.
    change (fun t : Lexer.Token =>
              negb (Lexer.includes Lexer.optionalTokenTypes (Lexer.type t)))
      with required in *.
    destruct toks as [|tok2 toks2].
    + cbn [map join].
      rewrite <- (app_nil_r (Lexer.value tok)).
      rewrite (@scan_next tok []).
      * simpl. rewrite Hreq. reflexivity.
      * apply (@next_stable tok rest0 [] Hn Hreq I).
        intros d Hd. destruct Hd.
    + change (join space (map Lexer.value (tok :: tok2 :: toks2)))
        with (Lexer.value tok
              ++ 32%N :: join space (map Lexer.value (tok2 :: toks2))).
      set (J := join space (map Lexer.value (tok2 :: toks2))) in *.
      rewrite (@scan_next tok (32%N :: J)).
      * inversion Hchain as [|t ts r2 Hn2 Hreq2 _ _ Heq]. subst t ts.
        destruct (@required_head tok2 r2 Hn2 Hreq2) as (d & v2 & Hv2 & Hd).
        assert (HJ : exists x, J = d :: x).
        { unfold J. cbn [map]. rewrite Hv2.
          destruct (map Lexer.value toks2) as [|y l];
            [exists v2; reflexivity|].
          exists (v2 ++ space ++ join space (y :: l)). reflexivity. }
        destruct HJ as (x & HJ).
        change (32%N :: J)
          with (Lexer.value (Lexer.mkToken Lexer.whitespace [32%N]) ++ J).
        rewrite (@scan_next (Lexer.mkToken Lexer.whitespace [32%N]) J).
        -- destruct (Lexer.scan J 0) as [e|toks'] eqn:Hs; [discriminate IH|].
           injection IH as IH. cbn [filter].
           rewrite Hreq.
           change (required (Lexer.mkToken Lexer.whitespace [32%N])) with false.
           cbv iota. rewrite IH. reflexivity.
        -- cbn [Lexer.value]. rewrite HJ. apply next_space. exact Hd.
      * apply (@next_stable tok rest0 (32%N :: J) Hn Hreq eq_refl).
        intros d [Hd|Hd]; [right; symmetry; exact Hd|].
        unfold J in Hd. apply join_chars in Hd.
        destruct Hd as [[Hd|[]]|Hd]; [right; symmetry; exact Hd|].
        left. apply Hincl. exact Hd.
Qed.

End Scan_again.

(** X19: the canonical form is a fixed point of [canonicalizeCql]: every
    input has a canonical form, and canonicalizing that form again gives it
    back unchanged. *)
Theorem canonicalizeCql_is_idempotent :
  forall cql,
    exists c,
      canonicalizeCql cql = inr c /\ canonicalizeCql c = inr c.
Proof.
  intros cql. destruct (scan_succeeds cql 0) as [toks Hs].
  exists (join space (map Lexer.value (filter required toks))).
  destruct (@scan_chain (length cql) cql toks (le_n _) Hs) as [Hchain _].
  split.
  - unfold canonicalizeCql, Lexer.getRequiredTokens, Lexer.getTokens.
    rewrite Hs. reflexivity.
  - unfold canonicalizeCql. rewrite (@chain_again _ Hchain). reflexivity.
Qed.


(** ** How [start] ends *)

Section Endings.

Variable E : Env.

Lemma run_finishes_with :
  forall T C A (p : Prog A) (s : Process E),
    finishes_with T C p ->
    match fst (run p s) with
    | Thrown e => T e
    | Exited code => C code
    | _ => True
    end.
Proof.
  intros T C A. induction p as [a|e|c| |X o k IH|R ts k IH]; intros s Hp;
    simpl in *; auto.
  - destruct (perform o (machine (background s))) as [x m']. apply IH. apply Hp.
  - destruct (run_all ts s) as [r s1]. apply IH. apply Hp.
Qed.

Lemma run_returns_after :
  forall e A (p : Prog A) (s : Process E) a,
    returns_after e p ->
    fst (run p s) = Returned a ->
    exists ev,
      trace (machine (snd (run p s))) = trace (machine s) ++ ev /\ In e ev.
Proof.
  intros e A. induction p as [a0|e0|c| |X o k IH|R ts k IH]; intros s a Hp Hr;
    simpl in Hp; try contradiction; try discriminate Hr.
  - simpl in *. destruct (await_grows o s) as [ev1 H1].
    destruct (perform o (machine (background s))) as [x m'] eqn:Hperf.
    simpl in H1.
    set (s1 := mkProcess m' (schedule (background s)) (detached (background s)))
      in *.
    destruct Hp as [Hin|Hk].
    + destruct (run_grows (k x) s1) as [ev2 H2].
      exists ((ev1 ++ event_of o) ++ ev2). split.
      * rewrite H2. subst s1. simpl. rewrite H1, !app_assoc. reflexivity.
      * apply in_or_app. left. apply in_or_app. right. exact Hin.
    + destruct (IH x s1 a (Hk x) Hr) as (ev2 & H2 & Hin).
      exists ((ev1 ++ event_of o) ++ ev2). split.
      * rewrite H2. subst s1. simpl. rewrite H1, !app_assoc. reflexivity.
      * apply in_or_app. right. exact Hin.
  - simpl in *. destruct (run_all_grows ts s) as [ev1 H1].
    destruct (run_all ts s) as [r s1]. simpl in H1.
    destruct (IH r s1 a (Hp r) Hr) as (ev2 & H2 & Hin).
    exists (ev1 ++ ev2). split.
    + rewrite H2, H1, app_assoc. reflexivity.
    + apply in_or_app. right. exact Hin.
Qed.

End Endings.

Section Ending_facts.

Variable T : Err -> Prop.
Variable C : option Z -> Prop.

Lemma finishes_with_no_exit :
  forall A (p : Prog A), no_exit p -> finishes_with (fun _ => True) C p.
Proof.
  induction p as [a|e|c| |X o k IH|R ts k IH]; intros Hp; simpl in *; auto.
  contradiction.
Qed.

Lemma finishes_with_pbind :
  forall A B (p : Prog A) (f : A -> Prog B),
    finishes_with T C p -> (forall a, finishes_with T C (f a)) ->
    finishes_with T C (pbind p f).
Proof.
  induction p as [a|e|c| |X o k IH|R ts k IH]; intros f Hp Hf; simpl in *;
    auto.
Qed.

Lemma finishes_with_ptry_catch :
  forall T' A (p : Prog A) (h : Err -> Prog A),
    finishes_with T' C p -> (forall e, finishes_with T C (h e)) ->
    finishes_with T C (ptry_catch p h).
Proof.
  intros T'. induction p as [a|e|c| |X o k IH|R ts k IH]; intros h Hp Hh;
    simpl in *; auto.
Qed.

Lemma finishes_with_lift_try_catch :
  forall A (t : Task A) (h : Err -> Task A),
    (forall e, finishes_with T C (lift (h e))) ->
    finishes_with T C (lift (try_catch t h)).
Proof.
  induction t as [a|e|X o k IH]; intros h Hh; simpl; auto.
Qed.

Lemma finishes_with_lift_bind :
  forall A B (t : Task A) (f : A -> Task B),
    finishes_with T C (lift t) -> (forall a, finishes_with T C (lift (f a))) ->
    finishes_with T C (lift (bind t f)).
Proof.
  induction t as [a|e|X o k IH]; intros f Ht Hf; simpl in *; auto.
Qed.

Lemma finishes_with_release :
  forall client, finishes_with T C (lift (lock.release client)).
Proof.
  intros client. unfold lock.release.
  apply finishes_with_lift_bind.
  - intros x. exact I.
  - intros _. apply finishes_with_lift_try_catch. intros e. exact I.
Qed.

Lemma finishes_with_releaseLockAndExit :
  forall client code,
    C code -> finishes_with T C (Migrator.releaseLockAndExit client code).
Proof.
  intros client code Hc. unfold Migrator.releaseLockAndExit.
  apply finishes_with_pbind; [apply finishes_with_release|].
  intros [|]; simpl; auto.
Qed.

End Ending_facts.

Section Returning.

Variable e : Event.

Lemma returns_after_pbind :
  forall A B (p : Prog A) (f : A -> Prog B),
    (forall a, returns_after e (f a)) -> returns_after e (pbind p f).
Proof.
  induction p as [a|e0|c| |X o k IH|R ts k IH]; intros f Hf; simpl; auto.
Qed.

End Returning.

Lemma returns_after_releaseLockAndExit :
  forall client code,
    returns_after failed_to_release_line
      (Migrator.releaseLockAndExit client code).
Proof.
  intros client code. unfold Migrator.releaseLockAndExit.
  apply returns_after_pbind. intros [|]; simpl.
  - right. intros _. exact I.
  - left. left. reflexivity.
Qed.

(** X20: [start] never rejects. It ends the process with code 1 or with no
    code, or waits for ever for schema agreement, or returns without
    ending the process; and it returns only after the line that the lock
    could not be released. *)
Theorem start_never_throws :
  forall (E : Env) (config : Config) (client : jsstring) (patience : nat)
         (s : Process E),
    let final := run (Migrator.start config client patience) s in
    match fst final with
    | Thrown _ => False
    | Exited code => code = Some 1%Z \/ code = None
    | Returned _ =>
        exists ev,
          trace (machine (snd final)) = trace (machine s) ++ ev
          /\ In failed_to_release_line ev
    | Waiting => True
    end.
Proof.
  intros E config client patience s final.
  assert (H1 : finishes_with (fun _ => False) start_code
                 (Migrator.start config client patience)).
  { unfold Migrator.start.
    apply finishes_with_pbind.
    - apply finishes_with_ptry_catch with (T' := fun _ => True).
      + apply finishes_with_no_exit.
        apply no_exit_pbind; [apply no_exit_lift|]. intros _.
        apply no_exit_pbind; [apply no_exit_lift|]. intros [|]; exact I.
      + intros error. simpl. intros _. left. reflexivity.
    - intros _. apply finishes_with_pbind.
      + apply finishes_with_ptry_catch with (T' := fun _ => True).
        * apply finishes_with_no_exit.
          apply no_exit_pbind; [apply no_exit_lift|]. intros _.
          apply no_exit_pbind; [apply no_exit_lift|]. intros loaded.
          apply no_exit_pbind; [apply no_exit_applyBootstraps|]. intros _.
          unfold Migrator.applyMigrations.
          apply no_exit_pbind; [apply no_exit_lift|]. intros _.
          apply no_exit_applyMigrations_loop.
        * intros error.
          change (forall x : unit,
                     finishes_with (fun _ => False) start_code
                       (Migrator.releaseLockAndExit client (Some 1%Z))).
          intros _. apply finishes_with_releaseLockAndExit. left. reflexivity.
      + intros _. apply finishes_with_releaseLockAndExit. right. reflexivity. }
  assert (H2 : returns_after failed_to_release_line
                 (Migrator.start config client patience)).
  { unfold Migrator.start. apply returns_after_pbind. intros _.
    apply returns_after_pbind. intros _.
    apply returns_after_releaseLockAndExit. }
  pose proof (@run_finishes_with E _ _ _ _ s H1) as H3.
  pose proof (fun a =>
                @run_returns_after E failed_to_release_line unit
                  (Migrator.start config client patience) s a H2) as H4.
  fold final in H3, H4.
  destruct (fst final) as [a|err|code|] eqn:Hf.
  - apply (H4 a eq_refl).
  - exact H3.
  - exact H3.
  - exact I.
Qed.

